(** * mhpenta/app: error context capture and qualified symbol name parsing

    A shallow embedding of [func_name.go] (parseFuncName and its helpers)
    and of [meta_error.go] (MetaError: construction, formatting, the
    pipe-separated record codec, root causes, log attributes), of
    MultiError and of the retry loop that collects its failures in one,
    together with the pieces of the Go standard library they call
    (strings, strconv, path/filepath, encoding/csv, unicode/utf8).

    Conventions.
    - A Go [string] is a sequence of bytes: [gostring := list ascii].
      String literals are read through the coercion [str].
    - A Go [int] index is a [Z]; [-1] is "not found".
    - A run-time panic (index out of range, slice bounds out of range,
      nil dereference) is the [Panic] outcome of the [result] monad. *)

From Stdlib Require Import List String Ascii ZArith NArith Lia Bool Arith.
Import ListNotations.

Open Scope string_scope.
Open Scope list_scope.
Open Scope Z_scope.

(** ** Go strings as byte sequences *)

Definition gostring := list ascii.

Definition str (s : string) : gostring := list_ascii_of_string s.
Coercion str : string >-> gostring.

Definition byte_eqb (a b : ascii) : bool := Ascii.eqb a b.

Fixpoint gostring_eqb (a b : gostring) : bool :=
  match a, b with
  | [], [] => true
  | x :: a', y :: b' => byte_eqb x y && gostring_eqb a' b'
  | _, _ => false
  end.

Definition len (s : gostring) : Z := Z.of_nat (List.length s).

(** The numeric value of a byte, for range tests such as [ch < '0']. *)
Definition byteval (c : ascii) : Z := Z.of_N (N_of_ascii c).

(** ** Panics *)

Inductive result (A : Type) : Type :=
| Ok (a : A)
| Panic (msg : string).
Arguments Ok {A} a.
Arguments Panic {A} msg.

Definition bind {A B} (m : result A) (k : A -> result B) : result B :=
  match m with
  | Ok a => k a
  | Panic msg => Panic msg
  end.

Notation "x <- m ;; k" := (bind m (fun x => k))
  (at level 61, m at next level, right associativity).

Definition is_ok {A} (r : result A) : bool :=
  match r with Ok _ => true | Panic _ => false end.

(** ** Indexing and slicing, with Go's bounds checks *)

(** [s[i]] *)
Definition at_ (s : gostring) (i : Z) : result ascii :=
  if (0 <=? i) && (i <? len s)
  then match nth_error s (Z.to_nat i) with
       | Some c => Ok c
       | None => Panic "index out of range"
       end
  else Panic "index out of range".

(** [s[lo:hi]] *)
Definition slice (s : gostring) (lo hi : Z) : result gostring :=
  if (0 <=? lo) && (lo <=? hi) && (hi <=? len s)
  then Ok (firstn (Z.to_nat (hi - lo)) (skipn (Z.to_nat lo) s))
  else Panic "slice bounds out of range".

(** [s[lo:]] *)
Definition slice_from (s : gostring) (lo : Z) : result gostring :=
  slice s lo (len s).

(** [s[:hi]] *)
Definition slice_to (s : gostring) (hi : Z) : result gostring :=
  slice s 0 hi.

(** ** Package strings *)

Module strings.

Fixpoint HasPrefix (s prefix : gostring) : bool :=
  match prefix, s with
  | [], _ => true
  | p :: prefix', c :: s' => byte_eqb c p && HasPrefix s' prefix'
  | _ :: _, [] => false
  end.

(** [indexFrom s sep i]: the least [j >= i] such that [sep] occurs in
    the original string at [j], where [s] is the suffix starting at [i]. *)
Fixpoint indexFrom (s sep : gostring) (i : Z) : Z :=
  if HasPrefix s sep then i
  else match s with
       | [] => -1
       | _ :: s' => indexFrom s' sep (i + 1)
       end.

Definition Index (s substr : gostring) : Z := indexFrom s substr 0.

(** [lastIndexFrom s sep i best]: the greatest occurrence at or after
    [i], or [best] when there is none. *)
Fixpoint lastIndexFrom (s sep : gostring) (i best : Z) : Z :=
  let best' := if HasPrefix s sep then i else best in
  match s with
  | [] => best'
  | _ :: s' => lastIndexFrom s' sep (i + 1) best'
  end.

Definition LastIndex (s substr : gostring) : Z :=
  lastIndexFrom s substr 0 (-1).

Definition IndexByte (s : gostring) (c : ascii) : Z := Index s [c].

Definition Contains (s substr : gostring) : bool := 0 <=? Index s substr.

Definition HasSuffix (s suffix : gostring) : bool :=
  (len suffix <=? len s)
  && gostring_eqb (skipn (List.length s - List.length suffix) s) suffix.

Definition TrimSuffix (s suffix : gostring) : gostring :=
  if HasSuffix s suffix
  then firstn (List.length s - List.length suffix) s
  else s.

(** [Split s sep] for a non-empty separator: the pieces between the
    occurrences of [sep], scanned left to right ([genSplit] with
    [n = -1]).  [cur] holds the piece being read, reversed. *)
Fixpoint splitLoop (fuel : nat) (s sep cur : gostring) : list gostring :=
  match fuel with
  | O => [rev cur ++ s]
  | S fuel' =>
      match s with
      | [] => [rev cur]
      | c :: s' =>
          if HasPrefix s sep
          then rev cur :: splitLoop fuel' (skipn (List.length sep) s) sep []
          else splitLoop fuel' s' sep (c :: cur)
      end
  end.

Definition Split (s sep : gostring) : list gostring :=
  splitLoop (S (List.length s)) s sep [].

End strings.

(** ** func_name.go *)

Module FuncName.
Import strings.

(** The seven named results of [parseFuncName].  A bare [return]
    hands back their current values; they start at the zero values. *)
Record Parsed : Type := mkParsed {
  pkgPath : gostring;
  qualifier : gostring;
  recvPtr : bool;
  typeGeneric : gostring;
  funcGeneric : gostring;
  funcName : gostring;
  notice : gostring
}.

Definition zero : Parsed := mkParsed [] [] false [] [] [] [].

Definition set_pkgPath (v : gostring) (r : Parsed) : Parsed :=
  mkParsed v (qualifier r) (recvPtr r) (typeGeneric r) (funcGeneric r)
           (funcName r) (notice r).
Definition set_qualifier (v : gostring) (r : Parsed) : Parsed :=
  mkParsed (pkgPath r) v (recvPtr r) (typeGeneric r) (funcGeneric r)
           (funcName r) (notice r).
Definition set_recvPtr (v : bool) (r : Parsed) : Parsed :=
  mkParsed (pkgPath r) (qualifier r) v (typeGeneric r) (funcGeneric r)
           (funcName r) (notice r).
Definition set_typeGeneric (v : gostring) (r : Parsed) : Parsed :=
  mkParsed (pkgPath r) (qualifier r) (recvPtr r) v (funcGeneric r)
           (funcName r) (notice r).
Definition set_funcGeneric (v : gostring) (r : Parsed) : Parsed :=
  mkParsed (pkgPath r) (qualifier r) (recvPtr r) (typeGeneric r) v
           (funcName r) (notice r).
Definition set_funcName (v : gostring) (r : Parsed) : Parsed :=
  mkParsed (pkgPath r) (qualifier r) (recvPtr r) (typeGeneric r)
           (funcGeneric r) v (notice r).
Definition set_notice (v : gostring) (r : Parsed) : Parsed :=
  mkParsed (pkgPath r) (qualifier r) (recvPtr r) (typeGeneric r)
           (funcGeneric r) (funcName r) v.

Definition isLetter (c : ascii) : bool :=
  ((byteval "a" <=? byteval c) && (byteval c <=? byteval "z"))
  || ((byteval "A" <=? byteval c) && (byteval c <=? byteval "Z")).

Definition isLetterDigitOrHyphen (c : ascii) : bool :=
  isLetter c
  || ((byteval "0" <=? byteval c) && (byteval c <=? byteval "9"))
  || byte_eqb c "-".

(** The body of the loop over [parts] in [isValidDomain]. *)
Definition validPart (part : gostring) : result bool :=
  if len part =? 0 then Ok false
  else if negb (forallb isLetterDigitOrHyphen part) then Ok false
  else
    first <- at_ part 0 ;;
    last <- at_ part (len part - 1) ;;
    Ok (negb (byte_eqb first "-" || byte_eqb last "-")).

Fixpoint validParts (parts : list gostring) : result bool :=
  match parts with
  | [] => Ok true
  | part :: rest =>
      ok <- validPart part ;;
      if ok then validParts rest else Ok false
  end.

Definition isValidDomain (domain : gostring) : result bool :=
  let parts := Split domain "." in
  if Z.of_nat (List.length parts) <? 2 then Ok false
  else validParts parts.

Definition isGoPackageURLPattern (s : gostring) : result bool :=
  if len s <? 4 then Ok false
  else
    let slashPos := Index s "/" in
    if slashPos =? -1 then Ok false
    else
      host <- slice_to s slashPos ;;
      valid <- isValidDomain host ;;
      Ok valid.

(** [for _, ch := range numberPart] walks runes; a byte of a
    multi-byte or invalid sequence decodes to a rune above ['9'], so the
    test fails on the first non-digit byte either way. *)
Definition isDigitByte (c : ascii) : bool :=
  negb ((byteval c <? byteval "0") || (byteval "9" <? byteval c)).

Definition isAnonymousFuncName (funcName : gostring) : result bool :=
  if Contains funcName ".func" then Ok true
  else if negb (HasPrefix funcName "func") then Ok false
  else
    numberPart <- slice_from funcName 4 ;;
    if gostring_eqb numberPart [] then Ok false
    else Ok (forallb isDigitByte numberPart).

(** Lines 153-159: the pointer marker. *)
Definition finish (recvPtrStr : gostring) (r : Parsed) : result Parsed :=
  let r := set_qualifier recvPtrStr r in
  if HasPrefix recvPtrStr "*" then
    q <- slice_from recvPtrStr 1 ;;
    Ok (set_qualifier q (set_recvPtr true r))
  else Ok r.

(** Lines 115-151: the package path / receiver split when the receiver
    was not parenthesized. *)
Definition splitPkgRecv (sepIdx : Z) (pkgRecv : gostring) (r : Parsed)
  : result Parsed :=
  let recvPtrStr := pkgRecv in
  let dotIdx := LastIndex pkgRecv "." in
  if dotIdx <? 0 then Ok (set_pkgPath recvPtrStr r)
  else
    let sepIdx' :=
      if dotIdx <? sepIdx
      then if Contains (typeGeneric r) "/"
           then LastIndex pkgRecv "/" else sepIdx
      else sepIdx in
    if (dotIdx <? sepIdx) && (dotIdx <? sepIdx')
    then Ok (set_pkgPath recvPtrStr r)
    else
      pkg <- slice_to pkgRecv dotIdx ;;
      recvPtrStr <- slice_from pkgRecv (dotIdx + 1) ;;
      let r := set_pkgPath pkg r in
      if Contains pkg "." then
        let parts := Split pkg "." in
        if Z.of_nat (List.length parts) =? 2 then
          isURL <- isGoPackageURLPattern pkg ;;
          if negb isURL then
            let callingFunc := nth 1%nat parts [] in
            let r := set_pkgPath (TrimSuffix pkg (str "." ++ callingFunc)) r in
            let r := set_notice
                       (notice r ++ str "Notes: Calling function on package: "
                          ++ callingFunc ++ [ascii_of_nat 10]) r in
            finish callingFunc r
          else finish recvPtrStr r
        else if Z.of_nat (List.length parts) =? 1 then
          finish recvPtrStr (set_pkgPath (nth 0%nat parts []) r)
        else finish recvPtrStr r
      else finish recvPtrStr r.

(** Lines 101-111: the receiver's type arguments. *)
Definition parseRecvGeneric (sepIdx : Z) (hasParen : bool)
    (pkgRecvGeneric : gostring) (r : Parsed) : result Parsed :=
  let continue (pkgRecv : gostring) (r : Parsed) :=
    if negb hasParen then splitPkgRecv sepIdx pkgRecv r
    else finish pkgRecv r in
  if HasSuffix pkgRecvGeneric "]" then
    let leftIdx := LastIndex pkgRecvGeneric "[" in
    if leftIdx <? 0 then Ok r
    else
      tg <- slice pkgRecvGeneric (leftIdx + 1) (len pkgRecvGeneric - 1) ;;
      pkgRecv <- slice_to pkgRecvGeneric leftIdx ;;
      continue pkgRecv (set_typeGeneric tg r)
  else continue pkgRecvGeneric r.

(** Lines 63-99: the parenthesized receiver. *)
Definition parseType (sepIdx funcNameDot : Z)
    (pkgRecvFuncNoGeneric : gostring) (r : Parsed) : result Parsed :=
  pkgRecvGenericParen <- slice_to pkgRecvFuncNoGeneric funcNameDot ;;
  if HasSuffix pkgRecvGenericParen ")" then
    let leftIdx := LastIndex pkgRecvGenericParen "(" in
    if leftIdx <? 0 then Ok r
    else
      pkgRecvGeneric <-
        slice pkgRecvGenericParen (leftIdx + 1) (len pkgRecvGenericParen - 1) ;;
      before <- at_ pkgRecvGenericParen (leftIdx - 1) ;;
      if negb (byte_eqb before ".") then Ok r
      else
        pkg <- slice_to pkgRecvGenericParen (leftIdx - 1) ;;
        let r := set_pkgPath pkg r in
        r <- (if Contains pkg "/" then
                let lastIndex := LastIndex pkg "/" in
                lastPkgPath <- slice_from pkg (lastIndex + 1) ;;
                if Contains lastPkgPath "." then
                  let parts := Split pkg "." in
                  if Z.of_nat (List.length parts) =? 2 then
                    let callingFunc := nth 1%nat parts [] in
                    Ok (set_notice
                          (notice r
                             ++ str ",qualifier (struct or pkg level func) "
                             ++ callingFunc ++ [ascii_of_nat 10])
                          (set_pkgPath
                             (TrimSuffix pkg (str "." ++ callingFunc)) r))
                  else if Z.of_nat (List.length parts) =? 1 then
                    Ok (set_pkgPath (nth 0%nat parts []) r)
                  else Ok r
                else Ok r
              else Ok r) ;;
        parseRecvGeneric sepIdx true pkgRecvGeneric r
  else parseRecvGeneric sepIdx false pkgRecvGenericParen r.

(** Lines 42-61: the function name and the anonymous-closure case. *)
Definition parseName (sepIdx : Z) (pkgRecvFuncNoGeneric : gostring)
    (r : Parsed) : result Parsed :=
  let funcNameDot := LastIndex pkgRecvFuncNoGeneric "." in
  if funcNameDot <? 0 then Ok (set_funcName pkgRecvFuncNoGeneric r)
  else
    fname <- slice_from pkgRecvFuncNoGeneric (funcNameDot + 1) ;;
    let r := set_funcName fname r in
    anon <- isAnonymousFuncName fname ;;
    if anon then
      head <- slice_to pkgRecvFuncNoGeneric funcNameDot ;;
      let funcNameDot := LastIndex head "." in
      if funcNameDot <? 0 then Ok (set_funcName pkgRecvFuncNoGeneric r)
      else
        fname <- slice_from pkgRecvFuncNoGeneric (funcNameDot + 1) ;;
        let idx := LastIndex fname ".func" in
        fname <- (if negb (idx =? -1) then slice_to fname idx
                  else Ok fname) ;;
        let r := set_notice "anonymous function" (set_funcName fname r) in
        parseType sepIdx funcNameDot pkgRecvFuncNoGeneric r
    else parseType sepIdx funcNameDot pkgRecvFuncNoGeneric r.

(** Lines 27-40: the function's own type arguments. *)
Definition parseFuncName (fullName : gostring) : result Parsed :=
  let sepIdx := LastIndex fullName "/" in
  let pkgRecvFuncNoGeneric := fullName in
  if HasSuffix pkgRecvFuncNoGeneric "]" then
    let leftIdx := LastIndex pkgRecvFuncNoGeneric "[" in
    if leftIdx <? 0 then Ok zero
    else
      fg <- slice pkgRecvFuncNoGeneric (leftIdx + 1)
                  (len pkgRecvFuncNoGeneric - 1) ;;
      rest <- slice_to pkgRecvFuncNoGeneric leftIdx ;;
      parseName sepIdx rest (set_funcGeneric fg zero)
  else parseName sepIdx pkgRecvFuncNoGeneric zero.

End FuncName.

(** ** Package strconv *)

Module strconv.

Definition maxInt : Z := 2 ^ 63 - 1.
Definition minInt : Z := - 2 ^ 63.

(** The values of Go's 64-bit [int]. *)
Definition is_int (n : Z) : Prop := minInt <= n <= maxInt.

Definition digit (d : Z) : ascii := ascii_of_N (Z.to_N (48 + d)).

(** [formatBits] in base 10: the digits are produced from the least
    significant one and pushed in front of the buffer. *)
Fixpoint formatLoop (fuel : nat) (u : Z) (buf : gostring) : gostring :=
  match fuel with
  | O => buf
  | S fuel' =>
      if u <? 10 then digit u :: buf
      else formatLoop fuel' (u / 10) (digit (u mod 10) :: buf)
  end.

Definition formatUint (u : Z) : gostring :=
  formatLoop (S (Z.to_nat (Z.log2 u))) u [].

Definition Itoa (i : Z) : gostring :=
  if i <? 0 then "-"%char :: formatUint (- i) else formatUint i.

Definition isDigit (c : ascii) : bool :=
  (byteval "0" <=? byteval c) && (byteval c <=? byteval "9").

Fixpoint parseDigits (s : gostring) (acc : Z) : option Z :=
  match s with
  | [] => Some acc
  | c :: s' =>
      if isDigit c
      then parseDigits s' (acc * 10 + (byteval c - byteval "0"))
      else None
  end.

(** [Atoi]: an optional sign, then one or more decimal digits, with a
    value that fits [int].  [None] stands for the [*NumError] (syntax or
    range) that every other input gets. *)
Definition Atoi (s : gostring) : option Z :=
  match s with
  | [] => None
  | c :: s' =>
      let neg := byte_eqb c "-" in
      let body := if byte_eqb c "-" || byte_eqb c "+" then s' else s in
      match body with
      | [] => None
      | _ =>
          match parseDigits body 0 with
          | None => None
          | Some un =>
              let n := if neg then - un else un in
              if (minInt <=? n) && (n <=? maxInt) then Some n else None
          end
      end
  end.

End strconv.

(** ** Package path/filepath (Unix: the separator is ['/'], no volume) *)

Module filepath.

Definition IsPathSeparator (c : ascii) : bool := byte_eqb c "/".

(** [for len(path) > 0 && IsPathSeparator(path[len(path)-1])]: drop the
    trailing separators; [rpath] is the path reversed. *)
Fixpoint stripLeadingSeps (rpath : gostring) : gostring :=
  match rpath with
  | c :: rest => if IsPathSeparator c then stripLeadingSeps rest else rpath
  | [] => []
  end.

(** [for i >= 0 && !IsPathSeparator(path[i]) { i-- }] followed by
    [path = path[i+1:]]: the bytes after the last separator. *)
Fixpoint lastElement (rpath : gostring) : gostring :=
  match rpath with
  | c :: rest => if IsPathSeparator c then [] else c :: lastElement rest
  | [] => []
  end.

Definition Base (path : gostring) : gostring :=
  match path with
  | [] => str "."
  | _ =>
      let path := rev (stripLeadingSeps (rev path)) in
      let path := rev (lastElement (rev path)) in
      match path with
      | [] => str "/"
      | _ => path
      end
  end.

End filepath.

(** ** Packages unicode/utf8 and unicode *)

Definition rune := Z.

(** Total indexing and slicing for the library code below, whose indices
    are in range by construction. *)
Definition byteAt (s : gostring) (i : Z) : Z :=
  byteval (nth (Z.to_nat i) s zero).

Definition sub (s : gostring) (lo hi : Z) : gostring :=
  firstn (Z.to_nat (hi - lo)) (skipn (Z.to_nat lo) s).

Module utf8.

Definition RuneError : rune := 65533.
Definition RuneSelf : Z := 128.
Definition UTFMax : Z := 4.

(** The [first] table with its [acceptRanges]: for a leading byte, the
    length of the sequence and the range allowed for the second byte;
    [None] for the bytes that start no multi-byte sequence. *)
Definition lead (b : Z) : option (Z * Z * Z) :=
  if (194 <=? b) && (b <=? 223) then Some (2, 128, 191)
  else if b =? 224 then Some (3, 160, 191)
  else if (225 <=? b) && (b <=? 236) then Some (3, 128, 191)
  else if b =? 237 then Some (3, 128, 159)
  else if (238 <=? b) && (b <=? 239) then Some (3, 128, 191)
  else if b =? 240 then Some (4, 144, 191)
  else if (241 <=? b) && (b <=? 243) then Some (4, 128, 191)
  else if b =? 244 then Some (4, 128, 143)
  else None.

Definition isCont (b : Z) : bool := (128 <=? b) && (b <=? 191).

Definition DecodeRuneInString (s : gostring) : rune * Z :=
  match s with
  | [] => (RuneError, 0)
  | c0 :: _ =>
      let s0 := byteval c0 in
      if s0 <? RuneSelf then (s0, 1)
      else
        match lead s0 with
        | None => (RuneError, 1)
        | Some (sz, lo, hi) =>
            if len s <? sz then (RuneError, 1)
            else
              let s1 := byteAt s 1 in
              if (s1 <? lo) || (hi <? s1) then (RuneError, 1)
              else if sz <=? 2
              then (Z.lor (Z.shiftl (Z.land s0 31) 6) (Z.land s1 63), 2)
              else
                let s2 := byteAt s 2 in
                if negb (isCont s2) then (RuneError, 1)
                else if sz <=? 3
                then (Z.lor (Z.shiftl (Z.land s0 15) 12)
                        (Z.lor (Z.shiftl (Z.land s1 63) 6) (Z.land s2 63)),
                      3)
                else
                  let s3 := byteAt s 3 in
                  if negb (isCont s3) then (RuneError, 1)
                  else (Z.lor (Z.shiftl (Z.land s0 7) 18)
                          (Z.lor (Z.shiftl (Z.land s1 63) 12)
                             (Z.lor (Z.shiftl (Z.land s2 63) 6)
                                (Z.land s3 63))),
                        4)
        end
  end.

Definition RuneStart (b : Z) : bool := negb (isCont b).

(** [for start--; start >= lim; start-- { if RuneStart(s[start]) break }] *)
Fixpoint backUp (fuel : nat) (s : gostring) (start lim : Z) : Z :=
  match fuel with
  | O => start
  | S fuel' =>
      if start <? lim then start
      else if RuneStart (byteAt s start) then start
      else backUp fuel' s (start - 1) lim
  end.

Definition DecodeLastRuneInString (s : gostring) : rune * Z :=
  let end_ := len s in
  if end_ =? 0 then (RuneError, 0)
  else
    let start := end_ - 1 in
    let r := byteAt s start in
    if r <? RuneSelf then (r, 1)
    else
      let lim := Z.max 0 (end_ - UTFMax) in
      let start := backUp 4 s (start - 1) lim in
      let start := Z.max 0 start in
      let '(r, size) := DecodeRuneInString (sub s start end_) in
      if negb (start + size =? end_) then (RuneError, 1)
      else (r, size).

End utf8.

Module unicode.

Definition MaxLatin1 : Z := 255.

Definition IsSpace (r : rune) : bool :=
  if (0 <=? r) && (r <=? MaxLatin1) then
    (r =? 9) || (r =? 10) || (r =? 11) || (r =? 12) || (r =? 13)
    || (r =? 32) || (r =? 133) || (r =? 160)
  else
    (r =? 5760) || ((8192 <=? r) && (r <=? 8202))
    || (r =? 8232) || (r =? 8233) || (r =? 8239) || (r =? 8287)
    || (r =? 12288).

End unicode.

(** ** More of package strings: TrimSpace *)

Module trim.

(** The table [asciiSpace]. *)
Definition asciiSpace (c : Z) : bool :=
  (c =? 9) || (c =? 10) || (c =? 11) || (c =? 12) || (c =? 13) || (c =? 32).

(** [indexFunc s f truth]: ranging over the runes of [s]. *)
Fixpoint indexFuncFrom (fuel : nat) (s : gostring) (i : Z)
    (f : rune -> bool) (truth : bool) : Z :=
  match fuel with
  | O => -1
  | S fuel' =>
      if len s <=? i then -1
      else
        let '(r, size) := utf8.DecodeRuneInString (sub s i (len s)) in
        if Bool.eqb (f r) truth then i
        else indexFuncFrom fuel' s (i + size) f truth
  end.

Definition indexFunc (s : gostring) (f : rune -> bool) (truth : bool) : Z :=
  indexFuncFrom (S (List.length s)) s 0 f truth.

Fixpoint lastIndexFuncFrom (fuel : nat) (s : gostring) (i : Z)
    (f : rune -> bool) (truth : bool) : Z :=
  match fuel with
  | O => -1
  | S fuel' =>
      if i <=? 0 then -1
      else
        let '(r, size) := utf8.DecodeLastRuneInString (sub s 0 i) in
        let i := i - size in
        if Bool.eqb (f r) truth then i
        else lastIndexFuncFrom fuel' s i f truth
  end.

Definition lastIndexFunc (s : gostring) (f : rune -> bool) (truth : bool)
  : Z :=
  lastIndexFuncFrom (S (List.length s)) s (len s) f truth.

Definition TrimLeftFunc (s : gostring) (f : rune -> bool) : gostring :=
  let i := indexFunc s f false in
  if i =? -1 then [] else sub s i (len s).

Definition TrimRightFunc (s : gostring) (f : rune -> bool) : gostring :=
  let i := lastIndexFunc s f false in
  let i :=
    if (0 <=? i) && (utf8.RuneSelf <=? byteAt s i)
    then i + snd (utf8.DecodeRuneInString (sub s i (len s)))
    else i + 1 in
  sub s 0 i.

Definition TrimFunc (s : gostring) (f : rune -> bool) : gostring :=
  TrimRightFunc (TrimLeftFunc s f) f.

(** First loop of [TrimSpace]: the index where it stops, and whether a
    non-ASCII byte there sends the rest to [TrimFunc]. *)
Fixpoint scanLeft (s : gostring) (start : Z) : Z * bool :=
  match s with
  | [] => (start, false)
  | c :: s' =>
      if utf8.RuneSelf <=? byteval c then (start, true)
      else if asciiSpace (byteval c) then scanLeft s' (start + 1)
      else (start, false)
  end.

(** Second loop: from the end down to [start]; [rs] is [s[start:]]
    reversed and [stop] the index after its first byte. *)
Fixpoint scanRight (rs : gostring) (stop : Z) : Z * bool :=
  match rs with
  | [] => (stop, false)
  | c :: rs' =>
      if utf8.RuneSelf <=? byteval c then (stop, true)
      else if asciiSpace (byteval c) then scanRight rs' (stop - 1)
      else (stop, false)
  end.

Definition TrimSpace (s : gostring) : gostring :=
  let '(start, nonASCII) := scanLeft s 0 in
  if nonASCII then TrimFunc (sub s start (len s)) unicode.IsSpace
  else
    let '(stop, nonASCII) := scanRight (rev (sub s start (len s))) (len s) in
    if nonASCII then TrimRightFunc (sub s start stop) unicode.IsSpace
    else sub s start stop.

End trim.

(** ** Package encoding/csv, as configured by meta_error.go

    Writer: [Comma = '|'], [UseCRLF = false].
    Reader: [Comma = '|'], [Comment = 0], [LazyQuotes = false],
    [TrimLeadingSpace = false], reading from a [strings.Reader]. *)

Module csv.

Definition Comma : ascii := "|".
Definition quote : ascii := ascii_of_nat 34.
Definition CR : ascii := ascii_of_nat 13.
Definition LF : ascii := ascii_of_nat 10.

(** *** Writer *)

Definition isSpecial (c : ascii) : bool :=
  byte_eqb c LF || byte_eqb c CR || byte_eqb c quote || byte_eqb c Comma.

Definition fieldNeedsQuotes (field : gostring) : bool :=
  if gostring_eqb field [] then false
  else if gostring_eqb field (str "\.") then true
  else if existsb isSpecial field then true
  else unicode.IsSpace (fst (utf8.DecodeRuneInString field)).

(** [strings.IndexAny] for the three bytes quote, CR and LF. *)
Fixpoint indexSpecial (field : gostring) (i : Z) : Z :=
  match field with
  | [] => -1
  | c :: field' =>
      if byte_eqb c quote || byte_eqb c CR || byte_eqb c LF then i
      else indexSpecial field' (i + 1)
  end.

(** The loop [for len(field) > 0] of [Write] on a field that needs
    quotes; returns the bytes written between the two quotes. *)
Fixpoint writeQuotedLoop (fuel : nat) (field : gostring) : gostring :=
  match fuel with
  | O => []
  | S fuel' =>
      if len field <=? 0 then []
      else
        let i := indexSpecial field 0 in
        let i := if i <? 0 then len field else i in
        let verbatim := sub field 0 i in
        let field := sub field i (len field) in
        match field with
        | [] => verbatim
        | c :: field' =>
            let enc :=
              if byte_eqb c quote then [quote; quote]
              else if byte_eqb c CR then [CR]
              else if byte_eqb c LF then [LF]
              else [] in
            verbatim ++ enc ++ writeQuotedLoop fuel' field'
        end
  end.

Definition writeField (field : gostring) : gostring :=
  if negb (fieldNeedsQuotes field) then field
  else quote :: writeQuotedLoop (S (List.length field)) field ++ [quote].

Fixpoint writeFields (n : nat) (record : list gostring) : gostring :=
  match record with
  | [] => []
  | field :: rest =>
      (match n with O => [] | S _ => [Comma] end)
        ++ writeField field ++ writeFields (S n) rest
  end.

(** [w.Write(record); w.Flush()]: the bytes that reach the builder. *)
Definition Write (record : list gostring) : gostring :=
  writeFields 0 record ++ [LF].

(** *** Reader *)

Inductive error : Type :=
| EOF             (* io.EOF *)
| ErrBareQuote
| ErrQuote
| ErrFieldCount.

Definition lengthNL (b : gostring) : Z :=
  if (0 <? len b) && (byteAt b (len b - 1) =? byteval LF) then 1 else 0.

Definition nextRune (b : gostring) : rune :=
  fst (utf8.DecodeRuneInString b).

(** [readLine]: the next line of the unread [input], with its error
    ([true] for [io.EOF]) and the input left. *)
Definition readLine (input : gostring) : gostring * bool * gostring :=
  let i := strings.IndexByte input LF in
  let '(line, eof, rest) :=
    if 0 <=? i
    then (sub input 0 (i + 1), false, sub input (i + 1) (len input))
    else (input, true, []) in
  let readSize := len line in
  let '(line, eof) :=
    if (0 <? readSize) && eof
    then (if byteAt line (readSize - 1) =? byteval CR
          then sub line 0 (readSize - 1) else line, false)
    else (line, eof) in
  let n := len line in
  let line :=
    if (2 <=? n) && (byteAt line (n - 2) =? byteval CR)
       && (byteAt line (n - 1) =? byteval LF)
    then sub line 0 (n - 2) ++ [LF]
    else line in
  (line, eof, rest).

(** The first loop of [readRecord]: skip the empty lines. *)
Fixpoint firstLine (fuel : nat) (input : gostring)
  : option (gostring * bool * gostring) :=
  match fuel with
  | O => None
  | S fuel' =>
      let '(line, eof, rest) := readLine input in
      if negb eof && (len line =? lengthNL line)
      then firstLine fuel' rest
      else Some (line, eof, rest)
  end.

(** What the labelled loop [parseField] leaves behind: the fields read,
    the parse error if any, and [errRead]. *)
Definition parsed : Type := list gostring * option error * bool.

(** [parseField fuel line eof input fields]: the loop at a field
    start.  [quotedField ... cur]: the inner loop of a quoted field,
    [cur] being the bytes of the field appended so far. *)
Fixpoint parseField (fuel : nat) (line : gostring) (eof : bool)
    (input : gostring) (fields : list gostring) {struct fuel}
  : option parsed :=
  match fuel with
  | O => None
  | S fuel' =>
      if (len line =? 0) || negb (byteAt line 0 =? byteval quote) then
        (* Non-quoted string field *)
        let i := strings.IndexByte line Comma in
        let field :=
          if 0 <=? i then sub line 0 i
          else sub line 0 (len line - lengthNL line) in
        let j := strings.IndexByte field quote in
        if 0 <=? j then Some (fields, Some ErrBareQuote, eof)
        else
          let fields := fields ++ [field] in
          if 0 <=? i
          then parseField fuel' (sub line (i + 1) (len line)) eof input fields
          else Some (fields, None, eof)
      else
        (* Quoted string field *)
        quotedField fuel' (sub line 1 (len line)) eof input fields []
  end
with quotedField (fuel : nat) (line : gostring) (eof : bool)
    (input : gostring) (fields : list gostring) (cur : gostring)
    {struct fuel} : option parsed :=
  match fuel with
  | O => None
  | S fuel' =>
      let i := strings.IndexByte line quote in
      if 0 <=? i then
        (* Hit next quote. *)
        let cur := cur ++ sub line 0 i in
        let line := sub line (i + 1) (len line) in
        let rn := nextRune line in
        if rn =? byteval quote then
          quotedField fuel' (sub line 1 (len line)) eof input fields
                      (cur ++ [quote])
        else if rn =? byteval Comma then
          parseField fuel' (sub line 1 (len line)) eof input
                     (fields ++ [cur])
        else if lengthNL line =? len line then
          Some (fields ++ [cur], None, eof)
        else Some (fields, Some ErrQuote, eof)
      else if 0 <? len line then
        (* Hit end of line (copy all data so far). *)
        let cur := cur ++ line in
        if eof then Some (fields, None, eof)
        else
          let '(line, eof, input) := readLine input in
          quotedField fuel' line false input fields cur
      else
        (* Abrupt end of file. *)
        if negb eof then Some (fields, Some ErrQuote, eof)
        else Some (fields ++ [cur], None, eof)
  end.

(** [readRecord] with [FieldsPerRecord = n > 0]; the fuel bounds the
    number of loop iterations. *)
Definition readRecord (fuel : nat) (n : Z) (input : gostring)
  : option (list gostring * option error) :=
  match firstLine fuel input with
  | None => None
  | Some (line, eof, rest) =>
      if eof then Some ([], Some EOF)
      else
        match parseField fuel line eof rest [] with
        | None => None
        | Some (dst, err, errRead) =>
            let err :=
              match err with
              | None => if errRead then Some EOF else None
              | Some _ => err
              end in
            let err :=
              match err with
              | None =>
                  if negb (Z.of_nat (List.length dst) =? n)
                  then Some ErrFieldCount else None
              | Some _ => err
              end in
            Some (dst, err)
        end
  end.

Definition fuelFor (input : gostring) : nat := S (S (List.length input)).

End csv.

(** ** What meta_error.go takes from the Go runtime

    The stack introspection primitives are parameters of the embedding:
    an [Env] fixes what they answer at the call site being modelled. *)

Module runtime.

Definition uintptr := Z.

Record Frame : Type := mkFrame {
  Function : gostring;
  File : gostring;
  Line : Z
}.

Definition zeroFrame : Frame := mkFrame [] [] 0.

Record Env : Type := mkEnv {
  (** [runtime.Caller(skip)]: pc, file, line, ok. *)
  Caller : Z -> uintptr * gostring * Z * bool;
  (** [runtime.FuncForPC(pc)]: [None] for a nil [*Func], else its
      [Name()]. *)
  FuncForPC : uintptr -> option gostring;
  (** [runtime.Callers(skip, pcs)] on a buffer of the given length: the
      program counters it has to offer; the call writes as many of them
      as fit. *)
  Callers : Z -> nat -> list uintptr;
  (** [runtime.CallersFrames(pcs)]: the frames that successive calls of
      [Next] return. *)
  CallersFrames : list uintptr -> list Frame;
  (** [strconv.Quote], behind the verb [%q]. *)
  Quote : gostring -> gostring
}.

End runtime.

(** ** meta_error.go *)

Module Meta.
Import runtime.

Definition initialStackSize : Z := 64.
Definition maxStackDepth : Z := 1024.

(** A [*MetaError]: nil, or the address of an object in the store. *)
Inductive ptr : Type :=
| nilptr
| addr (l : nat).

(** The values of the interface type [error] that the code meets:
    [errors.New] / [fmt.Errorf] values, [fmt.Errorf] with [%w], and
    [*MetaError] itself.  The nil interface is [None : option error]. *)
Inductive error : Type :=
| errorString (s : gostring)
| wrapError (msg : gostring) (err : error)
| metaError (p : ptr).

Record MetaError : Type := mkMetaError {
  Err : option error;
  File : gostring;
  Line : Z;
  Func : gostring;
  Package : gostring;
  stackTrace : list uintptr;
  stackTraceString : gostring;
  asCSV : bool
}.

(** The store: the allocated objects, newest first (the object at
    address [l] is followed by the [l] older ones), and the log of the
    assignments made to a field of an object after its construction.
    The only such assignment in the source is
    [e.stackTraceString = builder.String()]. *)
Record Store : Type := mkStore {
  heap : list MetaError;
  writes : list (nat * gostring)
}.

Definition emptyStore : Store := mkStore [] [].

Definition ErrNotMetaError : error :=
  errorString (str "error is not a MetaError").

Fixpoint lookup (h : list MetaError) (l : nat) : option MetaError :=
  match h with
  | [] => None
  | obj :: h' => if Nat.eqb l (List.length h') then Some obj else lookup h' l
  end.

Fixpoint update (h : list MetaError) (l : nat) (f : MetaError -> MetaError)
  : list MetaError :=
  match h with
  | [] => []
  | obj :: h' =>
      if Nat.eqb l (List.length h') then f obj :: h'
      else obj :: update h' l f
  end.

Definition deref (s : Store) (p : ptr) : result MetaError :=
  match p with
  | nilptr => Panic "nil pointer dereference"
  | addr l =>
      match lookup (heap s) l with
      | Some obj => Ok obj
      | None => Panic "nil pointer dereference"
      end
  end.

Definition alloc (obj : MetaError) (s : Store) : ptr * Store :=
  (addr (List.length (heap s)), mkStore (obj :: heap s) (writes s)).

(** Dynamic dispatch of [err.Error()].  An object only refers to
    objects allocated before it, so the recursion follows the heap. *)
Fixpoint errorOf (h : list MetaError) (e : error) {struct h}
  : result gostring :=
  match e with
  | errorString s => Ok s
  | wrapError msg _ => Ok msg
  | metaError nilptr => Panic "nil pointer dereference"
  | metaError (addr l) =>
      match h with
      | [] => Panic "nil pointer dereference"
      | obj :: h' =>
          if Nat.eqb l (List.length h') then
            match Err obj with
            | None => Ok (str "<nil>")
            | Some e' => errorOf h' e'
            end
          else errorOf h' e
      end
  end.

(** [err.Error()] on an interface value: a nil interface panics. *)
Definition callError (s : Store) (err : option error) : result gostring :=
  match err with
  | None => Panic "nil pointer dereference"
  | Some e => errorOf (heap s) e
  end.

(** *** NewMetaErrorOptions *)

Definition make (n : Z) : list uintptr := repeat 0 (Z.to_nat n).

(** [n := runtime.Callers(skip, pcs)]: the buffer afterwards, and [n]. *)
Definition callCallers (rt : Env) (skip : Z) (pcs : list uintptr)
  : list uintptr * Z :=
  let written := firstn (List.length pcs)
                   (Callers rt skip (List.length pcs)) in
  (written ++ skipn (List.length written) pcs,
   Z.of_nat (List.length written)).

(** The loop of lines 96-99.  [sizes] logs the length of every buffer
    handed to [runtime.Callers] so far, latest first. *)
Fixpoint growLoop (fuel : nat) (rt : Env) (skip : Z)
    (pcs : list uintptr) (n : Z) (sizes : list Z)
  : option (list uintptr * Z * list Z) :=
  if (n =? Z.of_nat (List.length pcs))
     && (Z.of_nat (List.length pcs) <? maxStackDepth)
  then
    match fuel with
    | O => None
    | S fuel' =>
        let pcs := make (Z.of_nat (List.length pcs) * 2) in
        let '(pcs, n) := callCallers rt skip pcs in
        growLoop fuel' rt skip pcs n (Z.of_nat (List.length pcs) :: sizes)
    end
  else Some (pcs, n, sizes).

(** [pcs[:n]] *)
Definition slice_pcs (pcs : list uintptr) (n : Z)
  : result (list uintptr) :=
  if (0 <=? n) && (n <=? Z.of_nat (List.length pcs))
  then Ok (firstn (Z.to_nat n) pcs)
  else Panic "slice bounds out of range".

(** Lines 94-103: the captured stack, with the log of buffer sizes. *)
Definition captureStackTrace (fuel : nat) (rt : Env) (skip : Z)
  : option (result (list uintptr) * list Z) :=
  let pcs := make initialStackSize in
  let '(pcs, n) := callCallers rt skip pcs in
  match growLoop fuel rt skip pcs n [Z.of_nat (List.length pcs)] with
  | None => None
  | Some (pcs, n, sizes) =>
      let pcs :=
        if maxStackDepth <? Z.of_nat (List.length pcs)
        then firstn (Z.to_nat maxStackDepth) pcs else pcs in
      Some (slice_pcs pcs n, sizes)
  end.

Definition loopFuel : nat := Z.to_nat maxStackDepth.

(** Lines 69-82: the split of the symbol at its last dot. *)
Definition splitFuncName (fn : option gostring)
  : result (gostring * gostring) :=
  match fn with
  | None => Ok (str "unknown", str "unknown")
  | Some fullFuncName =>
      let lastDotIndex := strings.LastIndex fullFuncName "." in
      if negb (lastDotIndex =? -1) then
        packageName <- slice_to fullFuncName lastDotIndex ;;
        funcName <- slice_from fullFuncName (lastDotIndex + 1) ;;
        Ok (funcName, packageName)
      else Ok (fullFuncName, str "unknown")
  end.

Definition NewMetaErrorOptions (rt : Env) (err : option error) (skip : Z)
    (captureStack asCSV : bool) (s : Store) : result (ptr * Store) :=
  let '(pc, file, line, ok) := Caller rt skip in
  let file := if negb ok then str "unknown" else file in
  let line := if negb ok then 0 else line in
  names <- splitFuncName (FuncForPC rt pc) ;;
  let '(funcName, packageName) := names in
  let metaErr :=
    mkMetaError err (filepath.Base file) line funcName packageName
                [] [] asCSV in
  if captureStack then
    match captureStackTrace loopFuel rt skip with
    | None => Panic "stack capture loop out of fuel"
    | Some (trace, _) =>
        pcs <- trace ;;
        Ok (alloc (mkMetaError err (filepath.Base file) line funcName
                     packageName pcs [] asCSV) s)
    end
  else Ok (alloc metaErr s).

(** Lines 40-45. *)
Definition NewMetaError (rt : Env) (err : option error) (s : Store)
  : result (ptr * Store) :=
  match err with
  | Some (metaError metaErr) => Ok (metaErr, s)
  | _ => NewMetaErrorOptions rt err 2 true true s
  end.

(** *** Methods *)

(** [(e *MetaError) Error()] *)
Definition Error (e : ptr) (s : Store) : result gostring :=
  obj <- deref s e ;;
  match Err obj with
  | None => Ok (str "<nil>")
  | Some _ => callError s (Err obj)
  end.

(** [(e *MetaError) Unwrap()] *)
Definition Unwrap (e : ptr) (s : Store) : result (option error) :=
  obj <- deref s e ;;
  Ok (Err obj).

Definition NL : ascii := ascii_of_nat 10.
Definition TAB : ascii := ascii_of_nat 9.

(** [fmt.Fprintf(&builder, "\n%s\n\t%s:%d", ...)] for one frame. *)
Definition renderFrame (frame : Frame) : gostring :=
  [NL] ++ Function frame ++ [NL; TAB] ++ runtime.File frame
       ++ str ":" ++ strconv.Itoa (runtime.Line frame).

(** The loop of lines 162-168: [Next] is called, and its frame
    written, before [more] is looked at. *)
Fixpoint renderFrames (frames : list Frame) : gostring :=
  match frames with
  | [] => renderFrame zeroFrame
  | frame :: rest =>
      match rest with
      | [] => renderFrame frame
      | _ :: _ => renderFrame frame ++ renderFrames rest
      end
  end.

Definition set_stackTraceString (v : gostring) (obj : MetaError)
  : MetaError :=
  mkMetaError (Err obj) (File obj) (Line obj) (Func obj) (Package obj)
              (stackTrace obj) v (asCSV obj).

(** [(e *MetaError) StackTrace()] *)
Definition StackTrace (rt : Env) (e : ptr) (s : Store)
  : result (gostring * Store) :=
  obj <- deref s e ;;
  if Z.of_nat (List.length (stackTrace obj)) =? 0 then Ok ([], s)
  else
    let builder := renderFrames (CallersFrames rt (stackTrace obj)) in
    match e with
    | nilptr => Panic "nil pointer dereference"
    | addr l =>
        Ok (builder,
            mkStore (update (heap s) l (set_stackTraceString builder))
                    ((l, builder) :: writes s))
    end.

(** [(e *MetaError) ToCSV()] *)
Definition ToCSV (e : ptr) (s : Store) : result gostring :=
  obj <- deref s e ;;
  msg <- callError s (Err obj) ;;
  let record :=
    [msg; File obj; strconv.Itoa (Line obj); Func obj; Package obj] in
  Ok (trim.TrimSpace (csv.Write record)).

(** The context line shared by the verbs of the non-CSV branch. *)
Definition atLine (obj : MetaError) : gostring :=
  [NL; TAB] ++ str "at " ++ File obj ++ str ":" ++ strconv.Itoa (Line obj)
    ++ str " (" ++ Func obj ++ str ") [package: " ++ Package obj ++ str "]".

(** [(e *MetaError) Format(s fmt.State, verb rune)]: the bytes written
    to the state; [plus] is [s.Flag('+')]. *)
Definition Format (rt : Env) (e : ptr) (plus : bool) (verb : rune)
    (s : Store) : result (gostring * Store) :=
  obj <- deref s e ;;
  if asCSV obj then
    if verb =? byteval "v" then
      first <- (if plus then
                  rec <- ToCSV e s ;;
                  st <- StackTrace rt e s ;;
                  Ok (rec ++ str "|" ++ fst st, snd st)
                else Ok ([], s)) ;;
      (* fallthrough *)
      rec <- ToCSV e (snd first) ;;
      Ok (fst first ++ rec, snd first)
    else
      rec <- ToCSV e s ;;
      Ok (rec, s)
  else
    errMsg <- (match Err obj with
               | Some _ => callError s (Err obj)
               | None => Ok (str "<nil>")
               end) ;;
    if (verb =? byteval "v") && plus then
      st <- StackTrace rt e s ;;
      Ok (errMsg ++ atLine obj ++ fst st, snd st)
    else if (verb =? byteval "v") || (verb =? byteval "s") then
      Ok (errMsg ++ atLine obj, s)
    else if verb =? byteval "q" then
      Ok (Quote rt errMsg ++ atLine obj, s)
    else Ok ([], s).

(** [MetaErrorFromCSV]: the pointer and the error returned. *)
Definition MetaErrorFromCSV (csvStr : gostring) (s : Store)
  : result (ptr * option error * Store) :=
  match csv.readRecord (csv.fuelFor csvStr) 5 csvStr with
  | None => Panic "csv reader out of fuel"
  | Some (record, err) =>
      match err with
      | Some _ => Ok (nilptr, Some ErrNotMetaError, s)
      | None =>
          if negb (Z.of_nat (List.length record) =? 5)
          then Ok (nilptr, Some ErrNotMetaError, s)
          else
            match strconv.Atoi (nth 2%nat record []) with
            | None => Ok (nilptr, Some ErrNotMetaError, s)
            | Some line =>
                let '(p, s') :=
                  alloc (mkMetaError
                           (Some (errorString (nth 0%nat record [])))
                           (nth 1%nat record []) line
                           (nth 3%nat record []) (nth 4%nat record [])
                           [] [] false) s in
                Ok (p, None, s')
            end
      end
  end.

End Meta.

(** ** MultiError *)

Module Multi.

Definition separator : gostring := str "; ".

(** A [*MultiError]: nil, or the address of an object in the heap. *)
Inductive ptr : Type :=
| nilptr
| addr (l : nat).

(** The values of the interface type [error] as this file sees them: a
    [*MultiError], told apart by the type assertions of [AppendError],
    or any other error, which only ever answers [Error()] here.  The nil
    interface is [None : option error]. *)
Inductive error : Type :=
| errorString (s : gostring)
| multiError (p : ptr).

(** The field [Errors []error]; [None] is the nil slice. *)
Record MultiError : Type := mkMultiError {
  Errors : option (list (option error))
}.

(** The allocated objects; the address of an object is its index. *)
Definition Heap : Type := list MultiError.

Definition lookup (h : Heap) (l : nat) : option MultiError := nth_error h l.

Fixpoint store (h : Heap) (l : nat) (obj : MultiError) : Heap :=
  match h, l with
  | [], _ => []
  | _ :: h', O => obj :: h'
  | o :: h', S l' => o :: store h' l' obj
  end.

Definition alloc (obj : MultiError) (h : Heap) : ptr * Heap :=
  (addr (List.length h), h ++ [obj]).

(** [len(m.Errors)] *)
Definition lenErrors (obj : MultiError) : Z :=
  match Errors obj with
  | None => 0
  | Some errs => Z.of_nat (List.length errs)
  end.

(** [append(errors, err)] *)
Definition appendSlice (errors : option (list (option error)))
    (err : option error) : option (list (option error)) :=
  Some (match errors with None => [] | Some errs => errs end ++ [err]).

(** [NewMultiError(errs...)]: every argument is appended, nil or not. *)
Definition NewMultiError (errs : list (option error)) (h : Heap)
  : ptr * Heap :=
  alloc (mkMultiError (fold_left appendSlice errs None)) h.

(** [(m *MultiError) Append(err)]: the heap afterwards.  On a nil
    receiver the method logs a warning and returns. *)
Definition Append (m : ptr) (err : option error) (h : Heap) : result Heap :=
  match err with
  | None => Ok h
  | Some _ =>
      match m with
      | nilptr => Ok h
      | addr l =>
          match lookup h l with
          | None => Panic "nil pointer dereference"
          | Some obj =>
              let errors :=
                match Errors obj with
                | None => Some []
                | Some errs => Some errs
                end in
              Ok (store h l (mkMultiError (appendSlice errors err)))
          end
      end
  end.

(** [for _, e := range errs { mErr.Append(e) }] *)
Fixpoint appendAll (m : ptr) (errs : list (option error)) (h : Heap)
  : result Heap :=
  match errs with
  | [] => Ok h
  | e :: rest => h' <- Append m e h ;; appendAll m rest h'
  end.

(** [AppendError(err, errs...)]: the error returned, and the heap. *)
Definition AppendError (err : option error) (errs : list (option error))
    (h : Heap) : result (option error * Heap) :=
  match err, errs with
  | None, [] => Ok (None, h)
  | _, [] =>
      match err with
      | Some (multiError mErr) => Ok (Some (multiError mErr), h)
      | _ =>
          let '(mErr, h) := NewMultiError [err] h in
          Ok (Some (multiError mErr), h)
      end
  | None, _ :: _ =>
      let '(mErr, h) := NewMultiError errs h in
      Ok (Some (multiError mErr), h)
  | Some e, _ :: _ =>
      let '(mErr, h) :=
        match e with
        | multiError mErr => (mErr, h)
        | _ => NewMultiError [err] h
        end in
      h <- appendAll mErr errs h ;;
      Ok (Some (multiError mErr), h)
  end.

(** [err.Error()] on an element of [Errors]: a nil interface panics, a
    [*MultiError] goes back to [(m *MultiError) Error], here [recur]. *)
Definition callError (recur : ptr -> option (result gostring))
    (err : option error) : option (result gostring) :=
  match err with
  | None => Some (Panic "nil pointer dereference")
  | Some (errorString s) => Some (Ok s)
  | Some (multiError p) => recur p
  end.

(** The loop of lines 310-312: [result += separator + msg]. *)
Fixpoint concatLoop (call : option error -> option (result gostring))
    (res : gostring) (rest : list (option error))
  : option (result gostring) :=
  match rest with
  | [] => Some (Ok res)
  | e :: rest' =>
      match call e with
      | Some (Ok msg) => concatLoop call (res ++ (separator ++ msg)) rest'
      | other => other
      end
  end.

(** The loop of lines 317-320 on a [strings.Builder]: the separator is
    written, then the message. *)
Fixpoint builderLoop (call : option error -> option (result gostring))
    (sb : gostring) (rest : list (option error))
  : option (result gostring) :=
  match rest with
  | [] => Some (Ok sb)
  | e :: rest' =>
      match call e with
      | Some (Ok msg) => builderLoop call ((sb ++ separator) ++ msg) rest'
      | other => other
      end
  end.

(** [(m *MultiError) Error()].  The fuel bounds the depth of the calls
    through elements that are MultiErrors themselves; [None] is a chain
    deeper than the fuel. *)
Fixpoint Error (fuel : nat) (h : Heap) (m : ptr) {struct fuel}
  : option (result gostring) :=
  match fuel with
  | O => None
  | S fuel' =>
      match m with
      | nilptr => Some (Ok [])
      | addr l =>
          match lookup h l with
          | None => Some (Panic "nil pointer dereference")
          | Some obj =>
              match Errors obj with
              | None => Some (Ok [])
              | Some [] => Some (Ok [])
              | Some (first :: rest) =>
                  if lenErrors obj <? 5 then
                    match callError (Error fuel' h) first with
                    | Some (Ok msg) =>
                        concatLoop (callError (Error fuel' h)) msg rest
                    | other => other
                    end
                  else
                    match callError (Error fuel' h) first with
                    | Some (Ok msg) =>
                        builderLoop (callError (Error fuel' h)) msg rest
                    | other => other
                    end
              end
          end
      end
  end.

(** [(m *MultiError) ErrorOrNil()] *)
Definition ErrorOrNil (m : ptr) (h : Heap) : result (option error) :=
  match m with
  | nilptr => Ok None
  | addr l =>
      match lookup h l with
      | None => Panic "nil pointer dereference"
      | Some obj =>
          if lenErrors obj =? 0 then Ok None else Ok (Some (multiError m))
      end
  end.

(** [(m *MultiError) HasErrors()] *)
Definition HasErrors (m : ptr) (h : Heap) : result bool :=
  match m with
  | nilptr => Ok false
  | addr l =>
      match lookup h l with
      | None => Panic "nil pointer dereference"
      | Some obj => Ok (0 <? lenErrors obj)
      end
  end.

(** [(m *MultiError) Unwrap()]: no test of the receiver here. *)
Definition Unwrap (m : ptr) (h : Heap)
  : result (option (list (option error))) :=
  match m with
  | nilptr => Panic "nil pointer dereference"
  | addr l =>
      match lookup h l with
      | None => Panic "nil pointer dereference"
      | Some obj => if lenErrors obj =? 0 then Ok None else Ok (Errors obj)
      end
  end.

End Multi.

(** ** meta_error.go, the remaining functions *)

Module MetaMore.
Import runtime Meta.

(** [errors.Unwrap(err)]: the [Unwrap] method of the dynamic type, if it
    has one. *)
Definition errorsUnwrap (s : Store) (err : error) : result (option error) :=
  match err with
  | errorString _ => Ok None
  | wrapError _ inner => Ok (Some inner)
  | metaError p => Unwrap p s
  end.

(** [RootCause]: the loop of lines 190-197.  The fuel bounds the number
    of layers taken off; [None] is a chain longer than the fuel. *)
Fixpoint RootCause (fuel : nat) (s : Store) (err : option error)
  : option (result (option error)) :=
  match err with
  | None => Some (Ok None)
  | Some e =>
      match errorsUnwrap s e with
      | Panic msg => Some (Panic msg)
      | Ok None => Some (Ok (Some e))
      | Ok (Some unwrapped) =>
          match fuel with
          | O => None
          | S fuel' => RootCause fuel' s (Some unwrapped)
          end
      end
  end.

(** The values of [interface{}] that [Slog] and [FromSlogMap] handle. *)
Inductive value : Type :=
| VString (s : gostring)
| VInt (n : Z)
| VError (err : option error)
| VOther.

(** [Slog(err)] *)
Definition Slog (rt : Env) (err : option error) (s : Store)
  : result (list value * Store) :=
  r <- NewMetaError rt err s ;;
  let '(metaErr, s) := r in
  match metaErr with
  | nilptr => Ok ([], s)
  | addr _ =>
      obj <- deref s metaErr ;;
      Ok ([VString (str "error_meta"); VError err;
           VString (str "file_meta"); VString (File obj);
           VString (str "line_meta"); VInt (Line obj);
           VString (str "func_meta"); VString (Func obj)], s)
  end.

(** A [map[string]interface{}], as the pairs it holds; a key is looked
    up from the front. *)
Definition slogMap : Type := list (gostring * value).

Fixpoint mapGet (m : slogMap) (key : gostring) : option value :=
  match m with
  | [] => None
  | (k, v) :: rest => if gostring_eqb k key then Some v else mapGet rest key
  end.

(** [FromSlogMap(slogError)] *)
Definition FromSlogMap (slogError : slogMap) (s : Store)
  : result (ptr * option error * Store) :=
  let msgVal :=
    match mapGet slogError (str "err") with
    | Some v => Some v
    | None =>
        match mapGet slogError (str "error") with
        | Some v => Some v
        | None => mapGet slogError (str "metaErr")
        end
    end in
  match msgVal with
  | None => Ok (nilptr, Some ErrNotMetaError, s)
  | Some (VString metaErrorCSV) => MetaErrorFromCSV metaErrorCSV s
  | Some _ => Ok (nilptr, Some ErrNotMetaError, s)
  end.

End MetaMore.

(** ** Package retry *)

Module retry.
Import Multi.

(** Go's 64-bit integers: the result of an operation, wrapped. *)
Definition wrap64 (z : Z) : Z := (z + 2 ^ 63) mod 2 ^ 64 - 2 ^ 63.

(** [time.Duration]: an [int64] count of nanoseconds. *)
Definition Duration : Type := Z.

Definition Millisecond : Duration := 1000000.

(** [1 << count] on a 64-bit integer: a negative count panics, and a
    count of 64 or more shifts the bit out. *)
Definition shiftOne (count : Z) : result Z :=
  if count <? 0 then Panic "negative shift amount"
  else if 64 <=? count then Ok 0
  else Ok (wrap64 (2 ^ count)).

Definition ExponentialBackoff1sPower2 (retryCount : Z) : result Duration :=
  p <- shiftOne retryCount ;;
  Ok (wrap64 (wrap64 (1000 * p) * Millisecond)).

Definition ExponentialBackoff3sPower2 (retryCount : Z) : result Duration :=
  p <- shiftOne retryCount ;;
  Ok (wrap64 (wrap64 (3000 * p) * Millisecond)).

Record Config : Type := mkConfig {
  Times : Z;
  InitialDelayMilliseconds : Z;
  (** a nil function value is [None] *)
  ExponentialBackoff : option (Z -> result Duration)
}.

Definition NewConfig (retryCount : Z) : Config :=
  mkConfig retryCount 0 (Some ExponentialBackoff1sPower2).

(** What a run of [Execute] leaves behind: the two values returned, the
    heap, and the durations handed to [time.After], in their order. *)
Record Run (T : Type) : Type := mkRun {
  value : T;
  failure : option error;
  heapAfter : Heap;
  waits : list Duration
}.
Arguments mkRun {T} _ _ _ _.
Arguments value {T} _.
Arguments failure {T} _.
Arguments heapAfter {T} _.
Arguments waits {T} _.

(** The loop of [Execute].  [task i] is what the call of the task in
    iteration [i] returns; [done i] tells which case the [select] of
    iteration [i] takes, [true] for [ctx.Done()].  [mRetryErr] is the
    address of the local variable of that name.  The fuel bounds the
    number of iterations; [None] is a run that needs more. *)
Fixpoint ExecuteLoop {T : Type} (fuel : nat) (config : Config)
    (task : Z -> T * option error) (done : Z -> bool) (defaultResult : T)
    (mRetryErr : nat) (i : Z) (h : Heap) (log : list Duration)
  : option (result (Run T)) :=
  let finish (h : Heap) (log : list Duration) :=
    Some (e <- ErrorOrNil (addr mRetryErr) h ;;
          Ok (mkRun defaultResult e h log)) in
  if i <? Times config then
    match fuel with
    | O => None
    | S fuel' =>
        let '(res, err) := task i in
        match err with
        | None => Some (Ok (mkRun res None h log))
        | Some _ =>
            match lookup h mRetryErr with
            | None => Some (Panic "nil pointer dereference")
            | Some obj =>
                let h :=
                  store h mRetryErr
                        (mkMultiError (appendSlice (Errors obj) err)) in
                if i =? Times config - 1 then finish h log
                else
                  match
                    match ExponentialBackoff config with
                    | Some backoff => backoff (i + 1)
                    | None => ExponentialBackoff1sPower2 (i + 1)
                    end
                  with
                  | Panic msg => Some (Panic msg)
                  | Ok delay =>
                      let log := log ++ [wrap64 (delay * Millisecond)] in
                      if done i then finish h log
                      else ExecuteLoop fuel' config task done defaultResult
                                       mRetryErr (i + 1) h log
                  end
            end
        end
    end
  else finish h log.

(** [Execute(ctx, config, task)] *)
Definition Execute {T : Type} (config : Config)
    (task : Z -> T * option error) (done : Z -> bool) (defaultResult : T)
    (h : Heap) : option (result (Run T)) :=
  let '(mRetryErr, h) := alloc (mkMultiError None) h in
  match mRetryErr with
  | nilptr => Some (Panic "nil pointer dereference")
  | addr l =>
      ExecuteLoop (Z.to_nat (Times config)) config task done defaultResult
                  l 0 h []
  end.

End retry.

(** ** Definitions used by the statements below *)

Module Samples.
Import runtime Meta.

(** A call site: [run] in package [example.com/u/app], file
    [/home/u/app/main.go], line 10, called from [main.main]. *)
Definition env : Env :=
  mkEnv
    (fun _ => (100, str "/home/u/app/main.go", 10, true))
    (fun pc => if pc =? 100 then Some (str "example.com/u/app.run")
               else None)
    (fun _ _ => [100; 200])
    (map (fun pc =>
            if pc =? 100
            then mkFrame (str "example.com/u/app.run")
                         (str "/home/u/app/main.go") 10
            else mkFrame (str "main.main")
                         (str "/home/u/app/main.go") 21))
    (fun s => s).

(** [errors.New("boom")] *)
Definition boom : option error := Some (errorString (str "boom")).

(** A message with a Windows line break: [disk full CR LF retry]. *)
Definition crlfMessage : gostring :=
  str "disk full" ++ [csv.CR; csv.LF] ++ str "retry".

Definition crlfObject : MetaError :=
  mkMetaError (Some (errorString crlfMessage)) (str "main.go") 10
              (str "run") (str "example.com/u/app") [] [] true.

(** The method [Read] on a pointer receiver [File] in the package
    path [a/b.1], and the same under the host [github.com]. *)
Definition dottedName : gostring :=
  str "a/b.1.(" ++ str "*File).Read".

Definition hostedDottedName : gostring :=
  str "github.com/xhd2015/xgo.1.(" ++ str "*File).Read".

Definition plainObject : MetaError :=
  mkMetaError boom (str "main.go") 10 (str "run")
              (str "example.com/u/app") [100; 200] [] true.

End Samples.

Module Props.
Import runtime Meta.

(** [runtime.Callers] filled a buffer of length [size] completely. *)
Definition filled (rt : Env) (skip : Z) (size : Z) : bool :=
  Z.of_nat (List.length (firstn (Z.to_nat size)
                           (Callers rt skip (Z.to_nat size)))) =? size.

(** On the buffer sizes in the order they were allocated: every size but
    the last was filled completely, was below the cap and is followed by
    its double; the last one was not filled or has reached the cap. *)
Fixpoint doublesWhileFilled (rt : Env) (skip : Z) (sizes : list Z) : Prop :=
  match sizes with
  | [] => False
  | a :: rest =>
      match rest with
      | [] => filled rt skip a && (a <? maxStackDepth) = false
      | b :: _ =>
          filled rt skip a && (a <? maxStackDepth) = true
          /\ b = 2 * a /\ doublesWhileFilled rt skip rest
      end
  end.

(** No carriage return is immediately followed by a line feed. *)
Fixpoint noCRLF (s : gostring) : bool :=
  match s with
  | [] => true
  | c :: rest =>
      match rest with
      | [] => true
      | d :: _ => negb (byte_eqb c csv.CR && byte_eqb d csv.LF) && noCRLF rest
      end
  end.

(** The last rune of [s] is white space. *)
Definition endsInSpace (s : gostring) : bool :=
  unicode.IsSpace (fst (utf8.DecodeLastRuneInString s)).

(** All that differs between two objects is the rendered stack. *)
Definition sameButRendered (a b : MetaError) : Prop :=
  Err a = Err b /\ File a = File b /\ Line a = Line b /\ Func a = Func b
  /\ Package a = Package b /\ stackTrace a = stackTrace b
  /\ asCSV a = asCSV b.

(** What quoting does to the bytes of a field: a quote is doubled. *)
Fixpoint escape (field : gostring) : gostring :=
  match field with
  | [] => []
  | c :: rest =>
      if byte_eqb c csv.quote then csv.quote :: csv.quote :: escape rest
      else c :: escape rest
  end.

(** The raw line at the head of a text, through its first line feed,
    and the text after it. *)
Fixpoint rawLine (text : gostring) : gostring :=
  match text with
  | [] => []
  | c :: rest => if byte_eqb c csv.LF then [c] else c :: rawLine rest
  end.

Fixpoint afterLine (text : gostring) : gostring :=
  match text with
  | [] => []
  | c :: rest => if byte_eqb c csv.LF then rest else afterLine rest
  end.

(** The ways an input of [MetaErrorFromCSV] can violate the record
    format, in terms of what the csv reader makes of it. *)
Inductive Violation (csvStr : gostring) : Prop :=
| NoRecord :
    csv.readRecord (csv.fuelFor csvStr) 5 csvStr = Some ([], Some csv.EOF) ->
    Violation csvStr
| BadQuoting : forall fields e,
    csv.readRecord (csv.fuelFor csvStr) 5 csvStr = Some (fields, Some e) ->
    e = csv.ErrBareQuote \/ e = csv.ErrQuote ->
    Violation csvStr
| BadFieldCount : forall fields,
    csv.readRecord (csv.fuelFor csvStr) 5 csvStr
      = Some (fields, Some csv.ErrFieldCount) ->
    List.length fields <> 5%nat ->
    Violation csvStr
| BadLine : forall f0 f1 f2 f3 f4,
    csv.readRecord (csv.fuelFor csvStr) 5 csvStr
      = Some ([f0; f1; f2; f3; f4], None) ->
    strconv.Atoi f2 = None ->
    Violation csvStr.

(** The file that [runtime.Caller] reports, after the substitution of
    lines 64-67. *)
Definition reportedFile (rt : Env) (skip : Z) : gostring :=
  let '(_, file, _, ok) := Caller rt skip in
  if negb ok then str "unknown" else file.

Definition reportedLine (rt : Env) (skip : Z) : Z :=
  let '(_, _, line, ok) := Caller rt skip in
  if negb ok then 0 else line.

Definition reportedPC (rt : Env) (skip : Z) : uintptr :=
  let '(pc, _, _, _) := Caller rt skip in pc.

Definition startsWith (out pre : gostring) : Prop :=
  exists tail, out = pre ++ tail.

(** The string that [StackTrace] renders for an object. *)
Definition rendered (rt : Env) (obj : MetaError) : gostring :=
  match stackTrace obj with
  | [] => []
  | _ :: _ => renderFrames (CallersFrames rt (stackTrace obj))
  end.

(** A text that [readLine] cuts into lines without changing a byte: no
    line ends in CR LF, and the text does not end in CR. *)
Definition plainLines (text : gostring) : Prop :=
  noCRLF text = true /\ last text zero <> csv.CR.

(** The three bytes that [Write] looks for inside a quoted field. *)
Definition special3 (c : ascii) : bool :=
  byte_eqb c csv.quote || byte_eqb c csv.CR || byte_eqb c csv.LF.

(** The first byte of [y], if any, continues no UTF-8 sequence. *)
Definition startsAfresh (y : gostring) : Prop :=
  match y with
  | [] => True
  | c :: _ => utf8.isCont (byteval c) = false
  end.

(** What the loops of [readRecord] can leave behind: [errRead] as it
    was, and no other error than a misplaced quote. *)
Definition parseOutcome (eof : bool) (r : option csv.parsed) : Prop :=
  exists dst err,
    r = Some (dst, err, eof)
    /\ (err = None \/ err = Some csv.ErrBareQuote
        \/ err = Some csv.ErrQuote).

(** The first rune of [s] is white space. *)
Definition startsWithSpace (s : gostring) : bool :=
  unicode.IsSpace (fst (utf8.DecodeRuneInString s)).

(** A piece of text that can be put between others without making a
    CR LF pair at either end. *)
Definition tidy (w : gostring) : Prop :=
  noCRLF w = true /\ hd zero w <> csv.LF /\ last w zero <> csv.CR.


(** The error at the bottom of a chain of [fmt.Errorf] wrappers, and the
    number of wrappers above it. *)
Fixpoint innermost (e : error) : error :=
  match e with
  | wrapError _ inner => innermost inner
  | _ => e
  end.

Fixpoint layers (e : error) : nat :=
  match e with
  | wrapError _ inner => S (layers inner)
  | _ => O
  end.


(** The text of one frame of a stack trace, and of the frames of a
    captured stack: nothing without a stack, and one empty frame when
    the iterator has none to give for a stack that was captured. *)
Definition frameText (frame : Frame) : gostring :=
  [ascii_of_nat 10] ++ Function frame ++ [ascii_of_nat 10; ascii_of_nat 9]
    ++ runtime.File frame ++ str ":" ++ strconv.Itoa (runtime.Line frame).

Definition stackText (rt : Env) (pcs : list uintptr) : gostring :=
  match pcs with
  | [] => []
  | _ :: _ =>
      match CallersFrames rt pcs with
      | [] => [ascii_of_nat 10; ascii_of_nat 10; ascii_of_nat 9] ++ str ":0"
      | frames => List.concat (map frameText frames)
      end
  end.


(** The record format, said without the reader.  A plain field holds
    no separator, no quote and no line break.  A field is written as
    it is when it is plain, or between quotes with its quotes doubled.
    A record text is five fields so written, with the separator between
    them and with or without a line break at the end. *)
Definition plainField (f : gostring) : Prop :=
  ~ In csv.Comma f /\ ~ In csv.quote f /\ ~ In csv.CR f /\ ~ In csv.LF f.

Fixpoint piped (fields : list gostring) : gostring :=
  match fields with
  | [] => []
  | f :: rest =>
      match rest with
      | [] => f
      | _ :: _ => f ++ csv.Comma :: piped rest
      end
  end.

Definition encodes (f enc : gostring) : Prop :=
  (plainField f /\ enc = f) \/ enc = csv.quote :: escape f ++ [csv.quote].

Definition recordText (text : gostring) : Prop :=
  exists fields encs,
    List.length fields = 5%nat
    /\ Forall2 encodes fields encs
    /\ (text = piped encs \/ text = piped encs ++ [csv.LF]
        \/ text = piped encs ++ [csv.CR; csv.LF]).

(** A byte that cannot stand in a decimal integer: no digit, no sign. *)
Definition notNumeric (c : ascii) : Prop :=
  ~ (48 <= byteval c <= 57) /\ c <> "-"%char /\ c <> "+"%char.

(** A valid record, and the same with a second line of two fields. *)
Definition goodLine : gostring := str "boom|main.go|10|run|app".

Definition twoLines : gostring := goodLine ++ [csv.LF] ++ str "x|y".

End Props.

Module MultiProps.
Import Multi.

(** [strings.Join(parts, sep)] *)
Fixpoint joined (sep : gostring) (parts : list gostring) : gostring :=
  match parts with
  | [] => []
  | p :: rest =>
      match rest with
      | [] => p
      | _ :: _ => p ++ sep ++ joined sep rest
      end
  end.

(** Errors that are not MultiErrors, given by their messages. *)
Definition plain (msgs : list gostring) : list (option error) :=
  map (fun s => Some (errorString s)) msgs.

(** The arguments that are not the nil interface, in their order. *)
Definition nonNil (errs : list (option error)) : list (option error) :=
  filter (fun e => match e with Some _ => true | None => false end) errs.

(** No argument is a MultiError itself. *)
Definition flat (errs : list (option error)) : Prop :=
  Forall (fun e => match e with
                   | Some (multiError _) => False
                   | _ => True
                   end) errs.

(** The messages of the arguments that are not nil. *)
Definition texts (errs : list (option error)) : list gostring :=
  flat_map (fun e => match e with
                     | Some (errorString s) => [s]
                     | _ => []
                     end) errs.

(** The elements of [m.Errors]. *)
Definition elements (obj : MultiError) : list (option error) :=
  match Errors obj with
  | None => []
  | Some errs => errs
  end.

(** The object after [added] was appended to its elements; with nothing
    to add it is left as it is. *)
Definition extended (obj : MultiError) (added : list (option error))
  : MultiError :=
  match added with
  | [] => obj
  | _ :: _ => mkMultiError (Some (elements obj ++ added))
  end.

End MultiProps.

Module NameProps.
Import FuncName.

(** The labels of a host name, put together with dots. *)
Fixpoint dotted (labels : list gostring) : gostring :=
  match labels with
  | [] => []
  | l :: rest =>
      match rest with
      | [] => l
      | _ :: _ => l ++ "."%char :: dotted rest
      end
  end.

(** A label of a host name: not empty, made of letters, digits and
    hyphens, with no hyphen at either end. *)
Definition validLabel (l : gostring) : Prop :=
  l <> []
  /\ (forall c, In c l -> isLetterDigitOrHyphen c = true)
  /\ hd Ascii.zero l <> "-"%char
  /\ last l Ascii.zero <> "-"%char.

(** A decimal digit. *)
Definition decimal (c : ascii) : Prop := 48 <= byteval c <= 57.

End NameProps.

Module RetryProps.
Import Multi retry.

(** The errors that the calls [from], ..., [from + n - 1] of the task
    return. *)
Fixpoint errorsOf {T : Type} (task : Z -> T * option error) (from : Z)
    (n : nat) : list (option error) :=
  match n with
  | O => []
  | S n' => snd (task from) :: errorsOf task (from + 1) n'
  end.

(** The durations [m * 2^from], ..., [m * 2^(from + n - 1)]. *)
Fixpoint doubling (m : Z) (from : Z) (n : nat) : list Z :=
  match n with
  | O => []
  | S n' => m * 2 ^ from :: doubling m (from + 1) n'
  end.

(** The variable [mRetryErr] after the given errors were appended. *)
Definition collected (errs : list (option error)) : MultiError :=
  mkMultiError (match errs with [] => None | _ :: _ => Some errs end).


(** The backoff that [Execute] asks for before retry number [k]. *)
Definition backoffOf (config : Config) (k : Z) : result Duration :=
  match ExponentialBackoff config with
  | Some backoff => backoff k
  | None => ExponentialBackoff1sPower2 k
  end.

(** The durations handed to [time.After] after the calls [from], ...,
    [from + n - 1] of the task, when [d k] is the backoff before retry
    number [k]. *)
Fixpoint waitsOf (d : Z -> Duration) (from : Z) (n : nat) : list Duration :=
  match n with
  | O => []
  | S n' => wrap64 (d (from + 1) * Millisecond) :: waitsOf d (from + 1) n'
  end.


(** Two tasks: one that fails at every call, one that succeeds at its
    third call. *)
Definition failing (j : Z) : Z * option error :=
  (0, Some (errorString (str "down"))).

Definition thirdTime (j : Z) : Z * option error :=
  if j =? 2 then (7, None) else (0, Some (errorString (str "down"))).

End RetryProps.

(** * Properties *)

(** ** The symbol parser *)

Section Parser.
Import FuncName.

(** C8. Parsing the anonymous-closure identifier
    [pkg.Outer.Inner.func1] yields the function name [Inner], the
    synthetic [.func1] suffix being stripped, and a notice that holds
    the marker [anonymous function]. *)
Theorem parse_anonymous_closure :
  exists p,
    parseFuncName "pkg.Outer.Inner.func1" = Ok p
    /\ funcName p = str "Inner"
    /\ strings.Contains (notice p) "anonymous function" = true
    /\ pkgPath p = str "pkg" /\ qualifier p = str "Outer".
Proof.
  eexists. split; [vm_compute; reflexivity|].
  repeat split; reflexivity.
Qed.

(** C3, as stated, fails: on the identifier [Samples.dottedName] the
    parser does not return the package path [a/b.1]. *)
Lemma parse_dotted_segment_not_kept :
  ~ (exists p,
       parseFuncName Samples.dottedName = Ok p
       /\ pkgPath p = str "a/b.1").
Proof.
  intros [p [H1 H2]]. vm_compute in H1.
  injection H1 as <-. vm_compute in H2. discriminate H2.
Qed.

(** C3, amended. Parsing the identifier [Samples.dottedName], a
    pointer-receiver method under [a/b.1], yields the package path
    [a/b]: the package path splits at its dots into exactly two
    pieces, so the second piece, [1], is taken for an embedded calling
    function, stripped, and recorded in the notice.  The qualifier is
    [File], the receiver is a pointer, the function name is [Read]. *)
Theorem parse_dotted_segment :
  parseFuncName Samples.dottedName
  = Ok (mkParsed (str "a/b") (str "File") true [] [] (str "Read")
          (str ",qualifier (struct or pkg level func) 1" ++ [ascii_of_nat 10])).
Proof. vm_compute. reflexivity. Qed.

(** The repository's own test case for a dotted path keeps the dot: the
    host [github.com] brings the number of pieces to three. *)
Lemma parse_dotted_segment_with_host :
  parseFuncName Samples.hostedDottedName
  = Ok (mkParsed (str "github.com/xhd2015/xgo.1") (str "File") true [] []
          (str "Read") []).
Proof. vm_compute. reflexivity. Qed.

End Parser.

(** ** Panics *)

Section Panics.
Import Meta Samples.

(** C2. The code panics where the claim promises a result: the parser
    reads the byte before an opening parenthesis that stands at index 0,
    and [ToCSV], with [Format] in compact mode behind it, calls [Error]
    on the nil error of an instance built by [NewMetaError(nil)], which
    [Error] itself guards against. *)
Theorem panics_on_leading_paren_and_nil_error :
  FuncName.parseFuncName "(T).M" = Panic "index out of range"
  /\ exists p s,
       NewMetaError env None emptyStore = Ok (p, s)
       /\ Error p s = Ok (str "<nil>")
       /\ ToCSV p s = Panic "nil pointer dereference"
       /\ Format env p false (byteval "s") s
          = Panic "nil pointer dereference".
Proof.
  split; [vm_compute; reflexivity|].
  do 2 eexists. split; [vm_compute; reflexivity|].
  repeat split; vm_compute; reflexivity.
Qed.

End Panics.

(** ** Wrapping *)

Section Wrapping.
Import Meta Samples.

(** C5, as stated, fails: the constructor with options, handed an
    existing MetaError, allocates a second object that wraps the first. *)
Lemma options_constructor_nests :
  exists p s p' s' obj,
    NewMetaErrorOptions env boom 1 true true emptyStore = Ok (p, s)
    /\ NewMetaErrorOptions env (Some (metaError p)) 1 true true s
       = Ok (p', s')
    /\ p' <> p
    /\ deref s' p' = Ok obj
    /\ Err obj = Some (metaError p).
Proof.
  do 5 eexists. split; [vm_compute; reflexivity|].
  split; [vm_compute; reflexivity|].
  split; [discriminate|].
  split; [vm_compute; reflexivity|reflexivity].
Qed.

(** C5, amended. [NewMetaError] is idempotent: handed an error whose
    dynamic type is [*MetaError] it returns that very pointer and leaves
    the store as it was, so wrapping the result of [NewMetaError] again
    gives the same pointer and the same store.  (The constructor with
    options makes no such test.) *)
Theorem NewMetaError_idempotent :
  (forall rt p s, NewMetaError rt (Some (metaError p)) s = Ok (p, s))
  /\ (forall rt err s,
        (r <- NewMetaError rt err s ;;
         NewMetaError rt (Some (metaError (fst r))) (snd r))
        = NewMetaError rt err s).
Proof.
  split; [reflexivity|].
  intros rt err s. destruct (NewMetaError rt err s) as [[p s']|msg];
    reflexivity.
Qed.

End Wrapping.

(** ** Basic facts on lengths, slices and indices *)

Section Basics.

Lemma len_nil : len [] = 0.
Proof. reflexivity. Qed.

Lemma len_cons (c : ascii) (s : gostring) : len (c :: s) = len s + 1.
Proof. unfold len. cbn [List.length]. lia. Qed.

Lemma len_app (a b : gostring) : len (a ++ b) = len a + len b.
Proof. unfold len. rewrite length_app. lia. Qed.

Lemma len_nonneg (s : gostring) : 0 <= len s.
Proof. unfold len. lia. Qed.

Lemma byte_eqb_refl (c : ascii) : byte_eqb c c = true.
Proof. apply Ascii.eqb_refl. Qed.

Lemma byte_eqb_eq (a b : ascii) : byte_eqb a b = true <-> a = b.
Proof. apply Ascii.eqb_eq. Qed.

Lemma byte_eqb_neq (a b : ascii) : byte_eqb a b = false <-> a <> b.
Proof. apply Ascii.eqb_neq. Qed.

Lemma gostring_eqb_eq (a b : gostring) : gostring_eqb a b = true <-> a = b.
Proof.
  revert b. induction a as [|x a IH]; intros [|y b]; cbn;
    try (split; [discriminate|discriminate]); try tauto.
  rewrite andb_true_iff, byte_eqb_eq, IH.
  split; [intros [-> ->]; reflexivity|intros H; injection H; auto].
Qed.

Lemma HasPrefix_len (s p : gostring) :
  strings.HasPrefix s p = true -> len p <= len s.
Proof.
  revert s. induction p as [|c p IH]; intros s H.
  - rewrite len_nil. apply len_nonneg.
  - destruct s as [|d s]; [discriminate|].
    cbn in H. apply andb_true_iff in H as [_ H].
    rewrite !len_cons. specialize (IH _ H). lia.
Qed.

Lemma lastIndexFrom_bounds (s sep : gostring) (i best : Z) :
  let r := strings.lastIndexFrom s sep i best in
  r = best \/ (i <= r /\ r + len sep <= i + len s).
Proof.
  revert i best. induction s as [|c s IH]; intros i best r; subst r.
  - cbn. destruct sep; cbn; [right; unfold len; cbn; lia|left; reflexivity].
  - cbn [strings.lastIndexFrom].
    destruct (strings.HasPrefix (c :: s) sep) eqn:HP.
    + destruct (IH (i + 1) i) as [->|[H1 H2]].
      * right. apply HasPrefix_len in HP. lia.
      * right. rewrite len_cons. lia.
    + destruct (IH (i + 1) best) as [->|[H1 H2]].
      * left; reflexivity.
      * right. rewrite len_cons. lia.
Qed.

Lemma LastIndex_bounds (s sep : gostring) :
  let r := strings.LastIndex s sep in
  r = -1 \/ (0 <= r /\ r + len sep <= len s).
Proof.
  unfold strings.LastIndex.
  destruct (lastIndexFrom_bounds s sep 0 (-1)) as [H|H]; [left|right]; lia.
Qed.

Lemma slice_ok (s : gostring) (lo hi : Z) :
  0 <= lo <= hi -> hi <= len s ->
  slice s lo hi = Ok (sub s lo hi).
Proof.
  intros H1 H2. unfold slice, sub.
  replace ((0 <=? lo) && (lo <=? hi) && (hi <=? len s)) with true;
    [reflexivity|].
  symmetry. rewrite !andb_true_iff, !Z.leb_le. lia.
Qed.

End Basics.

(** ** Stack capture *)

Section Capture.
Import runtime Meta Props.
Variable rt : Env.
Variable skip : Z.

Lemma make_length (n : Z) : List.length (make n) = Z.to_nat n.
Proof. apply repeat_length. Qed.

Lemma callCallers_length (pcs : list uintptr) :
  List.length (fst (callCallers rt skip pcs)) = List.length pcs.
Proof.
  unfold callCallers. cbn [fst].
  rewrite length_app, length_skipn.
  pose proof (firstn_le_length (List.length pcs)
                (Callers rt skip (List.length pcs))). lia.
Qed.

Lemma callCallers_count (pcs : list uintptr) :
  snd (callCallers rt skip pcs)
  = Z.of_nat (List.length (firstn (List.length pcs)
                             (Callers rt skip (List.length pcs)))).
Proof. reflexivity. Qed.

Lemma callCallers_count_bounds (pcs : list uintptr) :
  0 <= snd (callCallers rt skip pcs) <= Z.of_nat (List.length pcs).
Proof.
  rewrite callCallers_count.
  pose proof (firstn_le_length (List.length pcs)
                (Callers rt skip (List.length pcs))). lia.
Qed.

Lemma filled_count (pcs : list uintptr) :
  filled rt skip (Z.of_nat (List.length pcs))
  = (snd (callCallers rt skip pcs) =? Z.of_nat (List.length pcs)).
Proof. unfold filled. rewrite Nat2Z.id. reflexivity. Qed.

(** The loop ends within [k] rounds when the buffer is [k] doublings
    away from the cap, and logs exactly the doublings it made. *)
Lemma growLoop_spec (fuel : nat) :
  forall (pcs : list uintptr) (sizes : list Z) (k : nat),
    Z.of_nat (List.length pcs) * 2 ^ Z.of_nat k = maxStackDepth ->
    (k <= fuel)%nat ->
    exists pcs' more,
      growLoop fuel rt skip (fst (callCallers rt skip pcs))
               (snd (callCallers rt skip pcs)) sizes
      = Some (fst (callCallers rt skip pcs'),
              snd (callCallers rt skip pcs'), more ++ sizes)
      /\ Z.of_nat (List.length pcs') <= maxStackDepth
      /\ doublesWhileFilled rt skip
           (Z.of_nat (List.length pcs) :: rev more)
      /\ Forall (fun size => size <= maxStackDepth) more.
Proof.
  induction fuel as [|fuel IH]; intros pcs sizes k Hk Hfuel.
  - assert (k = 0%nat) by lia. subst k. cbn in Hk.
    exists pcs, []. cbn [growLoop].
    rewrite callCallers_length.
    replace (Z.of_nat (List.length pcs) <? maxStackDepth) with false
      by (symmetry; apply Z.ltb_ge; lia).
    rewrite andb_false_r. repeat split; auto; try lia.
    cbn. rewrite andb_false_iff. right. apply Z.ltb_ge. lia.
  - cbn [growLoop]. rewrite callCallers_length.
    destruct ((snd (callCallers rt skip pcs) =? Z.of_nat (List.length pcs))
              && (Z.of_nat (List.length pcs) <? maxStackDepth)) eqn:Hc.
    + apply andb_true_iff in Hc as [Hn Hlt]. apply Z.ltb_lt in Hlt.
      destruct k as [|k]; [cbn in Hk; lia|].
      set (pcs2 := make (Z.of_nat (List.length pcs) * 2)).
      assert (Hlen2 : Z.of_nat (List.length pcs2)
                      = Z.of_nat (List.length pcs) * 2).
      { unfold pcs2. rewrite make_length. lia. }
      destruct (IH pcs2 (Z.of_nat (List.length pcs2) :: sizes) k)
        as (pcs' & more & Hrun & Hle & Hlog & Hall).
      { rewrite Hlen2. rewrite Nat2Z.inj_succ, Z.pow_succ_r in Hk; lia. }
      { lia. }
      exists pcs', (more ++ [Z.of_nat (List.length pcs2)]).
      destruct (callCallers rt skip pcs2) as [pcs3 n3] eqn:Hcall.
      assert (Hlen3 : List.length pcs3 = List.length pcs2).
      { pose proof (callCallers_length pcs2) as H.
        rewrite Hcall in H. exact H. }
      rewrite Hlen3. cbn [fst snd] in Hrun. rewrite Hrun.
      rewrite <- app_assoc. cbn [app].
      repeat split; auto.
      * rewrite rev_app_distr. cbn [rev app].
        cbn [doublesWhileFilled].
        repeat split; auto.
        -- rewrite filled_count, Hn. apply andb_true_iff; split; auto.
           apply Z.ltb_lt; exact Hlt.
        -- lia.
      * apply Forall_app; split; auto.
        constructor; auto. rewrite Hlen2. 
        rewrite Nat2Z.inj_succ, Z.pow_succ_r in Hk by lia.
        assert (0 < 2 ^ Z.of_nat k) by (apply Z.pow_pos_nonneg; lia).
        nia.
    + exists pcs, []. repeat split; auto.
      * assert (0 < 2 ^ Z.of_nat k) by (apply Z.pow_pos_nonneg; lia).
        nia.
      * cbn. rewrite filled_count. exact Hc.
Qed.

(** What [captureStackTrace] returns for any fuel from 4 on. *)
Lemma captureStackTrace_spec (extra : nat) :
  exists pcs sizes,
    captureStackTrace (4 + extra) rt skip = Some (Ok pcs, sizes)
    /\ (List.length pcs <= Z.to_nat maxStackDepth)%nat
    /\ (exists later, rev sizes = initialStackSize :: later)
    /\ doublesWhileFilled rt skip (rev sizes)
    /\ Forall (fun size => size <= maxStackDepth) sizes.
Proof.
  unfold captureStackTrace.
  set (pcs0 := make initialStackSize).
  assert (Hlen0 : List.length pcs0 = 64%nat) by reflexivity.
  destruct (growLoop_spec (4 + extra) pcs0
              [Z.of_nat (List.length (fst (callCallers rt skip pcs0)))] 4)
    as (pcs' & more & Hrun & Hle & Hlog & Hall).
  { rewrite Hlen0. reflexivity. }
  { lia. }
  destruct (callCallers rt skip pcs0) as [pcs1 n1] eqn:Hcall.
  cbn [fst snd] in Hrun. rewrite Hrun.
  pose proof (callCallers_length pcs') as Hlen'.
  pose proof (callCallers_count_bounds pcs') as Hn'.
  destruct (callCallers rt skip pcs') as [pcs2 n2]. cbn [fst snd] in *.
  replace (maxStackDepth <? Z.of_nat (List.length pcs2)) with false
    by (symmetry; apply Z.ltb_ge; lia).
  unfold slice_pcs.
  replace ((0 <=? n2) && (n2 <=? Z.of_nat (List.length pcs2))) with true
    by (symmetry; rewrite andb_true_iff, !Z.leb_le; lia).
  do 2 eexists. split; [reflexivity|].
  assert (Hlen1 : List.length pcs1 = 64%nat).
  { pose proof (callCallers_length pcs0) as H. rewrite Hcall in H.
    cbn [fst] in H. rewrite H. exact Hlen0. }
  rewrite Hlen1 in *. rewrite Hlen0 in Hlog.
  repeat split.
  - rewrite length_firstn. lia.
  - rewrite rev_app_distr. cbn. eexists; reflexivity.
  - rewrite rev_app_distr. exact Hlog.
  - apply Forall_app; split; auto. constructor; auto.
    unfold maxStackDepth. lia.
Qed.

Lemma growLoop_more_fuel (fuel : nat) :
  forall pcs n sizes r,
    growLoop fuel rt skip pcs n sizes = Some r ->
    forall extra, growLoop (fuel + extra) rt skip pcs n sizes = Some r.
Proof.
  induction fuel as [|fuel IH]; intros pcs n sizes r H extra.
  - cbn [growLoop] in H. cbn [Nat.add].
    destruct ((n =? Z.of_nat (List.length pcs))
              && (Z.of_nat (List.length pcs) <? maxStackDepth)) eqn:Hc;
      [discriminate H|].
    destruct extra; cbn [growLoop]; rewrite Hc; exact H.
  - cbn [growLoop Nat.add] in *.
    destruct ((n =? Z.of_nat (List.length pcs))
              && (Z.of_nat (List.length pcs) <? maxStackDepth));
      [|exact H].
    destruct (callCallers rt skip (make (Z.of_nat (List.length pcs) * 2)))
      as [pcs' n'].
    apply IH. exact H.
Qed.

(** More fuel than 4 changes nothing. *)
Lemma captureStackTrace_more_fuel (extra : nat) :
  captureStackTrace (4 + extra) rt skip = captureStackTrace 4 rt skip.
Proof.
  destruct (captureStackTrace_spec 0) as (pcs & sizes & H & _).
  cbn [Nat.add] in H. rewrite H.
  unfold captureStackTrace in *.
  destruct (callCallers rt skip (make initialStackSize)) as [pcs0 n0].
  destruct (growLoop 4 rt skip pcs0 n0 [Z.of_nat (List.length pcs0)])
    as [r|] eqn:E; [|discriminate H].
  rewrite (growLoop_more_fuel 4 _ _ _ _ E extra). exact H.
Qed.

End Capture.

(** ** Construction *)

Section Construction.
Import runtime Meta Props.

Lemma splitFuncName_ok (fn : option gostring) :
  exists funcName packageName, splitFuncName fn = Ok (funcName, packageName).
Proof.
  destruct fn as [full|]; unfold splitFuncName; [|eauto].
  destruct (LastIndex_bounds full ".") as [H|[H1 H2]].
  - rewrite H. cbn. eauto.
  - replace (len (str ".")) with 1 in H2 by reflexivity.
    destruct (strings.LastIndex full "." =? -1) eqn:E;
      [apply Z.eqb_eq in E; lia|].
    cbn [negb]. unfold slice_to, slice_from.
    rewrite !slice_ok by lia. cbn. eauto.
Qed.

(** [NewMetaErrorOptions] never panics; it allocates one object, whose
    fields are as follows. *)
Lemma NewMetaErrorOptions_spec (rt : Env) (err : option error) (skip : Z)
    (captureStack asCSV : bool) (s : Store) :
  exists funcName packageName pcs,
    NewMetaErrorOptions rt err skip captureStack asCSV s
    = Ok (alloc (mkMetaError err (filepath.Base (reportedFile rt skip))
                   (reportedLine rt skip) funcName packageName pcs []
                   asCSV) s)
    /\ splitFuncName (FuncForPC rt (reportedPC rt skip))
       = Ok (funcName, packageName)
    /\ (List.length pcs <= 1024)%nat
    /\ (if captureStack
        then exists sizes, captureStackTrace 4 rt skip = Some (Ok pcs, sizes)
        else pcs = []).
Proof.
  unfold NewMetaErrorOptions, reportedFile, reportedLine, reportedPC.
  destruct (Caller rt skip) as [[[pc file] line] ok].
  destruct (splitFuncName_ok (FuncForPC rt pc)) as (fn & pkg & Hsplit).
  rewrite Hsplit. cbn [bind].
  destruct captureStack.
  - destruct (captureStackTrace_spec rt skip 1020)
      as (pcs & sizes & Hrun & Hlen & _).
    change (4 + 1020)%nat with loopFuel in Hrun. rewrite Hrun.
    cbn [bind]. exists fn, pkg, pcs. repeat split; auto.
    exists sizes. rewrite <- (captureStackTrace_more_fuel rt skip 1020).
    exact Hrun.
  - exists fn, pkg, []. repeat split; auto. cbn. lia.
Qed.

(** C7. With stack capture enabled the loop of [NewMetaErrorOptions]
    terminates whatever [runtime.Callers] answers: any fuel from 4 on
    gives the same result.  The first buffer has 64 entries; a buffer is
    followed by one of twice its length exactly when the call filled it
    completely and it was still below 1024; and the stack that the
    constructor stores is the one captured, of at most 1024 frames. *)
Theorem stack_capture_terminates_bounded :
  forall (rt : Env) (skip : Z),
  exists pcs sizes,
    (forall extra : nat,
        captureStackTrace (4 + extra) rt skip = Some (Ok pcs, sizes))
    /\ (List.length pcs <= 1024)%nat
    /\ (exists later, rev sizes = 64 :: later)
    /\ doublesWhileFilled rt skip (rev sizes)
    /\ Forall (fun size => size <= 1024) sizes
    /\ forall err asCSV s,
       exists p s' obj,
         NewMetaErrorOptions rt err skip true asCSV s = Ok (p, s')
         /\ deref s' p = Ok obj
         /\ stackTrace obj = pcs.
Proof.
  intros rt skip.
  destruct (captureStackTrace_spec rt skip 0)
    as (pcs & sizes & Hrun & Hlen & Hfirst & Hlog & Hall).
  cbn [Nat.add] in Hrun.
  exists pcs, sizes. split.
  { intros extra. rewrite captureStackTrace_more_fuel. exact Hrun. }
  do 4 (split; [assumption|]).
  intros err asCSV s.
  destruct (NewMetaErrorOptions_spec rt err skip true asCSV s)
    as (fn & pkg & pcs' & Hnew & _ & _ & sizes' & Hrun').
  rewrite Hnew. unfold alloc. do 3 eexists.
  split; [reflexivity|]. split.
  - unfold deref. cbn [heap lookup]. rewrite Nat.eqb_refl. reflexivity.
  - cbn [stackTrace]. congruence.
Qed.

Lemma lastElement_no_separator (rpath : gostring) (c : ascii) :
  In c (filepath.lastElement rpath) -> filepath.IsPathSeparator c = false.
Proof.
  induction rpath as [|d rpath IH]; cbn; [tauto|].
  destruct (filepath.IsPathSeparator d) eqn:E; cbn; [tauto|].
  intros [<-|H]; auto.
Qed.

Lemma Base_no_separator (path : gostring) :
  filepath.Base path = str "/" \/ ~ In "/"%char (filepath.Base path).
Proof.
  unfold filepath.Base. destruct path as [|c path].
  - right. cbn. intros [H|[]]. discriminate H.
  - set (r := filepath.lastElement _).
    destruct (rev r) eqn:E; [left; reflexivity|].
    right. rewrite <- E. intros H. apply in_rev in H.
    apply lastElement_no_separator in H. discriminate H.
Qed.

(** The directory part goes: a path that ends in a separator-free,
    non-empty name after a separator has that name as its base. *)
Lemma Base_strips_directory (dir name : gostring) :
  name <> [] -> ~ In "/"%char name ->
  filepath.Base (dir ++ "/"%char :: name) = name.
Proof.
  intros Hne Hno. unfold filepath.Base.
  destruct (dir ++ "/"%char :: name) eqn:E;
    [destruct dir; discriminate E|]. rewrite <- E. clear E.
  assert (Hstrip : filepath.stripLeadingSeps (rev (dir ++ "/"%char :: name))
                   = rev (dir ++ "/"%char :: name)).
  { rewrite rev_app_distr. cbn [rev]. rewrite <- !app_assoc.
    destruct (rev name) as [|c rn] eqn:Ern.
    - apply (f_equal (@rev ascii)) in Ern. rewrite rev_involutive in Ern.
      contradiction.
    - cbn. destruct (filepath.IsPathSeparator c) eqn:Ec; [|reflexivity].
      exfalso. apply Hno. apply byte_eqb_eq in Ec. subst c.
      apply in_rev. rewrite Ern. left; reflexivity. }
  rewrite Hstrip, rev_involutive.
  assert (Hlast : forall rn tail,
             ~ In "/"%char rn ->
             filepath.lastElement (rn ++ "/"%char :: tail) = rn).
  { induction rn as [|c rn IH]; intros tail Hn; cbn.
    - reflexivity.
    - destruct (filepath.IsPathSeparator c) eqn:Ec.
      + exfalso. apply Hn. apply byte_eqb_eq in Ec. left; auto.
      + f_equal. apply IH. intros H. apply Hn. right; exact H. }
  rewrite rev_app_distr. cbn [rev]. rewrite <- app_assoc. cbn [app].
  rewrite Hlast by (intros H; apply Hno; apply in_rev; exact H).
  rewrite rev_involutive. destruct name; [contradiction|reflexivity].
Qed.

(** C10, as stated, fails: the verbose format of an instance with a
    captured stack prints the frames with their full file paths, the
    caller's among them. *)
Lemma verbose_format_shows_full_path :
  exists p s out s',
    NewMetaErrorOptions Samples.env Samples.boom 1 true false emptyStore
    = Ok (p, s)
    /\ reportedFile Samples.env 1 = str "/home/u/app/main.go"
    /\ Format Samples.env p true (byteval "v") s = Ok (out, s')
    /\ strings.Contains out "/home/u/app/main.go" = true.
Proof.
  do 4 eexists. split; [vm_compute; reflexivity|].
  split; [reflexivity|].
  split; [vm_compute; reflexivity|].
  vm_compute. reflexivity.
Qed.

End Construction.

(** ** The store *)

Section StoreFacts.
Import runtime Meta Props.

Lemma update_length (h : list MetaError) l f :
  List.length (update h l f) = List.length h.
Proof.
  induction h as [|obj h IH]; cbn; [reflexivity|].
  destruct (Nat.eqb l (List.length h)); cbn; congruence.
Qed.

Lemma lookup_update_same (h : list MetaError) l f obj :
  lookup h l = Some obj -> lookup (update h l f) l = Some (f obj).
Proof.
  induction h as [|o h IH]; cbn; [discriminate|].
  destruct (Nat.eqb l (List.length h)) eqn:E; cbn.
  - rewrite E. congruence.
  - rewrite update_length, E. exact IH.
Qed.

Lemma lookup_update_other (h : list MetaError) l l' f :
  l' <> l -> lookup (update h l f) l' = lookup h l'.
Proof.
  intros Hne. induction h as [|o h IH]; cbn; [reflexivity|].
  destruct (Nat.eqb l (List.length h)) eqn:E; cbn.
  - apply Nat.eqb_eq in E. subst l.
    destruct (Nat.eqb l' (List.length h)) eqn:E'; [|reflexivity].
    apply Nat.eqb_eq in E'. contradiction.
  - rewrite update_length. destruct (Nat.eqb l' (List.length h)); auto.
Qed.

Lemma update_twice (h : list MetaError) l v :
  update (update h l (set_stackTraceString v)) l (set_stackTraceString v)
  = update h l (set_stackTraceString v).
Proof.
  induction h as [|o h IH]; cbn; [reflexivity|].
  destruct (Nat.eqb l (List.length h)) eqn:E; cbn.
  - rewrite E. reflexivity.
  - rewrite update_length, E, IH. reflexivity.
Qed.

(** Rendering the stack of an object changes no message. *)
Lemma errorOf_update (h : list MetaError) l v (e : error) :
  errorOf (update h l (set_stackTraceString v)) e = errorOf h e.
Proof.
  revert e. induction h as [|o h IH]; intros e; [reflexivity|].
  cbn [update]. destruct (Nat.eqb l (List.length h)) eqn:E.
  - destruct e as [m|m e'|[|l']]; cbn; try reflexivity.
  - destruct e as [m|m e'|[|l']]; cbn; try reflexivity.
    rewrite update_length.
    destruct (Nat.eqb l' (List.length h)); [|apply IH].
    destruct (Err o); [apply IH|reflexivity].
Qed.

Lemma StackTrace_spec (rt : Env) (l : nat) (s : Store) (obj : MetaError) :
  lookup (heap s) l = Some obj ->
  StackTrace rt (addr l) s
  = Ok (rendered rt obj,
        match stackTrace obj with
        | [] => s
        | _ :: _ =>
            mkStore (update (heap s) l
                       (set_stackTraceString (rendered rt obj)))
                    ((l, rendered rt obj) :: writes s)
        end).
Proof.
  intros H. unfold StackTrace, deref, rendered. rewrite H. cbn [bind].
  destruct (stackTrace obj); reflexivity.
Qed.

Lemma ToCSV_after_StackTrace (rt : Env) (l : nat) (s : Store) obj :
  lookup (heap s) l = Some obj ->
  forall t s1, StackTrace rt (addr l) s = Ok (t, s1) ->
  ToCSV (addr l) s1 = ToCSV (addr l) s.
Proof.
  intros H t s1 Hst. rewrite (StackTrace_spec rt l s obj H) in Hst.
  injection Hst as <- <-.
  destruct (stackTrace obj) eqn:E; [reflexivity|].
  unfold ToCSV, deref. cbn [heap].
  rewrite (lookup_update_same _ _ _ _ H), H. cbn [bind].
  unfold callError. cbn [heap Err set_stackTraceString].
  destruct (Err obj); [|reflexivity].
  rewrite errorOf_update. reflexivity.
Qed.

End StoreFacts.

(** ** The rendered stack *)

Section Rendering.
Import runtime Meta Props.

(** C9, as stated, fails: two calls of [StackTrace] on one instance
    write its [stackTraceString] twice. *)
Lemma stack_trace_written_on_every_call :
  exists p s t1 s1 t2 s2,
    NewMetaErrorOptions Samples.env Samples.boom 1 true true emptyStore
    = Ok (p, s)
    /\ StackTrace Samples.env p s = Ok (t1, s1)
    /\ StackTrace Samples.env p s1 = Ok (t2, s2)
    /\ List.length (writes s) = 0%nat
    /\ List.length (writes s2) = 2%nat.
Proof.
  do 6 eexists. split; [vm_compute; reflexivity|].
  split; [vm_compute; reflexivity|].
  split; [vm_compute; reflexivity|].
  split; reflexivity.
Qed.

(** C9, amended. [StackTrace] is the only method that writes to an
    instance, and all it writes is [stackTraceString]: every other
    field, and every other object, stays as it was.  With no captured
    stack it returns the empty string and writes nothing.  Otherwise
    each call renders the frames anew and assigns the result, the same
    string every time: a second call returns what the first returned
    and leaves the objects as the first left them. *)
Theorem stack_trace_rerendered_same_string :
  forall rt l s obj,
    lookup (heap s) l = Some obj ->
    exists s1 s2 obj1,
      StackTrace rt (addr l) s = Ok (rendered rt obj, s1)
      /\ StackTrace rt (addr l) s1 = Ok (rendered rt obj, s2)
      /\ heap s2 = heap s1
      /\ lookup (heap s1) l = Some obj1
      /\ sameButRendered obj obj1
      /\ (forall l', l' <> l -> lookup (heap s1) l' = lookup (heap s) l')
      /\ match stackTrace obj with
         | [] => rendered rt obj = [] /\ s1 = s
         | _ :: _ =>
             stackTraceString obj1 = rendered rt obj
             /\ writes s1 = (l, rendered rt obj) :: writes s
             /\ writes s2 = (l, rendered rt obj) :: writes s1
         end.
Proof.
  intros rt l s obj H.
  rewrite (StackTrace_spec rt l s obj H).
  destruct (stackTrace obj) as [|pc pcs] eqn:E.
  - exists s, s, obj. rewrite (StackTrace_spec rt l s obj H), E.
    repeat split; auto. unfold rendered. rewrite E. reflexivity.
  - set (t := rendered rt obj).
    set (s1 := mkStore (update (heap s) l (set_stackTraceString t))
                       ((l, t) :: writes s)).
    assert (H1 : lookup (heap s1) l = Some (set_stackTraceString t obj)).
    { apply lookup_update_same. exact H. }
    assert (Ht : rendered rt (set_stackTraceString t obj) = t).
    { unfold t, rendered. cbn [stackTrace set_stackTraceString].
      reflexivity. }
    exists s1. eexists. exists (set_stackTraceString t obj).
    rewrite (StackTrace_spec rt l s1 _ H1), Ht.
    cbn [stackTrace set_stackTraceString]. rewrite E.
    split; [reflexivity|]. split; [reflexivity|].
    split; [cbn [heap]; apply update_twice|].
    split; [exact H1|].
    split; [repeat split|].
    split; [intros l' Hl'; apply lookup_update_other; exact Hl'|].
    repeat split.
Qed.

Lemma stack_trace_rerendered_same_string_witness :
  lookup (heap (mkStore [Samples.plainObject] [])) 0 = Some Samples.plainObject
  /\ exists s1 s2 obj1,
      StackTrace Samples.env (addr 0) (mkStore [Samples.plainObject] [])
      = Ok (rendered Samples.env Samples.plainObject, s1)
      /\ StackTrace Samples.env (addr 0) s1
         = Ok (rendered Samples.env Samples.plainObject, s2)
      /\ heap s2 = heap s1
      /\ lookup (heap s1) 0 = Some obj1
      /\ sameButRendered Samples.plainObject obj1
      /\ (forall l', l' <> 0%nat ->
                     lookup (heap s1) l'
                     = lookup (heap (mkStore [Samples.plainObject] [])) l')
      /\ stackTraceString obj1 = rendered Samples.env Samples.plainObject
      /\ writes s1 = [(0%nat, rendered Samples.env Samples.plainObject)]
      /\ writes s2 = (0%nat, rendered Samples.env Samples.plainObject)
                       :: writes s1.
Proof.
  split; [reflexivity|].
  exact (stack_trace_rerendered_same_string Samples.env 0
           (mkStore [Samples.plainObject] []) Samples.plainObject eq_refl).
Defined.

End Rendering.

(** ** Formatting in compact mode *)

Section CompactFormat.
Import runtime Meta Props.

(** C4, as stated, fails: in compact mode the verbose format does not
    produce exactly the record. *)
Lemma compact_verbose_format_is_not_the_record :
  exists p s out s' rec,
    NewMetaErrorOptions Samples.env Samples.boom 1 true true emptyStore
    = Ok (p, s)
    /\ Format Samples.env p true (byteval "v") s = Ok (out, s')
    /\ ToCSV p s = Ok rec
    /\ out <> rec.
Proof.
  do 5 eexists. split; [vm_compute; reflexivity|].
  split; [vm_compute; reflexivity|].
  split; [vm_compute; reflexivity|].
  discriminate.
Qed.

(** C4, amended. For an instance in compact mode, every verb and flag
    combination other than the verbose one gives exactly what [ToCSV]
    gives, and panics where [ToCSV] panics.  The verbose one, the verb
    [v] under the plus flag, starts with the record, a separator and the
    rendered stack. *)
Theorem compact_format_writes_record :
  forall rt l s obj plus verb,
    lookup (heap s) l = Some obj ->
    asCSV obj = true ->
    if (verb =? byteval "v") && plus then
      match ToCSV (addr l) s, StackTrace rt (addr l) s,
            Format rt (addr l) plus verb s with
      | Ok rec, Ok (st, s1), Ok (out, s') =>
          s' = s1 /\ startsWith out (rec ++ str "|" ++ st)
      | Panic _, _, Panic _ => True
      | _, _, _ => False
      end
    else
      Format rt (addr l) plus verb s
      = (rec <- ToCSV (addr l) s ;; Ok (rec, s)).
Proof.
  intros rt l s obj plus verb H Hcsv.
  unfold Format, deref. rewrite H. cbn [bind]. rewrite Hcsv.
  destruct (verb =? byteval "v") eqn:Ev; cbn [andb].
  - destruct plus.
    + pose proof (ToCSV_after_StackTrace rt l s obj H) as Hsame.
      rewrite (StackTrace_spec rt l s obj H) in *.
      destruct (ToCSV (addr l) s) as [rec|msg] eqn:Hrec; cbn [bind]; auto.
      cbn [fst snd]. rewrite (Hsame _ _ eq_refl). try rewrite Hrec. cbn [bind].
      split; [reflexivity|].
      exists rec. rewrite <- !app_assoc. reflexivity.
    + cbn [bind fst snd]. destruct (ToCSV (addr l) s); reflexivity.
  - reflexivity.
Qed.

Lemma compact_format_writes_record_witness :
  lookup (heap (mkStore [Samples.plainObject] [])) 0
  = Some Samples.plainObject
  /\ asCSV Samples.plainObject = true
  /\ Format Samples.env (addr 0) false (byteval "s")
       (mkStore [Samples.plainObject] [])
     = (rec <- ToCSV (addr 0) (mkStore [Samples.plainObject] []) ;;
        Ok (rec, mkStore [Samples.plainObject] [])).
Proof.
  split; [reflexivity|]. split; [reflexivity|].
  exact (compact_format_writes_record Samples.env 0
           (mkStore [Samples.plainObject] []) Samples.plainObject
           false (byteval "s") eq_refl eq_refl).
Defined.

End CompactFormat.

(** ** Slices and searches on decomposed strings *)

Section Slices.

Lemma sub_to (s : gostring) (i : Z) : sub s 0 i = firstn (Z.to_nat i) s.
Proof. unfold sub. rewrite Z.sub_0_r. reflexivity. Qed.

Lemma sub_from (s : gostring) (i : Z) :
  sub s i (len s) = skipn (Z.to_nat i) s.
Proof.
  unfold sub, len. apply firstn_all2. rewrite length_skipn. lia.
Qed.

Lemma sub_all (s : gostring) : sub s 0 (len s) = s.
Proof. rewrite sub_from. reflexivity. Qed.

Lemma sub_app_left (a b : gostring) : sub (a ++ b) 0 (len a) = a.
Proof.
  rewrite sub_to. unfold len. rewrite Nat2Z.id.
  rewrite firstn_app, Nat.sub_diag, firstn_all. cbn. apply app_nil_r.
Qed.

Lemma sub_app_right (a b : gostring) :
  sub (a ++ b) (len a) (len (a ++ b)) = b.
Proof.
  rewrite sub_from. unfold len. rewrite Nat2Z.id.
  rewrite skipn_app, Nat.sub_diag, skipn_all. reflexivity.
Qed.

Lemma sub_after (a b : gostring) (c : ascii) :
  sub (a ++ c :: b) (len a + 1) (len (a ++ c :: b)) = b.
Proof.
  replace (a ++ c :: b) with ((a ++ [c]) ++ b) by (rewrite <- app_assoc; reflexivity).
  replace (len a + 1) with (len (a ++ [c])) by (rewrite len_app; reflexivity).
  apply sub_app_right.
Qed.

Lemma sub_tail (c : ascii) (s : gostring) : sub (c :: s) 1 (len (c :: s)) = s.
Proof. apply (sub_after [] s c). Qed.

Lemma sub_nil (lo hi : Z) : sub [] lo hi = [].
Proof. unfold sub. rewrite skipn_nil, firstn_nil. reflexivity. Qed.

Lemma sub_length (s : gostring) (lo hi : Z) :
  0 <= lo <= hi -> hi <= len s -> len (sub s lo hi) = hi - lo.
Proof.
  intros H1 H2. unfold sub, len in *.
  rewrite length_firstn, length_skipn. lia.
Qed.

Lemma sub_length_le (s : gostring) (lo hi : Z) :
  (List.length (sub s lo hi) <= List.length s - Z.to_nat lo)%nat.
Proof.
  unfold sub. rewrite length_firstn, length_skipn. lia.
Qed.

Lemma byteAt_0 (c : ascii) (s : gostring) : byteAt (c :: s) 0 = byteval c.
Proof. reflexivity. Qed.

Lemma byteAt_app_right (a b : gostring) (i : Z) :
  0 <= i -> byteAt (a ++ b) (len a + i) = byteAt b i.
Proof.
  intros H. unfold byteAt, len.
  rewrite app_nth2 by lia. do 2 f_equal. lia.
Qed.

Lemma byteAt_app_left (a b : gostring) (i : Z) :
  0 <= i < len a -> byteAt (a ++ b) i = byteAt a i.
Proof.
  intros H. unfold byteAt, len in *. rewrite app_nth1 by lia. reflexivity.
Qed.

Lemma byteAt_last (s : gostring) :
  s <> [] -> byteAt s (len s - 1) = byteval (last s zero).
Proof.
  intros H. destruct (exists_last H) as (a & c & ->).
  rewrite last_last, len_app.
  replace (len a + len [c] - 1) with (len a + 0) by (unfold len; cbn; lia).
  rewrite byteAt_app_right by lia. reflexivity.
Qed.

Lemma byteval_inj (a b : ascii) : byteval a = byteval b -> a = b.
Proof.
  unfold byteval. intros H. apply N2Z.inj in H.
  rewrite <- (ascii_N_embedding a), <- (ascii_N_embedding b), H.
  reflexivity.
Qed.

Lemma byteval_eqb (a b : ascii) : (byteval a =? byteval b) = byte_eqb a b.
Proof.
  destruct (byte_eqb a b) eqn:E.
  - apply byte_eqb_eq in E. subst. apply Z.eqb_refl.
  - apply Z.eqb_neq. intros H. apply byteval_inj in H.
    apply byte_eqb_neq in E. contradiction.
Qed.

Lemma byteval_range (c : ascii) : 0 <= byteval c < 256.
Proof.
  unfold byteval. pose proof (N_ascii_bounded c). lia.
Qed.

(** *** [Index] *)

Lemma indexFrom_bounds (s sep : gostring) (i : Z) :
  let r := strings.indexFrom s sep i in
  r = -1 \/ (i <= r /\ r + len sep <= i + len s).
Proof.
  revert i. induction s as [|c s IH]; intros i r; subst r.
  - cbn. destruct sep; cbn; [right; unfold len; cbn; lia|left; reflexivity].
  - cbn [strings.indexFrom].
    destruct (strings.HasPrefix (c :: s) sep) eqn:HP.
    + right. apply HasPrefix_len in HP. lia.
    + destruct (IH (i + 1)) as [->|[H1 H2]]; [left; reflexivity|].
      right. rewrite len_cons. lia.
Qed.

Lemma IndexByte_bounds (s : gostring) (c : ascii) :
  strings.IndexByte s c = -1
  \/ 0 <= strings.IndexByte s c < len s.
Proof.
  unfold strings.IndexByte, strings.Index.
  destruct (indexFrom_bounds s [c] 0) as [H|[H1 H2]]; [left; exact H|].
  right. replace (len [c]) with 1 in H2 by reflexivity. lia.
Qed.

Lemma HasPrefix_byte (s : gostring) (c : ascii) :
  strings.HasPrefix s [c]
  = match s with [] => false | d :: _ => byte_eqb d c end.
Proof.
  destruct s as [|d s]; cbn; [reflexivity|].
  destruct s; apply andb_true_r.
Qed.

Lemma indexFrom_byte_found (a b : gostring) (c : ascii) (i : Z) :
  ~ In c a -> strings.indexFrom (a ++ c :: b) [c] i = i + len a.
Proof.
  revert i. induction a as [|d a IH]; intros i Hn.
  - cbn [app strings.indexFrom]. rewrite HasPrefix_byte, byte_eqb_refl.
    unfold len; cbn; lia.
  - cbn [app strings.indexFrom]. rewrite HasPrefix_byte.
    destruct (byte_eqb d c) eqn:E.
    + apply byte_eqb_eq in E. exfalso. apply Hn. left; exact E.
    + rewrite IH by (intros H; apply Hn; right; exact H).
      rewrite len_cons. lia.
Qed.

Lemma indexFrom_byte_missing (s : gostring) (c : ascii) (i : Z) :
  ~ In c s -> strings.indexFrom s [c] i = -1.
Proof.
  revert i. induction s as [|d s IH]; intros i Hn; [reflexivity|].
  cbn [strings.indexFrom]. rewrite HasPrefix_byte.
  destruct (byte_eqb d c) eqn:E.
  - apply byte_eqb_eq in E. exfalso. apply Hn. left; exact E.
  - apply IH. intros H. apply Hn. right; exact H.
Qed.

Lemma IndexByte_found (a b : gostring) (c : ascii) :
  ~ In c a -> strings.IndexByte (a ++ c :: b) c = len a.
Proof.
  intros H. unfold strings.IndexByte, strings.Index.
  rewrite indexFrom_byte_found by exact H. lia.
Qed.

Lemma IndexByte_missing (s : gostring) (c : ascii) :
  ~ In c s -> strings.IndexByte s c = -1.
Proof. apply indexFrom_byte_missing. Qed.

(** A string either lacks a byte or splits at its first occurrence. *)
Lemma split_at_first (s : gostring) (c : ascii) :
  ~ In c s \/ exists a b, s = a ++ c :: b /\ ~ In c a.
Proof.
  induction s as [|d s IH]; [left; intros []|].
  destruct (byte_eqb d c) eqn:E.
  - apply byte_eqb_eq in E. subst d. right. exists [], s. split; auto.
  - apply byte_eqb_neq in E. destruct IH as [H|(a & b & -> & H)].
    + left. intros [H1|H1]; auto.
    + right. exists (d :: a), b. split; [reflexivity|].
      intros [H1|H1]; auto.
Qed.

End Slices.

(** ** The csv reader, line by line *)

Section Lines.
Import Props.

Lemma rawLine_no_newline (s : gostring) :
  ~ In csv.LF s -> rawLine s = s /\ afterLine s = [].
Proof.
  induction s as [|c s IH]; intros Hn; [split; reflexivity|].
  cbn [rawLine afterLine]. destruct (byte_eqb c csv.LF) eqn:E.
  - apply byte_eqb_eq in E. exfalso. apply Hn. left; exact E.
  - destruct IH as [-> ->]; [intros H; apply Hn; right; exact H|].
    split; reflexivity.
Qed.

Lemma rawLine_newline (a b : gostring) :
  ~ In csv.LF a ->
  rawLine (a ++ csv.LF :: b) = a ++ [csv.LF]
  /\ afterLine (a ++ csv.LF :: b) = b.
Proof.
  induction a as [|c a IH]; intros Hn.
  - cbn [rawLine afterLine app]. rewrite byte_eqb_refl. split; reflexivity.
  - cbn [rawLine afterLine app]. destruct (byte_eqb c csv.LF) eqn:E.
    + apply byte_eqb_eq in E. exfalso. apply Hn. left; exact E.
    + destruct IH as [-> ->]; [intros H; apply Hn; right; exact H|].
      split; reflexivity.
Qed.

Lemma rawLine_cons (c : ascii) (s : gostring) :
  c <> csv.LF ->
  rawLine (c :: s) = c :: rawLine s /\ afterLine (c :: s) = afterLine s.
Proof.
  intros H. cbn [rawLine afterLine]. apply byte_eqb_neq in H. rewrite H.
  split; reflexivity.
Qed.

Lemma noCRLF_tail (c : ascii) (s : gostring) :
  noCRLF (c :: s) = true -> noCRLF s = true.
Proof.
  cbn [noCRLF]. destruct s; [reflexivity|]. intros H.
  apply andb_true_iff in H. apply H.
Qed.

Lemma plainLines_tail (c : ascii) (s : gostring) :
  plainLines (c :: s) -> plainLines s.
Proof.
  intros [H1 H2]. split; [eapply noCRLF_tail; exact H1|].
  destruct s as [|d s]; [cbn; discriminate|exact H2].
Qed.

Lemma plainLines_app_r (a b : gostring) : plainLines (a ++ b) -> plainLines b.
Proof.
  induction a as [|c a IH]; [auto|].
  intros H. apply IH. eapply plainLines_tail. exact H.
Qed.

Lemma noCRLF_before_LF (a b : gostring) :
  noCRLF (a ++ csv.LF :: b) = true -> a = [] \/ last a zero <> csv.CR.
Proof.
  induction a as [|c a IH]; [left; reflexivity|].
  intros H. right. destruct a as [|d a].
  - cbn [app noCRLF] in H. apply andb_true_iff in H as [H _].
    cbn [last]. intros ->. rewrite !byte_eqb_refl in H. discriminate H.
  - destruct (IH (noCRLF_tail _ _ H)) as [E|E]; [discriminate E|exact E].
Qed.

(** The measure of what the reader still holds. *)
Lemma readLine_newline (a b : gostring) :
  ~ In csv.LF a -> (a = [] \/ last a zero <> csv.CR) ->
  csv.readLine (a ++ csv.LF :: b) = (a ++ [csv.LF], false, b).
Proof.
  intros Hn Hcr. unfold csv.readLine.
  rewrite (IndexByte_found a b csv.LF Hn).
  replace (0 <=? len a) with true
    by (symmetry; apply Z.leb_le; apply len_nonneg).
  rewrite sub_after.
  replace (sub (a ++ csv.LF :: b) 0 (len a + 1)) with (a ++ [csv.LF]).
  2:{ replace (a ++ csv.LF :: b) with ((a ++ [csv.LF]) ++ b)
        by (rewrite <- app_assoc; reflexivity).
      replace (len a + 1) with (len (a ++ [csv.LF]))
        by (rewrite len_app; reflexivity).
      rewrite sub_app_left. reflexivity. }
  cbv beta iota zeta. rewrite andb_false_r. cbv beta iota zeta.
  replace ((2 <=? len (a ++ [csv.LF]))
           && (byteAt (a ++ [csv.LF]) (len (a ++ [csv.LF]) - 2)
               =? byteval csv.CR)) with false; [reflexivity|].
  symmetry. destruct Hcr as [->|Hcr]; [reflexivity|].
  destruct a as [|c a]; [reflexivity|].
  apply andb_false_iff. right.
  rewrite len_app. replace (len [csv.LF]) with 1 by reflexivity.
  replace (len (c :: a) + 1 - 2) with (len (c :: a) - 1) by lia.
  rewrite byteAt_app_left by (rewrite len_cons; pose proof (len_nonneg a); lia).
  rewrite byteAt_last by discriminate.
  rewrite byteval_eqb. apply byte_eqb_neq. exact Hcr.
Qed.

Lemma readLine_no_newline (s : gostring) :
  s <> [] -> ~ In csv.LF s -> last s zero <> csv.CR ->
  csv.readLine s = (s, false, []).
Proof.
  intros Hne Hn Hcr. unfold csv.readLine.
  rewrite (IndexByte_missing s csv.LF Hn).
  change (0 <=? -1) with false. cbv beta iota zeta.
  assert (Hlen : 0 < len s).
  { destruct s; [contradiction|rewrite len_cons; pose proof (len_nonneg s); lia]. }
  replace (0 <? len s) with true by (symmetry; apply Z.ltb_lt; exact Hlen).
  cbn [andb]. rewrite byteAt_last by exact Hne.
  rewrite byteval_eqb.
  replace (byte_eqb (last s zero) csv.CR) with false
    by (symmetry; apply byte_eqb_neq; exact Hcr).
  cbv beta iota zeta.
  replace ((2 <=? len s) && (byteAt s (len s - 2) =? byteval csv.CR)
           && (byteAt s (len s - 1) =? byteval csv.LF)) with false;
    [reflexivity|].
  symmetry. apply andb_false_iff. right.
  rewrite byteAt_last by exact Hne. rewrite byteval_eqb.
  apply byte_eqb_neq. intros E. apply Hn. rewrite <- E.
  destruct (exists_last Hne) as (a & c & ->).
  rewrite last_last. apply in_or_app. right. left. reflexivity.
Qed.

(** On a text with plain lines [readLine] hands out [rawLine]. *)
Lemma readLine_plain (text : gostring) :
  text <> [] -> plainLines text ->
  csv.readLine text = (rawLine text, false, afterLine text).
Proof.
  intros Hne [H1 H2].
  destruct (split_at_first text csv.LF) as [Hn|(a & b & -> & Hn)].
  - destruct (rawLine_no_newline text Hn) as [-> ->].
    apply readLine_no_newline; assumption.
  - destruct (rawLine_newline a b Hn) as [-> ->].
    apply readLine_newline; [exact Hn|].
    eapply noCRLF_before_LF. exact H1.
Qed.

End Lines.

(** ** The csv reader on a quoted field *)

Section QuotedField.
Import Props.

Lemma quotedField_unfold (fuel : nat) line eof input fields cur :
  csv.quotedField (S fuel) line eof input fields cur
  = let i := strings.IndexByte line csv.quote in
    if 0 <=? i then
      let cur := cur ++ sub line 0 i in
      let line := sub line (i + 1) (len line) in
      let rn := csv.nextRune line in
      if rn =? byteval csv.quote then
        csv.quotedField fuel (sub line 1 (len line)) eof input fields
                        (cur ++ [csv.quote])
      else if rn =? byteval csv.Comma then
        csv.parseField fuel (sub line 1 (len line)) eof input
                       (fields ++ [cur])
      else if csv.lengthNL line =? len line then
        Some (fields ++ [cur], None, eof)
      else Some (fields, Some csv.ErrQuote, eof)
    else if 0 <? len line then
      let cur := cur ++ line in
      if eof then Some (fields, None, eof)
      else
        let '(line, eof, input) := csv.readLine input in
        csv.quotedField fuel line false input fields cur
    else
      if negb eof then Some (fields, Some csv.ErrQuote, eof)
      else Some (fields ++ [cur], None, eof).
Proof. reflexivity. Qed.

Lemma parseField_unfold (fuel : nat) line eof input fields :
  csv.parseField (S fuel) line eof input fields
  = if (len line =? 0) || negb (byteAt line 0 =? byteval csv.quote) then
      let i := strings.IndexByte line csv.Comma in
      let field :=
        if 0 <=? i then sub line 0 i
        else sub line 0 (len line - csv.lengthNL line) in
      let j := strings.IndexByte field csv.quote in
      if 0 <=? j then Some (fields, Some csv.ErrBareQuote, eof)
      else
        let fields := fields ++ [field] in
        if 0 <=? i
        then csv.parseField fuel (sub line (i + 1) (len line)) eof input fields
        else Some (fields, None, eof)
    else
      csv.quotedField fuel (sub line 1 (len line)) eof input fields [].
Proof. reflexivity. Qed.

Lemma len_pos (c : ascii) (s : gostring) : (0 <? len (c :: s)) = true.
Proof. apply Z.ltb_lt. rewrite len_cons. pose proof (len_nonneg s). lia. Qed.

(** A byte in front of the line that is not a quote only moves to the
    field being read. *)
Lemma quotedField_skip_byte (fuel : nat) (c : ascii) (line : gostring)
    eof input fields cur :
  c <> csv.quote -> line <> [] ->
  csv.quotedField fuel (c :: line) eof input fields cur
  = csv.quotedField fuel line eof input fields (cur ++ [c]).
Proof.
  intros Hc Hne. destruct fuel as [|fuel]; [reflexivity|].
  rewrite !quotedField_unfold. cbv zeta.
  destruct (split_at_first line csv.quote) as [Hn|(a & b & -> & Hn)].
  - rewrite (IndexByte_missing line _ Hn).
    rewrite (IndexByte_missing (c :: line) csv.quote)
      by (intros [H|H]; [apply Hc; exact H|apply Hn; exact H]).
    change (0 <=? -1) with false. cbv iota.
    rewrite len_pos. destruct line as [|d line]; [contradiction|].
    rewrite len_pos. rewrite <- app_assoc. reflexivity.
  - rewrite (IndexByte_found a b _ Hn).
    change (c :: a ++ csv.quote :: b) with ((c :: a) ++ csv.quote :: b).
    rewrite (IndexByte_found (c :: a) b csv.quote)
      by (intros [H|H]; [apply Hc; exact H|apply Hn; exact H]).
    replace (0 <=? len a) with true
      by (symmetry; apply Z.leb_le; apply len_nonneg).
    replace (0 <=? len (c :: a)) with true
      by (symmetry; apply Z.leb_le; apply len_nonneg).
    rewrite !sub_after, !sub_app_left.
    replace ((cur ++ [c]) ++ a) with (cur ++ c :: a)
      by (rewrite <- app_assoc; reflexivity).
    reflexivity.
Qed.

Lemma len_nonzero (c : ascii) (s : gostring) : (len (c :: s) =? 0) = false.
Proof. apply Z.eqb_neq. rewrite len_cons. pose proof (len_nonneg s). lia. Qed.

Lemma IndexByte_head (c : ascii) (s : gostring) :
  strings.IndexByte (c :: s) c = 0.
Proof. exact (IndexByte_found [] s c (fun H => H)). Qed.

Lemma sub_empty (s : gostring) : sub s 0 0 = [].
Proof. reflexivity. Qed.

Lemma nextRune_ascii (c : ascii) (s : gostring) :
  byteval c < 128 -> csv.nextRune (c :: s) = byteval c.
Proof.
  intros H. unfold csv.nextRune, utf8.DecodeRuneInString.
  replace (byteval c <? utf8.RuneSelf) with true
    by (symmetry; apply Z.ltb_lt; exact H).
  reflexivity.
Qed.

Lemma rawLine_nonempty (s : gostring) : s <> [] -> rawLine s <> [].
Proof.
  destruct s as [|c s]; [contradiction|]. intros _. cbn [rawLine].
  destruct (byte_eqb c csv.LF); discriminate.
Qed.

(** The text left when the reader is inside a quoted field: the rest of
    the field, escaped, its closing quote, and [tail].  The reader gets
    to the end of the field with its bytes in hand, and [result] is what
    it goes on to return from there. *)
Lemma quotedField_reads_field (tail : gostring) (result : option csv.parsed)
    (fields : list gostring) (field : gostring) :
  match tail with
  | [] => result = Some (fields ++ [field], None, false)
  | c :: text =>
      c = csv.Comma
      /\ forall fuel, (List.length text < fuel)%nat ->
           csv.parseField fuel (rawLine text) false (afterLine text)
                          (fields ++ [field]) = result
  end ->
  forall (w cur : gostring) (fuel : nat),
    cur ++ w = field ->
    plainLines (escape w ++ csv.quote :: tail) ->
    (List.length (escape w ++ csv.quote :: tail) < fuel)%nat ->
    csv.quotedField fuel (rawLine (escape w ++ csv.quote :: tail)) false
                    (afterLine (escape w ++ csv.quote :: tail)) fields cur
    = result.
Proof.
  intros Htail. induction w as [|c w IH]; intros cur fuel Hcur Hplain Hfuel.
  - cbn [escape app] in *. rewrite app_nil_r in Hcur. subst cur.
    destruct (rawLine_cons csv.quote tail) as [-> ->]; [discriminate|].
    destruct fuel as [|fuel]; [cbn in Hfuel; lia|].
    rewrite quotedField_unfold. cbv zeta.
    rewrite IndexByte_head. change (0 <=? 0) with true. cbv iota.
    change (0 + 1) with 1. rewrite sub_tail, sub_empty, app_nil_r.
    destruct tail as [|d text].
    + cbn [rawLine]. subst result. reflexivity.
    + destruct Htail as [-> Hnext].
      destruct (rawLine_cons csv.Comma text) as [-> ->]; [discriminate|].
      rewrite nextRune_ascii by (cbv; reflexivity).
      change (byteval csv.Comma =? byteval csv.quote) with false.
      rewrite Z.eqb_refl. cbv iota. rewrite sub_tail.
      apply Hnext. cbn [List.length] in Hfuel. lia.
  - cbn [escape] in *. destruct (byte_eqb c csv.quote) eqn:Eq.
    + apply byte_eqb_eq in Eq. subst c. cbn [app] in *.
      destruct (rawLine_cons csv.quote
                  (csv.quote :: escape w ++ csv.quote :: tail))
        as [-> ->]; [discriminate|].
      destruct (rawLine_cons csv.quote (escape w ++ csv.quote :: tail))
        as [-> ->]; [discriminate|].
      destruct fuel as [|fuel]; [cbn in Hfuel; lia|].
      rewrite quotedField_unfold. cbv zeta.
      rewrite IndexByte_head. change (0 <=? 0) with true. cbv iota.
      change (0 + 1) with 1. rewrite sub_tail, sub_empty, app_nil_r.
      rewrite nextRune_ascii by (cbv; reflexivity).
      rewrite Z.eqb_refl. rewrite sub_tail.
      apply IH.
      * rewrite <- app_assoc. exact Hcur.
      * eapply plainLines_tail, plainLines_tail. exact Hplain.
      * cbn [List.length] in Hfuel. lia.
    + cbn [app] in *. destruct (byte_eqb c csv.LF) eqn:El.
      * apply byte_eqb_eq in El. subst c.
        cbn [rawLine afterLine]. rewrite byte_eqb_refl.
        destruct fuel as [|fuel]; [cbn in Hfuel; lia|].
        rewrite quotedField_unfold. cbv zeta.
        rewrite (IndexByte_missing [csv.LF] csv.quote)
          by (intros [H|[]]; discriminate H).
        change (0 <=? -1) with false. cbv iota. rewrite len_pos.
        rewrite readLine_plain.
        -- apply IH.
           ++ rewrite <- app_assoc. exact Hcur.
           ++ eapply plainLines_tail. exact Hplain.
           ++ cbn [List.length] in Hfuel. lia.
        -- destruct (escape w); discriminate.
        -- eapply plainLines_tail. exact Hplain.
      * apply byte_eqb_neq in Eq, El.
        destruct (rawLine_cons c (escape w ++ csv.quote :: tail) El)
          as [-> ->].
        rewrite quotedField_skip_byte.
        -- apply IH.
           ++ rewrite <- app_assoc. exact Hcur.
           ++ eapply plainLines_tail. exact Hplain.
           ++ cbn [List.length] in Hfuel. lia.
        -- exact Eq.
        -- apply rawLine_nonempty. destruct (escape w); discriminate.
Qed.

End QuotedField.

(** ** The csv writer *)

Section Writer.
Import Props.

Lemma indexSpecial_split (field : gostring) (i : Z) :
  (csv.indexSpecial field i = -1 /\ forallb (fun c => negb (special3 c)) field = true)
  \/ exists a c b,
       field = a ++ c :: b
       /\ forallb (fun c => negb (special3 c)) a = true
       /\ special3 c = true
       /\ csv.indexSpecial field i = i + len a.
Proof.
  revert i. induction field as [|d field IH]; intros i.
  - left. split; reflexivity.
  - cbn [csv.indexSpecial].
    destruct (special3 d) eqn:Ed; pose proof Ed as Ed'; unfold special3 in Ed';
      rewrite Ed'.
    + right. exists [], d, field. repeat split; auto.
      unfold len; cbn; lia.
    + destruct (IH (i + 1)) as [[H1 H2]|(a & c & b & -> & Ha & Hc & Hi)].
      * left. split; [exact H1|]. cbn [forallb].
        rewrite Ed, H2. reflexivity.
      * right. exists (d :: a), c, b. repeat split; auto.
        -- cbn [forallb]. rewrite Ed, Ha. reflexivity.
        -- rewrite Hi, len_cons. lia.
Qed.

Lemma escape_plain (a rest : gostring) :
  forallb (fun c => negb (special3 c)) a = true ->
  escape (a ++ rest) = a ++ escape rest.
Proof.
  induction a as [|c a IH]; intros H; [reflexivity|].
  cbn [forallb] in H. apply andb_true_iff in H as [Hc Ha].
  cbn [app escape]. unfold special3 in Hc.
  destruct (byte_eqb c csv.quote); [discriminate Hc|].
  rewrite IH by exact Ha. reflexivity.
Qed.

(** The loop of [Write] over a field that needs quotes doubles the
    quotes and copies every other byte. *)
Lemma writeQuotedLoop_escape (fuel : nat) :
  forall field, (List.length field < fuel)%nat ->
                csv.writeQuotedLoop fuel field = escape field.
Proof.
  induction fuel as [|fuel IH]; intros field Hfuel; [lia|].
  cbn [csv.writeQuotedLoop].
  destruct field as [|d field']; [reflexivity|].
  set (field := d :: field') in *.
  replace (len field <=? 0) with false
    by (symmetry; apply Z.leb_gt; unfold field; rewrite len_cons;
        pose proof (len_nonneg field'); lia).
  destruct (indexSpecial_split field 0)
    as [[Hi Hplain]|(a & c & b & Hsplit & Ha & Hc & Hi)].
  - rewrite Hi. change (-1 <? 0) with true. cbv iota zeta.
    rewrite sub_all. unfold sub. rewrite Z.sub_diag. cbn [Z.to_nat firstn].
    pose proof (escape_plain field [] Hplain) as He.
    rewrite app_nil_r in He. rewrite He. cbn [escape].
    rewrite app_nil_r. reflexivity.
  - rewrite Hi, Hsplit. cbn [Z.add].
    replace (len a <? 0) with false
      by (symmetry; apply Z.ltb_ge; apply len_nonneg).
    cbv iota zeta. rewrite sub_app_left, sub_app_right.
    rewrite escape_plain by exact Ha. f_equal.
    rewrite IH.
    2:{ rewrite Hsplit in Hfuel. rewrite length_app in Hfuel.
        cbn [List.length] in Hfuel. lia. }
    cbn [escape]. unfold special3 in Hc.
    destruct (byte_eqb c csv.quote); [reflexivity|].
    destruct (byte_eqb c csv.CR) eqn:E2;
      [apply byte_eqb_eq in E2; rewrite E2; reflexivity|].
    destruct (byte_eqb c csv.LF) eqn:E3;
      [apply byte_eqb_eq in E3; rewrite E3; reflexivity|discriminate Hc].
Qed.

Lemma writeField_quoted (field : gostring) :
  csv.fieldNeedsQuotes field = true ->
  csv.writeField field = csv.quote :: escape field ++ [csv.quote].
Proof.
  intros H. unfold csv.writeField. rewrite H. cbn [negb].
  rewrite writeQuotedLoop_escape by lia. reflexivity.
Qed.

Lemma writeField_unquoted (field : gostring) :
  csv.fieldNeedsQuotes field = false ->
  csv.writeField field = field /\ existsb csv.isSpecial field = false.
Proof.
  intros H. unfold csv.writeField. rewrite H. split; [reflexivity|].
  unfold csv.fieldNeedsQuotes in H.
  destruct (gostring_eqb field []) eqn:E0.
  - apply gostring_eqb_eq in E0. subst field. reflexivity.
  - destruct (gostring_eqb field (str "\.")); [discriminate H|].
    destruct (existsb csv.isSpecial field); [discriminate H|reflexivity].
Qed.

Lemma writeFields_later (n m : nat) (record : list gostring) :
  csv.writeFields (S n) record = csv.writeFields (S m) record.
Proof.
  revert n m. induction record as [|f record IH]; intros n m; [reflexivity|].
  cbn [csv.writeFields]. rewrite (IH (S n) (S m)). reflexivity.
Qed.

Lemma writeFields_first (f : gostring) (record : list gostring) :
  csv.writeFields 0 (f :: record)
  = csv.writeField f ++ csv.writeFields 1 record.
Proof. reflexivity. Qed.

Lemma writeFields_next (f : gostring) (record : list gostring) :
  csv.writeFields 1 (f :: record)
  = csv.Comma :: csv.writeField f ++ csv.writeFields 1 record.
Proof.
  cbn [csv.writeFields app]. rewrite (writeFields_later 1 0). reflexivity.
Qed.

Lemma not_special_in (field : gostring) (c : ascii) :
  existsb csv.isSpecial field = false -> csv.isSpecial c = true ->
  ~ In c field.
Proof.
  intros H Hc Hin. assert (existsb csv.isSpecial field = true).
  { apply existsb_exists. exists c. split; assumption. }
  congruence.
Qed.

Lemma rawLine_app (a b : gostring) :
  ~ In csv.LF a ->
  rawLine (a ++ b) = a ++ rawLine b /\ afterLine (a ++ b) = afterLine b.
Proof.
  induction a as [|c a IH]; intros Hn; [split; reflexivity|].
  cbn [app]. destruct (rawLine_cons c (a ++ b)) as [-> ->].
  - intros E. apply Hn. left. exact E.
  - destruct IH as [-> ->]; [intros H; apply Hn; right; exact H|].
    split; reflexivity.
Qed.

Lemma lengthNL_no_newline (s : gostring) :
  ~ In csv.LF s -> csv.lengthNL s = 0.
Proof.
  intros Hn. unfold csv.lengthNL.
  destruct s as [|c s]; [reflexivity|].
  rewrite len_pos. rewrite byteAt_last by discriminate.
  rewrite byteval_eqb.
  replace (byte_eqb (last (c :: s) zero) csv.LF) with false; [reflexivity|].
  symmetry. apply byte_eqb_neq. intros E. apply Hn. rewrite <- E.
  destruct (exists_last (l:=c :: s)) as (a & d & ->); [discriminate|].
  rewrite last_last. apply in_or_app. right. left. reflexivity.
Qed.

(** The reader, at the start of a field, on what the writer made of the
    fields still to come: it returns them all. *)
Lemma parseField_reads_fields (record : list gostring) :
  forall (f : gostring) (fields : list gostring) (fuel : nat),
    plainLines (csv.writeField f ++ csv.writeFields 1 record) ->
    (List.length (csv.writeField f ++ csv.writeFields 1 record) < fuel)%nat ->
    csv.parseField fuel
      (rawLine (csv.writeField f ++ csv.writeFields 1 record)) false
      (afterLine (csv.writeField f ++ csv.writeFields 1 record)) fields
    = Some (fields ++ f :: record, None, false).
Proof.
  induction record as [|g record IH]; intros f fields fuel Hplain Hfuel.
  - (* the last field *)
    cbn [csv.writeFields] in *. rewrite app_nil_r in *.
    destruct (csv.fieldNeedsQuotes f) eqn:Hq.
    + rewrite (writeField_quoted f Hq) in *.
      destruct (rawLine_cons csv.quote (escape f ++ [csv.quote]))
        as [-> ->]; [discriminate|].
      destruct fuel as [|fuel]; [lia|].
      rewrite parseField_unfold.
      rewrite byteAt_0, Z.eqb_refl, len_nonzero. cbn [orb negb]. rewrite sub_tail.
      apply (quotedField_reads_field [] _ fields f); auto.
      * eapply plainLines_tail. exact Hplain.
      * cbn [List.length] in Hfuel. lia.
    + destruct (writeField_unquoted f Hq) as [Hw Hspecial]. rewrite Hw in *.
      assert (HnLF : ~ In csv.LF f)
        by (apply not_special_in; [exact Hspecial|reflexivity]).
      assert (HnQ : ~ In csv.quote f)
        by (apply not_special_in; [exact Hspecial|reflexivity]).
      assert (HnC : ~ In csv.Comma f)
        by (apply not_special_in; [exact Hspecial|reflexivity]).
      destruct (rawLine_no_newline f HnLF) as [-> ->].
      destruct fuel as [|fuel]; [lia|].
      rewrite parseField_unfold.
      replace ((len f =? 0) || negb (byteAt f 0 =? byteval csv.quote))
        with true.
      2:{ symmetry. destruct f as [|c f]; [reflexivity|].
          rewrite byteAt_0, byteval_eqb.
          replace (byte_eqb c csv.quote) with false; [apply orb_true_r|].
          symmetry. apply byte_eqb_neq. intros ->. apply HnQ. left; auto. }
      cbv zeta. rewrite (IndexByte_missing f _ HnC).
      change (0 <=? -1) with false. cbv iota.
      rewrite lengthNL_no_newline by exact HnLF.
      rewrite Z.sub_0_r, sub_all.
      rewrite (IndexByte_missing f _ HnQ).
      change (0 <=? -1) with false. cbv iota. reflexivity.
  - (* a field followed by a separator *)
    rewrite writeFields_next in *.
    set (text := csv.writeField g ++ csv.writeFields 1 record) in *.
    assert (Hnext : forall fuel' fields',
               (List.length text < fuel')%nat ->
               csv.parseField fuel' (rawLine text) false (afterLine text)
                              fields'
               = Some (fields' ++ g :: record, None, false)).
    { intros fuel' fields' Hf. apply IH; [|exact Hf].
      apply (plainLines_app_r (csv.writeField f ++ [csv.Comma])).
      rewrite <- app_assoc. exact Hplain. }
    destruct (csv.fieldNeedsQuotes f) eqn:Hq.
    + rewrite (writeField_quoted f Hq) in *.
      cbn [app] in *. rewrite <- app_assoc in *. cbn [app] in *.
      destruct (rawLine_cons csv.quote
                  (escape f ++ csv.quote :: csv.Comma :: text))
        as [-> ->]; [discriminate|].
      destruct fuel as [|fuel]; [lia|].
      rewrite parseField_unfold.
      rewrite byteAt_0, Z.eqb_refl, len_nonzero. cbn [orb negb]. rewrite sub_tail.
      apply (quotedField_reads_field (csv.Comma :: text) _ fields f); auto.
      * split; [reflexivity|]. intros fuel' Hf. rewrite Hnext by exact Hf.
        rewrite <- app_assoc. reflexivity.
      * eapply plainLines_tail. exact Hplain.
      * cbn [List.length] in Hfuel. lia.
    + destruct (writeField_unquoted f Hq) as [Hw Hspecial]. rewrite Hw in *.
      assert (HnLF : ~ In csv.LF f)
        by (apply not_special_in; [exact Hspecial|reflexivity]).
      assert (HnQ : ~ In csv.quote f)
        by (apply not_special_in; [exact Hspecial|reflexivity]).
      assert (HnC : ~ In csv.Comma f)
        by (apply not_special_in; [exact Hspecial|reflexivity]).
      destruct (rawLine_app f (csv.Comma :: text) HnLF) as [-> ->].
      destruct (rawLine_cons csv.Comma text) as [-> ->]; [discriminate|].
      destruct fuel as [|fuel]; [lia|].
      rewrite parseField_unfold.
      replace ((len (f ++ csv.Comma :: rawLine text) =? 0)
               || negb (byteAt (f ++ csv.Comma :: rawLine text) 0
                        =? byteval csv.quote)) with true.
      2:{ symmetry. destruct f as [|c f]; [reflexivity|].
          cbn [app]. rewrite byteAt_0, byteval_eqb.
          replace (byte_eqb c csv.quote) with false; [apply orb_true_r|].
          symmetry. apply byte_eqb_neq. intros ->. apply HnQ. left; auto. }
      cbv zeta. rewrite (IndexByte_found f _ _ HnC).
      replace (0 <=? len f) with true
        by (symmetry; apply Z.leb_le; apply len_nonneg).
      rewrite sub_app_left, sub_after.
      rewrite (IndexByte_missing f _ HnQ).
      change (0 <=? -1) with false. cbv iota.
      rewrite Hnext.
      * rewrite <- app_assoc. reflexivity.
      * rewrite length_app in Hfuel. cbn [List.length] in Hfuel. lia.
Qed.

End Writer.

(** ** Reading back a written record *)

Section ReadWritten.
Import Props.

Lemma lengthNL_le (s : gostring) : 0 <= csv.lengthNL s <= 1.
Proof. unfold csv.lengthNL. destruct (_ && _); lia. Qed.

Lemma line_not_empty (c : ascii) (s : gostring) :
  c <> csv.LF ->
  (len (rawLine (c :: s)) =? csv.lengthNL (rawLine (c :: s))) = false.
Proof.
  intros Hc. destruct (rawLine_cons c s Hc) as [-> _].
  apply Z.eqb_neq. destruct (rawLine s) as [|d l] eqn:E.
  - unfold csv.lengthNL. rewrite len_pos.
    change (len [c] - 1) with 0. rewrite byteAt_0, byteval_eqb.
    replace (byte_eqb c csv.LF) with false
      by (symmetry; apply byte_eqb_neq; exact Hc).
    cbn. discriminate.
  - pose proof (lengthNL_le (c :: d :: l)).
    rewrite !len_cons. pose proof (len_nonneg l). lia.
Qed.

Lemma firstLine_plain (fuel : nat) (c : ascii) (s : gostring) :
  c <> csv.LF -> plainLines (c :: s) ->
  csv.firstLine (S fuel) (c :: s)
  = Some (rawLine (c :: s), false, afterLine (c :: s)).
Proof.
  intros Hc Hplain. cbn [csv.firstLine].
  rewrite readLine_plain by (auto; discriminate).
  rewrite line_not_empty by exact Hc. reflexivity.
Qed.

(** The first byte of a written record of two fields or more. *)
Lemma written_head (f g : gostring) (record : list gostring) :
  exists c t,
    csv.writeFields 0 (f :: g :: record) = c :: t
    /\ (c = csv.quote /\ csv.fieldNeedsQuotes f = true
        \/ c = csv.Comma /\ f = []
        \/ csv.fieldNeedsQuotes f = false /\ exists f', f = c :: f').
Proof.
  rewrite writeFields_first, writeFields_next.
  destruct (csv.fieldNeedsQuotes f) eqn:Hq.
  - rewrite (writeField_quoted f Hq). cbn [app]. eauto 6.
  - destruct (writeField_unquoted f Hq) as [-> _].
    destruct f as [|c f]; cbn [app]; eauto 8.
Qed.

Lemma unquoted_head (c : ascii) (f : gostring) :
  csv.fieldNeedsQuotes (c :: f) = false -> csv.isSpecial c = false.
Proof.
  intros Hq. destruct (writeField_unquoted _ Hq) as [_ H].
  cbn [existsb] in H. apply orb_false_iff in H. apply H.
Qed.

Lemma readRecord_written (f g : gostring) (record : list gostring)
    (fuel : nat) (n : Z) :
  let text := csv.writeFields 0 (f :: g :: record) in
  plainLines text ->
  (S (List.length text) < fuel)%nat ->
  csv.readRecord fuel n text
  = Some (f :: g :: record,
          if negb (Z.of_nat (List.length (f :: g :: record)) =? n)
          then Some csv.ErrFieldCount else None).
Proof.
  intros text Hplain Hfuel. unfold csv.readRecord.
  destruct (written_head f g record) as (c & t & Htext & Hc).
  fold text in Htext.
  assert (HcLF : c <> csv.LF).
  { destruct Hc as [[-> _]|[[-> _]|[Hq [f' ->]]]]; try discriminate.
    apply unquoted_head in Hq. intros ->. discriminate Hq. }
  destruct fuel as [|fuel]; [lia|].
  rewrite Htext in *. rewrite firstLine_plain by assumption.
  rewrite <- Htext in *. subst text.
  rewrite writeFields_first in *.
  rewrite parseField_reads_fields; [reflexivity|exact Hplain|lia].
Qed.

End ReadWritten.

(** ** Decimal integers *)

Section Decimal.
Import strconv.

Lemma digit_value (d : Z) :
  0 <= d <= 9 -> byteval (digit d) = 48 + d.
Proof.
  intros H. unfold byteval, digit.
  rewrite N_ascii_embedding by lia. lia.
Qed.

Lemma digit_isDigit (d : Z) : 0 <= d <= 9 -> isDigit (digit d) = true.
Proof.
  intros H. unfold isDigit. rewrite digit_value by exact H.
  change (byteval "0") with 48. change (byteval "9") with 57.
  apply andb_true_iff. split; apply Z.leb_le; lia.
Qed.

Lemma parseDigits_digit (d : Z) (s : gostring) (acc : Z) :
  0 <= d <= 9 ->
  parseDigits (digit d :: s) acc = parseDigits s (acc * 10 + d).
Proof.
  intros H. cbn [parseDigits]. rewrite digit_isDigit by exact H.
  rewrite digit_value by exact H. change (byteval "0") with 48.
  f_equal. lia.
Qed.

Lemma formatLoop_parse (fuel : nat) :
  forall u buf, 0 <= u < 2 ^ Z.of_nat fuel ->
                parseDigits (formatLoop fuel u buf) 0
                = parseDigits buf u.
Proof.
  induction fuel as [|fuel IH]; intros u buf Hu.
  - cbn in Hu. assert (u = 0) by lia. subst u. reflexivity.
  - cbn [formatLoop]. destruct (u <? 10) eqn:E.
    + apply Z.ltb_lt in E. rewrite parseDigits_digit by lia. reflexivity.
    + apply Z.ltb_ge in E. rewrite IH.
      * rewrite parseDigits_digit
          by (pose proof (Z.mod_pos_bound u 10); lia).
        f_equal. pose proof (Z.div_mod u 10). lia.
      * rewrite Nat2Z.inj_succ, Z.pow_succ_r in Hu by lia.
        split; [apply Z.div_pos; lia|].
        apply Z.div_lt_upper_bound; lia.
Qed.

Lemma formatUint_parse (u : Z) :
  0 <= u -> parseDigits (formatUint u) 0 = Some u.
Proof.
  intros Hu. unfold formatUint. rewrite formatLoop_parse; [reflexivity|].
  split; [exact Hu|].
  rewrite Nat2Z.inj_succ, Z2Nat.id by apply Z.log2_nonneg.
  destruct (Z.eq_dec u 0) as [->|Hne]; [cbn; lia|].
  apply Z.log2_spec. lia.
Qed.

Lemma formatLoop_digits (fuel : nat) :
  forall u buf, 0 <= u -> forallb isDigit buf = true ->
                forallb isDigit (formatLoop fuel u buf) = true.
Proof.
  induction fuel as [|fuel IH]; intros u buf Hu Hbuf; [exact Hbuf|].
  cbn [formatLoop]. destruct (u <? 10) eqn:E.
  - apply Z.ltb_lt in E. cbn [forallb].
    rewrite digit_isDigit by lia. exact Hbuf.
  - apply IH; [apply Z.div_pos; lia|].
    cbn [forallb]. rewrite Hbuf.
    rewrite digit_isDigit by (pose proof (Z.mod_pos_bound u 10); lia).
    reflexivity.
Qed.

Lemma formatLoop_nonempty (fuel : nat) (u : Z) (buf : gostring) :
  formatLoop (S fuel) u buf <> [].
Proof.
  revert u buf. induction fuel as [|fuel IH]; intros u buf.
  - cbn. destruct (u <? 10); cbn; discriminate.
  - cbn [formatLoop]. destruct (u <? 10); [discriminate|].
    apply (IH (u / 10)).
Qed.

Lemma formatUint_shape (u : Z) :
  0 <= u ->
  exists d rest, formatUint u = d :: rest
                 /\ forallb isDigit (d :: rest) = true.
Proof.
  intros Hu. unfold formatUint.
  destruct (formatLoop (S (Z.to_nat (Z.log2 u))) u []) as [|d rest] eqn:E.
  - exfalso. eapply formatLoop_nonempty. exact E.
  - exists d, rest. split; [reflexivity|]. rewrite <- E.
    apply formatLoop_digits; auto.
Qed.

Lemma isDigit_not_sign (c : ascii) :
  isDigit c = true -> byte_eqb c "-" = false /\ byte_eqb c "+" = false.
Proof.
  unfold isDigit. intros H. apply andb_true_iff in H as [H1 H2].
  apply Z.leb_le in H1, H2.
  change (byteval "0") with 48 in H1. change (byteval "9") with 57 in H2.
  split; apply byte_eqb_neq; intros ->; cbv in H1, H2;
    try (apply H1; reflexivity); try (apply H2; reflexivity).
Qed.

(** [Atoi] reads back what [Itoa] writes for an [int]. *)
Lemma Atoi_Itoa (n : Z) : is_int n -> Atoi (Itoa n) = Some n.
Proof.
  intros [Hlo Hhi]. unfold Itoa. destruct (n <? 0) eqn:Hneg.
  - apply Z.ltb_lt in Hneg.
    destruct (formatUint_shape (- n)) as (d & rest & E & Hd); [lia|].
    unfold Atoi. rewrite byte_eqb_refl. cbn [orb].
    rewrite E. rewrite <- E. rewrite formatUint_parse by lia.
    rewrite Z.opp_involutive.
    replace ((minInt <=? n) && (n <=? maxInt)) with true; [reflexivity|].
    symmetry. apply andb_true_iff. split; apply Z.leb_le; assumption.
  - apply Z.ltb_ge in Hneg.
    destruct (formatUint_shape n) as (d & rest & E & Hd); [lia|].
    unfold Atoi. rewrite E.
    cbn [forallb] in Hd. apply andb_true_iff in Hd as [Hd _].
    destruct (isDigit_not_sign d Hd) as [-> ->]. cbn [orb].
    rewrite <- E. rewrite formatUint_parse by lia.
    replace ((minInt <=? n) && (n <=? maxInt)) with true; [reflexivity|].
    symmetry. apply andb_true_iff. split; apply Z.leb_le; assumption.
Qed.

End Decimal.

(** ** The csv reader terminates *)

Section ReaderTotal.
Import Props.

Lemma sub_shorter (s : gostring) (lo hi : Z) :
  0 < lo -> s <> [] ->
  (List.length (sub s lo hi) < List.length s)%nat.
Proof.
  intros Hlo Hne. pose proof (sub_length_le s lo hi).
  destruct s; [contradiction|]. cbn [List.length] in *. lia.
Qed.

Lemma sub_no_longer (s : gostring) (lo hi : Z) :
  (List.length (sub s lo hi) <= List.length s)%nat.
Proof. pose proof (sub_length_le s lo hi). lia. Qed.

Lemma sub_to_length (s : gostring) (hi : Z) :
  (List.length (sub s 0 hi) <= Z.to_nat hi)%nat.
Proof. rewrite sub_to, length_firstn. lia. Qed.

Lemma normalized_no_longer (line : gostring) :
  Nat.le
    (List.length
       (if (2 <=? len line) && (byteAt line (len line - 2) =? byteval csv.CR)
           && (byteAt line (len line - 1) =? byteval csv.LF)
        then sub line 0 (len line - 2) ++ [csv.LF] else line))
    (List.length line).
Proof.
  destruct ((2 <=? len line) && _ && _) eqn:E; [|lia].
  apply andb_true_iff in E as [E _]. apply andb_true_iff in E as [E _].
  apply Z.leb_le in E. rewrite length_app. cbn [List.length].
  pose proof (sub_to_length line (len line - 2)).
  unfold len in *. lia.
Qed.

(** [readLine] hands out no more than it takes, and takes something
    unless it reports the end of the input. *)
Lemma readLine_measure (input line rest : gostring) (eof : bool) :
  csv.readLine input = (line, eof, rest) ->
  (List.length line + List.length rest <= List.length input)%nat
  /\ (eof = false -> (List.length rest < List.length input)%nat).
Proof.
  unfold csv.readLine.
  destruct (IndexByte_bounds input csv.LF) as [Hi|Hi].
  - rewrite Hi. change (0 <=? -1) with false. cbv iota beta zeta.
    destruct ((0 <? len input) && true) eqn:Hne.
    + set (line1 := if byteAt input (len input - 1) =? byteval csv.CR
                    then sub input 0 (len input - 1) else input).
      assert (H1 : (List.length line1 <= List.length input)%nat).
      { unfold line1. destruct (_ =? _); [apply sub_no_longer|lia]. }
      cbv iota beta zeta.
      pose proof (normalized_no_longer line1) as H2.
      unfold Nat.le in H2.
      intros H. injection H as <- <- <-. cbn [List.length].
      rewrite andb_true_r in Hne. apply Z.ltb_lt in Hne. unfold len in Hne.
      split; [lia|]. intros _. lia.
    + cbv iota beta zeta.
      rewrite andb_true_r in Hne. apply Z.ltb_ge in Hne.
      assert (input = []).
      { destruct input; [reflexivity|]. rewrite len_cons in Hne.
        pose proof (len_nonneg input). lia. }
      subst input. cbn. intros H. injection H as <- <- <-.
      split; [cbn; lia|discriminate].
  - replace (0 <=? strings.IndexByte input csv.LF) with true
      by (symmetry; apply Z.leb_le; lia).
    set (i := strings.IndexByte input csv.LF) in *.
    cbv iota beta zeta. rewrite andb_false_r. cbv iota beta zeta.
    set (line1 := sub input 0 (i + 1)).
    assert (H1 : (List.length line1 <= Z.to_nat (i + 1))%nat)
      by apply sub_to_length.
    pose proof (normalized_no_longer line1) as H2.
    unfold Nat.le in H2.
    intros H. injection H as <- <- <-.
    pose proof (sub_length_le input (i + 1) (len input)) as H3.
    unfold len in Hi. split; [lia|]. intros _. lia.
Qed.

Lemma firstLine_total (fuel : nat) :
  forall input, (List.length input < fuel)%nat ->
    exists line eof rest,
      csv.firstLine fuel input = Some (line, eof, rest)
      /\ (List.length line + List.length rest <= List.length input)%nat.
Proof.
  induction fuel as [|fuel IH]; intros input Hfuel; [lia|].
  cbn [csv.firstLine].
  destruct (csv.readLine input) as [[line eof] rest] eqn:E.
  destruct (readLine_measure _ _ _ _ E) as [H1 H2].
  destruct (negb eof && (len line =? csv.lengthNL line)) eqn:Hskip.
  - apply andb_true_iff in Hskip as [Heof _].
    apply negb_true_iff in Heof. specialize (H2 Heof).
    destruct (IH rest) as (l & e & r & Hrun & Hm); [lia|].
    exists l, e, r. split; [exact Hrun|lia].
  - exists line, eof, rest. split; [reflexivity|exact H1].
Qed.

(** The two loops of [readRecord] end within the fuel that the bytes
    still to be read call for; they leave [errRead] as it was and report
    no other error than a misplaced quote. *)
Lemma parse_total (fuel : nat) :
  (forall line eof input fields,
      (List.length line + List.length input < fuel)%nat ->
      parseOutcome eof (csv.parseField fuel line eof input fields))
  /\ (forall line eof input fields cur,
         (List.length line + List.length input < fuel)%nat ->
         parseOutcome eof (csv.quotedField fuel line eof input fields cur)).
Proof.
  induction fuel as [|fuel [IHp IHq]]; [split; intros; lia|].
  split.
  - intros line eof input fields Hfuel. rewrite parseField_unfold.
    destruct ((len line =? 0) || negb (byteAt line 0 =? byteval csv.quote))
      eqn:Hq.
    + cbv zeta. destruct (0 <=? strings.IndexByte _ csv.quote).
      * do 2 eexists. split; [reflexivity|auto].
      * destruct (0 <=? strings.IndexByte line csv.Comma) eqn:Hi.
        -- apply IHp. apply Z.leb_le in Hi.
           destruct (IndexByte_bounds line csv.Comma) as [Hb|Hb]; [lia|].
           assert (Hne : line <> [])
             by (intros ->; unfold len in Hb; cbn in Hb; lia).
           pose proof (sub_shorter line
                         (strings.IndexByte line csv.Comma + 1) (len line)
                         ltac:(lia) Hne).
           lia.
        -- do 2 eexists. split; [reflexivity|auto].
    + apply IHq. apply orb_false_iff in Hq as [Hq _].
      apply Z.eqb_neq in Hq.
      assert (Hne : line <> []) by (intros ->; apply Hq; reflexivity).
      pose proof (sub_shorter line 1 (len line) ltac:(lia) Hne). lia.
  - intros line eof input fields cur Hfuel. rewrite quotedField_unfold.
    cbv zeta. destruct (0 <=? strings.IndexByte line csv.quote) eqn:Hi.
    + apply Z.leb_le in Hi.
      destruct (IndexByte_bounds line csv.quote) as [Hb|Hb]; [lia|].
      assert (Hne : line <> [])
        by (intros ->; unfold len in Hb; cbn in Hb; lia).
      pose proof (sub_shorter line
                    (strings.IndexByte line csv.quote + 1) (len line)
                    ltac:(lia) Hne).
      set (line1 := sub line _ (len line)) in *.
      pose proof (sub_no_longer line1 1 (len line1)).
      destruct (csv.nextRune line1 =? byteval csv.quote);
        [apply IHq; lia|].
      destruct (csv.nextRune line1 =? byteval csv.Comma);
        [apply IHp; lia|].
      destruct (csv.lengthNL line1 =? len line1);
        do 2 eexists; (split; [reflexivity|auto]).
    + destruct (0 <? len line) eqn:Hne.
      * destruct eof; [do 2 eexists; split; [reflexivity|auto]|].
        destruct (csv.readLine input) as [[line' eof'] input'] eqn:E.
        destruct (readLine_measure _ _ _ _ E) as [H1 _].
        apply IHq. apply Z.ltb_lt in Hne. unfold len in Hne. lia.
      * destruct eof; cbn [negb]; do 2 eexists;
          (split; [reflexivity|auto]).
Qed.

(** [readRecord] with the fuel that [MetaErrorFromCSV] gives it always
    returns: nothing at the end of the input, else the fields read and
    at most one of three errors. *)
Lemma readRecord_total (input : gostring) (n : Z) :
  csv.readRecord (csv.fuelFor input) n input = Some ([], Some csv.EOF)
  \/ exists fields,
       (csv.readRecord (csv.fuelFor input) n input
        = Some (fields, Some csv.ErrBareQuote)
        \/ csv.readRecord (csv.fuelFor input) n input
           = Some (fields, Some csv.ErrQuote)
        \/ (csv.readRecord (csv.fuelFor input) n input
            = Some (fields, Some csv.ErrFieldCount)
            /\ Z.of_nat (List.length fields) <> n)
        \/ (csv.readRecord (csv.fuelFor input) n input = Some (fields, None)
            /\ Z.of_nat (List.length fields) = n)).
Proof.
  unfold csv.readRecord, csv.fuelFor.
  destruct (firstLine_total (S (S (List.length input))) input)
    as (line & eof & rest & -> & Hm); [lia|].
  destruct eof; [left; reflexivity|]. right.
  destruct (parse_total (S (S (List.length input)))) as [Hp _].
  destruct (Hp line false rest []) as (dst & err & -> & Herr); [lia|].
  exists dst. destruct Herr as [->|[-> | ->]]; auto.
  destruct (Z.of_nat (List.length dst) =? n) eqn:E; cbn [negb].
  - apply Z.eqb_eq in E. auto.
  - apply Z.eqb_neq in E. auto.
Qed.

End ReaderTotal.

(** ** Decoding a record *)

Section Decoding.
Import Meta Props.

Lemma MetaErrorFromCSV_cases (csvStr : gostring) (s : Store) :
  (Violation csvStr
   /\ MetaErrorFromCSV csvStr s = Ok (nilptr, Some ErrNotMetaError, s))
  \/ (~ Violation csvStr
      /\ exists msg file lineText func pkg line,
           csv.readRecord (csv.fuelFor csvStr) 5 csvStr
           = Some ([msg; file; lineText; func; pkg], None)
           /\ strconv.Atoi lineText = Some line
           /\ MetaErrorFromCSV csvStr s
              = Ok (addr (List.length (heap s)), None,
                    mkStore (mkMetaError (Some (errorString msg)) file line
                               func pkg [] [] false :: heap s)
                            (writes s))).
Proof.
  unfold MetaErrorFromCSV.
  destruct (readRecord_total csvStr 5)
    as [H|(fields & [H|[H|[[H Hn]|[H Hn]]]])].
  - left. rewrite H. split; [apply NoRecord; exact H|reflexivity].
  - left. rewrite H. split; [|reflexivity].
    eapply BadQuoting; [exact H|left; reflexivity].
  - left. rewrite H. split; [|reflexivity].
    eapply BadQuoting; [exact H|right; reflexivity].
  - left. rewrite H. split; [|reflexivity].
    eapply BadFieldCount; [exact H|lia].
  - rewrite H. rewrite Hn. cbn [Z.eqb Pos.eqb negb].
    destruct fields as [|f0 [|f1 [|f2 [|f3 [|f4 [|f5 fields]]]]]];
      try (cbn in Hn; lia).
    cbn [nth]. destruct (strconv.Atoi f2) as [line|] eqn:Hline.
    + right. split.
      * intros [E|? ? E _|? E _|? ? ? ? ? E Hl]; congruence.
      * exists f0, f1, f2, f3, f4, line. repeat split; auto.
    + left. split; [|reflexivity].
      eapply BadLine; [exact H|exact Hline].
Qed.

(** The four kinds of violation, and a record that passes. *)
Lemma decoding_examples :
  Violation (str "")
  /\ Violation (str "boom|main.go|10|run")
  /\ Violation (str "bo" ++ [csv.quote] ++ str "om|main.go|10|run|app")
  /\ Violation (str "boom|main.go|ten|run|app")
  /\ Violation (str "boom|main.go|99999999999999999999|run|app")
  /\ MetaErrorFromCSV (str "boom|main.go|10|run|app") emptyStore
     = Ok (addr 0, None,
           mkStore [mkMetaError (Some (errorString (str "boom")))
                      (str "main.go") 10 (str "run") (str "app") [] []
                      false] []).
Proof.
  split; [apply NoRecord; vm_compute; reflexivity|].
  split.
  { apply (BadFieldCount _ [str "boom"; str "main.go"; str "10"; str "run"]);
      [vm_compute; reflexivity|discriminate]. }
  split.
  { apply (BadQuoting _ [] csv.ErrBareQuote);
      [vm_compute; reflexivity|left; reflexivity]. }
  split.
  { apply (BadLine _ (str "boom") (str "main.go") (str "ten") (str "run")
             (str "app")); vm_compute; reflexivity. }
  split.
  { apply (BadLine _ (str "boom") (str "main.go")
             (str "99999999999999999999") (str "run") (str "app"));
      vm_compute; reflexivity. }
  vm_compute. reflexivity.
Qed.

End Decoding.

(** ** Decoding runes *)

Section Runes.
Import utf8 Props.

Lemma lead_range (b sz lo hi : Z) :
  lead b = Some (sz, lo, hi) ->
  2 <= sz <= 4 /\ 128 <= lo /\ hi <= 191 /\ 194 <= b <= 244.
Proof.
  unfold lead. intros H.
  repeat match type of H with
         | (if ?c then _ else _) = _ =>
             let E := fresh "E" in destruct c eqn:E
         end;
    try discriminate H; injection H as <- <- <-;
    repeat match goal with
           | E : (_ && _) = true |- _ => apply andb_true_iff in E as [? ?]
           | E : (_ <=? _) = true |- _ => apply Z.leb_le in E
           | E : (_ =? _) = true |- _ => apply Z.eqb_eq in E
           end; lia.
Qed.

Lemma not_cont_out_of_range (b lo hi : Z) :
  isCont b = false -> 128 <= lo -> hi <= 191 ->
  (b <? lo) || (hi <? b) = true.
Proof.
  unfold isCont. intros H Hlo Hhi. apply andb_false_iff in H.
  apply orb_true_iff. destruct H as [H|H].
  - left. apply Z.leb_gt in H. apply Z.ltb_lt. lia.
  - right. apply Z.leb_gt in H. apply Z.ltb_lt. lia.
Qed.

Lemma byteAt_cons (c : ascii) (s : gostring) (i : Z) :
  0 < i -> byteAt (c :: s) i = byteAt s (i - 1).
Proof.
  intros H. unfold byteAt.
  replace (Z.to_nat i) with (S (Z.to_nat (i - 1))) by lia. reflexivity.
Qed.

Lemma byteAt_out (s : gostring) (i : Z) : len s <= i -> byteAt s i = 0.
Proof.
  intros H. unfold byteAt, len in *. rewrite nth_overflow by lia. reflexivity.
Qed.

(** Bytes after a sequence do not change what its first rune is, as
    long as they do not continue it. *)
Lemma decode_app (x y : gostring) :
  x <> [] -> startsAfresh y ->
  DecodeRuneInString (x ++ y) = DecodeRuneInString x.
Proof.
  intros Hx Hy. destruct x as [|c0 x]; [contradiction|]. clear Hx.
  unfold DecodeRuneInString. cbn [app].
  destruct (byteval c0 <? RuneSelf); [reflexivity|].
  destruct (lead (byteval c0)) as [[[sz lo] hi]|] eqn:Hlead; [|reflexivity].
  destruct (lead_range _ _ _ _ Hlead) as (Hsz & Hlo & Hhi & _).
  change (c0 :: x ++ y) with ((c0 :: x) ++ y).
  assert (Hfresh : forall i, i = len (c0 :: x) ->
                        isCont (byteAt ((c0 :: x) ++ y) i) = false).
  { intros i ->. replace (len (c0 :: x)) with (len (c0 :: x) + 0) by lia.
    rewrite byteAt_app_right by lia. destruct y as [|d y]; [reflexivity|].
    exact Hy. }
  assert (Hin : forall i, 0 <= i < len (c0 :: x) ->
                     byteAt ((c0 :: x) ++ y) i = byteAt (c0 :: x) i)
    by (intros; apply byteAt_app_left; assumption).
  rewrite len_app. pose proof (len_nonneg y) as Hleny.
  pose proof (len_nonneg x) as Hlenx. rewrite len_cons in *.
  destruct (len x + 1 <? sz) eqn:Eshort.
  - (* the sequence is cut short by the end of [x] *)
    apply Z.ltb_lt in Eshort.
    destruct (len x + 1 + len y <? sz); [reflexivity|].
    destruct (Z.eq_dec (len x + 1) 1) as [E1|E1].
    { rewrite (not_cont_out_of_range _ lo hi (Hfresh 1 ltac:(lia)))
        by assumption. reflexivity. }
    rewrite (Hin 1) by lia.
    destruct ((byteAt (c0 :: x) 1 <? lo) || (hi <? byteAt (c0 :: x) 1));
      [reflexivity|].
    replace (sz <=? 2) with false by (symmetry; apply Z.leb_gt; lia).
    destruct (Z.eq_dec (len x + 1) 2) as [E2|E2].
    { rewrite (Hfresh 2 ltac:(lia)). reflexivity. }
    rewrite (Hin 2) by lia.
    destruct (isCont (byteAt (c0 :: x) 2)); cbn [negb]; [|reflexivity].
    replace (sz <=? 3) with false by (symmetry; apply Z.leb_gt; lia).
    rewrite (Hfresh 3 ltac:(lia)). reflexivity.
  - (* the sequence lies inside [x] *)
    apply Z.ltb_ge in Eshort.
    replace (len x + 1 + len y <? sz) with false
      by (symmetry; apply Z.ltb_ge; lia).
    rewrite (Hin 1) by lia.
    destruct ((byteAt (c0 :: x) 1 <? lo) || (hi <? byteAt (c0 :: x) 1));
      [reflexivity|].
    destruct (sz <=? 2) eqn:E2; [reflexivity|]. apply Z.leb_gt in E2.
    rewrite (Hin 2) by lia.
    destruct (isCont (byteAt (c0 :: x) 2)); cbn [negb]; [|reflexivity].
    destruct (sz <=? 3) eqn:E3; [reflexivity|]. apply Z.leb_gt in E3.
    rewrite (Hin 3) by lia. reflexivity.
Qed.

Lemma decode_width (x : gostring) :
  x <> [] ->
  1 <= snd (DecodeRuneInString x) <= 4
  /\ snd (DecodeRuneInString x) <= len x.
Proof.
  intros Hx. destruct x as [|c0 x]; [contradiction|].
  unfold DecodeRuneInString.
  pose proof (len_nonneg x). rewrite len_cons.
  destruct (byteval c0 <? RuneSelf); [cbn; lia|].
  destruct (lead (byteval c0)) as [[[sz lo] hi]|] eqn:Hlead; [|cbn; lia].
  destruct (lead_range _ _ _ _ Hlead) as (Hsz & _).
  destruct (len x + 1 <? sz) eqn:E; [cbn; lia|]. apply Z.ltb_ge in E.
  destruct (_ || _); [cbn; lia|].
  destruct (sz <=? 2) eqn:E2; [cbn; lia|].
  destruct (negb _); [cbn; lia|].
  destruct (sz <=? 3) eqn:E3; [cbn; lia|].
  destruct (negb _); cbn; lia.
Qed.

Lemma decode_ascii (c : ascii) (x : gostring) :
  byteval c < 128 -> DecodeRuneInString (c :: x) = (byteval c, 1).
Proof.
  intros H. unfold DecodeRuneInString.
  replace (byteval c <? RuneSelf) with true
    by (symmetry; apply Z.ltb_lt; exact H).
  reflexivity.
Qed.

Lemma decode_lone_byte (c : ascii) :
  128 <= byteval c -> DecodeRuneInString [c] = (RuneError, 1).
Proof.
  intros H. unfold DecodeRuneInString.
  replace (byteval c <? RuneSelf) with false
    by (symmetry; apply Z.ltb_ge; exact H).
  destruct (lead (byteval c)) as [[[sz lo] hi]|] eqn:Hlead; [|reflexivity].
  destruct (lead_range _ _ _ _ Hlead) as (Hsz & _).
  replace (len [c] <? sz) with true; [reflexivity|].
  symmetry. apply Z.ltb_lt. change (len [c]) with 1. lia.
Qed.

(** A rune other than [RuneError] that takes more than one byte comes
    from a leading byte and continuation bytes. *)
Lemma decode_multibyte (x : gostring) (r size : Z) :
  DecodeRuneInString x = (r, size) -> 2 <= size ->
  RuneStart (byteAt x 0) = true
  /\ 128 <= byteAt x 0
  /\ size <= len x
  /\ forall i, 1 <= i < size -> isCont (byteAt x i) = true.
Proof.
  destruct x as [|c0 x]; [cbn; intros H; injection H as <- <-; lia|].
  unfold DecodeRuneInString. rewrite byteAt_0.
  destruct (byteval c0 <? RuneSelf) eqn:E0;
    [intros H; injection H as <- <-; lia|].
  apply Z.ltb_ge in E0.
  destruct (lead (byteval c0)) as [[[sz lo] hi]|] eqn:Hlead;
    [|intros H; injection H as <- <-; lia].
  destruct (lead_range _ _ _ _ Hlead) as (Hsz & Hlo & Hhi & Hb).
  assert (Hstart : RuneStart (byteval c0) = true).
  { unfold RuneStart, isCont. apply negb_true_iff, andb_false_iff.
    right. apply Z.leb_gt. lia. }
  destruct (len (c0 :: x) <? sz) eqn:Elen;
    [intros H; injection H as <- <-; lia|]. apply Z.ltb_ge in Elen.
  destruct ((byteAt (c0 :: x) 1 <? lo) || (hi <? byteAt (c0 :: x) 1)) eqn:E1;
    [intros H; injection H as <- <-; lia|].
  apply orb_false_iff in E1 as [E1a E1b].
  apply Z.ltb_ge in E1a, E1b.
  assert (H1 : isCont (byteAt (c0 :: x) 1) = true).
  { unfold isCont. apply andb_true_iff. split; apply Z.leb_le; lia. }
  destruct (sz <=? 2) eqn:E2.
  { intros H; injection H as <- <-. intros _.
    repeat split; auto; try (unfold RuneSelf in *; lia).
    intros i Hi. replace i with 1 by lia. exact H1. }
  apply Z.leb_gt in E2.
  destruct (isCont (byteAt (c0 :: x) 2)) eqn:H2; cbn [negb];
    [|intros H; injection H as <- <-; lia].
  destruct (sz <=? 3) eqn:E3.
  { intros H; injection H as <- <-. intros _.
    repeat split; auto; try (unfold RuneSelf in *; lia).
    intros i Hi. assert (i = 1 \/ i = 2) as [-> | ->] by lia; assumption. }
  apply Z.leb_gt in E3.
  destruct (isCont (byteAt (c0 :: x) 3)) eqn:H3; cbn [negb];
    [|intros H; injection H as <- <-; lia].
  intros H; injection H as <- <-. intros _.
  repeat split; auto; try (unfold RuneSelf in *; lia).
  intros i Hi. assert (i = 1 \/ i = 2 \/ i = 3) as [-> | [-> | ->]] by lia;
    assumption.
Qed.

End Runes.

(** ** Trimming the written line *)

Section Trimming.
Import utf8 trim Props.

Lemma IsSpace_ascii (b : Z) :
  0 <= b < 128 -> unicode.IsSpace b = asciiSpace b.
Proof.
  intros H. unfold unicode.IsSpace, asciiSpace, unicode.MaxLatin1.
  replace ((0 <=? b) && (b <=? 255)) with true
    by (symmetry; apply andb_true_iff; split; apply Z.leb_le; lia).
  replace (b =? 133) with false by (symmetry; apply Z.eqb_neq; lia).
  replace (b =? 160) with false by (symmetry; apply Z.eqb_neq; lia).
  rewrite !orb_false_r. reflexivity.
Qed.

Lemma backUp_le (fuel : nat) (s : gostring) (start lim : Z) :
  backUp fuel s start lim <= start.
Proof.
  revert start. induction fuel as [|fuel IH]; intros start; cbn; [lia|].
  destruct (start <? lim); [lia|].
  destruct (RuneStart (byteAt s start)); [lia|].
  specialize (IH (start - 1)). lia.
Qed.

Lemma sub_last (row : gostring) :
  row <> [] -> sub row (len row - 1) (len row) = [last row zero].
Proof.
  intros H. destruct (exists_last H) as (a & c & ->).
  rewrite last_last, len_app. change (len [c]) with 1.
  replace (len a + 1 - 1) with (len a) by lia.
  replace (len a + 1) with (len (a ++ [c])) by (rewrite len_app; reflexivity).
  apply sub_app_right.
Qed.

Lemma sub_head (row : gostring) (i : Z) :
  0 <= i < len row ->
  exists c x, sub row i (len row) = c :: x /\ byteval c = byteAt row i.
Proof.
  intros H. rewrite sub_from. unfold byteAt, len in *.
  assert (Hlt : (Z.to_nat i < List.length row)%nat) by lia.
  revert Hlt. generalize (Z.to_nat i). clear H i.
  induction row as [|c row IH]; intros n Hlt; [cbn in Hlt; lia|].
  destruct n as [|n]; [exists c, row; split; reflexivity|].
  cbn [skipn nth]. apply IH. cbn in Hlt. lia.
Qed.

Lemma sub_split (row : gostring) (i : Z) :
  0 <= i <= len row -> row = sub row 0 i ++ sub row i (len row).
Proof.
  intros H. rewrite sub_to, sub_from. symmetry. apply firstn_skipn.
Qed.

(** The width that [DecodeLastRuneInString] reports is the width that
    [DecodeRuneInString] finds again at the place it points to. *)
Lemma decodeLast_width (row y : gostring) :
  row <> [] -> startsAfresh y ->
  let size := snd (DecodeLastRuneInString row) in
  1 <= size <= len row
  /\ (if RuneSelf <=? byteAt row (len row - size)
      then snd (DecodeRuneInString (sub row (len row - size) (len row) ++ y))
           = size
      else size = 1).
Proof.
  intros Hne Hy. unfold DecodeLastRuneInString.
  assert (Hlen : 1 <= len row).
  { destruct row; [contradiction|]. rewrite len_cons.
    pose proof (len_nonneg row). lia. }
  replace (len row =? 0) with false by (symmetry; apply Z.eqb_neq; lia).
  destruct (byteAt row (len row - 1) <? RuneSelf) eqn:Easc.
  - cbn [snd]. split; [lia|]. apply Z.ltb_lt in Easc.
    replace (RuneSelf <=? byteAt row (len row - 1)) with false
      by (symmetry; apply Z.leb_gt; exact Easc).
    reflexivity.
  - apply Z.ltb_ge in Easc.
    set (start := Z.max 0 (backUp 4 row (len row - 1 - 1)
                             (Z.max 0 (len row - UTFMax)))).
    assert (Hstart : 0 <= start <= len row - 1).
    { unfold start.
      pose proof (backUp_le 4 row (len row - 1 - 1)
                    (Z.max 0 (len row - UTFMax))). lia. }
    destruct (sub_head row start) as (c & x & Hx & Hc); [lia|].
    destruct (DecodeRuneInString (sub row start (len row)))
      as [r size] eqn:Hd.
    pose proof (decode_width (sub row start (len row))) as Hw.
    rewrite Hd in Hw. cbn [snd] in Hw.
    rewrite sub_length in Hw by lia.
    specialize (Hw ltac:(rewrite Hx; discriminate)).
    destruct (negb (start + size =? len row)) eqn:Emis.
    + cbn [snd]. split; [lia|].
      replace (RuneSelf <=? byteAt row (len row - 1)) with true
        by (symmetry; apply Z.leb_le; exact Easc).
      rewrite sub_last by exact Hne.
      rewrite decode_app by (auto; discriminate).
      rewrite decode_lone_byte; [reflexivity|].
      rewrite <- byteAt_last by exact Hne. exact Easc.
    + apply negb_false_iff, Z.eqb_eq in Emis. cbn [snd].
      split; [lia|].
      replace (len row - size) with start by lia.
      destruct (RuneSelf <=? byteAt row start) eqn:Ehigh.
      * rewrite decode_app by (auto; rewrite Hx; discriminate).
        rewrite Hd. reflexivity.
      * apply Z.leb_gt in Ehigh. rewrite Hx in Hd.
        rewrite decode_ascii in Hd by (rewrite Hc; exact Ehigh).
        injection Hd as _ <-. reflexivity.
Qed.

Lemma decodeLast_ascii (a : gostring) (c : ascii) :
  byteval c < 128 -> DecodeLastRuneInString (a ++ [c]) = (byteval c, 1).
Proof.
  intros H. unfold DecodeLastRuneInString.
  rewrite len_app. change (len [c]) with 1. pose proof (len_nonneg a).
  replace (len a + 1 =? 0) with false by (symmetry; apply Z.eqb_neq; lia).
  replace (len a + 1 - 1) with (len a + 0) by lia.
  rewrite byteAt_app_right by lia. rewrite byteAt_0.
  replace (byteval c <? RuneSelf) with true
    by (symmetry; apply Z.ltb_lt; exact H).
  reflexivity.
Qed.

Lemma sub_app_from (a b : gostring) (i : Z) :
  0 <= i <= len a ->
  sub (a ++ b) i (len (a ++ b)) = sub a i (len a) ++ b.
Proof.
  intros H. rewrite !sub_from. unfold len in H.
  rewrite skipn_app. replace (Z.to_nat i - List.length a)%nat with 0%nat by lia.
  reflexivity.
Qed.

Lemma lastIndexFuncFrom_step (fuel : nat) (s : gostring) (i : Z)
    (f : rune -> bool) (truth : bool) :
  0 < i ->
  lastIndexFuncFrom (S fuel) s i f truth
  = if Bool.eqb (f (fst (DecodeLastRuneInString (sub s 0 i)))) truth
    then i - snd (DecodeLastRuneInString (sub s 0 i))
    else lastIndexFuncFrom fuel s
           (i - snd (DecodeLastRuneInString (sub s 0 i))) f truth.
Proof.
  intros H. cbn [lastIndexFuncFrom].
  replace (i <=? 0) with false by (symmetry; apply Z.leb_gt; exact H).
  destruct (DecodeLastRuneInString (sub s 0 i)) as [r size]. reflexivity.
Qed.

Lemma len_positive (row : gostring) : row <> [] -> 1 <= len row.
Proof.
  destruct row; [contradiction|]. intros _. rewrite len_cons.
  pose proof (len_nonneg row). lia.
Qed.

Lemma lastIndexFunc_keeps (row : gostring) :
  row <> [] -> endsInSpace row = false ->
  lastIndexFunc row unicode.IsSpace false
  = len row - snd (DecodeLastRuneInString row).
Proof.
  intros Hne Hend. unfold lastIndexFunc.
  pose proof (len_positive row Hne).
  rewrite lastIndexFuncFrom_step by lia. rewrite sub_all.
  unfold endsInSpace in Hend. rewrite Hend. reflexivity.
Qed.

Lemma lastIndexFunc_newline (row : gostring) :
  row <> [] -> endsInSpace row = false ->
  lastIndexFunc (row ++ [csv.LF]) unicode.IsSpace false
  = len row - snd (DecodeLastRuneInString row).
Proof.
  intros Hne Hend. unfold lastIndexFunc.
  pose proof (len_positive row Hne).
  assert (Hlens : len (row ++ [csv.LF]) = len row + 1)
    by (rewrite len_app; reflexivity).
  rewrite lastIndexFuncFrom_step by lia. rewrite sub_all.
  rewrite decodeLast_ascii by (cbv; reflexivity). cbn [fst snd].
  change (unicode.IsSpace (byteval csv.LF)) with true. cbn [Bool.eqb].
  rewrite Hlens. replace (len row + 1 - 1) with (len row) by lia.
  rewrite length_app. cbn [List.length].
  replace (List.length row + 1)%nat with (S (List.length row)) by lia.
  rewrite lastIndexFuncFrom_step by lia. rewrite sub_app_left.
  unfold endsInSpace in Hend. rewrite Hend. reflexivity.
Qed.

(** [TrimRightFunc] keeps a string whose last rune is not white space. *)
Lemma TrimRightFunc_keeps (row : gostring) :
  row <> [] -> endsInSpace row = false ->
  TrimRightFunc row unicode.IsSpace = row.
Proof.
  intros Hne Hend. unfold TrimRightFunc.
  rewrite lastIndexFunc_keeps by assumption.
  pose proof (len_positive row Hne).
  destruct (decodeLast_width row [] Hne I) as [Hsize Hw].
  rewrite app_nil_r in Hw.
  set (size := snd (DecodeLastRuneInString row)) in *.
  replace (0 <=? len row - size) with true
    by (symmetry; apply Z.leb_le; lia).
  cbn [andb].
  destruct (RuneSelf <=? byteAt row (len row - size)).
  - rewrite Hw. replace (len row - size + size) with (len row) by lia.
    apply sub_all.
  - rewrite Hw. replace (len row - 1 + 1) with (len row) by lia.
    apply sub_all.
Qed.

(** ... and drops a line feed after it. *)
Lemma TrimRightFunc_drops_newline (row : gostring) :
  row <> [] -> endsInSpace row = false ->
  TrimRightFunc (row ++ [csv.LF]) unicode.IsSpace = row.
Proof.
  intros Hne Hend. unfold TrimRightFunc.
  rewrite lastIndexFunc_newline by assumption.
  pose proof (len_positive row Hne).
  destruct (decodeLast_width row [csv.LF] Hne) as [Hsize Hw];
    [reflexivity|].
  set (size := snd (DecodeLastRuneInString row)) in *.
  replace (0 <=? len row - size) with true
    by (symmetry; apply Z.leb_le; lia).
  cbn [andb].
  rewrite byteAt_app_left by lia.
  rewrite sub_app_from by lia.
  destruct (RuneSelf <=? byteAt row (len row - size)).
  - rewrite Hw. replace (len row - size + size) with (len row) by lia.
    apply sub_app_left.
  - rewrite Hw. replace (len row - 1 + 1) with (len row) by lia.
    apply sub_app_left.
Qed.

End Trimming.

(** ** The last rune of a string and of its last field *)

Section LastRune.
Import utf8 trim Props.

Lemma decodeLast_high (s : gostring) :
  s <> [] -> 128 <= byteAt s (len s - 1) ->
  DecodeLastRuneInString s
  = let start := Z.max 0 (backUp 4 s (len s - 2) (Z.max 0 (len s - 4))) in
    let '(r, size) := DecodeRuneInString (sub s start (len s)) in
    if negb (start + size =? len s) then (RuneError, 1) else (r, size).
Proof.
  intros Hne Hhigh. unfold DecodeLastRuneInString.
  pose proof (len_positive s Hne).
  replace (len s =? 0) with false by (symmetry; apply Z.eqb_neq; lia).
  replace (byteAt s (len s - 1) <? RuneSelf) with false
    by (symmetry; apply Z.ltb_ge; exact Hhigh).
  replace (len s - 1 - 1) with (len s - 2) by lia. reflexivity.
Qed.

(** Going back from [top], the loop stops at the first byte that starts
    a rune. *)
Lemma backUp_finds (fuel : nat) (s : gostring) (lim q : Z) :
  forall top,
    lim <= q <= top -> top - q < Z.of_nat fuel ->
    RuneStart (byteAt s q) = true ->
    (forall j, q < j <= top -> RuneStart (byteAt s j) = false) ->
    backUp fuel s top lim = q.
Proof.
  induction fuel as [|fuel IH]; intros top Hq Hfuel Hstart Hcont; [lia|].
  cbn [backUp].
  replace (top <? lim) with false by (symmetry; apply Z.ltb_ge; lia).
  destruct (Z.eq_dec top q) as [->|Hne].
  - rewrite Hstart. reflexivity.
  - rewrite (Hcont top) by lia. apply IH; try lia; auto.
    intros j Hj. apply Hcont. lia.
Qed.

Lemma byteAt_sub (s : gostring) (lo i : Z) :
  0 <= lo -> 0 <= i ->
  byteAt (sub s lo (len s)) i = byteAt s (lo + i).
Proof.
  intros Hlo Hi. rewrite sub_from. unfold byteAt.
  rewrite nth_skipn. do 2 f_equal. lia.
Qed.

Lemma sub_app_beyond (q p : gostring) (i : Z) :
  len q <= i ->
  sub (q ++ p) i (len (q ++ p)) = sub p (i - len q) (len p).
Proof.
  intros H. rewrite !sub_from. unfold len in *.
  rewrite skipn_app. rewrite skipn_all2 by lia. cbn [app].
  f_equal. lia.
Qed.

(** If a string ends in a white-space rune, and the rune is not all of
    what follows an ASCII byte, then what follows ends in that rune. *)
Lemma decodeLast_suffix (q p : gostring) (c : ascii) :
  p <> [] -> byteval c < 128 ->
  endsInSpace ((q ++ [c]) ++ p) = true -> endsInSpace p = true.
Proof.
  intros Hp Hc. unfold endsInSpace.
  destruct (exists_last Hp) as (a & d & ->).
  destruct (Z.lt_ge_cases (byteval d) 128) as [Hd|Hd].
  { rewrite app_assoc. rewrite !decodeLast_ascii by exact Hd. auto. }
  set (s := (q ++ [c]) ++ a ++ [d]).
  set (p := a ++ [d]) in *.
  assert (Hs : s <> []) by (unfold s; destruct q; discriminate).
  assert (Hlast_s : byteAt s (len s - 1) = byteval d).
  { rewrite byteAt_last by exact Hs. unfold s, p.
    rewrite !app_assoc, last_last. reflexivity. }
  assert (Hlast_p : byteAt p (len p - 1) = byteval d).
  { rewrite byteAt_last by exact Hp. unfold p. rewrite last_last.
    reflexivity. }
  rewrite (decodeLast_high s Hs) by (rewrite Hlast_s; exact Hd).
  cbv zeta.
  set (start := Z.max 0 (backUp 4 s (len s - 2) (Z.max 0 (len s - 4)))).
  pose proof (len_positive s Hs) as Hlens.
  pose proof (len_positive p Hp) as Hlenp.
  assert (Hstart : 0 <= start <= len s - 1).
  { unfold start.
    pose proof (backUp_le 4 s (len s - 2) (Z.max 0 (len s - 4))). lia. }
  destruct (DecodeRuneInString (sub s start (len s))) as [r size] eqn:Hdec.
  destruct (negb (start + size =? len s)) eqn:Emis;
    [cbn [fst]; discriminate|].
  apply negb_false_iff, Z.eqb_eq in Emis. cbn [fst]. intros Hspace.
  (* the rune takes two bytes or more *)
  assert (Hsize : 2 <= size).
  { destruct (sub_head s start) as (e & x & Hx & He); [lia|].
    pose proof (decode_width (sub s start (len s))) as Hw.
    rewrite Hdec in Hw. cbn [snd] in Hw.
    specialize (Hw ltac:(rewrite Hx; discriminate)).
    destruct (Z.eq_dec size 1) as [->|]; [|lia]. exfalso.
    assert (start = len s - 1) by lia. subst start.
    replace (len s - 1) with (len s - 1) in Hdec by reflexivity.
    match type of Hdec with
    | DecodeRuneInString (sub s ?i _) = _ =>
        replace i with (len s - 1) in Hdec by lia
    end.
    rewrite sub_last in Hdec by exact Hs.
    rewrite decode_lone_byte in Hdec.
    - injection Hdec as <-. discriminate Hspace.
    - rewrite <- byteAt_last by exact Hs. rewrite Hlast_s. exact Hd. }
  destruct (decode_multibyte _ _ _ Hdec Hsize) as (H0 & Hb0 & Hlen & Hcont).
  rewrite byteAt_sub in H0, Hb0 by lia. rewrite Z.add_0_r in H0, Hb0.
  assert (Hcont' : forall j, start < j < len s -> isCont (byteAt s j) = true).
  { intros j Hj. specialize (Hcont (j - start) ltac:(lia)).
    rewrite byteAt_sub in Hcont by lia.
    replace (start + (j - start)) with j in Hcont by lia. exact Hcont. }
  (* so it lies after the ASCII byte *)
  assert (Hlen_s : len s = len q + 1 + len p).
  { unfold s. rewrite !len_app. reflexivity. }
  assert (Hc_at : byteAt s (len q) = byteval c).
  { unfold s. rewrite <- app_assoc.
    replace (len q) with (len q + 0) by lia.
    rewrite byteAt_app_right by lia. reflexivity. }
  assert (Hafter : len q < start).
  { destruct (Z.lt_ge_cases (len q) start) as [|Hle]; [assumption|].
    exfalso. pose proof (len_nonneg q).
    destruct (Z.eq_dec start (len q)) as [E|E].
    - rewrite E, Hc_at in Hb0. lia.
    - specialize (Hcont' (len q) ltac:(lia)). rewrite Hc_at in Hcont'.
      unfold isCont in Hcont'. apply andb_true_iff in Hcont' as [Hlo _].
      apply Z.leb_le in Hlo. lia. }
  set (k := start - (len q + 1)).
  assert (Hk : 0 <= k /\ k + size = len p) by (unfold k; lia).
  assert (Hshift : forall j, 0 <= j -> byteAt p j = byteAt s (len q + 1 + j)).
  { intros j Hj. unfold s.
    replace (len q + 1) with (len (q ++ [c])) by (rewrite len_app; reflexivity).
    rewrite byteAt_app_right by exact Hj. reflexivity. }
  assert (Hsub : sub p k (len p) = sub s start (len s)).
  { unfold s at 1 2. rewrite sub_app_beyond
      by (rewrite len_app; change (len [c]) with 1; lia).
    rewrite len_app. change (len [c]) with 1. reflexivity. }
  (* and the loop finds it again in [p] *)
  pose proof (decode_width (sub s start (len s))) as Hw.
  rewrite Hdec in Hw. cbn [snd] in Hw.
  destruct (sub_head s start) as (e & x & Hx & He); [lia|].
  specialize (Hw ltac:(rewrite Hx; discriminate)).
  rewrite (decodeLast_high p Hp) by (rewrite Hlast_p; exact Hd).
  cbv zeta.
  rewrite (backUp_finds 4 p (Z.max 0 (len p - 4)) k).
  - replace (Z.max 0 k) with k by lia. rewrite Hsub, Hdec.
    replace (k + size =? len p) with true
      by (symmetry; apply Z.eqb_eq; lia).
    exact Hspace.
  - lia.
  - cbn. lia.
  - rewrite Hshift by lia. replace (len q + 1 + k) with start
      by (unfold k; lia). exact H0.
  - intros j Hj. rewrite Hshift by lia. unfold RuneStart.
    rewrite Hcont' by (unfold k in *; lia). reflexivity.
Qed.

End LastRune.

(** ** [TrimSpace] on a written record *)

Section TrimWritten.
Import utf8 trim Props.

(** [TrimSpace] takes the final line feed, and no more, off a line that
    neither starts nor ends with a white-space rune. *)
Lemma TrimSpace_line (row : gostring) :
  row <> [] -> startsWithSpace row = false -> endsInSpace row = false ->
  TrimSpace (row ++ [csv.LF]) = row.
Proof.
  intros Hne Hfirst Hlast. unfold TrimSpace.
  destruct row as [|c t]; [contradiction|].
  assert (Hscan : scanLeft ((c :: t) ++ [csv.LF]) 0
                  = if RuneSelf <=? byteval c then (0, true)
                    else if asciiSpace (byteval c)
                         then scanLeft (t ++ [csv.LF]) (0 + 1)
                         else (0, false)) by reflexivity.
  rewrite Hscan. clear Hscan.
  remember (c :: t) as row eqn:Erow.
  assert (Hlens : len (row ++ [csv.LF]) = len row + 1)
    by (rewrite len_app; reflexivity).
  destruct (RuneSelf <=? byteval c) eqn:Ehigh.
  - (* a non-ASCII first byte: the Unicode path *)
    rewrite sub_all. unfold TrimFunc, TrimLeftFunc, indexFunc.
    cbn [indexFuncFrom].
    replace (len (row ++ [csv.LF]) <=? 0) with false
      by (symmetry; apply Z.leb_gt; pose proof (len_nonneg row); lia).
    rewrite sub_all.
    assert (Hdec : DecodeRuneInString (row ++ [csv.LF])
                   = DecodeRuneInString row)
      by (apply decode_app; [exact Hne|reflexivity]).
    unfold startsWithSpace in Hfirst. rewrite Hdec.
    destruct (DecodeRuneInString row) as [r size]. cbn [fst] in Hfirst.
    rewrite Hfirst. cbn [Bool.eqb]. change (0 =? -1) with false.
    rewrite sub_all. apply TrimRightFunc_drops_newline; assumption.
  - (* an ASCII first byte, which is not white space *)
    apply Z.leb_gt in Ehigh. unfold RuneSelf in Ehigh.
    assert (Hc : asciiSpace (byteval c) = false).
    { unfold startsWithSpace in Hfirst. rewrite Erow in Hfirst.
      rewrite decode_ascii in Hfirst by exact Ehigh. cbn [fst] in Hfirst.
      rewrite IsSpace_ascii in Hfirst
        by (pose proof (byteval_range c); lia).
      exact Hfirst. }
    rewrite Hc. rewrite sub_all. rewrite rev_app_distr. cbn [rev app].
    cbn [scanRight].
    change (RuneSelf <=? byteval csv.LF) with false.
    change (asciiSpace (byteval csv.LF)) with true. cbv iota.
    destruct (exists_last Hne) as (a & d & Hrow).
    rewrite Hrow at 1. rewrite rev_app_distr. cbn [rev app scanRight].
    rewrite Hlens. replace (len row + 1 - 1) with (len row) by lia.
    destruct (RuneSelf <=? byteval d) eqn:Ed.
    + rewrite sub_app_left. apply TrimRightFunc_keeps; assumption.
    + apply Z.leb_gt in Ed. unfold RuneSelf in Ed.
      assert (Hd : asciiSpace (byteval d) = false).
      { unfold endsInSpace in Hlast. rewrite Hrow in Hlast.
        rewrite decodeLast_ascii in Hlast by exact Ed. cbn [fst] in Hlast.
        rewrite IsSpace_ascii in Hlast
          by (pose proof (byteval_range d); lia).
        exact Hlast. }
      rewrite Hd. apply sub_app_left.
Qed.

Lemma unquoted_first_rune (f : gostring) :
  csv.fieldNeedsQuotes f = false -> startsWithSpace f = false.
Proof.
  unfold csv.fieldNeedsQuotes, startsWithSpace.
  destruct (gostring_eqb f []) eqn:E0.
  - apply gostring_eqb_eq in E0. subst f. reflexivity.
  - destruct (gostring_eqb f (str "\.")); [discriminate|].
    destruct (existsb csv.isSpecial f); [discriminate|]. auto.
Qed.

(** A written record of two fields or more does not start with white
    space. *)
Lemma written_starts (m f : gostring) (record : list gostring) :
  startsWithSpace (csv.writeFields 0 (m :: f :: record)) = false.
Proof.
  rewrite writeFields_first, writeFields_next.
  destruct (csv.fieldNeedsQuotes m) eqn:Hq.
  - rewrite (writeField_quoted m Hq). reflexivity.
  - destruct (writeField_unquoted m Hq) as [-> _].
    destruct m as [|c m]; [reflexivity|].
    unfold startsWithSpace. rewrite decode_app;
      [|discriminate|reflexivity].
    apply unquoted_first_rune. exact Hq.
Qed.

Lemma written_nonempty (m f : gostring) (record : list gostring) :
  csv.writeFields 0 (m :: f :: record) <> [].
Proof.
  destruct (written_head m f record) as (c & t & -> & _). discriminate.
Qed.

(** The fields after the first, written: a prefix, then a separator and
    the last field. *)
Lemma written_last (record : list gostring) :
  forall f, exists pre,
    csv.writeFields 1 (f :: record)
    = (pre ++ [csv.Comma]) ++ csv.writeField (last (f :: record) []).
Proof.
  induction record as [|g record IH]; intros f.
  - exists []. rewrite writeFields_next. cbn [csv.writeFields last app].
    rewrite app_nil_r. reflexivity.
  - destruct (IH g) as (pre & Hpre).
    exists (csv.Comma :: csv.writeField f ++ pre).
    rewrite writeFields_next, Hpre.
    change (last (f :: g :: record) []) with (last (g :: record) []).
    cbn [app]. rewrite <- !app_assoc. reflexivity.
Qed.

(** ... and does not end with white space either, if its last field
    is quoted or does not end with white space. *)
Lemma written_ends (m f : gostring) (record : list gostring) :
  csv.fieldNeedsQuotes (last (f :: record) []) = true
  \/ endsInSpace (last (f :: record) []) = false ->
  endsInSpace (csv.writeFields 0 (m :: f :: record)) = false.
Proof.
  intros Hp. rewrite writeFields_first.
  destruct (written_last record f) as (pre & ->).
  set (p := last (f :: record) []) in *.
  destruct (csv.fieldNeedsQuotes p) eqn:Hq.
  - rewrite (writeField_quoted p Hq).
    change (csv.quote :: escape p ++ [csv.quote])
      with ((csv.quote :: escape p) ++ [csv.quote]).
    rewrite !app_assoc. unfold endsInSpace.
    rewrite decodeLast_ascii by (cbv; reflexivity). reflexivity.
  - destruct Hp as [Hp|Hp]; [discriminate Hp|].
    destruct (writeField_unquoted p Hq) as [-> _].
    destruct p as [|c p'] eqn:Ep.
    + rewrite app_nil_r, app_assoc. unfold endsInSpace.
      rewrite decodeLast_ascii by (cbv; reflexivity). reflexivity.
    + rewrite <- Ep in *.
      replace (csv.writeField m ++ (pre ++ [csv.Comma]) ++ p)
        with (((csv.writeField m ++ pre) ++ [csv.Comma]) ++ p)
        by (rewrite <- !app_assoc; reflexivity).
      destruct (endsInSpace (((csv.writeField m ++ pre) ++ [csv.Comma]) ++ p))
        eqn:E; [|reflexivity].
      apply decodeLast_suffix in E;
        [congruence|rewrite Ep; discriminate|cbv; reflexivity].
Qed.

End TrimWritten.

(** ** The written record has plain lines *)

Section PlainRecord.
Import Props.

Lemma noCRLF_cons (c : ascii) (w : gostring) :
  noCRLF (c :: w)
  = negb (byte_eqb c csv.CR && byte_eqb (hd zero w) csv.LF) && noCRLF w.
Proof.
  destruct w as [|d w]; [|reflexivity].
  cbn [noCRLF hd]. rewrite andb_false_r. reflexivity.
Qed.

Lemma noCRLF_app (a b : gostring) :
  noCRLF a = true -> noCRLF b = true ->
  last a zero <> csv.CR \/ hd zero b <> csv.LF ->
  noCRLF (a ++ b) = true.
Proof.
  induction a as [|c a IH]; intros Ha Hb Hedge; [exact Hb|].
  cbn [app]. rewrite noCRLF_cons in *.
  apply andb_true_iff in Ha as [Hc Ha].
  apply andb_true_iff. split.
  - destruct a as [|d a]; [|exact Hc]. cbn [app last] in *.
    apply negb_true_iff, andb_false_iff.
    destruct Hedge as [H|H]; [left|right]; apply byte_eqb_neq; exact H.
  - apply IH; auto. destruct a as [|d a]; [|exact Hedge].
    left. cbn. discriminate.
Qed.

Lemma hd_escape (f : gostring) : hd zero (escape f) = hd zero f.
Proof.
  destruct f as [|c f]; [reflexivity|]. cbn [escape].
  destruct (byte_eqb c csv.quote) eqn:E; [|reflexivity].
  apply byte_eqb_eq in E. subst c. reflexivity.
Qed.

Lemma noCRLF_escape (f : gostring) :
  noCRLF f = true -> noCRLF (escape f) = true.
Proof.
  induction f as [|c f IH]; intros H; [reflexivity|].
  rewrite noCRLF_cons in H. apply andb_true_iff in H as [Hc Hf].
  cbn [escape]. destruct (byte_eqb c csv.quote) eqn:E.
  - rewrite !noCRLF_cons. rewrite IH by exact Hf. reflexivity.
  - rewrite noCRLF_cons, hd_escape, Hc, IH by exact Hf. reflexivity.
Qed.

Lemma last_app_nonempty (a b : gostring) :
  b <> [] -> last (a ++ b) zero = last b zero.
Proof.
  intros H. destruct (exists_last H) as (b' & c & ->).
  rewrite app_assoc, !last_last. reflexivity.
Qed.

Lemma tidy_app (a b : gostring) : tidy a -> tidy b -> tidy (a ++ b).
Proof.
  intros (Ha & Ha1 & Ha2) (Hb & Hb1 & Hb2). repeat split.
  - apply noCRLF_app; auto.
  - destruct a; [exact Hb1|exact Ha1].
  - destruct b as [|d b]; [rewrite app_nil_r; exact Ha2|].
    rewrite last_app_nonempty by discriminate. exact Hb2.
Qed.

Lemma tidy_byte (c : ascii) : c <> csv.LF -> c <> csv.CR -> tidy [c].
Proof. intros H1 H2. repeat split; assumption. Qed.

Lemma last_in (w : gostring) : w <> [] -> In (last w zero) w.
Proof.
  intros H. destruct (exists_last H) as (a & c & ->).
  rewrite last_last. apply in_or_app. right. left. reflexivity.
Qed.

Lemma tidy_writeField (f : gostring) :
  noCRLF f = true -> tidy (csv.writeField f).
Proof.
  intros Hf. destruct (csv.fieldNeedsQuotes f) eqn:Hq.
  - rewrite (writeField_quoted f Hq).
    change (csv.quote :: escape f ++ [csv.quote])
      with ([csv.quote] ++ escape f ++ [csv.quote]).
    repeat split.
    + apply noCRLF_app; [reflexivity| |left; discriminate].
      apply noCRLF_app; [apply noCRLF_escape; exact Hf|reflexivity|].
      right. discriminate.
    + discriminate.
    + rewrite app_assoc, last_last. discriminate.
  - destruct (writeField_unquoted f Hq) as [-> Hs]. repeat split.
    + exact Hf.
    + destruct f as [|c f]; [discriminate|]. cbn [hd]. intros ->.
      eapply (not_special_in _ csv.LF Hs); [reflexivity|left; reflexivity].
    + destruct f as [|c f]; [discriminate|]. intros E.
      eapply (not_special_in _ csv.CR Hs); [reflexivity|].
      rewrite <- E. apply last_in. discriminate.
Qed.

Lemma tidy_writeFields (record : list gostring) :
  Forall (fun f => noCRLF f = true) record ->
  tidy (csv.writeFields 1 record).
Proof.
  induction 1 as [|f record Hf _ IH]; [repeat split; discriminate|].
  rewrite writeFields_next.
  change (csv.Comma :: csv.writeField f ++ csv.writeFields 1 record)
    with ([csv.Comma] ++ csv.writeField f ++ csv.writeFields 1 record).
  apply tidy_app; [apply tidy_byte; discriminate|].
  apply tidy_app; [apply tidy_writeField; exact Hf|exact IH].
Qed.

Lemma plainLines_written (record : list gostring) :
  Forall (fun f => noCRLF f = true) record ->
  plainLines (csv.writeFields 0 record).
Proof.
  intros H. destruct H as [|f record Hf H].
  - split; [reflexivity|discriminate].
  - rewrite writeFields_first.
    destruct (tidy_app _ _ (tidy_writeField f Hf) (tidy_writeFields record H))
      as (H1 & _ & H2).
    split; assumption.
Qed.

Lemma noCRLF_without_CR (w : gostring) : ~ In csv.CR w -> noCRLF w = true.
Proof.
  induction w as [|c w IH]; intros H; [reflexivity|].
  rewrite noCRLF_cons, IH by (intros Hin; apply H; right; exact Hin).
  replace (byte_eqb c csv.CR) with false; [reflexivity|].
  symmetry. apply byte_eqb_neq. intros ->. apply H. left. reflexivity.
Qed.

Lemma digits_without_CR (w : gostring) :
  forallb strconv.isDigit w = true -> ~ In csv.CR w.
Proof.
  intros H Hin. rewrite forallb_forall in H. specialize (H _ Hin).
  discriminate H.
Qed.

Lemma noCRLF_Itoa (n : Z) : noCRLF (strconv.Itoa n) = true.
Proof.
  apply noCRLF_without_CR. unfold strconv.Itoa.
  destruct (n <? 0) eqn:E.
  - apply Z.ltb_lt in E.
    destruct (formatUint_shape (- n)) as (d & rest & -> & Hd); [lia|].
    intros [H|H]; [discriminate H|].
    revert H. apply digits_without_CR. exact Hd.
  - apply Z.ltb_ge in E.
    destruct (formatUint_shape n) as (d & rest & -> & Hd); [lia|].
    apply digits_without_CR. exact Hd.
Qed.

End PlainRecord.

(** ** The round trip through the record *)

Section RoundTrip.
Import Meta Props.

(** What the reader makes of the trimmed output of the writer. *)
Lemma read_trimmed_record (m f : gostring) (record : list gostring) :
  Forall (fun x => noCRLF x = true) (m :: f :: record) ->
  csv.fieldNeedsQuotes (last (f :: record) []) = true
  \/ endsInSpace (last (f :: record) []) = false ->
  let rec := trim.TrimSpace (csv.Write (m :: f :: record)) in
  rec = csv.writeFields 0 (m :: f :: record)
  /\ csv.readRecord (csv.fuelFor rec) 5 rec
     = Some (m :: f :: record,
             if negb (Z.of_nat (List.length (m :: f :: record)) =? 5)
             then Some csv.ErrFieldCount else None).
Proof.
  intros Hplain Hlast rec.
  assert (Hrec : rec = csv.writeFields 0 (m :: f :: record)).
  { unfold rec, csv.Write. apply TrimSpace_line.
    - apply written_nonempty.
    - apply written_starts.
    - apply written_ends. exact Hlast. }
  split; [exact Hrec|]. rewrite Hrec.
  apply readRecord_written.
  - apply plainLines_written. exact Hplain.
  - unfold csv.fuelFor. lia.
Qed.

(** C1, as stated, fails: a message with a CR LF line break comes back
    with a bare LF. *)
Lemma round_trip_loses_carriage_return :
  exists rec p s' msg,
    Error (addr 0) (mkStore [Samples.crlfObject] []) = Ok Samples.crlfMessage
    /\ ToCSV (addr 0) (mkStore [Samples.crlfObject] []) = Ok rec
    /\ MetaErrorFromCSV rec (mkStore [Samples.crlfObject] [])
       = Ok (p, None, s')
    /\ Error p s' = Ok msg
    /\ msg <> Samples.crlfMessage.
Proof.
  do 4 eexists. split; [reflexivity|].
  split; [vm_compute; reflexivity|].
  split; [vm_compute; reflexivity|].
  split; [vm_compute; reflexivity|].
  discriminate.
Qed.

(** C1, amended. Take an instance that wraps a non-nil error whose
    [Error] is [msg], with a line number that is an [int].  If no CR is
    immediately followed by LF in the message, the file, the function or
    the package, and the package is quoted by the writer or does not end
    with white space, then [MetaErrorFromCSV] applied to the output of
    [ToCSV] succeeds, and the new object has the same message, file,
    line, function and package; its error is a plain message, its stack
    empty, its compact mode off. *)
Theorem record_round_trip :
  forall s l obj e msg,
    lookup (heap s) l = Some obj ->
    Err obj = Some e ->
    errorOf (heap s) e = Ok msg ->
    strconv.is_int (Line obj) ->
    noCRLF msg = true ->
    noCRLF (File obj) = true ->
    noCRLF (Func obj) = true ->
    noCRLF (Package obj) = true ->
    csv.fieldNeedsQuotes (Package obj) = true
    \/ endsInSpace (Package obj) = false ->
    exists rec,
      ToCSV (addr l) s = Ok rec
      /\ MetaErrorFromCSV rec s
         = Ok (addr (List.length (heap s)), None,
               mkStore (mkMetaError (Some (errorString msg)) (File obj)
                          (Line obj) (Func obj) (Package obj) [] [] false
                          :: heap s)
                       (writes s)).
Proof.
  intros s l obj e msg Hobj He Hmsg Hline Hm Hf Hfn Hp Hlast.
  unfold ToCSV, deref. rewrite Hobj. cbn [bind].
  unfold callError. rewrite He, Hmsg. cbn [bind].
  eexists. split; [reflexivity|].
  destruct (read_trimmed_record msg (File obj)
              [strconv.Itoa (Line obj); Func obj; Package obj])
    as [_ Hread].
  { repeat constructor; auto. apply noCRLF_Itoa. }
  { exact Hlast. }
  unfold MetaErrorFromCSV. rewrite Hread.
  cbn [List.length Z.of_nat Pos.of_succ_nat Pos.succ Z.eqb Pos.eqb negb nth].
  rewrite Atoi_Itoa by exact Hline. reflexivity.
Qed.

Lemma record_round_trip_witness :
  exists rec,
    ToCSV (addr 0) (mkStore [Samples.plainObject] []) = Ok rec
    /\ MetaErrorFromCSV rec (mkStore [Samples.plainObject] [])
       = Ok (addr 1, None,
             mkStore [mkMetaError (Some (errorString (str "boom")))
                        (str "main.go") 10 (str "run")
                        (str "example.com/u/app") [] [] false;
                      Samples.plainObject] []).
Proof.
  apply (record_round_trip (mkStore [Samples.plainObject] []) 0
           Samples.plainObject (errorString (str "boom")) (str "boom")).
  - reflexivity.
  - reflexivity.
  - reflexivity.
  - unfold strconv.is_int, strconv.minInt, strconv.maxInt. cbn. lia.
  - reflexivity.
  - reflexivity.
  - reflexivity.
  - reflexivity.
  - right. reflexivity.
Defined.

End RoundTrip.

(** ** Occurrences of a byte *)

Section Occurrences.
Import strings.

Lemma lastIndexFrom_unfold (c : ascii) (s sep : gostring) (i best : Z) :
  lastIndexFrom (c :: s) sep i best
  = lastIndexFrom s sep (i + 1) (if HasPrefix (c :: s) sep then i else best).
Proof. reflexivity. Qed.

Lemma lastIndexFrom_byte_missing (s : gostring) (c : ascii) (i best : Z) :
  ~ In c s -> lastIndexFrom s [c] i best = best.
Proof.
  revert i best. induction s as [|d s IH]; intros i best Hn.
  - reflexivity.
  - rewrite lastIndexFrom_unfold, HasPrefix_byte.
    destruct (byte_eqb d c) eqn:E.
    + apply byte_eqb_eq in E. subst. exfalso. apply Hn. left. reflexivity.
    + apply IH. intro. apply Hn. right. assumption.
Qed.

Lemma lastIndexFrom_byte_found (a b : gostring) (c : ascii) (i best : Z) :
  ~ In c b -> lastIndexFrom (a ++ c :: b) [c] i best = i + len a.
Proof.
  intro Hn. revert i best. induction a as [|d a IH]; intros i best.
  - cbn [app]. rewrite lastIndexFrom_unfold, HasPrefix_byte, byte_eqb_refl.
    rewrite lastIndexFrom_byte_missing by assumption. rewrite len_nil. lia.
  - cbn [app]. rewrite lastIndexFrom_unfold, IH, len_cons. lia.
Qed.

Lemma lastIndexFrom_byte_tail (a b : gostring) (c : ascii) (i best : Z) :
  ~ In c b -> lastIndexFrom (a ++ b) [c] i best = lastIndexFrom a [c] i best.
Proof.
  intro Hn. revert i best. induction a as [|d a IH]; intros i best.
  - cbn [app]. rewrite lastIndexFrom_byte_missing by assumption. reflexivity.
  - cbn [app]. rewrite !lastIndexFrom_unfold, !HasPrefix_byte. apply IH.
Qed.

Lemma LastIndex_byte_missing (s : gostring) (c : ascii) :
  ~ In c s -> LastIndex s [c] = -1.
Proof. apply lastIndexFrom_byte_missing. Qed.

Lemma LastIndex_byte_found (a b : gostring) (c : ascii) :
  ~ In c b -> LastIndex (a ++ c :: b) [c] = len a.
Proof.
  intro Hn. unfold LastIndex. rewrite lastIndexFrom_byte_found by assumption.
  lia.
Qed.

Lemma LastIndex_byte_tail (a b : gostring) (c : ascii) :
  ~ In c b -> LastIndex (a ++ b) [c] = LastIndex a [c].
Proof. apply lastIndexFrom_byte_tail. Qed.

(** Where the last occurrence is: the string splits there, and the byte
    does not occur again. *)
Lemma split_at_last (s : gostring) (c : ascii) :
  ~ In c s \/ exists a b, s = a ++ c :: b /\ ~ In c b.
Proof.
  induction s as [|d s IH].
  - left. intros [].
  - destruct IH as [Hn|[a [b [-> Hb]]]].
    + destruct (ascii_dec d c) as [->|Hd].
      * right. exists [], s. split; [reflexivity|assumption].
      * left. intros [H|H]; [apply Hd; assumption|apply Hn; assumption].
    + right. exists (d :: a), b. split; [reflexivity|assumption].
Qed.

Lemma LastIndex_byte_cases (s : gostring) (c : ascii) :
  (~ In c s /\ LastIndex s [c] = -1)
  \/ exists a b, s = a ++ c :: b /\ ~ In c b /\ LastIndex s [c] = len a.
Proof.
  destruct (split_at_last s c) as [Hn|[a [b [-> Hb]]]].
  - left. split; [assumption|apply LastIndex_byte_missing; assumption].
  - right. exists a, b. split; [reflexivity|]. split; [assumption|].
    apply LastIndex_byte_found. assumption.
Qed.

Lemma HasSuffix_byte_last (s : gostring) (c : ascii) :
  HasSuffix (s ++ [c]) [c] = true.
Proof.
  unfold HasSuffix. rewrite len_app. change (len [c]) with 1.
  replace (1 <=? len s + 1) with true
    by (symmetry; apply Z.leb_le; pose proof (len_nonneg s); lia).
  rewrite length_app. cbn [List.length].
  replace (List.length s + 1 - 1)%nat with (List.length s + 0)%nat by lia.
  rewrite skipn_app, skipn_all2 by lia.
  replace (List.length s + 0 - List.length s)%nat with 0%nat by lia.
  cbn. rewrite byte_eqb_refl. reflexivity.
Qed.

Lemma HasSuffix_byte_inv (s : gostring) (c : ascii) :
  HasSuffix s [c] = true -> exists a, s = a ++ [c].
Proof.
  unfold HasSuffix. intro H. apply andb_true_iff in H as [H1 H2].
  apply gostring_eqb_eq in H2. exists (firstn (List.length s - 1) s).
  cbn [List.length] in H2. rewrite <- H2.
  symmetry. apply firstn_skipn.
Qed.

Lemma HasSuffix_byte_other (s : gostring) (c d : ascii) :
  c <> d -> HasSuffix (s ++ [c]) [d] = false.
Proof.
  intro Hcd. destruct (HasSuffix (s ++ [c]) [d]) eqn:E; [|reflexivity].
  apply HasSuffix_byte_inv in E as [a E].
  apply app_inj_tail in E as [_ E]. contradiction.
Qed.

Lemma HasSuffix_byte_absent (s : gostring) (c : ascii) :
  ~ In c s -> HasSuffix s [c] = false.
Proof.
  intro Hn. destruct (HasSuffix s [c]) eqn:E; [|reflexivity].
  apply HasSuffix_byte_inv in E as [a ->].
  exfalso. apply Hn. apply in_or_app. right. left. reflexivity.
Qed.

Lemma Contains_byte_absent (s : gostring) (c : ascii) :
  ~ In c s -> Contains s [c] = false.
Proof.
  intro Hn. unfold Contains, Index.
  rewrite indexFrom_byte_missing by assumption. reflexivity.
Qed.

Lemma Contains_byte_present (s : gostring) (c : ascii) :
  In c s -> Contains s [c] = true.
Proof.
  intro Hin. unfold Contains, Index.
  destruct (split_at_first s c) as [Hn|[a [b [-> Ha]]]]; [contradiction|].
  rewrite indexFrom_byte_found by assumption.
  apply Z.leb_le. pose proof (len_nonneg a). lia.
Qed.

Lemma slice_to_app (a b : gostring) : slice_to (a ++ b) (len a) = Ok a.
Proof.
  unfold slice_to. rewrite slice_ok.
  - rewrite sub_app_left. reflexivity.
  - pose proof (len_nonneg a). lia.
  - rewrite len_app. pose proof (len_nonneg b). lia.
Qed.

Lemma slice_from_after (a b : gostring) (c : ascii) :
  slice_from (a ++ c :: b) (len a + 1) = Ok b.
Proof.
  unfold slice_from. rewrite slice_ok.
  - rewrite sub_after. reflexivity.
  - rewrite len_app, len_cons.
    pose proof (len_nonneg a). pose proof (len_nonneg b). lia.
  - lia.
Qed.

Lemma slice_from_app (a b : gostring) : slice_from (a ++ b) (len a) = Ok b.
Proof.
  unfold slice_from. rewrite slice_ok.
  - rewrite sub_app_right. reflexivity.
  - rewrite len_app. pose proof (len_nonneg a). pose proof (len_nonneg b). lia.
  - lia.
Qed.

End Occurrences.

(** ** The symbol parser on well-formed names *)

Section ParserShapes.
Import strings FuncName.

Ltac bytes :=
  change (str ".") with ["."%char] in *;
  change (str "/") with ["/"%char] in *;
  change (str "[") with ["["%char] in *;
  change (str "]") with ["]"%char] in *;
  change (str "(") with ["("%char] in *;
  change (str ")") with [")"%char] in *;
  change (str "*") with ["*"%char] in *.

Lemma HasSuffix_byte_after (a b : gostring) (c d : ascii) :
  c <> d -> ~ In c b -> HasSuffix (a ++ d :: b) [c] = false.
Proof.
  intros Hcd Hn. destruct (HasSuffix (a ++ d :: b) [c]) eqn:E; [|reflexivity].
  apply HasSuffix_byte_inv in E as [x E]. exfalso.
  destruct b as [|b0 b].
  - apply app_inj_tail in E as [_ E]. apply Hcd. symmetry. assumption.
  - destruct (exists_last (l := b0 :: b)) as [b' [l Hb]]; [discriminate|].
    rewrite Hb in E, Hn.
    replace (a ++ d :: b' ++ [l]) with ((a ++ d :: b') ++ [l]) in E
      by (rewrite <- app_assoc; reflexivity).
    apply app_inj_tail in E as [_ ->].
    apply Hn. apply in_or_app. right. left. reflexivity.
Qed.

Lemma LastIndex_byte_ge (d rest : gostring) (c : ascii) :
  len d <= LastIndex (d ++ c :: rest) [c].
Proof.
  destruct (LastIndex_byte_cases (d ++ c :: rest) c)
    as [[Hn _]|[a [b [E [Hb ->]]]]].
  - exfalso. apply Hn. apply in_or_app. right. left. reflexivity.
  - apply app_eq_app in E as [l [[E1 E2]|[E1 E2]]].
    + destruct l as [|x l].
      * rewrite E1, len_app, len_nil. lia.
      * exfalso. injection E2 as _ E2. apply Hb. rewrite E2.
        apply in_or_app. right. left. reflexivity.
    + rewrite E1, len_app. pose proof (len_nonneg l). lia.
Qed.

Lemma at_ok (s : gostring) (i : Z) :
  0 <= i < len s -> exists c, at_ s i = Ok c.
Proof.
  intro H. unfold at_.
  replace ((0 <=? i) && (i <? len s)) with true
    by (symmetry; rewrite andb_true_iff, Z.leb_le, Z.ltb_lt; lia).
  destruct (nth_error s (Z.to_nat i)) eqn:E; [eauto|].
  apply nth_error_None in E. unfold len in H. lia.
Qed.

Lemma at_app (a b : gostring) (c : ascii) : at_ (a ++ c :: b) (len a) = Ok c.
Proof.
  unfold at_. rewrite len_app, len_cons.
  replace ((0 <=? len a) && (len a <? len a + (len b + 1))) with true
    by (symmetry; rewrite andb_true_iff, Z.leb_le, Z.ltb_lt;
        pose proof (len_nonneg a); pose proof (len_nonneg b); lia).
  unfold len. rewrite Nat2Z.id, nth_error_app2 by lia.
  rewrite Nat.sub_diag. reflexivity.
Qed.

Lemma slice_middle (a b c : gostring) :
  slice (a ++ b ++ c) (len a) (len a + len b) = Ok b.
Proof.
  rewrite slice_ok.
  - unfold sub. replace (len a + len b - len a) with (len b) by lia.
    unfold len. rewrite !Nat2Z.id.
    rewrite skipn_app, skipn_all, Nat.sub_diag. cbn [skipn app].
    rewrite firstn_app, firstn_all, Nat.sub_diag. cbn [firstn].
    rewrite app_nil_r. reflexivity.
  - pose proof (len_nonneg a). pose proof (len_nonneg b). lia.
  - rewrite !len_app. pose proof (len_nonneg c). lia.
Qed.

(** *** No run-time panic *)

Lemma isAnonymousFuncName_total (f : gostring) :
  exists b, isAnonymousFuncName f = Ok b.
Proof.
  unfold isAnonymousFuncName.
  destruct (Contains f ".func"); [eauto|].
  destruct (HasPrefix f "func") eqn:E; cbn [negb]; [|eauto].
  apply HasPrefix_len in E. change (len (str "func")) with 4 in E.
  unfold slice_from. rewrite slice_ok by lia. cbn [bind].
  destruct (gostring_eqb _ _); eauto.
Qed.

Lemma validPart_total (part : gostring) : exists b, validPart part = Ok b.
Proof.
  unfold validPart. destruct (len part =? 0) eqn:E; [eauto|].
  apply Z.eqb_neq in E. pose proof (len_nonneg part).
  destruct (negb _); [eauto|].
  destruct (at_ok part 0) as [c ->]; [lia|].
  destruct (at_ok part (len part - 1)) as [d ->]; [lia|].
  cbn [bind]. eauto.
Qed.

Lemma validParts_total (parts : list gostring) :
  exists b, validParts parts = Ok b.
Proof.
  induction parts as [|part rest IH]; cbn [validParts]; [eauto|].
  destruct (validPart_total part) as [b ->]. cbn [bind].
  destruct b; eauto.
Qed.

Lemma isGoPackageURLPattern_total (s : gostring) :
  exists b, isGoPackageURLPattern s = Ok b.
Proof.
  unfold isGoPackageURLPattern. destruct (len s <? 4); [eauto|].
  destruct (Index s "/" =? -1) eqn:E; [eauto|]. apply Z.eqb_neq in E.
  pose proof (indexFrom_bounds s "/" 0) as B. cbv zeta in B.
  fold (Index s "/") in B. change (len (str "/")) with 1 in B.
  destruct B as [B|B]; [contradiction|].
  unfold slice_to. rewrite slice_ok by lia. cbn [bind].
  unfold isValidDomain. destruct (_ <? 2); cbn [bind]; [eauto|].
  destruct (validParts_total (Split (sub s 0 (Index s "/")) ".")) as [b ->].
  cbn [bind]. eauto.
Qed.

Lemma finish_total (x : gostring) (r : Parsed) :
  exists r', finish x r = Ok r'.
Proof.
  unfold finish. cbv zeta. destruct (HasPrefix x "*") eqn:E; [|eauto].
  apply HasPrefix_len in E. change (len (str "*")) with 1 in E.
  unfold slice_from. rewrite slice_ok by lia. cbn [bind]. eauto.
Qed.

Lemma splitPkgRecv_total (sepIdx : Z) (p : gostring) (r : Parsed) :
  exists r', splitPkgRecv sepIdx p r = Ok r'.
Proof.
  unfold splitPkgRecv. cbv zeta.
  pose proof (LastIndex_bounds p ".") as B. cbv zeta in B.
  change (len (str ".")) with 1 in B.
  destruct (LastIndex p "." <? 0) eqn:E; [eauto|]. apply Z.ltb_ge in E.
  destruct B as [B|B]; [lia|].
  destruct (_ && _); [eauto|].
  unfold slice_to, slice_from. rewrite !slice_ok by lia. cbn [bind].
  destruct (Contains _ _); [|apply finish_total].
  destruct (_ =? 2).
  - destruct (isGoPackageURLPattern_total (sub p 0 (LastIndex p ".")))
      as [b ->].
    cbn [bind]. destruct (negb b); apply finish_total.
  - destruct (_ =? 1); apply finish_total.
Qed.

Lemma closed_after_open (a b x : gostring) (c d : ascii) :
  a ++ c :: b = x ++ [d] -> c <> d -> 1 <= len b.
Proof.
  intros E Hcd. destruct b as [|b0 b].
  - apply app_inj_tail in E as [_ E]. contradiction.
  - rewrite len_cons. pose proof (len_nonneg b). lia.
Qed.

Lemma parseRecvGeneric_total (sepIdx : Z) (hasParen : bool) (g : gostring)
    (r : Parsed) :
  exists r', parseRecvGeneric sepIdx hasParen g r = Ok r'.
Proof.
  assert (Hcont : forall p r0,
             exists r', (if negb hasParen then splitPkgRecv sepIdx p r0
                         else finish p r0) = Ok r').
  { intros p r0. destruct (negb hasParen);
      [apply splitPkgRecv_total|apply finish_total]. }
  unfold parseRecvGeneric. cbv zeta.
  destruct (HasSuffix g "]") eqn:E; [|apply Hcont].
  bytes.
  destruct (LastIndex_byte_cases g "[") as [[_ ->]|[a [b [Hg [Hb ->]]]]];
    [cbn; eauto|].
  pose proof (len_nonneg a).
  replace (len a <? 0) with false by (symmetry; apply Z.ltb_ge; lia).
  apply HasSuffix_byte_inv in E as [x E]. rewrite Hg in E.
  apply closed_after_open in E; [|discriminate].
  assert (len g = len a + 1 + len b)
    by (rewrite Hg, len_app, len_cons; lia).
  unfold slice_to. rewrite !slice_ok by lia. cbn [bind]. apply Hcont.
Qed.

Lemma prefix_keeps_head (p : gostring) (n : Z) (b : gostring) (c : ascii) :
  sub p 0 n = c :: b -> HasPrefix p [c] = true.
Proof.
  rewrite sub_to. destruct p as [|d p]; [rewrite firstn_nil; discriminate|].
  destruct (Z.to_nat n); cbn [firstn]; [discriminate|].
  intro E. injection E as -> _. rewrite HasPrefix_byte. apply byte_eqb_refl.
Qed.

Lemma parseType_total (sepIdx fd : Z) (p : gostring) (r : Parsed) :
  0 <= fd <= len p -> HasPrefix p "(" = false ->
  exists r', parseType sepIdx fd p r = Ok r'.
Proof.
  intros Hfd Hp. unfold parseType, slice_to. rewrite slice_ok by lia.
  cbn [bind]. remember (sub p 0 fd) as q eqn:Hq.
  destruct (HasSuffix q ")") eqn:E; [|apply parseRecvGeneric_total].
  bytes.
  destruct (LastIndex_byte_cases q "(") as [[_ ->]|[a [b [Ha [Hb ->]]]]];
    [cbn; eauto|].
  pose proof (len_nonneg a).
  replace (len a <? 0) with false by (symmetry; apply Z.ltb_ge; lia).
  apply HasSuffix_byte_inv in E as [x E]. rewrite Ha in E.
  apply closed_after_open in E; [|discriminate].
  assert (Hlen : len q = len a + 1 + len b)
    by (rewrite Ha, len_app, len_cons; lia).
  assert (Hne : 1 <= len a).
  { destruct a as [|a0 a]; [|rewrite len_cons; pose proof (len_nonneg a); lia].
    exfalso. cbn [app] in Ha. rewrite Ha in Hq. symmetry in Hq.
    apply prefix_keeps_head in Hq. congruence. }
  rewrite slice_ok by lia. cbn [bind].
  destruct (at_ok q (len a - 1)) as [c ->]; [lia|]. cbn [bind].
  destruct (negb _); [eauto|].
  rewrite slice_ok by lia. cbn [bind]. cbv zeta.
  destruct (Contains _ ["/"%char]); cbn [bind];
    [|apply parseRecvGeneric_total].
  match goal with
  | |- context [LastIndex ?s ?t] =>
      pose proof (LastIndex_bounds s t) as B; cbv zeta in B;
      pose proof (len_nonneg s)
  end.
  change (len ["/"%char]) with 1 in B.
  unfold slice_from. rewrite slice_ok by lia. cbn [bind].
  destruct (Contains _ _); cbn [bind]; [|apply parseRecvGeneric_total].
  destruct (_ =? 2); cbn [bind]; [apply parseRecvGeneric_total|].
  destruct (_ =? 1); cbn [bind]; apply parseRecvGeneric_total.
Qed.

Lemma parseName_total (sepIdx : Z) (p : gostring) (r : Parsed) :
  HasPrefix p "(" = false -> exists r', parseName sepIdx p r = Ok r'.
Proof.
  intro Hp. unfold parseName. cbv zeta.
  pose proof (LastIndex_bounds p ".") as B. cbv zeta in B.
  change (len (str ".")) with 1 in B.
  destruct (LastIndex p "." <? 0) eqn:E; [eauto|]. apply Z.ltb_ge in E.
  destruct B as [B|B]; [lia|].
  unfold slice_from at 1. rewrite slice_ok by lia. cbn [bind].
  destruct (isAnonymousFuncName_total (sub p (LastIndex p "." + 1) (len p)))
    as [anon ->].
  cbn [bind]. destruct anon; [|apply parseType_total; [lia|assumption]].
  unfold slice_to at 1. rewrite slice_ok by lia. cbn [bind].
  pose proof (LastIndex_bounds (sub p 0 (LastIndex p ".")) ".") as B2.
  cbv zeta in B2. change (len (str ".")) with 1 in B2.
  rewrite sub_length in B2 by lia.
  destruct (_ <? 0) eqn:E2; [eauto|]. apply Z.ltb_ge in E2.
  destruct B2 as [B2|B2]; [lia|].
  unfold slice_from. rewrite slice_ok by lia. cbn [bind].
  match goal with
  | |- context [LastIndex ?s (str ".func")] =>
      pose proof (LastIndex_bounds s ".func") as B3; cbv zeta in B3
  end.
  pose proof (len_nonneg (str ".func")).
  destruct (negb (_ =? -1)) eqn:E3.
  - apply negb_true_iff, Z.eqb_neq in E3. destruct B3 as [B3|B3]; [lia|].
    unfold slice_to. rewrite slice_ok by lia. cbn [bind].
    apply parseType_total; [lia|assumption].
  - cbn [bind]. apply parseType_total; [lia|assumption].
Qed.

Lemma HasPrefix_byte_app (a b : gostring) (c : ascii) :
  HasPrefix (a ++ b) [c] = false -> HasPrefix a [c] = false.
Proof.
  rewrite !HasPrefix_byte. destruct a; [reflexivity|]. cbn [app]. auto.
Qed.

(** X1. [parseFuncName] never panics on a name that does not begin with
    an opening parenthesis: every index and slice bound it computes is
    in range, whatever else the name holds. *)
Theorem parseFuncName_no_panic :
  forall fullName : gostring,
    HasPrefix fullName "(" = false ->
    exists p, parseFuncName fullName = Ok p.
Proof.
  intros fullName Hp. unfold parseFuncName. cbv zeta.
  destruct (HasSuffix fullName "]") eqn:E; [|apply parseName_total; assumption].
  bytes.
  destruct (LastIndex_byte_cases fullName "[")
    as [[_ ->]|[a [b [Hg [Hb ->]]]]]; [cbn; eauto|].
  pose proof (len_nonneg a).
  replace (len a <? 0) with false by (symmetry; apply Z.ltb_ge; lia).
  apply HasSuffix_byte_inv in E as [x E]. rewrite Hg in E.
  apply closed_after_open in E; [|discriminate].
  assert (len fullName = len a + 1 + len b)
    by (rewrite Hg, len_app, len_cons; lia).
  unfold slice_to. rewrite !slice_ok by lia. cbn [bind].
  apply parseName_total. rewrite Hg, sub_app_left.
  rewrite Hg in Hp. apply HasPrefix_byte_app in Hp. assumption.
Qed.

Lemma parseFuncName_no_panic_witness :
  HasPrefix (str "a/b.(" ++ str "*T[int]).M[string]") "(" = false
  /\ exists p, parseFuncName (str "a/b.(" ++ str "*T[int]).M[string]") = Ok p.
Proof.
  split; [reflexivity|].
  apply (parseFuncName_no_panic (str "a/b.(" ++ str "*T[int]).M[string]")).
  reflexivity.
Defined.


(** *** Names of the usual shapes *)

Ltac reassoc := repeat first [rewrite <- app_assoc | progress cbn [app]].

Lemma slice_bracket (R g : gostring) (o c : ascii) :
  slice (R ++ o :: g ++ [c]) (len R + 1) (len (R ++ o :: g ++ [c]) - 1)
  = Ok g.
Proof.
  replace (R ++ o :: g ++ [c]) with ((R ++ [o]) ++ g ++ [c])
    by (reassoc; reflexivity).
  replace (len R + 1) with (len (R ++ [o]))
    by (rewrite len_app; reflexivity).
  replace (len ((R ++ [o]) ++ g ++ [c]) - 1) with (len (R ++ [o]) + len g)
    by (rewrite !len_app; change (len [c]) with 1; lia).
  apply slice_middle.
Qed.

Lemma parseName_named (sepIdx : Z) (pkg fn : gostring) (r : Parsed) :
  ~ In "."%char fn -> isAnonymousFuncName fn = Ok false ->
  parseName sepIdx (pkg ++ "."%char :: fn) r
  = parseType sepIdx (len pkg) (pkg ++ "."%char :: fn) (set_funcName fn r).
Proof.
  intros Hfn Hanon. unfold parseName. cbv zeta. bytes.
  rewrite LastIndex_byte_found by assumption.
  pose proof (len_nonneg pkg).
  replace (len pkg <? 0) with false by (symmetry; apply Z.ltb_ge; lia).
  rewrite slice_from_after. cbn [bind]. rewrite Hanon. reflexivity.
Qed.

Lemma parseType_open (sepIdx : Z) (p tail : gostring) (r : Parsed) :
  HasSuffix p ")" = false ->
  parseType sepIdx (len p) (p ++ tail) r = parseRecvGeneric sepIdx false p r.
Proof.
  intro H. unfold parseType. rewrite slice_to_app. cbn [bind].
  rewrite H. reflexivity.
Qed.

Lemma parseRecvGeneric_plain (sepIdx : Z) (hasParen : bool) (p : gostring)
    (r : Parsed) :
  HasSuffix p "]" = false ->
  parseRecvGeneric sepIdx hasParen p r
  = if negb hasParen then splitPkgRecv sepIdx p r else finish p r.
Proof. intro H. unfold parseRecvGeneric. cbv zeta. rewrite H. reflexivity. Qed.

Lemma splitPkgRecv_whole (sepIdx : Z) (p : gostring) (r : Parsed) :
  typeGeneric r = [] ->
  LastIndex p "." < 0 \/ LastIndex p "." < sepIdx ->
  splitPkgRecv sepIdx p r = Ok (set_pkgPath p r).
Proof.
  intros Hr H. unfold splitPkgRecv. cbv zeta.
  destruct (LastIndex p "." <? 0) eqn:E; [reflexivity|].
  apply Z.ltb_ge in E. destruct H as [H|H]; [lia|].
  rewrite Hr. change (Contains [] "/") with false. cbv iota.
  destruct (LastIndex p "." <? sepIdx) eqn:Hlt;
    [|apply Z.ltb_ge in Hlt; lia].
  cbv iota. rewrite Hlt. reflexivity.
Qed.

Lemma finish_pointer (T : gostring) (r : Parsed) :
  finish ("*"%char :: T) r
  = Ok (mkParsed (pkgPath r) T true (typeGeneric r) (funcGeneric r)
          (funcName r) (notice r)).
Proof.
  unfold finish. cbv zeta. bytes. rewrite HasPrefix_byte, byte_eqb_refl.
  unfold slice_from. rewrite slice_ok.
  - rewrite sub_tail. reflexivity.
  - rewrite len_cons. pose proof (len_nonneg T). lia.
  - lia.
Qed.

Lemma finish_value (T : gostring) (r : Parsed) :
  ~ In "*"%char T ->
  finish T r
  = Ok (mkParsed (pkgPath r) T (recvPtr r) (typeGeneric r) (funcGeneric r)
          (funcName r) (notice r)).
Proof.
  intro H. unfold finish. cbv zeta. bytes. rewrite HasPrefix_byte.
  destruct T as [|c T]; [reflexivity|].
  destruct (byte_eqb c "*") eqn:E; [|reflexivity].
  apply byte_eqb_eq in E. subst c. exfalso. apply H. left. reflexivity.
Qed.

Lemma last_dot_before_separator (dir base rest : gostring) :
  dir = [] \/ (exists d, dir = d ++ ["/"%char]) ->
  ~ In "."%char base ->
  LastIndex (dir ++ base) "." < 0
  \/ LastIndex (dir ++ base) "." < LastIndex ((dir ++ base) ++ rest) "/".
Proof.
  intros [->|[d ->]] Hb; bytes.
  - left. cbn [app]. rewrite LastIndex_byte_missing by assumption. lia.
  - right.
    replace ((d ++ ["/"%char]) ++ base) with (d ++ "/"%char :: base)
      by (reassoc; reflexivity).
    rewrite LastIndex_byte_tail
      by (intros [H|H]; [discriminate|contradiction]).
    replace ((d ++ "/"%char :: base) ++ rest)
      with (d ++ "/"%char :: (base ++ rest)) by (reassoc; reflexivity).
    pose proof (LastIndex_byte_ge d (base ++ rest) "/").
    pose proof (LastIndex_bounds d ["."%char]) as B. cbv zeta in B.
    change (len ["."%char]) with 1 in B. pose proof (len_nonneg d). lia.
Qed.

Lemma package_path_open (dir base : gostring) (c : ascii) :
  dir = [] \/ (exists d, dir = d ++ ["/"%char]) ->
  c <> "/"%char -> ~ In c base ->
  HasSuffix (dir ++ base) [c] = false.
Proof.
  intros [->|[d ->]] Hc Hb.
  - apply HasSuffix_byte_absent. assumption.
  - replace ((d ++ ["/"%char]) ++ base) with (d ++ "/"%char :: base)
      by (reassoc; reflexivity).
    apply HasSuffix_byte_after; assumption.
Qed.

Lemma parseName_function (sepIdx : Z) (dir base fn : gostring) (r : Parsed) :
  dir = [] \/ (exists d, dir = d ++ ["/"%char]) ->
  ~ In ")"%char base -> ~ In "]"%char base ->
  ~ In "."%char fn -> isAnonymousFuncName fn = Ok false ->
  typeGeneric r = [] ->
  LastIndex (dir ++ base) "." < 0 \/ LastIndex (dir ++ base) "." < sepIdx ->
  parseName sepIdx ((dir ++ base) ++ "."%char :: fn) r
  = Ok (set_pkgPath (dir ++ base) (set_funcName fn r)).
Proof.
  intros Hdir Hb2 Hb3 Hfn Hanon Hr Hsep.
  rewrite parseName_named by assumption.
  rewrite parseType_open
    by (apply (package_path_open dir base ")"); [assumption|discriminate|assumption]).
  rewrite parseRecvGeneric_plain
    by (apply (package_path_open dir base "]"); [assumption|discriminate|assumption]).
  cbn [negb]. apply splitPkgRecv_whole; assumption.
Qed.

(** X2. A package-level function.  For a name [pkg.fn] whose package
    path [pkg = dir ++ base] has no dot in its last element [base], and
    whose function name [fn] has no dot and is not taken for an
    anonymous function, the parser returns the package path and the
    function name, with no receiver and an empty notice; explicit type
    arguments [pkg.fn[g]] come back as the function's type arguments. *)
Theorem parse_package_function :
  forall dir base fn : gostring,
    dir = [] \/ (exists d, dir = d ++ ["/"%char]) ->
    ~ In "."%char base -> ~ In ")"%char base -> ~ In "]"%char base ->
    ~ In "."%char fn -> ~ In "]"%char fn ->
    isAnonymousFuncName fn = Ok false ->
    parseFuncName (dir ++ base ++ str "." ++ fn)
    = Ok (mkParsed (dir ++ base) [] false [] [] fn [])
    /\ forall g : gostring,
         ~ In "["%char g ->
         parseFuncName (dir ++ base ++ str "." ++ fn ++ str "[" ++ g ++ str "]")
         = Ok (mkParsed (dir ++ base) [] false [] g fn []).
Proof.
  intros dir base fn Hdir Hb1 Hb2 Hb3 Hf1 Hf2 Hanon. split.
  - replace (dir ++ base ++ str "." ++ fn)
      with ((dir ++ base) ++ "."%char :: fn) by (reassoc; reflexivity).
    pose proof (last_dot_before_separator dir base ("."%char :: fn) Hdir Hb1)
      as Hsep.
    unfold parseFuncName. cbv zeta. bytes.
    rewrite (HasSuffix_byte_after (dir ++ base) fn "]" ".")
      by (discriminate || assumption).
    rewrite parseName_function by (assumption || reflexivity).
    reflexivity.
  - intros g Hg.
    replace (dir ++ base ++ str "." ++ fn ++ str "[" ++ g ++ str "]")
      with (((dir ++ base) ++ "."%char :: fn) ++ "["%char :: g ++ ["]"%char])
      by (reassoc; reflexivity).
    pose proof (last_dot_before_separator dir base
                  ("."%char :: fn ++ "["%char :: g ++ ["]"%char]) Hdir Hb1)
      as Hsep.
    replace ((dir ++ base) ++ "."%char :: fn ++ "["%char :: g ++ ["]"%char])
      with (((dir ++ base) ++ "."%char :: fn) ++ "["%char :: g ++ ["]"%char])
      in Hsep by (reassoc; reflexivity).
    set (R := (dir ++ base) ++ "."%char :: fn) in *.
    unfold parseFuncName. cbv zeta. bytes.
    replace (HasSuffix (R ++ "["%char :: g ++ ["]"%char]) ["]"%char])
      with true
      by (replace (R ++ "["%char :: g ++ ["]"%char])
            with ((R ++ "["%char :: g) ++ ["]"%char])
            by (reassoc; reflexivity);
          symmetry; apply HasSuffix_byte_last).
    rewrite LastIndex_byte_found
      by (intro Hin; apply in_app_or in Hin as [Hin|[Hin|[]]];
          [contradiction|discriminate]).
    pose proof (len_nonneg R).
    replace (len R <? 0) with false by (symmetry; apply Z.ltb_ge; lia).
    rewrite slice_bracket, slice_to_app. cbn [bind].
    unfold R. rewrite parseName_function by (assumption || reflexivity).
    reflexivity.
Qed.

Lemma parse_package_function_witness :
  parseFuncName (str "github.com/xhd2015/" ++ str "xgo" ++ str "." ++ str "Watch")
  = Ok (mkParsed (str "github.com/xhd2015/" ++ str "xgo") [] false [] []
          (str "Watch") [])
  /\ forall g : gostring,
       ~ In "["%char g ->
       parseFuncName (str "github.com/xhd2015/" ++ str "xgo" ++ str "."
                        ++ str "Watch" ++ str "[" ++ g ++ str "]")
       = Ok (mkParsed (str "github.com/xhd2015/" ++ str "xgo") [] false []
               g (str "Watch") []).
Proof.
  apply (parse_package_function (str "github.com/xhd2015/") (str "xgo")
           (str "Watch")).
  - right. exists (str "github.com/xhd2015"). reflexivity.
  - intro H; repeat destruct H as [H|H]; try discriminate H; exact H.
  - intro H; repeat destruct H as [H|H]; try discriminate H; exact H.
  - intro H; repeat destruct H as [H|H]; try discriminate H; exact H.
  - intro H; repeat destruct H as [H|H]; try discriminate H; exact H.
  - intro H; repeat destruct H as [H|H]; try discriminate H; exact H.
  - reflexivity.
Defined.

Lemma parseType_receiver (sepIdx : Z) (pkg recv tail : gostring) (r : Parsed) :
  Contains pkg "/" = false
  \/ (exists d base, pkg = d ++ "/"%char :: base
                     /\ ~ In "/"%char base /\ ~ In "."%char base) ->
  ~ In "("%char recv ->
  parseType sepIdx (len (pkg ++ "."%char :: "("%char :: recv ++ [")"%char]))
            ((pkg ++ "."%char :: "("%char :: recv ++ [")"%char]) ++ tail) r
  = parseRecvGeneric sepIdx true recv (set_pkgPath pkg r).
Proof.
  intros Hpkg Hrecv. unfold parseType. rewrite slice_to_app. cbn [bind].
  bytes.
  remember (pkg ++ "."%char :: "("%char :: recv ++ [")"%char]) as X eqn:HX.
  pose proof (len_nonneg pkg).
  assert (HS : HasSuffix X [")"%char] = true).
  { rewrite HX.
    replace (pkg ++ "."%char :: "("%char :: recv ++ [")"%char])
      with ((pkg ++ "."%char :: "("%char :: recv) ++ [")"%char])
      by (reassoc; reflexivity).
    apply HasSuffix_byte_last. }
  assert (HX' : X = (pkg ++ ["."%char]) ++ "("%char :: recv ++ [")"%char])
    by (rewrite HX; reassoc; reflexivity).
  assert (HL : LastIndex X ["("%char] = len pkg + 1).
  { rewrite HX', LastIndex_byte_found.
    - rewrite len_app. reflexivity.
    - intro Hin. apply in_app_or in Hin as [Hin|[Hin|[]]];
        [contradiction|discriminate]. }
  assert (HR : slice X (len pkg + 1 + 1) (len X - 1) = Ok recv).
  { pose proof (slice_bracket (pkg ++ ["."%char]) recv "(" ")") as H1.
    rewrite <- HX', len_app in H1. exact H1. }
  assert (HA : at_ X (len pkg + 1 - 1) = Ok "."%char).
  { replace (len pkg + 1 - 1) with (len pkg) by lia.
    rewrite HX. apply at_app. }
  assert (HP : slice_to X (len pkg + 1 - 1) = Ok pkg).
  { replace (len pkg + 1 - 1) with (len pkg) by lia.
    rewrite HX. apply slice_to_app. }
  rewrite HS, HL.
  replace (len pkg + 1 <? 0) with false by (symmetry; apply Z.ltb_ge; lia).
  rewrite HR. cbn [bind]. rewrite HA. cbn [bind].
  change (negb (byte_eqb "." ".")) with false. cbv iota.
  rewrite HP. cbn [bind]. cbv zeta.
  destruct Hpkg as [Hno|[d [base [Hd [Hb1 Hb2]]]]].
  - rewrite Hno. reflexivity.
  - rewrite Hd.
    rewrite Contains_byte_present by (apply in_or_app; right; left; reflexivity).
    rewrite LastIndex_byte_found by assumption.
    rewrite slice_from_after. cbn [bind].
    rewrite Contains_byte_absent by assumption. reflexivity.
Qed.

Lemma package_path_slashes (dir base : gostring) :
  dir = [] \/ (exists d, dir = d ++ ["/"%char]) ->
  ~ In "."%char base -> ~ In "/"%char base ->
  Contains (dir ++ base) "/" = false
  \/ (exists d b, dir ++ base = d ++ "/"%char :: b
                  /\ ~ In "/"%char b /\ ~ In "."%char b).
Proof.
  intros [->|[d ->]] H1 H2.
  - left. bytes. apply Contains_byte_absent. assumption.
  - right. exists d, base. split; [reassoc; reflexivity|]. split; assumption.
Qed.

(** X3. A method with a parenthesized receiver.  For a name
    [pkg.(T).fn], or the same with a star before [T], whose package path
    [pkg = dir ++ base] has no dot in its last element, the parser
    returns the package path, the receiver type [T], whether the
    receiver is a pointer, and the method name, with an empty notice. *)
Theorem parse_parenthesized_method :
  forall (dir base T fn : gostring) (pointer : bool),
    dir = [] \/ (exists d, dir = d ++ ["/"%char]) ->
    ~ In "."%char base -> ~ In "/"%char base ->
    ~ In "("%char T -> ~ In "]"%char T -> ~ In "*"%char T ->
    ~ In "."%char fn -> ~ In "]"%char fn ->
    isAnonymousFuncName fn = Ok false ->
    parseFuncName (dir ++ base ++ str ".("
                     ++ (if pointer then str "*" else []) ++ T
                     ++ str ")." ++ fn)
    = Ok (mkParsed (dir ++ base) T pointer [] [] fn []).
Proof.
  intros dir base T fn pointer Hdir Hb1 Hb2 HT1 HT2 HT3 Hf1 Hf2 Hanon.
  pose proof (package_path_slashes dir base Hdir Hb1 Hb2) as Hpkg.
  set (recv := (if pointer then str "*" else []) ++ T).
  assert (Hrecv1 : ~ In "("%char recv).
  { unfold recv. destruct pointer; cbn [app str list_ascii_of_string];
      [intros [H|H]; [discriminate|contradiction]|assumption]. }
  assert (Hrecv2 : HasSuffix recv "]" = false).
  { bytes. apply HasSuffix_byte_absent. unfold recv.
    destruct pointer; cbn [app str list_ascii_of_string];
      [intros [H|H]; [discriminate|contradiction]|assumption]. }
  replace (dir ++ base ++ str ".(" ++ (if pointer then str "*" else []) ++ T
             ++ str ")." ++ fn)
    with (((dir ++ base) ++ "."%char :: "("%char :: recv ++ [")"%char])
            ++ "."%char :: fn)
    by (unfold recv; destruct pointer; cbv [str list_ascii_of_string];
        reassoc; reflexivity).
  unfold parseFuncName. cbv zeta. bytes.
  rewrite (HasSuffix_byte_after _ fn "]" ".") by (discriminate || assumption).
  rewrite parseName_named by assumption.
  rewrite parseType_receiver by assumption.
  rewrite parseRecvGeneric_plain by assumption. cbn [negb].
  unfold recv. destruct pointer.
  - cbn [app]. rewrite finish_pointer.
    reflexivity.
  - cbn [app]. rewrite finish_value by assumption. reflexivity.
Qed.

Lemma parse_parenthesized_method_witness :
  parseFuncName (str "a/" ++ str "b" ++ str ".("
                   ++ (if true then str "*" else []) ++ str "File"
                   ++ str ")." ++ str "Read")
  = Ok (mkParsed (str "a/" ++ str "b") (str "File") true [] [] (str "Read") []).
Proof.
  apply (parse_parenthesized_method (str "a/") (str "b") (str "File")
           (str "Read") true).
  - right. exists (str "a"). reflexivity.
  - intro H; repeat destruct H as [H|H]; try discriminate H; exact H.
  - intro H; repeat destruct H as [H|H]; try discriminate H; exact H.
  - intro H; repeat destruct H as [H|H]; try discriminate H; exact H.
  - intro H; repeat destruct H as [H|H]; try discriminate H; exact H.
  - intro H; repeat destruct H as [H|H]; try discriminate H; exact H.
  - intro H; repeat destruct H as [H|H]; try discriminate H; exact H.
  - intro H; repeat destruct H as [H|H]; try discriminate H; exact H.
  - reflexivity.
Defined.

Lemma splitPkgRecv_receiver (sepIdx : Z) (pkg T : gostring) (r : Parsed) :
  ~ In "."%char pkg -> ~ In "."%char T -> ~ In "*"%char T ->
  sepIdx <= len pkg ->
  splitPkgRecv sepIdx (pkg ++ "."%char :: T) r
  = Ok (mkParsed pkg T (recvPtr r) (typeGeneric r) (funcGeneric r)
          (funcName r) (notice r)).
Proof.
  intros Hp HT1 HT2 Hsep. unfold splitPkgRecv. cbv zeta. bytes.
  rewrite LastIndex_byte_found by assumption.
  pose proof (len_nonneg pkg).
  replace (len pkg <? 0) with false by (symmetry; apply Z.ltb_ge; lia).
  replace (len pkg <? sepIdx) with false by (symmetry; apply Z.ltb_ge; lia).
  cbn [andb]. rewrite slice_to_app, slice_from_after. cbn [bind].
  rewrite Contains_byte_absent by assumption.
  rewrite finish_value by assumption. reflexivity.
Qed.

(** X4. A method with a bare receiver.  For a name [pkg.T.fn] whose
    package path has no dot, and whose receiver type and method name
    hold no dot and no slash, the parser returns the package path, the
    receiver type as qualifier, a non-pointer receiver and the method
    name. *)
Theorem parse_value_method :
  forall pkg T fn : gostring,
    ~ In "."%char pkg ->
    ~ In "."%char T -> ~ In "/"%char T -> ~ In ")"%char T ->
    ~ In "]"%char T -> ~ In "*"%char T ->
    ~ In "."%char fn -> ~ In "/"%char fn -> ~ In "]"%char fn ->
    isAnonymousFuncName fn = Ok false ->
    parseFuncName (pkg ++ str "." ++ T ++ str "." ++ fn)
    = Ok (mkParsed pkg T false [] [] fn []).
Proof.
  intros pkg T fn Hp HT1 HT2 HT3 HT4 HT5 Hf1 Hf2 Hf3 Hanon.
  assert (Hsep : LastIndex (pkg ++ str "." ++ T ++ str "." ++ fn) "/"
                 <= len pkg).
  { bytes. rewrite LastIndex_byte_tail.
    - pose proof (LastIndex_bounds pkg ["/"%char]) as B. cbv zeta in B.
      change (len ["/"%char]) with 1 in B. pose proof (len_nonneg pkg). lia.
    - cbn [app]. intros [H|H]; [discriminate|].
      apply in_app_or in H as [H|[H|H]];
        [contradiction|discriminate|contradiction]. }
  unfold parseFuncName. cbv zeta.
  remember (LastIndex (pkg ++ str "." ++ T ++ str "." ++ fn) "/") as sepIdx.
  replace (pkg ++ str "." ++ T ++ str "." ++ fn)
    with ((pkg ++ "."%char :: T) ++ "."%char :: fn) by (reassoc; reflexivity).
  bytes.
  rewrite (HasSuffix_byte_after _ fn "]" ".") by (discriminate || assumption).
  rewrite parseName_named by assumption.
  rewrite parseType_open
    by (apply HasSuffix_byte_after; [discriminate|assumption]).
  rewrite parseRecvGeneric_plain
    by (apply HasSuffix_byte_after; [discriminate|assumption]).
  cbn [negb]. rewrite splitPkgRecv_receiver by assumption. reflexivity.
Qed.

Lemma parse_value_method_witness :
  parseFuncName (str "a/b" ++ str "." ++ str "File" ++ str "." ++ str "Read")
  = Ok (mkParsed (str "a/b") (str "File") false [] [] (str "Read") []).
Proof.
  apply (parse_value_method (str "a/b") (str "File") (str "Read")).
  - intro H; repeat destruct H as [H|H]; try discriminate H; exact H.
  - intro H; repeat destruct H as [H|H]; try discriminate H; exact H.
  - intro H; repeat destruct H as [H|H]; try discriminate H; exact H.
  - intro H; repeat destruct H as [H|H]; try discriminate H; exact H.
  - intro H; repeat destruct H as [H|H]; try discriminate H; exact H.
  - intro H; repeat destruct H as [H|H]; try discriminate H; exact H.
  - intro H; repeat destruct H as [H|H]; try discriminate H; exact H.
  - intro H; repeat destruct H as [H|H]; try discriminate H; exact H.
  - intro H; repeat destruct H as [H|H]; try discriminate H; exact H.
  - reflexivity.
Defined.

End ParserShapes.

(** ** MultiError *)

Section MultiErrors.
Import Multi MultiProps.

Lemma lookup_store_same (h : Heap) (l : nat) (obj obj' : MultiError) :
  lookup h l = Some obj -> lookup (store h l obj') l = Some obj'.
Proof.
  unfold lookup. revert l. induction h as [|o h IH]; intros [|l] H;
    cbn in *; try discriminate; [reflexivity|apply IH; assumption].
Qed.

Lemma lookup_store_other (h : Heap) (l l' : nat) (obj' : MultiError) :
  l' <> l -> lookup (store h l obj') l' = lookup h l'.
Proof.
  unfold lookup. revert l l'. induction h as [|o h IH]; intros [|l] [|l'] H;
    cbn; try reflexivity; [contradiction|apply IH; lia].
Qed.

Lemma store_same (h : Heap) (l : nat) (obj : MultiError) :
  lookup h l = Some obj -> store h l obj = h.
Proof.
  unfold lookup. revert l. induction h as [|o h IH]; intros [|l] H;
    cbn in *; try reflexivity.
  - injection H as ->. reflexivity.
  - rewrite IH by assumption. reflexivity.
Qed.

Lemma store_twice (h : Heap) (l : nat) (a b : MultiError) :
  store (store h l a) l b = store h l b.
Proof.
  revert l. induction h as [|o h IH]; intros [|l]; cbn; try reflexivity.
  rewrite IH. reflexivity.
Qed.

Lemma store_last (h : Heap) (a b : MultiError) :
  store (h ++ [a]) (List.length h) b = h ++ [b].
Proof. induction h as [|o h IH]; cbn; [reflexivity|rewrite IH; reflexivity]. Qed.

Lemma lookup_last (h : Heap) (a : MultiError) :
  lookup (h ++ [a]) (List.length h) = Some a.
Proof.
  unfold lookup. rewrite nth_error_app2 by lia. rewrite Nat.sub_diag.
  reflexivity.
Qed.

Lemma appendAll_spec (errs : list (option error)) :
  forall (h : Heap) (l : nat) (obj : MultiError),
    lookup h l = Some obj ->
    appendAll (addr l) errs h = Ok (store h l (extended obj (nonNil errs))).
Proof.
  induction errs as [|e errs IH]; intros h l obj Hl.
  - cbn. rewrite store_same by assumption. reflexivity.
  - cbn [appendAll]. destruct e as [e|].
    + unfold Append. rewrite Hl. cbn [bind].
      rewrite (IH _ l (mkMultiError
                         (appendSlice
                            match Errors obj with
                            | Some errs0 => Some errs0
                            | None => Some []
                            end (Some e))))
        by (eapply lookup_store_same; eassumption).
      rewrite store_twice. f_equal. f_equal.
      cbn [nonNil filter]. fold (nonNil errs).
      unfold extended, elements, appendSlice. cbn [Errors].
      destruct (Errors obj) as [olds|]; destruct (nonNil errs);
        cbn [app]; try reflexivity; rewrite <- app_assoc; reflexivity.
    + cbn [Append bind]. apply IH. assumption.
Qed.

Lemma fold_appendSlice (errs : list (option error)) :
  forall olds,
    fold_left appendSlice errs (Some olds) = Some (olds ++ errs).
Proof.
  induction errs as [|e errs IH]; intro olds; cbn [fold_left].
  - rewrite app_nil_r. reflexivity.
  - unfold appendSlice at 2. rewrite IH, <- app_assoc. reflexivity.
Qed.

Lemma NewMultiError_spec (errs : list (option error)) (h : Heap) :
  NewMultiError errs h
  = (addr (List.length h),
     h ++ [mkMultiError (match errs with [] => None | _ :: _ => Some errs end)]).
Proof.
  unfold NewMultiError, alloc. destruct errs as [|e errs]; [reflexivity|].
  cbn [fold_left]. unfold appendSlice at 2. rewrite fold_appendSlice.
  reflexivity.
Qed.

(** The text that the loops put after the first message. *)
Lemma joined_cons (sep first : gostring) (rest : list gostring) :
  joined sep (first :: rest)
  = first ++ List.concat (map (fun s => sep ++ s) rest).
Proof.
  revert first. induction rest as [|m rest IH]; intro first.
  - cbn. rewrite app_nil_r. reflexivity.
  - change (joined sep (first :: m :: rest))
      with (first ++ sep ++ joined sep (m :: rest)).
    rewrite IH. cbn [map List.concat]. rewrite <- !app_assoc. reflexivity.
Qed.

Lemma concatLoop_plain (call : option error -> option (result gostring))
    (rest : list gostring) :
  (forall s, call (Some (errorString s)) = Some (Ok s)) ->
  forall acc,
    concatLoop call acc (plain rest)
    = Some (Ok (acc ++ List.concat (map (fun s => separator ++ s) rest))).
Proof.
  intro Hcall. induction rest as [|m rest IH]; intro acc.
  - cbn. rewrite app_nil_r. reflexivity.
  - cbn [plain map concatLoop]. rewrite Hcall. fold (plain rest).
    rewrite IH. cbn [List.concat]. rewrite <- !app_assoc. reflexivity.
Qed.

Lemma builderLoop_plain (call : option error -> option (result gostring))
    (rest : list gostring) :
  (forall s, call (Some (errorString s)) = Some (Ok s)) ->
  forall sb,
    builderLoop call sb (plain rest)
    = Some (Ok (sb ++ List.concat (map (fun s => separator ++ s) rest))).
Proof.
  intro Hcall. induction rest as [|m rest IH]; intro sb.
  - cbn. rewrite app_nil_r. reflexivity.
  - cbn [plain map builderLoop]. rewrite Hcall. fold (plain rest).
    rewrite IH. cbn [List.concat]. rewrite <- !app_assoc. reflexivity.
Qed.

Lemma Error_plain (fuel : nat) (h : Heap) (l : nat) (msgs : list gostring) :
  lookup h l = Some (mkMultiError (Some (plain msgs))) ->
  Error (S fuel) h (addr l) = Some (Ok (joined separator msgs)).
Proof.
  intro Hl. cbn [Error]. rewrite Hl. cbn [Errors].
  destruct msgs as [|m rest]; [reflexivity|].
  cbn [plain map callError]. fold (plain rest).
  rewrite joined_cons.
  destruct (lenErrors _ <? 5);
    [apply concatLoop_plain|apply builderLoop_plain]; reflexivity.
Qed.

(** X5. The message of a MultiError is the messages of its elements in
    their order, joined with a semicolon and a space.  The two ways the
    method builds it, string concatenation below five elements and a
    string builder from five on, give the same text; with no element
    the message is empty. *)
Theorem MultiError_message_joins :
  forall (fuel : nat) (h : Heap) (l : nat) (msgs : list gostring),
    lookup h l = Some (mkMultiError (Some (plain msgs))) ->
    Error (S fuel) h (addr l) = Some (Ok (joined (str "; ") msgs)).
Proof. intros fuel h l msgs Hl. apply Error_plain. assumption. Qed.

Lemma MultiError_message_joins_witness :
  Error 1 [mkMultiError
             (Some (plain [str "e1"; str "e2"; str "e3"; str "e4"; str "e5";
                           str "e6"]))] (addr 0)
  = Some (Ok (str "e1; e2; e3; e4; e5; e6")).
Proof.
  apply (MultiError_message_joins 0
           [mkMultiError
              (Some (plain [str "e1"; str "e2"; str "e3"; str "e4"; str "e5";
                            str "e6"]))] 0
           [str "e1"; str "e2"; str "e3"; str "e4"; str "e5"; str "e6"]).
  reflexivity.
Defined.

Lemma nonNil_flat (errs : list (option error)) :
  flat errs -> nonNil errs = plain (texts errs).
Proof.
  induction 1 as [|e errs He _ IH]; [reflexivity|].
  unfold nonNil, plain, texts in *.
  destruct e as [[s|p]|]; cbn [filter flat_map map app];
    [rewrite IH; reflexivity|contradiction|exact IH].
Qed.

Lemma AppendError_plain_first (s : gostring) (errs : list (option error))
    (h : Heap) :
  AppendError (Some (errorString s)) errs h
  = Ok (Some (multiError (addr (List.length h))),
        h ++ [mkMultiError (Some (Some (errorString s) :: nonNil errs))]).
Proof.
  unfold AppendError. destruct errs as [|e errs].
  - rewrite NewMultiError_spec. reflexivity.
  - rewrite NewMultiError_spec.
    rewrite (appendAll_spec _ _ _ _ (lookup_last _ _)). cbn [bind].
    rewrite store_last. unfold extended, elements. cbn [Errors].
    destruct (nonNil (e :: errs)); reflexivity.
Qed.

(** X6. [AppendError] on an error that is no MultiError, followed by any
    further errors: the result is a fresh MultiError that holds the
    first error and then the further ones that are not nil, in the order
    given, and its message is their messages joined with a semicolon and
    a space.  The objects allocated before are left as they were. *)
Theorem AppendError_collects :
  forall (fuel : nat) (s : gostring) (errs : list (option error)) (h : Heap),
    flat errs ->
    exists p h',
      AppendError (Some (errorString s)) errs h
      = Ok (Some (multiError p), h')
      /\ lookup h' (List.length h)
         = Some (mkMultiError (Some (Some (errorString s) :: nonNil errs)))
      /\ p = addr (List.length h)
      /\ (forall l obj, lookup h l = Some obj -> lookup h' l = Some obj)
      /\ Error (S fuel) h' p
         = Some (Ok (joined (str "; ") (s :: texts errs))).
Proof.
  intros fuel s errs h Hflat. do 2 eexists.
  split; [apply AppendError_plain_first|].
  split; [apply lookup_last|]. split; [reflexivity|]. split.
  - intros l obj Hl. unfold lookup in *.
    rewrite nth_error_app1; [assumption|].
    apply nth_error_Some. congruence.
  - apply Error_plain. rewrite lookup_last, nonNil_flat by assumption.
    reflexivity.
Qed.

Lemma AppendError_collects_witness :
  exists p h',
    AppendError (Some (errorString (str "error 1")))
                [None; Some (errorString (str "error 2")); None;
                 Some (errorString (str "error 3"))] []
    = Ok (Some (multiError p), h')
    /\ lookup h' 0
       = Some (mkMultiError
                 (Some (Some (errorString (str "error 1"))
                          :: nonNil [None; Some (errorString (str "error 2"));
                                     None;
                                     Some (errorString (str "error 3"))])))
    /\ p = addr 0
    /\ (forall l obj, lookup [] l = Some obj -> lookup h' l = Some obj)
    /\ Error 1 h' p
       = Some (Ok (joined (str "; ")
                     (str "error 1"
                        :: texts [None; Some (errorString (str "error 2"));
                                  None;
                                  Some (errorString (str "error 3"))]))).
Proof.
  apply (AppendError_collects 0 (str "error 1")
           [None; Some (errorString (str "error 2")); None;
            Some (errorString (str "error 3"))] []).
  repeat constructor.
Defined.

(** X7. [AppendError] on an error that is a MultiError already: the
    pointer handed in is the pointer returned, and the further errors
    that are not nil are appended, in their order, to the object it
    points to, so every holder of that pointer sees them.  No object is
    allocated, and no other object changes. *)
Theorem AppendError_extends_in_place :
  forall (h : Heap) (l : nat) (obj : MultiError) (errs : list (option error)),
    lookup h l = Some obj ->
    exists h',
      AppendError (Some (multiError (addr l))) errs h
      = Ok (Some (multiError (addr l)), h')
      /\ lookup h' l = Some (extended obj (nonNil errs))
      /\ List.length h' = List.length h
      /\ forall l', l' <> l -> lookup h' l' = lookup h l'.
Proof.
  intros h l obj errs Hl.
  exists (store h l (extended obj (nonNil errs))).
  split; [|split; [eapply lookup_store_same; eassumption|split]].
  - unfold AppendError. destruct errs as [|e errs].
    + cbn. rewrite store_same by assumption. reflexivity.
    + rewrite (appendAll_spec _ _ _ _ Hl). reflexivity.
  - clear Hl. revert l. induction h as [|o h IH]; intros [|l]; cbn;
      try reflexivity. rewrite IH. reflexivity.
  - intros l' Hne. apply lookup_store_other. assumption.
Qed.

Lemma AppendError_extends_in_place_witness :
  exists h',
    AppendError (Some (multiError (addr 0)))
                [None; Some (errorString (str "second"))]
                [mkMultiError (Some [Some (errorString (str "first"))])]
    = Ok (Some (multiError (addr 0)), h')
    /\ lookup h' 0
       = Some (extended
                 (mkMultiError (Some [Some (errorString (str "first"))]))
                 (nonNil [None; Some (errorString (str "second"))]))
    /\ List.length h'
       = List.length
           [mkMultiError (Some [Some (errorString (str "first"))])]
    /\ forall l', l' <> 0%nat ->
                  lookup h' l'
                  = lookup
                      [mkMultiError (Some [Some (errorString (str "first"))])]
                      l'.
Proof.
  apply (AppendError_extends_in_place
           [mkMultiError (Some [Some (errorString (str "first"))])] 0
           (mkMultiError (Some [Some (errorString (str "first"))]))
           [None; Some (errorString (str "second"))]).
  reflexivity.
Defined.

Lemma concatLoop_nil (call : option error -> option (result gostring))
    (errs : list (option error)) :
  call None = Some (Panic "nil pointer dereference") ->
  (forall s, call (Some (errorString s)) = Some (Ok s)) ->
  flat errs -> In None errs ->
  forall acc,
    concatLoop call acc errs = Some (Panic "nil pointer dereference").
Proof.
  intros Hnil Hcall Hflat. induction Hflat as [|e errs He _ IH];
    intros Hin acc; [destruct Hin|].
  cbn [concatLoop]. destruct e as [[s|p]|].
  - rewrite Hcall. apply IH. destruct Hin as [Hin|Hin];
      [discriminate|assumption].
  - contradiction.
  - rewrite Hnil. reflexivity.
Qed.

Lemma builderLoop_nil (call : option error -> option (result gostring))
    (errs : list (option error)) :
  call None = Some (Panic "nil pointer dereference") ->
  (forall s, call (Some (errorString s)) = Some (Ok s)) ->
  flat errs -> In None errs ->
  forall sb,
    builderLoop call sb errs = Some (Panic "nil pointer dereference").
Proof.
  intros Hnil Hcall Hflat. induction Hflat as [|e errs He _ IH];
    intros Hin sb; [destruct Hin|].
  cbn [builderLoop]. destruct e as [[s|p]|].
  - rewrite Hcall. apply IH. destruct Hin as [Hin|Hin];
      [discriminate|assumption].
  - contradiction.
  - rewrite Hnil. reflexivity.
Qed.

(** X8. With a nil first argument [AppendError] hands the further
    arguments to [NewMultiError] as they are: the nil ones are kept as
    elements, where every other path drops them.  The result is then a
    non-nil error whose [Error] method panics, on the nil element, as
    soon as it is called. *)
Theorem AppendError_nil_first_keeps_nil :
  forall (fuel : nat) (errs : list (option error)) (h : Heap),
    flat errs -> In None errs ->
    exists p h',
      AppendError None errs h = Ok (Some (multiError p), h')
      /\ lookup h' (List.length h) = Some (mkMultiError (Some errs))
      /\ p = addr (List.length h)
      /\ Error (S fuel) h' p = Some (Panic "nil pointer dereference").
Proof.
  intros fuel errs h Hflat Hin.
  destruct errs as [|e errs]; [destruct Hin|].
  do 2 eexists. split.
  - unfold AppendError. rewrite NewMultiError_spec. reflexivity.
  - split; [apply lookup_last|]. split; [reflexivity|].
    cbn [Error]. rewrite lookup_last. cbn [Errors].
    inversion Hflat as [|e' errs' He Hrest]; subst.
    destruct e as [[s|p]|];
      [|contradiction|destruct (lenErrors _ <? 5); reflexivity].
    cbn [callError]. destruct Hin as [Hin|Hin]; [discriminate|].
    destruct (lenErrors _ <? 5);
      [apply concatLoop_nil|apply builderLoop_nil];
      (reflexivity || assumption).
Qed.

Lemma AppendError_nil_first_keeps_nil_witness :
  exists p h',
    AppendError None [Some (errorString (str "first")); None] []
    = Ok (Some (multiError p), h')
    /\ lookup h' 0
       = Some (mkMultiError (Some [Some (errorString (str "first")); None]))
    /\ p = addr 0
    /\ Error 1 h' p = Some (Panic "nil pointer dereference").
Proof.
  apply (AppendError_nil_first_keeps_nil 0
           [Some (errorString (str "first")); None] []).
  - repeat constructor.
  - right. left. reflexivity.
Defined.

(** X9. [ErrorOrNil] and [HasErrors] agree, on a nil receiver as on an
    allocated one: [ErrorOrNil] is nil exactly when [HasErrors] is
    false, the message is then empty, and otherwise [ErrorOrNil] is the
    receiver itself. *)
Theorem ErrorOrNil_agrees_with_HasErrors :
  forall (fuel : nat) (m : ptr) (h : Heap),
    (m = nilptr \/ exists l obj, m = addr l /\ lookup h l = Some obj) ->
    (HasErrors m h = Ok false
     /\ ErrorOrNil m h = Ok None
     /\ Error (S fuel) h m = Some (Ok []))
    \/ (HasErrors m h = Ok true
        /\ ErrorOrNil m h = Ok (Some (multiError m))).
Proof.
  intros fuel m h [->|[l [obj [-> Hl]]]].
  - left. repeat split; reflexivity.
  - unfold HasErrors, ErrorOrNil. cbn [Error]. rewrite Hl.
    unfold lenErrors. destruct (Errors obj) as [[|e errs]|].
    + left. repeat split; reflexivity.
    + right. split; reflexivity.
    + left. repeat split; reflexivity.
Qed.

Lemma ErrorOrNil_agrees_with_HasErrors_witness :
  (HasErrors (addr 0) [mkMultiError (Some [Some (errorString (str "e"))])]
   = Ok false
   /\ ErrorOrNil (addr 0)
        [mkMultiError (Some [Some (errorString (str "e"))])] = Ok None
   /\ Error 1 [mkMultiError (Some [Some (errorString (str "e"))])] (addr 0)
      = Some (Ok []))
  \/ (HasErrors (addr 0) [mkMultiError (Some [Some (errorString (str "e"))])]
      = Ok true
      /\ ErrorOrNil (addr 0)
           [mkMultiError (Some [Some (errorString (str "e"))])]
         = Ok (Some (multiError (addr 0)))).
Proof.
  apply (ErrorOrNil_agrees_with_HasErrors 0 (addr 0)
           [mkMultiError (Some [Some (errorString (str "e"))])]).
  right. exists 0%nat, (mkMultiError (Some [Some (errorString (str "e"))])).
  split; reflexivity.
Defined.

End MultiErrors.

(** ** MetaError: construction, root cause, log attributes *)

Section MoreMetaError.
Import runtime Meta MetaMore Props.

Lemma errorOf_bound (h : list MetaError) (l : nat) (m : gostring) :
  errorOf h (metaError (addr l)) = Ok m -> (l < List.length h)%nat.
Proof.
  induction h as [|obj h IH]; cbn [errorOf]; [discriminate|].
  destruct (Nat.eqb l (List.length h)) eqn:E.
  - apply Nat.eqb_eq in E. intros _. cbn [List.length]. lia.
  - intro H. apply IH in H. cbn [List.length]. lia.
Qed.

Lemma errorOf_alloc (obj : MetaError) (h : list MetaError) (e : error)
    (m : gostring) :
  errorOf h e = Ok m -> errorOf (obj :: h) e = Ok m.
Proof.
  destruct e as [t|msg inner|[|l]]; intro H.
  - destruct h; exact H.
  - destruct h; exact H.
  - destruct h; discriminate H.
  - pose proof (errorOf_bound _ _ _ H) as Hl. cbn [errorOf].
    replace (Nat.eqb l (List.length h)) with false
      by (symmetry; apply Nat.eqb_neq; lia).
    exact H.
Qed.

(** X10. What the constructor wraps is what comes back: on the new
    object [Unwrap] returns the error handed in, and [Error] returns its
    message, or the text for a nil error. *)
Theorem constructor_keeps_error :
  forall rt err skip captureStack asCSV s,
  exists p s',
    NewMetaErrorOptions rt err skip captureStack asCSV s = Ok (p, s')
    /\ Unwrap p s' = Ok err
    /\ match err with
       | None => Error p s' = Ok (str "<nil>")
       | Some e => forall m, errorOf (heap s) e = Ok m -> Error p s' = Ok m
       end.
Proof.
  intros rt err skip captureStack asCSV s.
  destruct (NewMetaErrorOptions_spec rt err skip captureStack asCSV s)
    as (fn & pkg & pcs & Hnew & _).
  rewrite Hnew. unfold alloc. do 2 eexists. split; [reflexivity|].
  unfold Unwrap, Error, deref. cbn [heap lookup]. rewrite Nat.eqb_refl.
  cbn [bind Err]. split; [reflexivity|].
  destruct err as [e|]; [|reflexivity].
  intros m Hm. unfold callError. cbn [heap]. apply errorOf_alloc. exact Hm.
Qed.

Lemma splitFuncName_cases (fn : gostring) :
  (~ In "."%char fn /\ splitFuncName (Some fn) = Ok (fn, str "unknown"))
  \/ exists pkg name,
       fn = pkg ++ "."%char :: name /\ ~ In "."%char name
       /\ splitFuncName (Some fn) = Ok (name, pkg).
Proof.
  unfold splitFuncName. change (str ".") with ["."%char].
  destruct (LastIndex_byte_cases fn ".") as [[Hn ->]|[a [b [-> [Hb ->]]]]].
  - left. split; [assumption|reflexivity].
  - right. exists a, b. split; [reflexivity|]. split; [assumption|].
    pose proof (len_nonneg a).
    replace (len a =? -1) with false by (symmetry; apply Z.eqb_neq; lia).
    cbn [negb]. rewrite slice_to_app, slice_from_after. reflexivity.
Qed.

(** X11. The constructor cuts the symbol of the calling function at its
    last dot: what follows is stored as the function, and holds no dot;
    what precedes is stored as the package, receiver or enclosing
    function included.  A symbol without a dot is the function, under
    the package [unknown]; without a symbol both are [unknown]. *)
Theorem constructor_splits_symbol :
  forall rt err skip captureStack asCSV s,
  exists p s' obj,
    NewMetaErrorOptions rt err skip captureStack asCSV s = Ok (p, s')
    /\ deref s' p = Ok obj
    /\ match FuncForPC rt (reportedPC rt skip) with
       | None => Func obj = str "unknown" /\ Package obj = str "unknown"
       | Some symbol =>
           ~ In "."%char (Func obj)
           /\ (symbol = Package obj ++ str "." ++ Func obj
               \/ (symbol = Func obj /\ Package obj = str "unknown"))
       end.
Proof.
  intros rt err skip captureStack asCSV s.
  destruct (NewMetaErrorOptions_spec rt err skip captureStack asCSV s)
    as (fn & pkg & pcs & Hnew & Hsplit & _).
  rewrite Hnew. unfold alloc. do 3 eexists. split; [reflexivity|].
  split.
  - unfold deref. cbn [heap lookup]. rewrite Nat.eqb_refl. reflexivity.
  - cbn [Func Package].
    destruct (FuncForPC rt (reportedPC rt skip)) as [symbol|].
    + destruct (splitFuncName_cases symbol)
        as [[Hn E]|[a [b [Hs [Hb E]]]]];
        rewrite E in Hsplit; injection Hsplit as <- <-.
      * split; [assumption|]. right. split; reflexivity.
      * split; [assumption|]. left. exact Hs.
    + cbn in Hsplit. injection Hsplit as <- <-. split; reflexivity.
Qed.

(** *** RootCause *)

Lemma RootCause_more_fuel (fuel : nat) (s : Store) :
  forall err r,
    RootCause fuel s err = Some r -> RootCause (S fuel) s err = Some r.
Proof.
  induction fuel as [|fuel IH]; intros [e|] r H.
  - cbn [RootCause] in *.
    destruct (errorsUnwrap s e) as [[u|]|msg]; [discriminate|exact H..].
  - destruct r; exact H.
  - cbn [RootCause] in H. change (RootCause (S (S fuel)) s (Some e))
      with (match errorsUnwrap s e with
            | Panic msg => Some (Panic msg)
            | Ok None => Some (Ok (Some e))
            | Ok (Some unwrapped) => RootCause (S fuel) s (Some unwrapped)
            end).
    destruct (errorsUnwrap s e) as [[u|]|msg]; [|exact H..].
    apply IH. exact H.
  - exact H.
Qed.

(** X12. What [RootCause] returns has no cause of its own: [errors.Unwrap]
    finds nothing below it.  It returns nil for the nil error and for no
    other. *)
Theorem RootCause_has_no_cause :
  forall fuel s err r,
    RootCause fuel s err = Some (Ok r) ->
    match r with
    | None => err = None
    | Some e => err <> None /\ errorsUnwrap s e = Ok None
    end.
Proof.
  induction fuel as [|fuel IH]; intros s [e|] r H; cbn [RootCause] in H.
  - destruct (errorsUnwrap s e) as [[u|]|msg] eqn:E; try discriminate H.
    injection H as <-. split; [discriminate|exact E].
  - injection H as <-. reflexivity.
  - destruct (errorsUnwrap s e) as [[u|]|msg] eqn:E; try discriminate H.
    + apply IH in H. destruct r as [e'|]; [|discriminate H].
      split; [discriminate|apply H].
    + injection H as <-. split; [discriminate|exact E].
  - injection H as <-. reflexivity.
Qed.

Lemma RootCause_has_no_cause_witness :
  RootCause 2 emptyStore
    (Some (wrapError (str "outer: inner: base")
             (wrapError (str "inner: base") (errorString (str "base")))))
  = Some (Ok (Some (errorString (str "base"))))
  /\ Some (wrapError (str "outer: inner: base")
             (wrapError (str "inner: base") (errorString (str "base"))))
     <> None
  /\ errorsUnwrap emptyStore (errorString (str "base")) = Ok None.
Proof.
  split; [reflexivity|].
  apply (RootCause_has_no_cause 2 emptyStore
           (Some (wrapError (str "outer: inner: base")
                    (wrapError (str "inner: base")
                       (errorString (str "base")))))
           (Some (errorString (str "base")))).
  reflexivity.
Defined.

(** X13. On a chain of [fmt.Errorf] wrappers [RootCause] returns the
    error at the bottom, as soon as the loop may run once for every
    wrapper. *)
Theorem RootCause_unwraps_chain :
  forall fuel s e,
    (layers e <= fuel)%nat ->
    (forall p, innermost e <> metaError p) ->
    RootCause fuel s (Some e) = Some (Ok (Some (innermost e))).
Proof.
  intros fuel s e. revert fuel.
  induction e as [t|msg inner IH|p]; intros fuel Hfuel Hbase.
  - destruct fuel; reflexivity.
  - cbn [layers] in Hfuel. destruct fuel as [|fuel]; [lia|].
    cbn [RootCause errorsUnwrap innermost]. apply IH; [lia|].
    exact Hbase.
  - exfalso. apply (Hbase p). reflexivity.
Qed.

Lemma RootCause_unwraps_chain_witness :
  RootCause 5 emptyStore
    (Some (wrapError (str "outer: inner: base")
             (wrapError (str "inner: base") (errorString (str "base")))))
  = Some (Ok (Some (innermost
                      (wrapError (str "outer: inner: base")
                         (wrapError (str "inner: base")
                            (errorString (str "base"))))))).
Proof.
  apply (RootCause_unwraps_chain 5 emptyStore
           (wrapError (str "outer: inner: base")
              (wrapError (str "inner: base") (errorString (str "base"))))).
  - cbn. lia.
  - intros p H. discriminate H.
Defined.

(** X14. [RootCause] looks through a MetaError.  For the MetaError that
    [NewMetaError] makes of a non-nil error, the root cause is the root
    cause of that error; a MetaError made of the nil error is its own
    root cause. *)
Theorem RootCause_through_MetaError :
  forall rt err s,
  exists p s',
    NewMetaError rt err s = Ok (p, s')
    /\ match err with
       | None =>
           forall fuel,
             RootCause fuel s' (Some (metaError p))
             = Some (Ok (Some (metaError p)))
       | Some e =>
           forall fuel r,
             RootCause fuel s' (Some e) = Some (Ok r) ->
             RootCause (S fuel) s' (Some (metaError p)) = Some (Ok r)
       end.
Proof.
  intros rt err s.
  assert (Hnew : forall err0,
             exists p s',
               NewMetaErrorOptions rt err0 2 true true s = Ok (p, s')
               /\ errorsUnwrap s' (metaError p) = Ok err0).
  { intro err0.
    destruct (NewMetaErrorOptions_spec rt err0 2 true true s)
      as (fn & pkg & pcs & H1 & _).
    rewrite H1. unfold alloc. do 2 eexists. split; [reflexivity|].
    unfold errorsUnwrap, Unwrap, deref. cbn [heap lookup].
    rewrite Nat.eqb_refl. reflexivity. }
  destruct err as [e|].
  - destruct e as [t|msg inner|q].
    + destruct (Hnew (Some (errorString t))) as (p & s' & H1 & H2).
      exists p, s'. split; [exact H1|]. intros fuel r Hr.
      cbn [RootCause]. rewrite H2. exact Hr.
    + destruct (Hnew (Some (wrapError msg inner))) as (p & s' & H1 & H2).
      exists p, s'. split; [exact H1|]. intros fuel r Hr.
      cbn [RootCause]. rewrite H2. exact Hr.
    + exists q, s. split; [reflexivity|]. intros fuel r Hr.
      apply RootCause_more_fuel. exact Hr.
  - destruct (Hnew None) as (p & s' & H1 & H2).
    exists p, s'. split; [exact H1|]. intro fuel.
    destruct fuel; cbn [RootCause]; rewrite H2; reflexivity.
Qed.

(** *** Slog and FromSlogMap *)

(** X15. [Slog] never panics on an error that is nil, a plain error or
    an allocated MetaError.  Given a MetaError it reports the file, line
    and function stored in that very object and allocates nothing;
    given anything else it reports those of the object that
    [NewMetaError] makes.  It returns no attribute only for a nil
    MetaError pointer, and eight otherwise, the nil error included. *)
Theorem Slog_reports_stored_call_site :
  forall rt err s,
    (forall l, err = Some (metaError (addr l)) ->
               lookup (heap s) l <> None) ->
    exists attrs s',
      Slog rt err s = Ok (attrs, s')
      /\ ((err = Some (metaError nilptr) /\ attrs = [] /\ s' = s)
          \/ exists p obj,
               NewMetaError rt err s = Ok (p, s')
               /\ deref s' p = Ok obj
               /\ attrs = [VString (str "error_meta"); VError err;
                           VString (str "file_meta"); VString (File obj);
                           VString (str "line_meta"); VInt (Line obj);
                           VString (str "func_meta"); VString (Func obj)]
               /\ (forall q, err = Some (metaError q) -> p = q /\ s' = s)).
Proof.
  intros rt err s Hvalid.
  assert (Hfresh : forall err0,
             (forall q, err0 <> Some (metaError q)) ->
             NewMetaError rt err0 s = NewMetaErrorOptions rt err0 2 true true s).
  { intros [[t|msg inner|q]|] H; try reflexivity.
    exfalso. apply (H q). reflexivity. }
  assert (Hother : (forall q, err <> Some (metaError q)) ->
            exists attrs s',
              Slog rt err s = Ok (attrs, s')
              /\ ((err = Some (metaError nilptr) /\ attrs = [] /\ s' = s)
                  \/ exists p obj,
                       NewMetaError rt err s = Ok (p, s')
                       /\ deref s' p = Ok obj
                       /\ attrs = [VString (str "error_meta"); VError err;
                                   VString (str "file_meta");
                                   VString (File obj);
                                   VString (str "line_meta");
                                   VInt (Line obj);
                                   VString (str "func_meta");
                                   VString (Func obj)]
                       /\ (forall q, err = Some (metaError q) ->
                                     p = q /\ s' = s))).
  { intro Hno. unfold Slog. rewrite (Hfresh err Hno).
    destruct (NewMetaErrorOptions_spec rt err 2 true true s)
      as (fn & pkg & pcs & Hnew & _).
    rewrite Hnew. unfold alloc. cbn [bind].
    unfold deref. cbn [heap lookup]. rewrite Nat.eqb_refl. cbn [bind].
    do 2 eexists. split; [reflexivity|]. right. do 2 eexists.
    split; [reflexivity|]. split.
    - cbn [heap lookup]. rewrite Nat.eqb_refl. reflexivity.
    - split; [reflexivity|]. intros q Hq. exfalso. exact (Hno q Hq). }
  destruct err as [[t|msg inner|[|l]]|];
    try (apply Hother; intros q Hq; discriminate Hq).
  - exists [], s. split; [reflexivity|]. left. repeat split; reflexivity.
  - destruct (lookup (heap s) l) as [obj|] eqn:Hl;
      [|exfalso; apply (Hvalid l eq_refl); exact Hl].
    unfold Slog. cbn [NewMetaError bind]. unfold deref. rewrite Hl.
    cbn [bind]. do 2 eexists. split; [reflexivity|]. right.
    exists (addr l), obj. split; [reflexivity|].
    split; [unfold deref; rewrite Hl; reflexivity|].
    split; [reflexivity|]. intros q Hq. injection Hq as <-.
    split; reflexivity.
Qed.

Lemma Slog_reports_stored_call_site_witness :
  exists attrs s',
    Slog Samples.env (Some (metaError (addr 0)))
         (mkStore [Samples.plainObject] []) = Ok (attrs, s')
    /\ ((Some (metaError (addr 0)) = Some (metaError nilptr)
         /\ attrs = [] /\ s' = mkStore [Samples.plainObject] [])
        \/ exists p obj,
             NewMetaError Samples.env (Some (metaError (addr 0)))
                          (mkStore [Samples.plainObject] []) = Ok (p, s')
             /\ deref s' p = Ok obj
             /\ attrs = [VString (str "error_meta");
                         VError (Some (metaError (addr 0)));
                         VString (str "file_meta"); VString (File obj);
                         VString (str "line_meta"); VInt (Line obj);
                         VString (str "func_meta"); VString (Func obj)]
             /\ (forall q, Some (metaError (addr 0)) = Some (metaError q) ->
                           p = q /\ s' = mkStore [Samples.plainObject] [])).
Proof.
  apply (Slog_reports_stored_call_site Samples.env
           (Some (metaError (addr 0))) (mkStore [Samples.plainObject] [])).
  intros l H. injection H as <-. discriminate.
Defined.

Lemma decode_encoded (s : Store) (l : nat) (obj : MetaError) (e : error)
    (msg : gostring) :
  lookup (heap s) l = Some obj ->
  Err obj = Some e ->
  errorOf (heap s) e = Ok msg ->
  strconv.is_int (Line obj) ->
  noCRLF msg = true ->
  noCRLF (File obj) = true ->
  noCRLF (Func obj) = true ->
  noCRLF (Package obj) = true ->
  csv.fieldNeedsQuotes (Package obj) = true
  \/ endsInSpace (Package obj) = false ->
  exists rec,
    ToCSV (addr l) s = Ok rec
    /\ MetaErrorFromCSV rec s
       = Ok (addr (List.length (heap s)), None,
             mkStore (mkMetaError (Some (errorString msg)) (File obj)
                        (Line obj) (Func obj) (Package obj) [] [] false
                        :: heap s)
                     (writes s)).
Proof.
  intros Hobj He Hmsg Hline Hm Hf Hfn Hp Hlast.
  unfold ToCSV, deref. rewrite Hobj. cbn [bind].
  unfold callError. rewrite He, Hmsg. cbn [bind].
  eexists. split; [reflexivity|].
  destruct (read_trimmed_record msg (File obj)
              [strconv.Itoa (Line obj); Func obj; Package obj])
    as [_ Hread].
  { repeat constructor; auto. apply noCRLF_Itoa. }
  { exact Hlast. }
  unfold MetaErrorFromCSV. rewrite Hread.
  cbn [List.length Z.of_nat Pos.of_succ_nat Pos.succ Z.eqb Pos.eqb negb nth].
  rewrite Atoi_Itoa by exact Hline. reflexivity.
Qed.

(** X16. [FromSlogMap] looks under the keys [err], [error] and [metaErr],
    in this order, and stops at the first one present.  With none of
    them, or with a value there that is no string, it fails with
    [ErrNotMetaError] and allocates nothing, whatever the later keys
    hold; with a string there it is [MetaErrorFromCSV] on that string. *)
Theorem FromSlogMap_first_key_decides :
  forall (m : slogMap) (s : Store),
    (mapGet m (str "err") = None -> mapGet m (str "error") = None ->
     mapGet m (str "metaErr") = None ->
     FromSlogMap m s = Ok (nilptr, Some ErrNotMetaError, s))
    /\ (forall key v,
          (key = str "err"
           \/ (key = str "error" /\ mapGet m (str "err") = None)
           \/ (key = str "metaErr" /\ mapGet m (str "err") = None
               /\ mapGet m (str "error") = None)) ->
          mapGet m key = Some v ->
          (forall csvStr, v = VString csvStr ->
                          FromSlogMap m s = MetaErrorFromCSV csvStr s)
          /\ ((forall csvStr, v <> VString csvStr) ->
              FromSlogMap m s = Ok (nilptr, Some ErrNotMetaError, s))).
Proof.
  intros m s. split.
  - intros H1 H2 H3. unfold FromSlogMap. rewrite H1, H2, H3. reflexivity.
  - intros key v Hkey Hv.
    assert (E : FromSlogMap m s
                = match v with
                  | VString csvStr => MetaErrorFromCSV csvStr s
                  | _ => Ok (nilptr, Some ErrNotMetaError, s)
                  end).
    { unfold FromSlogMap.
      destruct Hkey as [->|[[-> H1]|[-> [H1 H2]]]].
      - rewrite Hv. reflexivity.
      - rewrite H1, Hv. reflexivity.
      - rewrite H1, H2, Hv. reflexivity. }
    rewrite E. split.
    + intros csvStr ->. reflexivity.
    + intro Hno. destruct v as [t| | |]; try reflexivity.
      exfalso. apply (Hno t). reflexivity.
Qed.

(** X17. A record under the first key that is present comes back as the
    object it was written from.  Under the conditions of the round trip
    of [ToCSV] and [MetaErrorFromCSV], if the first of the keys [err],
    [error], [metaErr] that the map holds carries the output of [ToCSV],
    then [FromSlogMap] returns a new object with the same message,
    file, line, function and package. *)
Theorem FromSlogMap_reads_record :
  forall (m : slogMap) (key : gostring) s l obj e msg rec,
    lookup (heap s) l = Some obj ->
    Err obj = Some e ->
    errorOf (heap s) e = Ok msg ->
    strconv.is_int (Line obj) ->
    noCRLF msg = true ->
    noCRLF (File obj) = true ->
    noCRLF (Func obj) = true ->
    noCRLF (Package obj) = true ->
    csv.fieldNeedsQuotes (Package obj) = true
    \/ endsInSpace (Package obj) = false ->
    ToCSV (addr l) s = Ok rec ->
    (key = str "err"
     \/ (key = str "error" /\ mapGet m (str "err") = None)
     \/ (key = str "metaErr" /\ mapGet m (str "err") = None
         /\ mapGet m (str "error") = None)) ->
    mapGet m key = Some (VString rec) ->
    FromSlogMap m s
    = Ok (addr (List.length (heap s)), None,
          mkStore (mkMetaError (Some (errorString msg)) (File obj)
                     (Line obj) (Func obj) (Package obj) [] [] false
                     :: heap s)
                  (writes s)).
Proof.
  intros m key s l obj e msg rec Hobj He Hmsg Hline Hm Hf Hfn Hp Hlast
         Hrec Hkey Hv.
  destruct (decode_encoded s l obj e msg Hobj He Hmsg Hline Hm Hf Hfn Hp
              Hlast) as [rec' [Hrec' Hdec]].
  rewrite Hrec in Hrec'. injection Hrec' as <-.
  rewrite <- Hdec. unfold FromSlogMap.
  destruct Hkey as [->|[[-> H1]|[-> [H1 H2]]]].
  - rewrite Hv. reflexivity.
  - rewrite H1, Hv. reflexivity.
  - rewrite H1, H2, Hv. reflexivity.
Qed.

Lemma FromSlogMap_reads_record_witness :
  FromSlogMap
    [(str "msg", VString (str "request failed"));
     (str "metaErr", VString (str "ignored"));
     (str "error", VString (str "boom|main.go|10|run|example.com/u/app"))]
    (mkStore [Samples.plainObject] [])
  = Ok (addr 1, None,
        mkStore [mkMetaError (Some (errorString (str "boom")))
                   (str "main.go") 10 (str "run")
                   (str "example.com/u/app") [] [] false;
                 Samples.plainObject] []).
Proof.
  apply (FromSlogMap_reads_record
           [(str "msg", VString (str "request failed"));
            (str "metaErr", VString (str "ignored"));
            (str "error",
             VString (str "boom|main.go|10|run|example.com/u/app"))]
           (str "error") (mkStore [Samples.plainObject] []) 0
           Samples.plainObject (errorString (str "boom")) (str "boom")
           (str "boom|main.go|10|run|example.com/u/app")).
  - reflexivity.
  - reflexivity.
  - reflexivity.
  - unfold strconv.is_int, strconv.minInt, strconv.maxInt. cbn. lia.
  - reflexivity.
  - reflexivity.
  - reflexivity.
  - reflexivity.
  - right. reflexivity.
  - vm_compute. reflexivity.
  - right. left. split; reflexivity.
  - reflexivity.
Defined.

Lemma renderFrames_concat (frame : Frame) (frames : list Frame) :
  renderFrames (frame :: frames)
  = List.concat (map renderFrame (frame :: frames)).
Proof.
  revert frame. induction frames as [|next frames IH]; intro frame.
  - cbn [renderFrames map List.concat]. rewrite app_nil_r. reflexivity.
  - change (renderFrames (frame :: next :: frames))
      with (renderFrame frame ++ renderFrames (next :: frames)).
    rewrite IH. reflexivity.
Qed.

(** X19. [StackTrace] writes the captured frames in their order, each as
    a line feed, the function, a line feed and a tab, the file, a colon
    and the line.  The first frame is written before the iterator is
    asked whether there are more: if it yields no frame at all for a
    stack that was captured, one empty frame is written all the same. *)
Theorem StackTrace_lists_frames :
  forall rt l s obj,
    lookup (heap s) l = Some obj ->
    stackTrace obj <> [] ->
    exists s',
      StackTrace rt (addr l) s
      = Ok (match CallersFrames rt (stackTrace obj) with
            | [] => [NL; NL; TAB] ++ str ":0"
            | frames =>
                List.concat
                  (map (fun frame =>
                          [NL] ++ Function frame ++ [NL; TAB]
                               ++ runtime.File frame ++ str ":"
                               ++ strconv.Itoa (runtime.Line frame))
                       frames)
            end, s').
Proof.
  intros rt l s obj Hl Hne.
  rewrite (StackTrace_spec rt l s obj Hl). unfold rendered.
  destruct (stackTrace obj) as [|pc pcs] eqn:E; [contradiction|].
  eexists. apply f_equal. apply (f_equal2 pair); [|reflexivity].
  destruct (CallersFrames rt (pc :: pcs)) as [|frame frames];
    [reflexivity|].
  apply renderFrames_concat.
Qed.

Lemma StackTrace_lists_frames_witness :
  exists s',
    StackTrace Samples.env (addr 0)
      (mkStore [mkMetaError None (str "main.go") 10 (str "run") (str "app")
                  [7; 8] [] false] [])
    = Ok (match CallersFrames Samples.env [7; 8] with
          | [] => [NL; NL; TAB] ++ str ":0"
          | frames =>
              List.concat
                (map (fun frame =>
                        [NL] ++ Function frame ++ [NL; TAB]
                             ++ runtime.File frame ++ str ":"
                             ++ strconv.Itoa (runtime.Line frame))
                     frames)
          end, s').
Proof.
  apply (StackTrace_lists_frames Samples.env 0
           (mkStore [mkMetaError None (str "main.go") 10 (str "run")
                       (str "app") [7; 8] [] false] [])
           (mkMetaError None (str "main.go") 10 (str "run") (str "app")
              [7; 8] [] false)).
  - reflexivity.
  - discriminate.
Defined.

End MoreMetaError.

(** ** Anonymous functions and host names *)

Section Names.
Import strings FuncName NameProps.

Lemma HasPrefix_app (sep b : gostring) : HasPrefix (sep ++ b) sep = true.
Proof.
  induction sep as [|c sep IH]; [destruct b; reflexivity|].
  cbn [app HasPrefix]. rewrite byte_eqb_refl, IH. reflexivity.
Qed.

Lemma HasPrefix_split (p : gostring) :
  forall s, HasPrefix s p = true -> exists t, s = p ++ t.
Proof.
  induction p as [|c p IH]; intros s H.
  - exists s. reflexivity.
  - destruct s as [|d s]; [discriminate H|]. cbn [HasPrefix] in H.
    apply andb_true_iff in H as [H1 H2]. apply byte_eqb_eq in H1. subst d.
    destruct (IH s H2) as [t ->]. exists t. reflexivity.
Qed.

Lemma indexFrom_found_later (a s sep : gostring) :
  HasPrefix s sep = true ->
  forall i, 0 <= i -> 0 <= indexFrom (a ++ s) sep i.
Proof.
  intro H. induction a as [|c a IH]; intros i Hi.
  - cbn [app]. destruct s; cbn [indexFrom]; rewrite H; lia.
  - cbn [app indexFrom]. destruct (HasPrefix (c :: a ++ s) sep); [lia|].
    apply IH. lia.
Qed.

Lemma indexFrom_head_missing (s rest : gostring) (c : ascii) :
  ~ In c s -> forall i, indexFrom s (c :: rest) i = -1.
Proof.
  induction s as [|d s IH]; intros Hn i; [reflexivity|].
  cbn [indexFrom HasPrefix].
  destruct (byte_eqb d c) eqn:E.
  - apply byte_eqb_eq in E. subst d. exfalso. apply Hn. left. reflexivity.
  - cbn [andb]. apply IH. intro H. apply Hn. right. exact H.
Qed.

Lemma isDigitByte_decimal (c : ascii) : isDigitByte c = true <-> decimal c.
Proof.
  unfold isDigitByte, decimal. change (byteval "0") with 48.
  change (byteval "9") with 57.
  rewrite negb_true_iff, orb_false_iff, !Z.ltb_ge. lia.
Qed.

Lemma digits_decimal (t : gostring) :
  forallb isDigitByte t = true <-> Forall decimal t.
Proof.
  rewrite forallb_forall, Forall_forall.
  split; intros H c Hc; apply isDigitByte_decimal; apply H; exact Hc.
Qed.

(** X20. What [isAnonymousFuncName] takes for an anonymous function.  A
    name that holds the text [.func] anywhere is one.  The parser hands
    it the text after a last dot, which holds none: such a name is one
    exactly when it is [func] followed by one or more decimal digits.
    The function never panics on either. *)
Theorem isAnonymousFuncName_classifies :
  (forall a b : gostring,
      isAnonymousFuncName (a ++ str ".func" ++ b) = Ok true)
  /\ (forall f : gostring,
        ~ In "."%char f ->
        exists anon,
          isAnonymousFuncName f = Ok anon
          /\ (anon = true
              <-> exists digits,
                    digits <> [] /\ Forall decimal digits
                    /\ f = str "func" ++ digits)).
Proof.
  split.
  - intros a b. unfold isAnonymousFuncName.
    replace (Contains (a ++ str ".func" ++ b) ".func") with true;
      [reflexivity|].
    symmetry. unfold Contains, Index. apply Z.leb_le.
    apply indexFrom_found_later; [apply HasPrefix_app|lia].
  - intros f Hf. unfold isAnonymousFuncName.
    replace (Contains f ".func") with false
      by (unfold Contains, Index;
          change (str ".func") with ("."%char :: str "func");
          rewrite indexFrom_head_missing by exact Hf; reflexivity).
    destruct (HasPrefix f "func") eqn:E; cbn [negb].
    + apply HasPrefix_split in E as [t ->].
      change 4 with (len (str "func")). rewrite slice_from_app. cbn [bind].
      destruct t as [|c t]; cbn [gostring_eqb].
      * exists false. split; [reflexivity|]. split; [discriminate|].
        intros (digits & Hne & _ & Heq). apply app_inv_head in Heq.
        exfalso. apply Hne. symmetry. exact Heq.
      * exists (forallb isDigitByte (c :: t)). split; [reflexivity|].
        rewrite digits_decimal. split.
        -- intro H. exists (c :: t). split; [discriminate|].
           split; [exact H|reflexivity].
        -- intros (digits & _ & Hd & Heq). apply app_inv_head in Heq.
           rewrite Heq. exact Hd.
    + exists false. split; [reflexivity|]. split; [discriminate|].
      intros (digits & _ & _ & ->). rewrite HasPrefix_app in E.
      discriminate E.
Qed.

(** *** Host names *)

Lemma splitLoop_label (label : gostring) :
  forall (cur : gostring) (fuel : nat) (rest : gostring),
    ~ In "."%char label ->
    (List.length label < fuel)%nat ->
    splitLoop fuel (label ++ rest) ["."%char] cur
    = splitLoop (fuel - List.length label) rest ["."%char]
                (rev label ++ cur).
Proof.
  induction label as [|c label IH]; intros cur fuel rest Hn Hfuel.
  - cbn [app List.length rev]. rewrite Nat.sub_0_r. reflexivity.
  - destruct fuel as [|fuel]; [cbn [List.length] in Hfuel; lia|].
    cbn [app splitLoop]. rewrite HasPrefix_byte.
    replace (byte_eqb c ".") with false
      by (symmetry; apply byte_eqb_neq; intros ->; apply Hn; left;
          reflexivity).
    rewrite IH.
    + cbn [List.length rev Nat.sub]. rewrite <- app_assoc. reflexivity.
    + intro H. apply Hn. right. exact H.
    + cbn [List.length] in Hfuel. lia.
Qed.

Lemma splitLoop_dotted (labels : list gostring) :
  forall (label cur : gostring) (fuel : nat),
    Forall (fun l => ~ In "."%char l) (label :: labels) ->
    (List.length (dotted (label :: labels)) < fuel)%nat ->
    splitLoop fuel (dotted (label :: labels)) ["."%char] cur
    = (rev cur ++ label) :: labels.
Proof.
  induction labels as [|next labels IH]; intros label cur fuel Hdots Hfuel.
  - cbn [dotted] in *. rewrite <- (app_nil_r label) at 1.
    rewrite splitLoop_label; [|inversion Hdots; assumption|exact Hfuel].
    destruct (fuel - List.length label)%nat as [|k] eqn:Ek; [lia|].
    cbn [splitLoop]. rewrite rev_app_distr, rev_involutive. reflexivity.
  - change (dotted (label :: next :: labels))
      with (label ++ "."%char :: dotted (next :: labels)) in *.
    rewrite length_app in Hfuel. cbn [List.length] in Hfuel.
    rewrite splitLoop_label; [|inversion Hdots; assumption|lia].
    destruct (fuel - List.length label)%nat as [|k] eqn:Ek; [lia|].
    cbn [splitLoop]. rewrite HasPrefix_byte, byte_eqb_refl.
    cbn [List.length skipn]. rewrite rev_app_distr, rev_involutive.
    rewrite IH; [reflexivity|inversion Hdots; assumption|lia].
Qed.

Lemma Split_dotted (label : gostring) (labels : list gostring) :
  Forall (fun l => ~ In "."%char l) (label :: labels) ->
  Split (dotted (label :: labels)) "." = label :: labels.
Proof.
  intro Hdots. unfold Split. change (str ".") with ["."%char].
  rewrite splitLoop_dotted; [reflexivity|exact Hdots|lia].
Qed.

Lemma dotted_without (c : ascii) (labels : list gostring) :
  c <> "."%char ->
  Forall (fun l => ~ In c l) labels -> ~ In c (dotted labels).
Proof.
  intros Hc H. induction H as [|l labels Hl Hrest IH]; [intros []|].
  destruct labels as [|next labels]; [exact Hl|].
  change (dotted (l :: next :: labels))
    with (l ++ "."%char :: dotted (next :: labels)).
  intro Hin. apply in_app_or in Hin as [Hin|[Hin|Hin]].
  - exact (Hl Hin).
  - apply Hc. symmetry. exact Hin.
  - exact (IH Hin).
Qed.

Lemma dotted_length (l : gostring) (labels : list gostring) :
  len l <= len (dotted (l :: labels)).
Proof.
  destruct labels as [|next labels]; [cbn [dotted]; lia|].
  change (dotted (l :: next :: labels))
    with (l ++ "."%char :: dotted (next :: labels)).
  rewrite len_app. pose proof (len_nonneg ("."%char :: dotted (next :: labels))).
  lia.
Qed.

Lemma at_first (c : ascii) (t : gostring) : at_ (c :: t) 0 = Ok c.
Proof. apply (at_app [] t c). Qed.

Lemma at_last (l : gostring) :
  l <> [] -> at_ l (len l - 1) = Ok (last l Ascii.zero).
Proof.
  intro Hne. rewrite (app_removelast_last Ascii.zero Hne) at 1 2.
  rewrite len_app. change (len [last l Ascii.zero]) with 1.
  replace (len (removelast l) + 1 - 1) with (len (removelast l)) by lia.
  apply at_app.
Qed.

Lemma validPart_spec (l : gostring) :
  exists b, validPart l = Ok b /\ (b = true <-> validLabel l).
Proof.
  unfold validPart, validLabel. destruct l as [|c t].
  - exists false. split; [reflexivity|]. split; [discriminate|].
    intros [H _]. exfalso. apply H. reflexivity.
  - replace (len (c :: t) =? 0) with false
      by (symmetry; apply Z.eqb_neq; rewrite len_cons;
          pose proof (len_nonneg t); lia).
    destruct (forallb isLetterDigitOrHyphen (c :: t)) eqn:F; cbn [negb].
    + rewrite at_first, at_last by discriminate. cbn [bind hd].
      eexists. split; [reflexivity|].
      rewrite negb_true_iff, orb_false_iff, !byte_eqb_neq.
      rewrite forallb_forall in F. split.
      * intros [H1 H2]. split; [discriminate|]. split; [exact F|].
        split; assumption.
      * intros (_ & _ & H1 & H2). split; assumption.
    + exists false. split; [reflexivity|]. split; [discriminate|].
      intros (_ & H & _). exfalso.
      assert (forallb isLetterDigitOrHyphen (c :: t) = true)
        by (apply forallb_forall; exact H).
      congruence.
Qed.

Lemma validParts_spec (labels : list gostring) :
  exists b, validParts labels = Ok b /\ (b = true <-> Forall validLabel labels).
Proof.
  induction labels as [|l labels IH]; cbn [validParts].
  - exists true. split; [reflexivity|]. split; [constructor|reflexivity].
  - destruct (validPart_spec l) as (b & -> & Hb). cbn [bind].
    destruct b.
    + destruct IH as (b' & -> & Hb'). exists b'. split; [reflexivity|].
      rewrite Hb'. split.
      * intro H. constructor; [apply Hb; reflexivity|exact H].
      * intro H. inversion H. assumption.
    + exists false. split; [reflexivity|]. split; [discriminate|].
      intro H. inversion H as [|? ? Hl _]. apply Hb in Hl. discriminate Hl.
Qed.

Lemma valid_host_length (labels : list gostring) :
  (2 <= List.length labels)%nat -> Forall validLabel labels ->
  3 <= len (dotted labels).
Proof.
  intros Hlen Hvalid.
  destruct labels as [|l1 [|l2 rest]]; try (cbn [List.length] in Hlen; lia).
  change (dotted (l1 :: l2 :: rest))
    with (l1 ++ "."%char :: dotted (l2 :: rest)).
  rewrite len_app, len_cons. pose proof (dotted_length l2 rest).
  inversion Hvalid as [|? ? [H1 _] Hrest]. subst.
  inversion Hrest as [|? ? [H2 _] _]. subst.
  destruct l1; [contradiction|]. destruct l2; [contradiction|].
  rewrite !len_cons in *. pose proof (len_nonneg l1). pose proof (len_nonneg l2).
  lia.
Qed.

(** X21. [isGoPackageURLPattern] on a path that begins with a host name
    and a slash, the host given by its labels: it never panics, and it
    accepts the path exactly when the host has at least two labels and
    each label is not empty, is made of letters, digits and hyphens, and
    neither begins nor ends with a hyphen.  What follows the first slash
    has no say. *)
Theorem isGoPackageURLPattern_checks_host :
  forall (labels : list gostring) (path : gostring),
    Forall (fun l => ~ In "."%char l) labels ->
    Forall (fun l => ~ In "/"%char l) labels ->
    exists b,
      isGoPackageURLPattern (dotted labels ++ str "/" ++ path) = Ok b
      /\ (b = true
          <-> (2 <= List.length labels)%nat /\ Forall validLabel labels).
Proof.
  intros labels path Hdots Hslashes.
  assert (Hhost : ~ In "/"%char (dotted labels))
    by (apply dotted_without; [discriminate|exact Hslashes]).
  change (str "/" ++ path) with ("/"%char :: path).
  unfold isGoPackageURLPattern.
  destruct (len (dotted labels ++ "/"%char :: path) <? 4) eqn:E4.
  - exists false. split; [reflexivity|]. split; [discriminate|].
    intros [H2 Hv]. apply Z.ltb_lt in E4. rewrite len_app, len_cons in E4.
    pose proof (valid_host_length labels H2 Hv). pose proof (len_nonneg path).
    lia.
  - change (Index (dotted labels ++ "/"%char :: path) "/")
      with (IndexByte (dotted labels ++ "/"%char :: path) "/"%char).
    rewrite IndexByte_found by exact Hhost.
    pose proof (len_nonneg (dotted labels)).
    replace (len (dotted labels) =? -1) with false
      by (symmetry; apply Z.eqb_neq; lia).
    rewrite slice_to_app. cbn [bind]. unfold isValidDomain.
    destruct labels as [|label labels].
    + exists false. split; [reflexivity|]. split; [discriminate|].
      intros [H2 _]. cbn [List.length] in H2. lia.
    + rewrite Split_dotted by exact Hdots.
      destruct (Z.of_nat (List.length (label :: labels)) <? 2) eqn:E2.
      * exists false. split; [reflexivity|]. split; [discriminate|].
        intros [H2 _]. apply Z.ltb_lt in E2. lia.
      * apply Z.ltb_ge in E2.
        destruct (validParts_spec (label :: labels)) as (b & -> & Hb).
        cbn [bind]. exists b. split; [reflexivity|]. rewrite Hb.
        split; [intro Hv; split; [lia|exact Hv]|intros [_ Hv]; exact Hv].
Qed.

Lemma isGoPackageURLPattern_checks_host_witness :
  exists b,
    isGoPackageURLPattern
      (dotted [str "github"; str "com"] ++ str "/" ++ str "xhd2015/xgo")
    = Ok b
    /\ (b = true
        <-> (2 <= List.length [str "github"; str "com"])%nat
            /\ Forall validLabel [str "github"; str "com"]).
Proof.
  apply (isGoPackageURLPattern_checks_host [str "github"; str "com"]
           (str "xhd2015/xgo")).
  - repeat constructor;
      intro H; repeat destruct H as [H|H]; try discriminate H; exact H.
  - repeat constructor;
      intro H; repeat destruct H as [H|H]; try discriminate H; exact H.
Defined.

End Names.

(** ** The symbol parser on generic methods *)

Section GenericMethods.
Import strings FuncName.

Ltac bytes :=
  change (str ".") with ["."%char] in *;
  change (str "/") with ["/"%char] in *;
  change (str "[") with ["["%char] in *;
  change (str "]") with ["]"%char] in *;
  change (str "(") with ["("%char] in *;
  change (str ")") with [")"%char] in *;
  change (str "*") with ["*"%char] in *.

Ltac reassoc := repeat first [rewrite <- app_assoc | progress cbn [app]].

Lemma parseRecvGeneric_arguments (sepIdx : Z) (recv tg : gostring)
    (r : Parsed) :
  ~ In "["%char tg ->
  parseRecvGeneric sepIdx true (recv ++ "["%char :: tg ++ ["]"%char]) r
  = finish recv (set_typeGeneric tg r).
Proof.
  intro Htg. unfold parseRecvGeneric. cbv zeta. bytes.
  replace (HasSuffix (recv ++ "["%char :: tg ++ ["]"%char]) ["]"%char])
    with true
    by (replace (recv ++ "["%char :: tg ++ ["]"%char])
          with ((recv ++ "["%char :: tg) ++ ["]"%char])
          by (reassoc; reflexivity);
        symmetry; apply HasSuffix_byte_last).
  rewrite LastIndex_byte_found
    by (intro Hin; apply in_app_or in Hin as [Hin|[Hin|[]]];
        [contradiction|discriminate]).
  pose proof (len_nonneg recv).
  replace (len recv <? 0) with false by (symmetry; apply Z.ltb_ge; lia).
  rewrite slice_bracket, slice_to_app. reflexivity.
Qed.

Lemma parseName_generic_method (sepIdx : Z) (dir base T tg fn g : gostring)
    (pointer : bool) :
  dir = [] \/ (exists d, dir = d ++ ["/"%char]) ->
  ~ In "."%char base -> ~ In "/"%char base ->
  ~ In "("%char T -> ~ In "*"%char T ->
  ~ In "("%char tg -> ~ In "["%char tg ->
  ~ In "."%char fn ->
  isAnonymousFuncName fn = Ok false ->
  parseName sepIdx
    (((dir ++ base)
        ++ "."%char :: "("%char
        :: (((if pointer then ["*"%char] else []) ++ T)
              ++ "["%char :: tg ++ ["]"%char])
        ++ [")"%char])
       ++ "."%char :: fn)
    (set_funcGeneric g zero)
  = Ok (mkParsed (dir ++ base) T pointer tg g fn []).
Proof.
  intros Hdir Hb1 Hb2 HT1 HT2 Htg1 Htg2 Hf1 Hanon.
  rewrite parseName_named by assumption.
  rewrite parseType_receiver.
  - rewrite parseRecvGeneric_arguments by assumption.
    destruct pointer.
    + cbn [app]. rewrite finish_pointer. reflexivity.
    + cbn [app]. rewrite finish_value by assumption. reflexivity.
  - apply package_path_slashes; assumption.
  - intro Hin. apply in_app_or in Hin as [Hin|[Hin|Hin]].
    + destruct pointer; cbn [app] in Hin;
        [destruct Hin as [Hin|Hin]; [discriminate|contradiction]
        |contradiction].
    + discriminate.
    + apply in_app_or in Hin as [Hin|[Hin|[]]];
        [contradiction|discriminate].
Qed.

(** X22. A method of a generic type, with a parenthesized receiver.  For
    a name [pkg.(T[tg]).fn], with or without a star before [T] and with
    or without type arguments [[fg]] after [fn], whose package path has
    no dot in its last element, the parser returns the package path, the
    receiver type [T], whether the receiver is a pointer, the type
    arguments [tg] of the receiver, those of the method, and the method
    name, with an empty notice. *)
Theorem parse_generic_method :
  forall (dir base T tg fn : gostring) (pointer : bool)
         (fg : option gostring),
    dir = [] \/ (exists d, dir = d ++ ["/"%char]) ->
    ~ In "."%char base -> ~ In "/"%char base ->
    ~ In "("%char T -> ~ In "*"%char T ->
    ~ In "("%char tg -> ~ In "["%char tg ->
    ~ In "."%char fn -> ~ In "]"%char fn ->
    isAnonymousFuncName fn = Ok false ->
    (forall g, fg = Some g -> ~ In "["%char g) ->
    parseFuncName
      (dir ++ base ++ str ".(" ++ (if pointer then str "*" else []) ++ T
           ++ str "[" ++ tg ++ str "])." ++ fn
           ++ match fg with
              | None => []
              | Some g => str "[" ++ g ++ str "]"
              end)
    = Ok (mkParsed (dir ++ base) T pointer tg
            (match fg with None => [] | Some g => g end) fn []).
Proof.
  intros dir base T tg fn pointer fg Hdir Hb1 Hb2 HT1 HT2 Htg1 Htg2 Hf1 Hf2
         Hanon Hfg.
  set (R := ((dir ++ base)
               ++ "."%char :: "("%char
               :: (((if pointer then ["*"%char] else []) ++ T)
                     ++ "["%char :: tg ++ ["]"%char])
               ++ [")"%char])
              ++ "."%char :: fn).
  destruct fg as [g|].
  - replace (dir ++ base ++ str ".(" ++ (if pointer then str "*" else [])
                 ++ T ++ str "[" ++ tg ++ str "])." ++ fn
                 ++ str "[" ++ g ++ str "]")
      with (R ++ "["%char :: g ++ ["]"%char])
      by (unfold R; destruct pointer; cbv [str list_ascii_of_string];
          reassoc; reflexivity).
    unfold parseFuncName. cbv zeta. bytes.
    replace (HasSuffix (R ++ "["%char :: g ++ ["]"%char]) ["]"%char])
      with true
      by (replace (R ++ "["%char :: g ++ ["]"%char])
            with ((R ++ "["%char :: g) ++ ["]"%char])
            by (reassoc; reflexivity);
          symmetry; apply HasSuffix_byte_last).
    rewrite LastIndex_byte_found
      by (intro Hin; apply in_app_or in Hin as [Hin|[Hin|[]]];
          [exact (Hfg g eq_refl Hin)|discriminate]).
    pose proof (len_nonneg R).
    replace (len R <? 0) with false by (symmetry; apply Z.ltb_ge; lia).
    rewrite slice_bracket, slice_to_app. cbn [bind].
    unfold R. apply parseName_generic_method; assumption.
  - replace (dir ++ base ++ str ".(" ++ (if pointer then str "*" else [])
                 ++ T ++ str "[" ++ tg ++ str "])." ++ fn ++ [])
      with R
      by (unfold R; destruct pointer; cbv [str list_ascii_of_string];
          rewrite app_nil_r; reassoc; reflexivity).
    unfold parseFuncName. cbv zeta. bytes.
    unfold R at 1.
    rewrite (HasSuffix_byte_after _ fn "]" ".") by (discriminate || assumption).
    apply (parseName_generic_method _ dir base T tg fn []); assumption.
Qed.

Lemma parse_generic_method_witness :
  parseFuncName
    (str "github.com/xhd2015/" ++ str "xgo" ++ str ".("
         ++ (if true then str "*" else []) ++ str "File"
         ++ str "[" ++ str "int" ++ str "])." ++ str "Read"
         ++ match Some (str "string") with
            | None => []
            | Some g => str "[" ++ g ++ str "]"
            end)
  = Ok (mkParsed (str "github.com/xhd2015/" ++ str "xgo") (str "File") true
          (str "int")
          (match Some (str "string") with None => [] | Some g => g end)
          (str "Read") []).
Proof.
  apply (parse_generic_method (str "github.com/xhd2015/") (str "xgo")
           (str "File") (str "int") (str "Read") true (Some (str "string"))).
  - right. exists (str "github.com/xhd2015"). reflexivity.
  - intro H; repeat destruct H as [H|H]; try discriminate H; exact H.
  - intro H; repeat destruct H as [H|H]; try discriminate H; exact H.
  - intro H; repeat destruct H as [H|H]; try discriminate H; exact H.
  - intro H; repeat destruct H as [H|H]; try discriminate H; exact H.
  - intro H; repeat destruct H as [H|H]; try discriminate H; exact H.
  - intro H; repeat destruct H as [H|H]; try discriminate H; exact H.
  - intro H; repeat destruct H as [H|H]; try discriminate H; exact H.
  - intro H; repeat destruct H as [H|H]; try discriminate H; exact H.
  - reflexivity.
  - intros g Hg. injection Hg as <-.
    intro H; repeat destruct H as [H|H]; try discriminate H; exact H.
Defined.

End GenericMethods.

(** ** The symbol parser on closures *)

Section Closures.
Import strings FuncName NameProps.

Ltac bytes :=
  change (str ".") with ["."%char] in *;
  change (str "/") with ["/"%char] in *;
  change (str "[") with ["["%char] in *;
  change (str "]") with ["]"%char] in *;
  change (str "(") with ["("%char] in *;
  change (str ")") with [")"%char] in *;
  change (str "*") with ["*"%char] in *.

Ltac reassoc := repeat first [rewrite <- app_assoc | progress cbn [app]].

Lemma lastIndexFrom_head_missing (s rest : gostring) (c : ascii) :
  ~ In c s -> forall i best, lastIndexFrom s (c :: rest) i best = best.
Proof.
  induction s as [|d s IH]; intros Hn i best; [reflexivity|].
  rewrite lastIndexFrom_unfold. cbn [HasPrefix].
  replace (byte_eqb d c) with false
    by (symmetry; apply byte_eqb_neq; intros ->; apply Hn; left; reflexivity).
  cbn [andb]. apply IH. intro H. apply Hn. right. exact H.
Qed.

Lemma LastIndex_once (a b rest : gostring) (c : ascii) :
  ~ In c a -> ~ In c b -> HasPrefix b rest = true ->
  LastIndex (a ++ c :: b) (c :: rest) = len a.
Proof.
  intros Ha Hb Hrest. unfold LastIndex.
  assert (G : forall i best,
             lastIndexFrom (a ++ c :: b) (c :: rest) i best = i + len a).
  { induction a as [|d a IH]; intros i best.
    - cbn [app]. rewrite lastIndexFrom_unfold. cbn [HasPrefix].
      rewrite byte_eqb_refl, Hrest. cbn [andb].
      rewrite lastIndexFrom_head_missing by exact Hb. rewrite len_nil. lia.
    - cbn [app]. rewrite lastIndexFrom_unfold, IH, len_cons; [lia|].
      intro H. apply Ha. right. exact H. }
  rewrite G. lia.
Qed.

Lemma decimal_not (c : ascii) (digits : gostring) :
  Forall decimal digits -> ~ (48 <= byteval c <= 57) -> ~ In c digits.
Proof.
  intros Hd Hc Hin. rewrite Forall_forall in Hd. apply Hc. apply Hd. exact Hin.
Qed.

Lemma numbered_without (c : ascii) (digits : gostring) :
  Forall decimal digits -> ~ (48 <= byteval c <= 57) ->
  ~ In c (str "func") ->
  ~ In c (str "func" ++ digits).
Proof.
  intros Hd Hc Hf Hin. apply in_app_or in Hin as [Hin|Hin];
    [exact (Hf Hin)|exact (decimal_not c digits Hd Hc Hin)].
Qed.

Lemma isAnonymousFuncName_numbered (digits : gostring) :
  digits <> [] -> Forall decimal digits ->
  isAnonymousFuncName (str "func" ++ digits) = Ok true.
Proof.
  intros Hne Hd. unfold isAnonymousFuncName.
  replace (Contains (str "func" ++ digits) ".func") with false
    by (unfold Contains, Index;
        change (str ".func") with ("."%char :: str "func");
        rewrite indexFrom_head_missing; [reflexivity|];
        apply numbered_without;
        [exact Hd|vm_compute; intros [H _]; apply H; reflexivity
        |intro H; repeat destruct H as [H|H]; try discriminate H; exact H]).
  rewrite HasPrefix_app. cbn [negb].
  change 4 with (len (str "func")). rewrite slice_from_app. cbn [bind].
  destruct digits as [|c t]; [contradiction|]. cbn [gostring_eqb].
  f_equal. apply digits_decimal. exact Hd.
Qed.

(** X23. A closure.  For the name of the anonymous function [funcN] that
    the compiler makes inside a package-level function, [pkg.outer.funcN]
    with one or more decimal digits for [N], whose package path has no
    dot in its last element, the parser returns the package path and the
    name of the enclosing function; the notice says that the function is
    anonymous. *)
Theorem parse_closure :
  forall dir base outer digits : gostring,
    dir = [] \/ (exists d, dir = d ++ ["/"%char]) ->
    ~ In "."%char base -> ~ In ")"%char base -> ~ In "]"%char base ->
    ~ In "."%char outer ->
    digits <> [] -> Forall decimal digits ->
    parseFuncName (dir ++ base ++ str "." ++ outer ++ str ".func" ++ digits)
    = Ok (mkParsed (dir ++ base) [] false [] [] outer
            (str "anonymous function")).
Proof.
  intros dir base outer digits Hdir Hb1 Hb2 Hb3 Ho Hne Hd.
  assert (Hdot : ~ In "."%char (str "func" ++ digits)).
  { apply numbered_without;
      [exact Hd|vm_compute; intros [H _]; apply H; reflexivity
      |intro H; repeat destruct H as [H|H]; try discriminate H; exact H]. }
  assert (Hbr : ~ In "]"%char (str "func" ++ digits)).
  { apply numbered_without;
      [exact Hd|vm_compute; intros [_ H]; apply H; reflexivity
      |intro H; repeat destruct H as [H|H]; try discriminate H; exact H]. }
  pose proof (isAnonymousFuncName_numbered digits Hne Hd) as Hanon.
  set (pkg := dir ++ base) in *.
  remember (pkg ++ "."%char :: outer ++ "."%char :: str "func" ++ digits)
    as F eqn:HF.
  replace (dir ++ base ++ str "." ++ outer ++ str ".func" ++ digits) with F
    by (rewrite HF; unfold pkg; cbv [str list_ascii_of_string]; reassoc;
        reflexivity).
  assert (HF1 : F = (pkg ++ "."%char :: outer)
                      ++ "."%char :: (str "func" ++ digits))
    by (rewrite HF; reassoc; reflexivity).
  assert (HF2 : F = pkg ++ "."%char
                      :: (outer ++ "."%char :: str "func" ++ digits))
    by (rewrite HF; reflexivity).
  assert (HF3 : F = pkg ++ ("."%char :: outer ++ "."%char
                              :: str "func" ++ digits))
    by (rewrite HF; reflexivity).
  assert (E0 : HasSuffix F ["]"%char] = false)
    by (rewrite HF1; apply HasSuffix_byte_after; [discriminate|exact Hbr]).
  assert (E1 : LastIndex F ["."%char] = len (pkg ++ "."%char :: outer))
    by (rewrite HF1; apply LastIndex_byte_found; exact Hdot).
  assert (E2 : slice_from F (len (pkg ++ "."%char :: outer) + 1)
               = Ok (str "func" ++ digits))
    by (rewrite HF1; apply slice_from_after).
  assert (E3 : slice_to F (len (pkg ++ "."%char :: outer))
               = Ok (pkg ++ "."%char :: outer))
    by (rewrite HF1; apply slice_to_app).
  assert (E4 : LastIndex (pkg ++ "."%char :: outer) ["."%char] = len pkg)
    by (apply LastIndex_byte_found; exact Ho).
  assert (E5 : slice_from F (len pkg + 1)
               = Ok (outer ++ "."%char :: str "func" ++ digits))
    by (rewrite HF2; apply slice_from_after).
  assert (E6 : LastIndex (outer ++ "."%char :: str "func" ++ digits)
                         (str ".func") = len outer).
  { change (str ".func") with ("."%char :: str "func").
    apply LastIndex_once; [exact Ho|exact Hdot|apply HasPrefix_app]. }
  assert (E7 : slice_to (outer ++ "."%char :: str "func" ++ digits)
                        (len outer) = Ok outer)
    by apply slice_to_app.
  pose proof (last_dot_before_separator dir base
                ("."%char :: outer ++ "."%char :: str "func" ++ digits)
                Hdir Hb1) as Hsep.
  fold pkg in Hsep. rewrite <- HF3 in Hsep.
  unfold parseFuncName. cbv zeta. bytes. rewrite E0.
  remember (LastIndex F ["/"%char]) as sepIdx eqn:Hs. clear Hs.
  unfold parseName. cbv zeta. bytes. rewrite E1.
  pose proof (len_nonneg (pkg ++ "."%char :: outer)).
  pose proof (len_nonneg pkg). pose proof (len_nonneg outer).
  replace (len (pkg ++ "."%char :: outer) <? 0) with false
    by (symmetry; apply Z.ltb_ge; lia).
  rewrite E2. cbn [bind]. rewrite Hanon. cbn [bind].
  rewrite E3. cbn [bind]. rewrite E4.
  replace (len pkg <? 0) with false by (symmetry; apply Z.ltb_ge; lia).
  rewrite E5. cbn [bind]. rewrite E6.
  replace (len outer =? -1) with false by (symmetry; apply Z.eqb_neq; lia).
  cbn [negb]. rewrite E7. cbn [bind].
  rewrite HF3. rewrite parseType_open
    by (apply (package_path_open dir base ")");
        [assumption|discriminate|assumption]).
  rewrite parseRecvGeneric_plain
    by (apply (package_path_open dir base "]");
        [assumption|discriminate|assumption]).
  cbn [negb]. rewrite splitPkgRecv_whole; [reflexivity|reflexivity|].
  exact Hsep.
Qed.

Lemma parse_closure_witness :
  parseFuncName (str "modeledge-go/internal/" ++ str "routes" ++ str "."
                   ++ str "RegisterToolRoutes" ++ str ".func" ++ str "12")
  = Ok (mkParsed (str "modeledge-go/internal/" ++ str "routes") [] false []
          [] (str "RegisterToolRoutes") (str "anonymous function")).
Proof.
  apply (parse_closure (str "modeledge-go/internal/") (str "routes")
           (str "RegisterToolRoutes") (str "12")).
  - right. exists (str "modeledge-go/internal"). reflexivity.
  - intro H; repeat destruct H as [H|H]; try discriminate H; exact H.
  - intro H; repeat destruct H as [H|H]; try discriminate H; exact H.
  - intro H; repeat destruct H as [H|H]; try discriminate H; exact H.
  - intro H; repeat destruct H as [H|H]; try discriminate H; exact H.
  - discriminate.
  - repeat constructor; unfold decimal; vm_compute; discriminate.
Defined.

End Closures.

(** ** Retrying *)

Section Retrying.
Import Multi retry RetryProps.

Context {T : Type}.
Variables (config : Config) (task : Z -> T * option error)
          (done : Z -> bool) (defaultResult : T).

Lemma collected_append (errs : list (option error)) (e : option error) :
  mkMultiError (appendSlice (Errors (collected errs)) e)
  = collected (errs ++ [e]).
Proof.
  unfold collected, appendSlice. destruct errs as [|x errs]; cbn [Errors app];
    reflexivity.
Qed.

Lemma ExecuteLoop_failures (d : Z -> Duration) (p : nat) (n : nat) :
  forall (fuel : nat) (i : Z) (h : Heap) (log : list Duration)
         (errs : list (option error)),
    lookup h p = Some (collected errs) ->
    (n <= fuel)%nat ->
    i + Z.of_nat n <= Times config - 1 ->
    (forall j, i <= j < i + Z.of_nat n ->
               snd (task j) <> None /\ done j = false
               /\ backoffOf config (j + 1) = Ok (d (j + 1))) ->
    ExecuteLoop fuel config task done defaultResult p i h log
    = ExecuteLoop (fuel - n) config task done defaultResult p
                  (i + Z.of_nat n)
                  (store h p (collected (errs ++ errorsOf task i n)))
                  (log ++ waitsOf d i n).
Proof.
  induction n as [|n IH]; intros fuel i h log errs Hl Hfuel Hlast Hfail.
  - cbn [errorsOf waitsOf Z.of_nat]. rewrite !app_nil_r, Nat.sub_0_r, Z.add_0_r.
    rewrite store_same by exact Hl. reflexivity.
  - destruct fuel as [|fuel]; [lia|].
    destruct (Hfail i ltac:(lia)) as (Herr & Hdone & Hback).
    cbn [ExecuteLoop].
    replace (i <? Times config) with true by (symmetry; apply Z.ltb_lt; lia).
    destruct (task i) as [res err] eqn:Htask. cbn [snd] in Herr.
    destruct err as [e|]; [|contradiction].
    rewrite Hl, collected_append.
    replace (i =? Times config - 1) with false
      by (symmetry; apply Z.eqb_neq; lia).
    unfold backoffOf in Hback. rewrite Hback, Hdone.
    rewrite (IH fuel (i + 1) _ _ (errs ++ [Some e])).
    + rewrite store_twice. cbn [errorsOf waitsOf Nat.sub]. rewrite Htask.
      cbn [snd]. rewrite <- !app_assoc. cbn [app].
      replace (i + 1 + Z.of_nat n) with (i + Z.of_nat (S n)) by lia.
      reflexivity.
    + eapply lookup_store_same. exact Hl.
    + lia.
    + lia.
    + intros j Hj. apply Hfail. lia.
Qed.

Lemma errorsOf_length (from : Z) (n : nat) :
  List.length (errorsOf task from n) = n.
Proof.
  revert from. induction n as [|n IH]; intro from; cbn [errorsOf List.length];
    [reflexivity|rewrite IH; reflexivity].
Qed.

Lemma errorsOf_snoc (from : Z) (n : nat) :
  errorsOf task from (S n)
  = errorsOf task from n ++ [snd (task (from + Z.of_nat n))].
Proof.
  revert from. induction n as [|n IH]; intro from.
  - cbn [errorsOf Z.of_nat app]. rewrite Z.add_0_r. reflexivity.
  - change (errorsOf task from (S (S n)))
      with (snd (task from) :: errorsOf task (from + 1) (S n)).
    rewrite IH. cbn [errorsOf app].
    replace (from + 1 + Z.of_nat n) with (from + Z.of_nat (S n)) by lia.
    reflexivity.
Qed.

Lemma ErrorOrNil_collected (h : Heap) (p : nat) (e : option error)
    (errs : list (option error)) :
  lookup h p = Some (collected (e :: errs)) ->
  ErrorOrNil (addr p) h = Ok (Some (multiError (addr p))).
Proof.
  intro Hl. unfold ErrorOrNil. rewrite Hl. unfold lenErrors, collected.
  cbn [Errors List.length].
  replace (Z.of_nat (S (List.length errs)) =? 0) with false
    by (symmetry; apply Z.eqb_neq; lia).
  reflexivity.
Qed.

(** X24. With a number of attempts of zero or less, [Execute] never runs
    the task: it returns the zero value of the result type and a nil
    error, as after a success. *)
Theorem Execute_without_attempts :
  forall h : Heap,
    Times config <= 0 ->
    Execute config task done defaultResult h
    = Some (Ok (mkRun defaultResult None (h ++ [mkMultiError None]) [])).
Proof.
  intros h Htimes. unfold Execute, alloc.
  replace (Z.to_nat (Times config)) with 0%nat by lia.
  cbn [ExecuteLoop].
  replace (0 <? Times config) with false by (symmetry; apply Z.ltb_ge; lia).
  unfold ErrorOrNil. rewrite lookup_last. reflexivity.
Qed.

(** X25. [Execute] returns the result of the first call of the task that
    succeeds, with a nil error: if the calls before call [k] fail, the
    context is not done in the waits between them, and call [k], one
    of the attempts allowed, succeeds, the errors of the earlier calls
    are dropped.  There was one wait after each failed call. *)
Theorem Execute_first_success :
  forall (h : Heap) (d : Z -> Duration) (k : Z),
    0 <= k < Times config ->
    (forall j, 0 <= j < k ->
               snd (task j) <> None /\ done j = false
               /\ backoffOf config (j + 1) = Ok (d (j + 1))) ->
    snd (task k) = None ->
    Execute config task done defaultResult h
    = Some (Ok (mkRun (fst (task k)) None
                  (h ++ [collected (errorsOf task 0 (Z.to_nat k))])
                  (waitsOf d 0 (Z.to_nat k)))).
Proof.
  intros h d k Hk Hfail Hok. unfold Execute, alloc.
  rewrite (ExecuteLoop_failures d (List.length h) (Z.to_nat k) _ 0 _ [] []).
  - rewrite Z2Nat.id, Z.add_0_l by lia. cbn [app].
    destruct (Z.to_nat (Times config) - Z.to_nat k)%nat as [|fuel] eqn:E;
      [lia|].
    cbn [ExecuteLoop].
    replace (k <? Times config) with true by (symmetry; apply Z.ltb_lt; lia).
    destruct (task k) as [res err]. cbn [snd fst] in *. subst err.
    rewrite store_last. reflexivity.
  - apply lookup_last.
  - lia.
  - lia.
  - intros j Hj. apply Hfail. lia.
Qed.

Lemma Execute_all_failures :
  forall (h : Heap) (d : Z -> Duration),
    0 < Times config ->
    (forall j, 0 <= j < Times config -> snd (task j) <> None) ->
    (forall j, 0 <= j < Times config - 1 ->
               done j = false
               /\ backoffOf config (j + 1) = Ok (d (j + 1))) ->
    Execute config task done defaultResult h
    = Some (Ok (mkRun defaultResult
                  (Some (multiError (addr (List.length h))))
                  (h ++ [mkMultiError
                           (Some (errorsOf task 0
                                    (Z.to_nat (Times config))))])
                  (waitsOf d 0 (Z.to_nat (Times config - 1))))).
Proof.
  intros h d Htimes Hfail Hwait. unfold Execute, alloc.
  rewrite (ExecuteLoop_failures d (List.length h)
             (Z.to_nat (Times config - 1)) _ 0 _ [] []).
  - rewrite Z2Nat.id, Z.add_0_l by lia. cbn [app].
    destruct (Z.to_nat (Times config) - Z.to_nat (Times config - 1))%nat
      as [|fuel] eqn:E; [lia|].
    cbn [ExecuteLoop].
    replace (Times config - 1 <? Times config) with true
      by (symmetry; apply Z.ltb_lt; lia).
    pose proof (Hfail (Times config - 1) ltac:(lia)) as Herr.
    pose proof (errorsOf_snoc 0 (Z.to_nat (Times config - 1))) as Hsnoc.
    rewrite Z2Nat.id, Z.add_0_l in Hsnoc by lia.
    replace (S (Z.to_nat (Times config - 1))) with (Z.to_nat (Times config))
      in Hsnoc by lia.
    destruct (task (Times config - 1)) as [res err]. cbn [snd] in *.
    destruct err as [e|]; [|contradiction].
    rewrite store_last, lookup_last, collected_append, store_last.
    rewrite Z.eqb_refl, <- Hsnoc.
    assert (Hne : exists x rest,
               errorsOf task 0 (Z.to_nat (Times config)) = x :: rest).
    { destruct (errorsOf task 0 (Z.to_nat (Times config))) as [|x rest] eqn:E1;
        [|eauto].
      apply (f_equal (@List.length _)) in E1. rewrite errorsOf_length in E1.
      cbn [List.length] in E1. lia. }
    destruct Hne as (x & rest & Hne). rewrite Hne.
    rewrite (ErrorOrNil_collected _ _ x rest) by apply lookup_last.
    reflexivity.
  - apply lookup_last.
  - lia.
  - lia.
  - intros j Hj. split; [apply Hfail; lia|apply Hwait; lia].
Qed.

(** X26. When every allowed call of the task fails and the context is
    never done, [Execute] returns the zero value and a MultiError that
    holds the error of every call, in the order of the calls; it has
    run the task as often as the configuration says and waited between
    two calls, not after the last. *)
Theorem Execute_collects_failures :
  forall (h : Heap) (d : Z -> Duration),
    0 < Times config ->
    (forall j, 0 <= j < Times config -> snd (task j) <> None) ->
    (forall j, 0 <= j < Times config - 1 ->
               done j = false
               /\ backoffOf config (j + 1) = Ok (d (j + 1))) ->
    Execute config task done defaultResult h
    = Some (Ok (mkRun defaultResult
                  (Some (multiError (addr (List.length h))))
                  (h ++ [mkMultiError
                           (Some (errorsOf task 0
                                    (Z.to_nat (Times config))))])
                  (waitsOf d 0 (Z.to_nat (Times config - 1))))).
Proof. exact Execute_all_failures. Qed.

(** X27. When the context is done during the wait after call [k], a call
    that failed like those before it and was not the last one allowed,
    [Execute] stops: it returns the zero value and a MultiError that
    holds the errors of the calls made so far, and runs the task no
    more. *)
Theorem Execute_stops_when_done :
  forall (h : Heap) (d : Z -> Duration) (k : Z),
    0 <= k < Times config - 1 ->
    (forall j, 0 <= j <= k ->
               snd (task j) <> None
               /\ backoffOf config (j + 1) = Ok (d (j + 1))) ->
    (forall j, 0 <= j < k -> done j = false) ->
    done k = true ->
    Execute config task done defaultResult h
    = Some (Ok (mkRun defaultResult
                  (Some (multiError (addr (List.length h))))
                  (h ++ [mkMultiError
                           (Some (errorsOf task 0 (Z.to_nat (k + 1))))])
                  (waitsOf d 0 (Z.to_nat (k + 1))))).
Proof.
  intros h d k Hk Hfail Hrun Hdone. unfold Execute, alloc.
  rewrite (ExecuteLoop_failures d (List.length h) (Z.to_nat k) _ 0 _ [] []).
  - rewrite Z2Nat.id, Z.add_0_l by lia. cbn [app].
    destruct (Z.to_nat (Times config) - Z.to_nat k)%nat as [|fuel] eqn:E;
      [lia|].
    cbn [ExecuteLoop].
    replace (k <? Times config) with true by (symmetry; apply Z.ltb_lt; lia).
    destruct (Hfail k ltac:(lia)) as [Herr Hback].
    pose proof (errorsOf_snoc 0 (Z.to_nat k)) as Hsnoc.
    rewrite Z2Nat.id, Z.add_0_l in Hsnoc by lia.
    replace (S (Z.to_nat k)) with (Z.to_nat (k + 1)) in Hsnoc by lia.
    assert (Hw : waitsOf d 0 (Z.to_nat (k + 1))
                 = waitsOf d 0 (Z.to_nat k)
                     ++ [wrap64 (d (k + 1) * Millisecond)]).
    { replace (Z.to_nat (k + 1)) with (S (Z.to_nat k)) by lia.
      assert (G : forall n from,
                 waitsOf d from (S n)
                 = waitsOf d from n
                     ++ [wrap64 (d (from + Z.of_nat n + 1) * Millisecond)]).
      { induction n as [|n IHn]; intro from.
        - cbn [waitsOf Z.of_nat app]. rewrite Z.add_0_r. reflexivity.
        - change (waitsOf d from (S (S n)))
            with (wrap64 (d (from + 1) * Millisecond)
                    :: waitsOf d (from + 1) (S n)).
          rewrite IHn. cbn [waitsOf app].
          replace (from + 1 + Z.of_nat n + 1)
            with (from + Z.of_nat (S n) + 1) by lia.
          reflexivity. }
      rewrite G. rewrite Z2Nat.id, Z.add_0_l by lia. reflexivity. }
    destruct (task k) as [res err]. cbn [snd] in *.
    destruct err as [e|]; [|contradiction].
    rewrite store_last, lookup_last, collected_append, store_last.
    replace (k =? Times config - 1) with false
      by (symmetry; apply Z.eqb_neq; lia).
    unfold backoffOf in Hback. rewrite Hback, Hdone, <- Hsnoc, <- Hw.
    assert (Hne : exists x rest,
               errorsOf task 0 (Z.to_nat (k + 1)) = x :: rest).
    { destruct (errorsOf task 0 (Z.to_nat (k + 1))) as [|x rest] eqn:E1;
        [|eauto].
      apply (f_equal (@List.length _)) in E1. rewrite errorsOf_length in E1.
      cbn [List.length] in E1. lia. }
    destruct Hne as (x & rest & Hne). rewrite Hne.
    rewrite (ErrorOrNil_collected _ _ x rest) by apply lookup_last.
    reflexivity.
  - apply lookup_last.
  - lia.
  - lia.
  - intros j Hj. destruct (Hfail j ltac:(lia)) as [H1 H2].
    split; [exact H1|]. split; [apply Hrun; lia|exact H2].
Qed.

End Retrying.

(** ** The backoff and the waits *)

Section Backoff.
Import Multi retry RetryProps.

Lemma wrap64_small (z : Z) :
  - 9223372036854775808 <= z < 9223372036854775808 -> wrap64 z = z.
Proof.
  intro H. unfold wrap64.
  change (2 ^ 63) with 9223372036854775808.
  change (2 ^ 64) with 18446744073709551616.
  rewrite Z.mod_small by lia. lia.
Qed.

Lemma pow2_bounds (n m : Z) : 0 <= n <= m -> 1 <= 2 ^ n <= 2 ^ m.
Proof.
  intro H. split.
  - pose proof (Z.pow_pos_nonneg 2 n). lia.
  - apply Z.pow_le_mono_r; lia.
Qed.

Lemma backoff_seconds (n : Z) :
  0 <= n <= 33 -> ExponentialBackoff1sPower2 n = Ok (1000000000 * 2 ^ n).
Proof.
  intro H. unfold ExponentialBackoff1sPower2, shiftOne, Millisecond.
  replace (n <? 0) with false by (symmetry; apply Z.ltb_ge; lia).
  replace (64 <=? n) with false by (symmetry; apply Z.leb_gt; lia).
  cbn [bind]. pose proof (pow2_bounds n 33 H) as B.
  change (2 ^ 33) with 8589934592 in B.
  rewrite (wrap64_small (2 ^ n)) by lia.
  rewrite (wrap64_small (1000 * 2 ^ n)) by lia.
  rewrite wrap64_small by lia. f_equal. lia.
Qed.

(** X28. [ExponentialBackoff1sPower2] is one second doubled once per
    retry: for a retry count from 0 to 33 it returns two to that power
    seconds, counted in nanoseconds.  At 34 the count of nanoseconds no
    longer fits 64 bits and the result is negative; from 64 on the bit
    is shifted out and the result is zero; a negative count panics. *)
Theorem ExponentialBackoff1sPower2_doubles_seconds :
  (forall n, 0 <= n <= 33 ->
             ExponentialBackoff1sPower2 n = Ok (1000000000 * 2 ^ n))
  /\ (exists d, ExponentialBackoff1sPower2 34 = Ok d /\ d < 0)
  /\ (forall n, 64 <= n -> ExponentialBackoff1sPower2 n = Ok 0)
  /\ (forall n, n < 0 ->
                ExponentialBackoff1sPower2 n = Panic "negative shift amount").
Proof.
  split; [exact backoff_seconds|]. split; [|split].
  - eexists. split; [vm_compute; reflexivity|reflexivity].
  - intros n H. unfold ExponentialBackoff1sPower2, shiftOne.
    replace (n <? 0) with false by (symmetry; apply Z.ltb_ge; lia).
    replace (64 <=? n) with true by (symmetry; apply Z.leb_le; lia).
    reflexivity.
  - intros n H. unfold ExponentialBackoff1sPower2, shiftOne.
    replace (n <? 0) with true by (symmetry; apply Z.ltb_lt; lia).
    reflexivity.
Qed.

Lemma waitsOf_doubling (n : nat) :
  forall from,
    0 <= from -> from + Z.of_nat n <= 13 ->
    waitsOf (fun k => 1000000000 * 2 ^ k) from n
    = doubling 1000000000000000 (from + 1) n.
Proof.
  induction n as [|n IH]; intros from H0 H13; [reflexivity|].
  cbn [waitsOf doubling]. rewrite IH by lia. f_equal.
  pose proof (pow2_bounds (from + 1) 13 ltac:(lia)) as B.
  change (2 ^ 13) with 8192 in B. unfold Millisecond.
  rewrite wrap64_small by lia. lia.
Qed.

(** X29. The wait between two calls is a million times the backoff.
    [Execute] multiplies the duration that the backoff function returns
    by [time.Millisecond] once more before it hands it to [time.After]:
    with the backoff of [NewConfig], all calls failing and the context
    never done, the waits of a run of up to fourteen attempts are
    2, 4, 8, ... times ten to the fifteenth nanoseconds, where the
    backoff function returned 2, 4, 8, ... seconds. *)
Theorem Execute_waits_a_million_backoffs :
  forall (T : Type) (task : Z -> T * option error) (done : Z -> bool)
         (defaultResult : T) (h : Heap) (times : Z),
    0 < times <= 14 ->
    (forall j, 0 <= j < times -> snd (task j) <> None) ->
    (forall j, 0 <= j < times - 1 -> done j = false) ->
    exists run,
      Execute (NewConfig times) task done defaultResult h = Some (Ok run)
      /\ waits run = doubling 1000000000000000 1 (Z.to_nat (times - 1))
      /\ (forall j, 0 <= j < times - 1 ->
                    backoffOf (NewConfig times) (j + 1)
                    = Ok (1000000000 * 2 ^ (j + 1))).
Proof.
  intros T task done defaultResult h times Htimes Hfail Hrun.
  assert (Hback : forall j, 0 <= j < times - 1 ->
                            backoffOf (NewConfig times) (j + 1)
                            = Ok (1000000000 * 2 ^ (j + 1))).
  { intros j Hj. unfold backoffOf, NewConfig. cbn [ExponentialBackoff].
    apply backoff_seconds. lia. }
  eexists. split.
  - apply (Execute_all_failures (NewConfig times) task done defaultResult h
             (fun k => 1000000000 * 2 ^ k)).
    + cbn [NewConfig Times]. lia.
    + exact Hfail.
    + intros j Hj. cbn [NewConfig Times] in Hj.
      split; [apply Hrun; exact Hj|apply Hback; exact Hj].
  - split; [|exact Hback]. cbn [waits NewConfig Times].
    apply waitsOf_doubling; lia.
Qed.

Lemma Execute_waits_a_million_backoffs_witness :
  exists run,
    Execute (NewConfig 3) failing (fun _ => false) 0 [] = Some (Ok run)
    /\ waits run = doubling 1000000000000000 1 (Z.to_nat (3 - 1))
    /\ (forall j, 0 <= j < 3 - 1 ->
                  backoffOf (NewConfig 3) (j + 1)
                  = Ok (1000000000 * 2 ^ (j + 1))).
Proof.
  apply (Execute_waits_a_million_backoffs Z failing (fun _ => false) 0 [] 3).
  - lia.
  - intros j _. discriminate.
  - intros j _. reflexivity.
Defined.

Lemma Execute_without_attempts_witness :
  Execute (NewConfig 0) failing (fun _ => false) 0 []
  = Some (Ok (mkRun 0 None ([] ++ [mkMultiError None]) [])).
Proof.
  apply (@Execute_without_attempts Z (NewConfig 0) failing (fun _ => false)
           0 []).
  cbn. lia.
Defined.

Lemma Execute_first_success_witness :
  Execute (NewConfig 5) thirdTime (fun _ => false) 0 []
  = Some (Ok (mkRun (fst (thirdTime 2)) None
                ([] ++ [collected (errorsOf thirdTime 0 (Z.to_nat 2))])
                (waitsOf (fun k => 1000000000 * 2 ^ k) 0 (Z.to_nat 2)))).
Proof.
  apply (@Execute_first_success Z (NewConfig 5) thirdTime (fun _ => false)
           0 [] (fun k => 1000000000 * 2 ^ k) 2).
  - cbn. lia.
  - intros j Hj. split; [|split].
    + assert (j = 0 \/ j = 1) as [-> | ->] by lia; discriminate.
    + reflexivity.
    + unfold backoffOf, NewConfig. cbn [ExponentialBackoff].
      apply backoff_seconds. lia.
  - reflexivity.
Defined.

Lemma Execute_collects_failures_witness :
  Execute (NewConfig 3) failing (fun _ => false) 0 []
  = Some (Ok (mkRun 0 (Some (multiError (addr (List.length (@nil MultiError)))))
                ([] ++ [mkMultiError
                          (Some (errorsOf failing 0
                                   (Z.to_nat (Times (NewConfig 3)))))])
                (waitsOf (fun k => 1000000000 * 2 ^ k) 0
                   (Z.to_nat (Times (NewConfig 3) - 1))))).
Proof.
  apply (@Execute_collects_failures Z (NewConfig 3) failing (fun _ => false)
           0 [] (fun k => 1000000000 * 2 ^ k)).
  - cbn. lia.
  - intros j _. discriminate.
  - intros j Hj. cbn [NewConfig Times] in Hj. split; [reflexivity|].
    unfold backoffOf, NewConfig. cbn [ExponentialBackoff].
    apply backoff_seconds. lia.
Defined.

Lemma Execute_stops_when_done_witness :
  Execute (NewConfig 5) failing (fun j => j =? 1) 0 []
  = Some (Ok (mkRun 0 (Some (multiError (addr (List.length (@nil MultiError)))))
                ([] ++ [mkMultiError
                          (Some (errorsOf failing 0 (Z.to_nat (1 + 1))))])
                (waitsOf (fun k => 1000000000 * 2 ^ k) 0 (Z.to_nat (1 + 1))))).
Proof.
  apply (@Execute_stops_when_done Z (NewConfig 5) failing (fun j => j =? 1)
           0 [] (fun k => 1000000000 * 2 ^ k) 1).
  - cbn. lia.
  - intros j Hj. split; [discriminate|].
    unfold backoffOf, NewConfig. cbn [ExponentialBackoff].
    apply backoff_seconds. lia.
  - intros j Hj. assert (j = 0) as -> by lia. reflexivity.
  - reflexivity.
Defined.

End Backoff.

(** ** The symbol parser on a dotted last path element *)

Section DottedElement.
Import strings FuncName NameProps.

Ltac bytes :=
  change (str ".") with ["."%char] in *;
  change (str "/") with ["/"%char] in *;
  change (str "[") with ["["%char] in *;
  change (str "]") with ["]"%char] in *;
  change (str "(") with ["("%char] in *;
  change (str ")") with [")"%char] in *;
  change (str "*") with ["*"%char] in *.

Ltac reassoc := repeat first [rewrite <- app_assoc | progress cbn [app]].

Lemma HasSuffix_app (a suffix : gostring) : HasSuffix (a ++ suffix) suffix = true.
Proof.
  unfold HasSuffix. rewrite len_app.
  replace (len suffix <=? len a + len suffix) with true
    by (symmetry; apply Z.leb_le; pose proof (len_nonneg a); lia).
  rewrite length_app.
  replace (List.length a + List.length suffix - List.length suffix)%nat
    with (List.length a + 0)%nat by lia.
  rewrite skipn_app, skipn_all2 by lia.
  replace (List.length a + 0 - List.length a)%nat with 0%nat by lia.
  cbn [skipn app]. apply gostring_eqb_eq. reflexivity.
Qed.

Lemma TrimSuffix_app (a suffix : gostring) : TrimSuffix (a ++ suffix) suffix = a.
Proof.
  unfold TrimSuffix. rewrite HasSuffix_app, length_app.
  replace (List.length a + List.length suffix - List.length suffix)%nat
    with (List.length a + 0)%nat by lia.
  rewrite firstn_app, firstn_all2 by lia.
  replace (List.length a + 0 - List.length a)%nat with 0%nat by lia.
  cbn [firstn]. apply app_nil_r.
Qed.

Lemma parseType_receiver_dotted (sepIdx : Z) (d base seg recv tail : gostring)
    (r : Parsed) :
  ~ In "."%char d -> ~ In "."%char base -> ~ In "/"%char base ->
  ~ In "."%char seg -> ~ In "/"%char seg ->
  ~ In "("%char recv ->
  let pkg := (d ++ "/"%char :: base) ++ "."%char :: seg in
  parseType sepIdx (len (pkg ++ "."%char :: "("%char :: recv ++ [")"%char]))
            ((pkg ++ "."%char :: "("%char :: recv ++ [")"%char]) ++ tail) r
  = parseRecvGeneric sepIdx true recv
      (set_notice
         (notice r ++ str ",qualifier (struct or pkg level func) " ++ seg
            ++ [ascii_of_nat 10])
         (set_pkgPath (d ++ "/"%char :: base) r)).
Proof.
  intros Hd Hb1 Hb2 Hs1 Hs2 Hrecv pkg.
  assert (Hpkg : pkg = dotted [d ++ "/"%char :: base; seg]) by reflexivity.
  assert (Hdots : Forall (fun l => ~ In "."%char l)
                         [d ++ "/"%char :: base; seg]).
  { repeat constructor; [|exact Hs1].
    intro Hin. apply in_app_or in Hin as [Hin|[Hin|Hin]];
      [contradiction|discriminate|contradiction]. }
  unfold parseType. rewrite slice_to_app. cbn [bind]. bytes.
  remember (pkg ++ "."%char :: "("%char :: recv ++ [")"%char]) as X eqn:HX.
  pose proof (len_nonneg pkg).
  assert (HS : HasSuffix X [")"%char] = true).
  { rewrite HX.
    replace (pkg ++ "."%char :: "("%char :: recv ++ [")"%char])
      with ((pkg ++ "."%char :: "("%char :: recv) ++ [")"%char])
      by (reassoc; reflexivity).
    apply HasSuffix_byte_last. }
  assert (HX' : X = (pkg ++ ["."%char]) ++ "("%char :: recv ++ [")"%char])
    by (rewrite HX; reassoc; reflexivity).
  assert (HL : LastIndex X ["("%char] = len pkg + 1).
  { rewrite HX', LastIndex_byte_found.
    - rewrite len_app. reflexivity.
    - intro Hin. apply in_app_or in Hin as [Hin|[Hin|[]]];
        [contradiction|discriminate]. }
  assert (HR : slice X (len pkg + 1 + 1) (len X - 1) = Ok recv).
  { pose proof (slice_bracket (pkg ++ ["."%char]) recv "(" ")") as H1.
    rewrite <- HX', len_app in H1. exact H1. }
  assert (HA : at_ X (len pkg + 1 - 1) = Ok "."%char).
  { replace (len pkg + 1 - 1) with (len pkg) by lia.
    rewrite HX. apply at_app. }
  assert (HP : slice_to X (len pkg + 1 - 1) = Ok pkg).
  { replace (len pkg + 1 - 1) with (len pkg) by lia.
    rewrite HX. apply slice_to_app. }
  rewrite HS, HL.
  replace (len pkg + 1 <? 0) with false by (symmetry; apply Z.ltb_ge; lia).
  rewrite HR. cbn [bind]. rewrite HA. cbn [bind].
  change (negb (byte_eqb "." ".")) with false. cbv iota.
  rewrite HP. cbn [bind]. cbv zeta.
  assert (C1 : Contains pkg ["/"%char] = true).
  { apply Contains_byte_present. unfold pkg.
    apply in_or_app. left. apply in_or_app. right. left. reflexivity. }
  assert (C2 : LastIndex pkg ["/"%char] = len d).
  { unfold pkg.
    replace ((d ++ "/"%char :: base) ++ "."%char :: seg)
      with (d ++ "/"%char :: (base ++ "."%char :: seg))
      by (reassoc; reflexivity).
    apply LastIndex_byte_found. intro Hin.
    apply in_app_or in Hin as [Hin|[Hin|Hin]];
      [contradiction|discriminate|contradiction]. }
  assert (C3 : slice_from pkg (len d + 1) = Ok (base ++ "."%char :: seg)).
  { unfold pkg.
    replace ((d ++ "/"%char :: base) ++ "."%char :: seg)
      with (d ++ "/"%char :: (base ++ "."%char :: seg))
      by (reassoc; reflexivity).
    apply slice_from_after. }
  assert (C4 : Contains (base ++ "."%char :: seg) ["."%char] = true).
  { apply Contains_byte_present. apply in_or_app. right. left. reflexivity. }
  assert (C5 : Split pkg ["."%char] = [d ++ "/"%char :: base; seg]).
  { rewrite Hpkg. apply (Split_dotted _ [seg]). exact Hdots. }
  assert (C6 : TrimSuffix pkg (["."%char] ++ seg) = d ++ "/"%char :: base).
  { unfold pkg. apply (TrimSuffix_app (d ++ "/"%char :: base)). }
  rewrite C1, C2, C3. cbn [bind]. rewrite C4, C5.
  cbn [List.length Z.of_nat Pos.of_succ_nat Pos.succ Z.eqb Pos.eqb nth bind].
  rewrite C6. reflexivity.
Qed.

(** X30. A dot in the last element of the package path.  For a method
    with a parenthesized receiver whose package path holds a slash and
    exactly one dot, the dot standing in the last path element, as in
    [dir/base.seg], the parser takes [seg] for a calling function: the
    package path returned is [dir/base], and the notice names [seg].
    The receiver type, the pointer flag and the method name are
    returned as usual. *)
Theorem parse_dotted_last_element :
  forall (d base seg T fn : gostring) (pointer : bool),
    ~ In "."%char d -> ~ In "."%char base -> ~ In "/"%char base ->
    ~ In "."%char seg -> ~ In "/"%char seg ->
    ~ In "("%char T -> ~ In "]"%char T -> ~ In "*"%char T ->
    ~ In "."%char fn -> ~ In "]"%char fn ->
    isAnonymousFuncName fn = Ok false ->
    parseFuncName (d ++ str "/" ++ base ++ str "." ++ seg ++ str ".("
                     ++ (if pointer then str "*" else []) ++ T
                     ++ str ")." ++ fn)
    = Ok (mkParsed (d ++ str "/" ++ base) T pointer [] [] fn
            (str ",qualifier (struct or pkg level func) " ++ seg
               ++ [ascii_of_nat 10])).
Proof.
  intros d base seg T fn pointer Hd Hb1 Hb2 Hs1 Hs2 HT1 HT2 HT3 Hf1 Hf2 Hanon.
  set (recv := (if pointer then str "*" else []) ++ T).
  assert (Hrecv1 : ~ In "("%char recv).
  { unfold recv. destruct pointer; cbn [app str list_ascii_of_string];
      [intros [H|H]; [discriminate|contradiction]|assumption]. }
  assert (Hrecv2 : HasSuffix recv "]" = false).
  { bytes. apply HasSuffix_byte_absent. unfold recv.
    destruct pointer; cbn [app str list_ascii_of_string];
      [intros [H|H]; [discriminate|contradiction]|assumption]. }
  replace (d ++ str "/" ++ base ++ str "." ++ seg ++ str ".("
             ++ (if pointer then str "*" else []) ++ T ++ str ")." ++ fn)
    with (((((d ++ "/"%char :: base) ++ "."%char :: seg)
              ++ "."%char :: "("%char :: recv ++ [")"%char]))
            ++ "."%char :: fn)
    by (unfold recv; destruct pointer; cbv [str list_ascii_of_string];
        reassoc; reflexivity).
  unfold parseFuncName. cbv zeta. bytes.
  rewrite (HasSuffix_byte_after _ fn "]" ".") by (discriminate || assumption).
  rewrite parseName_named by assumption.
  rewrite (parseType_receiver_dotted _ d base seg recv) by assumption.
  rewrite parseRecvGeneric_plain by assumption. cbn [negb].
  unfold recv. destruct pointer.
  - cbn [app]. rewrite finish_pointer. reflexivity.
  - cbn [app]. rewrite finish_value by assumption. reflexivity.
Qed.

Lemma parse_dotted_last_element_witness :
  parseFuncName (str "a" ++ str "/" ++ str "b" ++ str "." ++ str "1"
                   ++ str ".(" ++ (if true then str "*" else [])
                   ++ str "File" ++ str ")." ++ str "Read")
  = Ok (mkParsed (str "a" ++ str "/" ++ str "b") (str "File") true [] []
          (str "Read")
          (str ",qualifier (struct or pkg level func) " ++ str "1"
             ++ [ascii_of_nat 10])).
Proof.
  apply (parse_dotted_last_element (str "a") (str "b") (str "1")
           (str "File") (str "Read") true).
  - intro H; repeat destruct H as [H|H]; try discriminate H; exact H.
  - intro H; repeat destruct H as [H|H]; try discriminate H; exact H.
  - intro H; repeat destruct H as [H|H]; try discriminate H; exact H.
  - intro H; repeat destruct H as [H|H]; try discriminate H; exact H.
  - intro H; repeat destruct H as [H|H]; try discriminate H; exact H.
  - intro H; repeat destruct H as [H|H]; try discriminate H; exact H.
  - intro H; repeat destruct H as [H|H]; try discriminate H; exact H.
  - intro H; repeat destruct H as [H|H]; try discriminate H; exact H.
  - intro H; repeat destruct H as [H|H]; try discriminate H; exact H.
  - intro H; repeat destruct H as [H|H]; try discriminate H; exact H.
  - reflexivity.
Defined.

End DottedElement.

(** ** The location in the record and in the formatted outputs *)

Section Locations.
Import runtime Meta Props.

Lemma rendered_text (rt : Env) (obj : MetaError) :
  rendered rt obj = stackText rt (stackTrace obj).
Proof.
  unfold rendered, stackText. destruct (stackTrace obj) as [|pc pcs];
    [reflexivity|].
  destruct (CallersFrames rt (pc :: pcs)) as [|frame frames]; [reflexivity|].
  apply renderFrames_concat.
Qed.

Lemma Format_plain_text (rt : Env) (l : nat) (s : Store) (obj : MetaError)
    (msg : gostring) :
  lookup (heap s) l = Some obj ->
  asCSV obj = false ->
  match Err obj with
  | None => msg = str "<nil>"
  | Some e => errorOf (heap s) e = Ok msg
  end ->
  let line :=
    [ascii_of_nat 10; ascii_of_nat 9] ++ str "at " ++ File obj ++ str ":"
      ++ strconv.Itoa (Line obj) ++ str " (" ++ Func obj
      ++ str ") [package: " ++ Package obj ++ str "]" in
  (forall plus,
      Format rt (addr l) plus (byteval "s") s = Ok (msg ++ line, s))
  /\ Format rt (addr l) false (byteval "v") s = Ok (msg ++ line, s)
  /\ (exists s1,
        StackTrace rt (addr l) s = Ok (stackText rt (stackTrace obj), s1)
        /\ Format rt (addr l) true (byteval "v") s
           = Ok (msg ++ line ++ stackText rt (stackTrace obj), s1))
  /\ (forall plus verb,
        verb <> byteval "v" -> verb <> byteval "s" ->
        verb <> byteval "q" ->
        Format rt (addr l) plus verb s = Ok ([], s)).
Proof.
  intros Hl Hcsv Hmsg line.
  assert (Hhead :
            (match Err obj with
             | Some _ => callError s (Err obj)
             | None => Ok (str "<nil>")
             end) = Ok msg).
  { destruct (Err obj) as [e|]; [exact Hmsg|rewrite Hmsg; reflexivity]. }
  assert (Hfmt : forall plus verb,
             Format rt (addr l) plus verb s
             = if (verb =? byteval "v") && plus then
                 st <- StackTrace rt (addr l) s ;;
                 Ok (msg ++ line ++ fst st, snd st)
               else if (verb =? byteval "v") || (verb =? byteval "s") then
                 Ok (msg ++ line, s)
               else if verb =? byteval "q" then
                 Ok (Quote rt msg ++ line, s)
               else Ok ([], s)).
  { intros plus verb. unfold Format, deref. rewrite Hl. cbn [bind].
    rewrite Hcsv, Hhead. reflexivity. }
  split; [|split; [|split]].
  - intro plus. rewrite Hfmt. reflexivity.
  - rewrite Hfmt. reflexivity.
  - eexists. rewrite <- rendered_text.
    split; [apply StackTrace_spec; exact Hl|].
    rewrite Hfmt, (StackTrace_spec rt l s obj Hl). reflexivity.
  - intros plus verb Hv Hs Hq. rewrite Hfmt.
    apply Z.eqb_neq in Hv, Hs, Hq. rewrite Hv, Hs, Hq. reflexivity.
Qed.

Lemma Format_compact_text (rt : Env) (l : nat) (s : Store) (obj : MetaError)
    (e : error) (msg : gostring) :
  lookup (heap s) l = Some obj ->
  asCSV obj = true ->
  Err obj = Some e ->
  errorOf (heap s) e = Ok msg ->
  let rec :=
    trim.TrimSpace
      (csv.Write [msg; File obj; strconv.Itoa (Line obj); Func obj;
                  Package obj]) in
  ToCSV (addr l) s = Ok rec
  /\ (forall plus verb,
        (verb =? byteval "v") && plus = false ->
        Format rt (addr l) plus verb s = Ok (rec, s))
  /\ (exists s1,
        Format rt (addr l) true (byteval "v") s
        = Ok (rec ++ str "|" ++ stackText rt (stackTrace obj) ++ rec, s1)).
Proof.
  intros Hl Hcsv He Hmsg rec.
  assert (Hrec : ToCSV (addr l) s = Ok rec).
  { unfold ToCSV, deref. rewrite Hl. cbn [bind]. unfold callError.
    rewrite He, Hmsg. reflexivity. }
  split; [exact Hrec|]. split.
  - intros plus verb Hverb. unfold Format. unfold deref at 1.
    rewrite Hl. cbn [bind]. rewrite Hcsv.
    destruct (verb =? byteval "v") eqn:Ev.
    + cbn [andb] in Hverb. subst plus. cbn [bind fst snd]. rewrite Hrec.
      reflexivity.
    + rewrite Hrec. reflexivity.
  - pose proof (StackTrace_spec rt l s obj Hl) as Hst.
    eexists. unfold Format. unfold deref at 1. rewrite Hl. cbn [bind].
    rewrite Hcsv. change (byteval "v" =? byteval "v") with true. cbv iota.
    rewrite Hrec. cbn [bind]. rewrite Hst. cbn [bind fst snd].
    rewrite (ToCSV_after_StackTrace rt l s obj Hl _ _ Hst), Hrec.
    cbn [bind]. rewrite rendered_text, <- !app_assoc. reflexivity.
Qed.



(** C10, amended. The constructor stores in [File] the base name of the
    path that [runtime.Caller] reports ([unknown] when the lookup
    fails): the directory part is stripped, so that the field holds no
    separator, unless it is the lone separator that stands for a path
    made of separators only.  That base name is what the outputs carry
    as the location.  The record of [ToCSV] is written from the message,
    the base name, the line, the function and the package, and read
    back field by field it has the base name as its second field.
    Outside compact mode the verbs [s] and [v] write the message, or
    the usual text of the nil error, and the text
    [at base:line (Func) [package: Package]].  In compact mode the
    verbs write the record.  The verb [v] with the plus flag adds the
    frames of the captured stack, and these carry the file of each frame
    as the runtime reports it, directory included. *)
Theorem constructor_stores_base_name :
  forall rt err skip captureStack asCSV s,
  exists p s' obj,
    NewMetaErrorOptions rt err skip captureStack asCSV s = Ok (p, s')
    /\ deref s' p = Ok obj
    /\ File obj = filepath.Base (reportedFile rt skip)
    /\ (File obj = str "/" \/ ~ In "/"%char (File obj))
    /\ (forall e msg,
          err = Some e -> errorOf (heap s) e = Ok msg ->
          let base := filepath.Base (reportedFile rt skip) in
          let number := strconv.Itoa (reportedLine rt skip) in
          let rec :=
            trim.TrimSpace
              (csv.Write [msg; base; number; Func obj; Package obj]) in
          let stack := stackText rt (stackTrace obj) in
          ToCSV p s' = Ok rec
          /\ (noCRLF msg = true -> noCRLF base = true ->
              noCRLF (Func obj) = true -> noCRLF (Package obj) = true ->
              csv.fieldNeedsQuotes (Package obj) = true
              \/ endsInSpace (Package obj) = false ->
              csv.readRecord (csv.fuelFor rec) 5 rec
              = Some ([msg; base; number; Func obj; Package obj], None))
          /\ (asCSV = true ->
              (forall plus verb,
                  (verb =? byteval "v") && plus = false ->
                  Format rt p plus verb s' = Ok (rec, s'))
              /\ exists s1,
                   Format rt p true (byteval "v") s'
                   = Ok (rec ++ str "|" ++ stack ++ rec, s1)))
    /\ (forall msg,
          asCSV = false ->
          match err with
          | None => msg = str "<nil>"
          | Some e => errorOf (heap s) e = Ok msg
          end ->
          let base := filepath.Base (reportedFile rt skip) in
          let number := strconv.Itoa (reportedLine rt skip) in
          let line :=
            [ascii_of_nat 10; ascii_of_nat 9] ++ str "at " ++ base ++ str ":"
              ++ number ++ str " (" ++ Func obj ++ str ") [package: "
              ++ Package obj ++ str "]" in
          let stack := stackText rt (stackTrace obj) in
          (forall plus,
              Format rt p plus (byteval "s") s' = Ok (msg ++ line, s'))
          /\ Format rt p false (byteval "v") s' = Ok (msg ++ line, s')
          /\ exists s1,
               Format rt p true (byteval "v") s'
               = Ok (msg ++ line ++ stack, s1)).
Proof.
  intros rt err skip captureStack asCSV s.
  destruct (NewMetaErrorOptions_spec rt err skip captureStack asCSV s)
    as (fn & pkg & pcs & Hnew & _).
  rewrite Hnew. unfold alloc.
  set (obj := mkMetaError err (filepath.Base (reportedFile rt skip))
                (reportedLine rt skip) fn pkg pcs [] asCSV).
  set (s' := mkStore (obj :: heap s) (writes s)).
  assert (Hl : lookup (heap s') (List.length (heap s)) = Some obj).
  { cbn [s' heap lookup]. rewrite Nat.eqb_refl. reflexivity. }
  exists (addr (List.length (heap s))), s', obj.
  split; [reflexivity|].
  split; [unfold deref; rewrite Hl; reflexivity|].
  split; [reflexivity|].
  split; [cbn [obj File]; apply Base_no_separator|].
  split.
  - intros e msg He Hmsg.
    set (base := filepath.Base (reportedFile rt skip)).
    set (number := strconv.Itoa (reportedLine rt skip)).
    set (rec := trim.TrimSpace
                  (csv.Write [msg; base; number; Func obj; Package obj])).
    assert (Hmsg' : errorOf (heap s') e = Ok msg)
      by (cbn [s' heap]; apply errorOf_alloc; exact Hmsg).
    assert (Hrec : ToCSV (addr (List.length (heap s))) s' = Ok rec).
    { unfold ToCSV, deref. rewrite Hl. cbn [bind]. unfold callError.
      cbn [obj Err]. rewrite He, Hmsg'. reflexivity. }
    split; [exact Hrec|]. split.
    + intros Hm Hb Hf Hp Hlast.
      destruct (read_trimmed_record msg base [number; Func obj; Package obj])
        as [_ Hread].
      * repeat constructor; auto. apply noCRLF_Itoa.
      * exact Hlast.
      * exact Hread.
    + intros ->.
      destruct (Format_compact_text rt _ s' obj e msg Hl eq_refl
                  ltac:(cbn [obj Err]; exact He) Hmsg') as (_ & H1 & H2).
      split; [exact H1|exact H2].
  - intros msg -> Hmsg.
    assert (Hmsg' : match Err obj with
                    | None => msg = str "<nil>"
                    | Some e => errorOf (heap s') e = Ok msg
                    end).
    { cbn [obj Err]. destruct err as [e|]; [|exact Hmsg].
      cbn [s' heap]. apply errorOf_alloc. exact Hmsg. }
    destruct (Format_plain_text rt _ s' obj msg Hl eq_refl Hmsg')
      as (H1 & H2 & (s1 & _ & H3) & _).
    split; [exact H1|]. split; [exact H2|]. exists s1. exact H3.
Qed.

Lemma constructor_stores_base_name_witness :
  exists p s' obj,
    NewMetaErrorOptions Samples.env Samples.boom 1 true false emptyStore
    = Ok (p, s')
    /\ deref s' p = Ok obj
    /\ File obj = str "main.go"
    /\ ToCSV p s'
       = Ok (trim.TrimSpace
               (csv.Write [str "boom"; str "main.go"; str "10"; Func obj;
                           Package obj]))
    /\ Format Samples.env p false (byteval "v") s'
       = Ok (str "boom" ++ [ascii_of_nat 10; ascii_of_nat 9]
               ++ str "at " ++ str "main.go" ++ str ":" ++ str "10" ++ str " ("
               ++ Func obj ++ str ") [package: " ++ Package obj ++ str "]",
             s').
Proof.
  destruct (constructor_stores_base_name Samples.env Samples.boom 1 true false
              emptyStore) as (p & s' & obj & H1 & H2 & H3 & _ & H5 & H6).
  destruct (H5 (errorString (str "boom")) (str "boom") eq_refl eq_refl)
    as (H7 & _).
  destruct (H6 (str "boom") eq_refl eq_refl) as (_ & H8 & _).
  exists p, s', obj. split; [exact H1|]. split; [exact H2|].
  split; [exact H3|]. split; [exact H7|exact H8].
Defined.

End Locations.

(** ** Decoding: the first record decides *)

Section FirstRecord.
Import Meta Props.

Lemma piped_cons (f g : gostring) (rest : list gostring) :
  piped (f :: g :: rest) = f ++ csv.Comma :: piped (g :: rest).
Proof. reflexivity. Qed.

Lemma piped_without (c : ascii) (fields : list gostring) :
  c <> csv.Comma ->
  Forall (fun f => ~ In c f) fields -> ~ In c (piped fields).
Proof.
  intros Hc H. induction H as [|f fields Hf Hrest IH]; [intros []|].
  destruct fields as [|g fields]; [exact Hf|].
  rewrite piped_cons. intro Hin. apply in_app_or in Hin as [Hin|[Hin|Hin]].
  - exact (Hf Hin).
  - apply Hc. symmetry. exact Hin.
  - exact (IH Hin).
Qed.

Lemma piped_length (f : gostring) (rest : list gostring) :
  (List.length rest <= List.length (piped (f :: rest)))%nat.
Proof.
  revert f. induction rest as [|g rest IH]; intro f; [cbn; lia|].
  rewrite piped_cons, length_app. cbn [List.length].
  specialize (IH g). lia.
Qed.

Lemma starts_unquoted (line : gostring) :
  line = [] \/ (exists c t, line = c :: t /\ c <> csv.quote) ->
  (len line =? 0) || negb (byteAt line 0 =? byteval csv.quote) = true.
Proof.
  intros [->|(c & t & -> & Hc)]; [reflexivity|].
  rewrite byteAt_0, byteval_eqb.
  replace (byte_eqb c csv.quote) with false
    by (symmetry; apply byte_eqb_neq; exact Hc).
  apply orb_true_r.
Qed.

Lemma plain_head (f tail : gostring) (d : ascii) :
  ~ In csv.quote f -> d <> csv.quote ->
  tail = [] \/ (exists t, tail = d :: t) ->
  f ++ tail = []
  \/ exists c t, f ++ tail = c :: t /\ c <> csv.quote.
Proof.
  intros Hq Hd Htail. destruct f as [|c f].
  - destruct Htail as [->|[t ->]]; [left; reflexivity|].
    right. exists d, t. split; [reflexivity|exact Hd].
  - right. exists c, (f ++ tail). split; [reflexivity|].
    intros ->. apply Hq. left. reflexivity.
Qed.

Lemma lengthNL_newline (a : gostring) : csv.lengthNL (a ++ [csv.LF]) = 1.
Proof.
  unfold csv.lengthNL. rewrite len_app. change (len [csv.LF]) with 1.
  pose proof (len_nonneg a).
  replace (0 <? len a + 1) with true by (symmetry; apply Z.ltb_lt; lia).
  replace (len a + 1 - 1) with (len a + 0) by lia.
  rewrite byteAt_app_right by lia. rewrite byteAt_0, Z.eqb_refl. reflexivity.
Qed.

(** The reader, at the start of a field, on a line of plain fields. *)
Lemma parseField_plain (rest : list gostring) :
  forall (f : gostring) (fields : list gostring) (fuel : nat) (eof : bool)
         (input tail : gostring),
    Forall plainField (f :: rest) ->
    tail = [] \/ tail = [csv.LF] ->
    (List.length rest < fuel)%nat ->
    csv.parseField fuel (piped (f :: rest) ++ tail) eof input fields
    = Some (fields ++ f :: rest, None, eof).
Proof.
  induction rest as [|g rest IH];
    intros f fields fuel eof input tail Hplain Htail Hfuel;
    (destruct fuel as [|fuel]; [cbn [List.length] in Hfuel; lia|]);
    inversion Hplain as [|? ? (HfC & HfQ & HfR & HfL) Hrest]; subst.
  - cbn [piped]. rewrite parseField_unfold.
    rewrite starts_unquoted
      by (apply (plain_head f tail csv.LF);
          [exact HfQ|discriminate
          |destruct Htail as [-> | ->]; [left; reflexivity|right; eauto]]).
    cbv zeta.
    assert (HnC : ~ In csv.Comma (f ++ tail)).
    { intro Hin. apply in_app_or in Hin as [Hin|Hin]; [exact (HfC Hin)|].
      destruct Htail as [-> | ->]; [destruct Hin|].
      destruct Hin as [Hin|[]]. discriminate Hin. }
    rewrite (IndexByte_missing _ _ HnC).
    change (0 <=? -1) with false. cbv iota.
    assert (Hfield : sub (f ++ tail) 0
                         (len (f ++ tail) - csv.lengthNL (f ++ tail)) = f).
    { destruct Htail as [-> | ->].
      - rewrite app_nil_r, lengthNL_no_newline by exact HfL.
        rewrite Z.sub_0_r. apply sub_all.
      - rewrite lengthNL_newline, len_app. change (len [csv.LF]) with 1.
        replace (len f + 1 - 1) with (len f) by lia. apply sub_app_left. }
    rewrite Hfield, (IndexByte_missing f _ HfQ).
    change (0 <=? -1) with false. cbv iota. reflexivity.
  - rewrite piped_cons. rewrite <- app_assoc. cbn [app].
    rewrite parseField_unfold.
    rewrite starts_unquoted
      by (apply (plain_head f (csv.Comma :: piped (g :: rest) ++ tail)
                   csv.Comma);
          [exact HfQ|discriminate|right; eauto]).
    cbv zeta. rewrite (IndexByte_found f _ csv.Comma HfC).
    pose proof (len_nonneg f).
    replace (0 <=? len f) with true by (symmetry; apply Z.leb_le; lia).
    cbv iota. rewrite sub_app_left, (IndexByte_missing f _ HfQ).
    change (0 <=? -1) with false. cbv iota.
    rewrite sub_after.
    rewrite (IH g (fields ++ [f]) fuel eof input tail Hrest Htail)
      by (cbn [List.length] in Hfuel; lia).
    rewrite <- app_assoc. reflexivity.
Qed.

Lemma last_not_CR (text : gostring) :
  text <> [] -> ~ In csv.CR text -> last text zero <> csv.CR.
Proof.
  intros Hne Hn E. apply Hn. rewrite <- E. apply last_in. exact Hne.
Qed.

(** The reader on a first line of plain fields, whatever follows it. *)
Lemma readRecord_plain (f : gostring) (rest : list gostring)
    (more : gostring) (fuel : nat) (n : Z) :
  Forall plainField (f :: rest) ->
  piped (f :: rest) <> [] ->
  more = [] \/ (exists after, more = csv.LF :: after) ->
  (List.length rest < fuel)%nat ->
  csv.readRecord fuel n (piped (f :: rest) ++ more)
  = Some (f :: rest,
          if negb (Z.of_nat (List.length (f :: rest)) =? n)
          then Some csv.ErrFieldCount else None).
Proof.
  intros Hplain Hne Hmore Hfuel.
  set (P := piped (f :: rest)) in *.
  assert (HnL : ~ In csv.LF P).
  { apply piped_without; [discriminate|].
    eapply Forall_impl; [|exact Hplain]. intros x Hx. apply Hx. }
  assert (HnR : ~ In csv.CR P).
  { apply piped_without; [discriminate|].
    eapply Forall_impl; [|exact Hplain]. intros x Hx. apply Hx. }
  assert (Hlen : 0 < len P).
  { destruct P as [|c P']; [contradiction|].
    rewrite len_cons. pose proof (len_nonneg P'). lia. }
  destruct fuel as [|fuel]; [lia|].
  unfold csv.readRecord. cbn [csv.firstLine].
  destruct Hmore as [->|[after ->]].
  - rewrite app_nil_r.
    rewrite readLine_no_newline
      by (try exact Hne; try exact HnL; apply last_not_CR; assumption).
    rewrite lengthNL_no_newline by exact HnL.
    replace (len P =? 0) with false by (symmetry; apply Z.eqb_neq; lia).
    cbn [negb andb].
    rewrite <- (app_nil_r P) at 1. unfold P.
    rewrite parseField_plain; [reflexivity|exact Hplain|left; reflexivity|lia].
  - rewrite readLine_newline
      by (try exact HnL; right; apply last_not_CR; assumption).
    rewrite lengthNL_newline, len_app. change (len [csv.LF]) with 1.
    replace (len P + 1 =? 1) with false by (symmetry; apply Z.eqb_neq; lia).
    cbn [negb andb]. unfold P.
    rewrite parseField_plain;
      [reflexivity|exact Hplain|right; reflexivity|lia].
Qed.

Lemma fuelFor_enough (f : gostring) (rest : list gostring) (more : gostring) :
  (List.length rest < csv.fuelFor (piped (f :: rest) ++ more))%nat.
Proof.
  unfold csv.fuelFor. rewrite length_app.
  pose proof (piped_length f rest). lia.
Qed.

Lemma piped_five (m f t fn p : gostring) : piped [m; f; t; fn; p] <> [].
Proof.
  cbn [piped]. intro E. apply (f_equal (@List.length _)) in E.
  rewrite length_app in E. cbn [List.length] in E. lia.
Qed.

Lemma Itoa_plain (n : Z) : plainField (strconv.Itoa n).
Proof.
  assert (H : forall c, In c (strconv.Itoa n) ->
                        c = "-"%char \/ strconv.isDigit c = true).
  { intros c. unfold strconv.Itoa. destruct (n <? 0) eqn:E.
    - apply Z.ltb_lt in E.
      destruct (formatUint_shape (- n)) as (d & rest & -> & Hd); [lia|].
      intros [<-|Hin]; [left; reflexivity|right].
      rewrite forallb_forall in Hd. apply Hd. exact Hin.
    - apply Z.ltb_ge in E.
      destruct (formatUint_shape n) as (d & rest & -> & Hd); [lia|].
      intro Hin. right. rewrite forallb_forall in Hd. apply Hd. exact Hin. }
  repeat split; intro Hin; destruct (H _ Hin) as [E|E]; discriminate E.
Qed.

Lemma parseDigits_rejects (body : gostring) :
  forall acc c,
    In c body -> strconv.isDigit c = false ->
    strconv.parseDigits body acc = None.
Proof.
  induction body as [|d body IH]; intros acc c Hin Hc; [destruct Hin|].
  cbn [strconv.parseDigits]. destruct (strconv.isDigit d) eqn:Ed;
    [|reflexivity].
  destruct Hin as [->|Hin]; [congruence|]. eapply IH; eassumption.
Qed.

Lemma Atoi_rejects (t : gostring) :
  t = [] \/ (exists c, In c t /\ notNumeric c) -> strconv.Atoi t = None.
Proof.
  intros [->|(c & Hin & Hnot & Hminus & Hplus)]; [reflexivity|].
  assert (Hc : strconv.isDigit c = false).
  { unfold strconv.isDigit. change (byteval "0") with 48.
    change (byteval "9") with 57.
    destruct ((48 <=? byteval c) && (byteval c <=? 57)) eqn:E; [|reflexivity].
    apply andb_true_iff in E as [E1 E2]. apply Z.leb_le in E1, E2.
    exfalso. apply Hnot. lia. }
  destruct t as [|d t]; [destruct Hin|]. unfold strconv.Atoi.
  destruct (byte_eqb d "-" || byte_eqb d "+") eqn:Esign.
  - assert (Hin' : In c t).
    { destruct Hin as [->|Hin]; [|exact Hin]. exfalso.
      apply orb_true_iff in Esign as [E|E]; apply byte_eqb_eq in E;
        [exact (Hminus E)|exact (Hplus E)]. }
    destruct t as [|e t]; [reflexivity|].
    rewrite (parseDigits_rejects _ 0 c Hin' Hc). reflexivity.
  - rewrite (parseDigits_rejects _ 0 c Hin Hc). reflexivity.
Qed.

Lemma Atoi_out_of_range (n : Z) :
  ~ strconv.is_int n -> strconv.Atoi (strconv.Itoa n) = None.
Proof.
  intros Hout. unfold strconv.is_int in Hout.
  assert (Hno : (strconv.minInt <=? n) && (n <=? strconv.maxInt) = false).
  { destruct ((strconv.minInt <=? n) && (n <=? strconv.maxInt)) eqn:E;
      [|reflexivity].
    apply andb_true_iff in E as [E1 E2]. apply Z.leb_le in E1, E2.
    exfalso. apply Hout. split; assumption. }
  unfold strconv.Itoa. destruct (n <? 0) eqn:Hneg.
  - apply Z.ltb_lt in Hneg.
    destruct (formatUint_shape (- n)) as (d & rest & E & Hd); [lia|].
    unfold strconv.Atoi. rewrite byte_eqb_refl. cbn [orb].
    rewrite E. rewrite <- E. rewrite formatUint_parse by lia.
    rewrite Z.opp_involutive, Hno. reflexivity.
  - apply Z.ltb_ge in Hneg.
    destruct (formatUint_shape n) as (d & rest & E & Hd); [lia|].
    unfold strconv.Atoi. rewrite E.
    cbn [forallb] in Hd. apply andb_true_iff in Hd as [Hd _].
    destruct (isDigit_not_sign d Hd) as [-> ->]. cbn [orb].
    rewrite <- E. rewrite formatUint_parse by lia.
    rewrite Hno. reflexivity.
Qed.

Lemma Atoi_plus (n : Z) :
  0 <= n -> strconv.is_int n ->
  strconv.Atoi ("+"%char :: strconv.Itoa n) = Some n.
Proof.
  intros Hn [Hlo Hhi]. unfold strconv.Itoa.
  replace (n <? 0) with false by (symmetry; apply Z.ltb_ge; exact Hn).
  destruct (formatUint_shape n) as (d & rest & E & Hd); [lia|].
  unfold strconv.Atoi.
  change (byte_eqb "+" "-") with false. change (byte_eqb "+" "+") with true.
  cbn [orb]. rewrite E. rewrite <- E. rewrite formatUint_parse by lia.
  replace ((strconv.minInt <=? n) && (n <=? strconv.maxInt)) with true;
    [reflexivity|].
  symmetry. apply andb_true_iff. split; apply Z.leb_le; assumption.
Qed.

Lemma plus_Itoa_plain (n : Z) : plainField ("+"%char :: strconv.Itoa n).
Proof.
  destruct (Itoa_plain n) as (H1 & H2 & H3 & H4).
  repeat split; intros [E|Hin]; try discriminate E; auto.
Qed.

Lemma decode_plain (m f t fn p more : gostring) (s : Store) :
  Forall plainField [m; f; t; fn; p] ->
  more = [] \/ (exists after, more = csv.LF :: after) ->
  MetaErrorFromCSV (piped [m; f; t; fn; p] ++ more) s
  = match strconv.Atoi t with
    | None => Ok (nilptr, Some ErrNotMetaError, s)
    | Some line =>
        Ok (addr (List.length (heap s)), None,
            mkStore (mkMetaError (Some (errorString m)) f line fn p [] []
                       false :: heap s)
                    (writes s))
    end.
Proof.
  intros Hplain Hmore. unfold MetaErrorFromCSV.
  rewrite readRecord_plain;
    [|exact Hplain|apply piped_five|exact Hmore|apply fuelFor_enough].
  cbn [List.length Z.of_nat Pos.of_succ_nat Pos.succ Z.eqb Pos.eqb negb nth].
  destruct (strconv.Atoi t); reflexivity.
Qed.

Lemma bare_quote_rejected (a b : gostring) (s : Store) :
  a <> [] -> plainField a -> ~ In csv.LF b -> ~ In csv.CR b ->
  MetaErrorFromCSV (a ++ csv.quote :: b) s
  = Ok (nilptr, Some ErrNotMetaError, s).
Proof.
  intros Hne (HaC & HaQ & HaR & HaL) HbL HbR.
  set (text := a ++ csv.quote :: b).
  assert (Htext : text <> []) by (unfold text; destruct a; discriminate).
  assert (HnL : ~ In csv.LF text).
  { unfold text. intro Hin. apply in_app_or in Hin as [Hin|[Hin|Hin]];
      [exact (HaL Hin)|discriminate Hin|exact (HbL Hin)]. }
  assert (HnR : ~ In csv.CR text).
  { unfold text. intro Hin. apply in_app_or in Hin as [Hin|[Hin|Hin]];
      [exact (HaR Hin)|discriminate Hin|exact (HbR Hin)]. }
  assert (Hlen : 0 < len text).
  { destruct text as [|c t]; [contradiction|].
    rewrite len_cons. pose proof (len_nonneg t). lia. }
  assert (Hfield : exists b',
             (if 0 <=? strings.IndexByte text csv.Comma
              then sub text 0 (strings.IndexByte text csv.Comma)
              else sub text 0 (len text - csv.lengthNL text))
             = a ++ csv.quote :: b').
  { destruct (split_at_first b csv.Comma) as [Hn|(b1 & b2 & Hb & Hb1)].
    - exists b. rewrite IndexByte_missing.
      + change (0 <=? -1) with false. cbv iota.
        rewrite lengthNL_no_newline by exact HnL.
        rewrite Z.sub_0_r. apply sub_all.
      + unfold text. intro Hin. apply in_app_or in Hin as [Hin|[Hin|Hin]];
          [exact (HaC Hin)|discriminate Hin|exact (Hn Hin)].
    - exists b1. unfold text. rewrite Hb.
      replace (a ++ csv.quote :: b1 ++ csv.Comma :: b2)
        with ((a ++ csv.quote :: b1) ++ csv.Comma :: b2)
        by (rewrite <- app_assoc; reflexivity).
      rewrite IndexByte_found.
      + pose proof (len_nonneg (a ++ csv.quote :: b1)).
        replace (0 <=? len (a ++ csv.quote :: b1)) with true
          by (symmetry; apply Z.leb_le; lia).
        apply sub_app_left.
      + intro Hin. apply in_app_or in Hin as [Hin|[Hin|Hin]];
          [exact (HaC Hin)|discriminate Hin|exact (Hb1 Hin)]. }
  destruct Hfield as [b' Hfield].
  unfold MetaErrorFromCSV, csv.readRecord, csv.fuelFor.
  cbn [csv.firstLine].
  rewrite readLine_no_newline
    by (try exact Htext; try exact HnL; apply last_not_CR; assumption).
  rewrite lengthNL_no_newline by exact HnL.
  replace (len text =? 0) with false by (symmetry; apply Z.eqb_neq; lia).
  cbn [negb andb]. rewrite parseField_unfold.
  rewrite starts_unquoted.
  - cbv zeta. rewrite Hfield, (IndexByte_found a b' csv.quote HaQ).
    pose proof (len_nonneg a).
    replace (0 <=? len a) with true by (symmetry; apply Z.leb_le; lia).
    reflexivity.
  - right. unfold text. destruct a as [|c a]; [contradiction|].
    exists c, (a ++ csv.quote :: b). split; [reflexivity|].
    intros ->. apply HaQ. left. reflexivity.
Qed.

Lemma encoded_plain_or_quoted (fields encs : list gostring) :
  Forall2 encodes fields encs ->
  Forall (fun enc => plainField enc \/ In csv.quote enc) encs.
Proof.
  induction 1 as [|f enc fields encs Hf _ IH]; constructor;
    try exact IH.
  destruct Hf as [[Hp E]|E]; subst enc.
  - left. exact Hp.
  - right. left. reflexivity.
Qed.

Lemma piped_has (c : ascii) (enc : gostring) (encs : list gostring) :
  In enc encs -> In c enc -> In c (piped encs).
Proof.
  induction encs as [|e encs IH]; intros Hin Hc; [destruct Hin|].
  destruct encs as [|e2 encs].
  - destruct Hin as [->|[]]. exact Hc.
  - rewrite piped_cons. apply in_or_app. destruct Hin as [->|Hin].
    + left. exact Hc.
    + right. right. apply IH; assumption.
Qed.

(** C6, as stated, fails: a text that is no record, a valid line
    followed by a line of two fields, is accepted, and decoded as the
    first line alone would be. *)
Lemma text_after_the_record_is_not_checked :
  ~ recordText twoLines
  /\ MetaErrorFromCSV (str "x|y") emptyStore
     = Ok (nilptr, Some ErrNotMetaError, emptyStore)
  /\ MetaErrorFromCSV twoLines emptyStore
     = Ok (addr 0, None,
           mkStore [mkMetaError (Some (errorString (str "boom")))
                      (str "main.go") 10 (str "run") (str "app") [] []
                      false] []).
Proof.
  split; [|split; vm_compute; reflexivity].
  intros (fields & encs & _ & Henc & Htext).
  assert (HnoQ : ~ In csv.quote twoLines).
  { intro H. vm_compute in H.
    repeat (destruct H as [H|H]; [discriminate H|]). exact H. }
  assert (Hpiped : twoLines = piped encs).
  { destruct Htext as [E|[E|E]]; [exact E| |]; exfalso.
    - assert (L : last twoLines zero = csv.LF)
        by (rewrite E; apply last_last).
      vm_compute in L. discriminate L.
    - assert (L : last twoLines zero = csv.LF).
      { rewrite E.
        replace (piped encs ++ [csv.CR; csv.LF])
          with ((piped encs ++ [csv.CR]) ++ [csv.LF])
          by (rewrite <- app_assoc; reflexivity).
        apply last_last. }
      vm_compute in L. discriminate L. }
  assert (HnoLF : ~ In csv.LF (piped encs)).
  { apply piped_without; [discriminate|].
    pose proof (encoded_plain_or_quoted _ _ Henc) as Hall.
    rewrite Forall_forall in *. intros enc Hin.
    destruct (Hall enc Hin) as [Hp|Hq]; [apply Hp|].
    exfalso. apply HnoQ. rewrite Hpiped.
    eapply piped_has; eassumption. }
  apply HnoLF. rewrite <- Hpiped. vm_compute.
  do 23 right. left. reflexivity.
Qed.

(** C6, amended. [MetaErrorFromCSV] decides on the first record of its
    input, and does not look at what follows the line of that record.
    It never panics: it returns [ErrNotMetaError] with a nil pointer
    and the store untouched, or a new object built from the five
    fields of the first record, and the first exactly when the reader
    finds no record, a misplaced quote or a number of fields other than
    five, or [Atoi] rejects the third field.  Said without the reader:
    - five plain fields put together with the separator, the third the
      decimal text of an [int], are accepted, with or without further
      lines after them, and give an object with these fields;
    - the same holds of five fields as the writer encodes them, quoted
      where they need it, if no field holds a CR LF pair;
    - plain fields in a number other than five are rejected;
    - a plus sign may stand before the number;
    - five plain fields are rejected when the third is empty or holds
      a byte that is neither a digit nor a sign, and when it is the
      decimal text of a number outside of [int];
    - a quote inside a field that does not begin with one is rejected;
    - the empty input is rejected. *)
Theorem MetaErrorFromCSV_first_record_decides :
  (forall csvStr s,
      (Violation csvStr
       <-> MetaErrorFromCSV csvStr s = Ok (nilptr, Some ErrNotMetaError, s))
      /\ (Violation csvStr
          \/ exists msg file lineText func pkg line,
               csv.readRecord (csv.fuelFor csvStr) 5 csvStr
               = Some ([msg; file; lineText; func; pkg], None)
               /\ strconv.Atoi lineText = Some line
               /\ MetaErrorFromCSV csvStr s
                  = Ok (addr (List.length (heap s)), None,
                        mkStore (mkMetaError (Some (errorString msg)) file
                                   line func pkg [] [] false :: heap s)
                                (writes s))))
  /\ (forall m f fn p more line s,
        Forall plainField [m; f; fn; p] ->
        strconv.is_int line ->
        more = [] \/ (exists after, more = csv.LF :: after) ->
        MetaErrorFromCSV
          (m ++ str "|" ++ f ++ str "|" ++ strconv.Itoa line ++ str "|"
             ++ fn ++ str "|" ++ p ++ more) s
        = Ok (addr (List.length (heap s)), None,
              mkStore (mkMetaError (Some (errorString m)) f line fn p [] []
                         false :: heap s)
                      (writes s)))
  /\ (forall m f fn p more line s,
        Forall plainField [m; f; fn; p] ->
        0 <= line -> strconv.is_int line ->
        more = [] \/ (exists after, more = csv.LF :: after) ->
        MetaErrorFromCSV
          (m ++ str "|" ++ f ++ str "|" ++ (str "+" ++ strconv.Itoa line)
             ++ str "|" ++ fn ++ str "|" ++ p ++ more) s
        = Ok (addr (List.length (heap s)), None,
              mkStore (mkMetaError (Some (errorString m)) f line fn p [] []
                         false :: heap s)
                      (writes s)))
  /\ (forall m f fn p line s,
        Forall (fun x => noCRLF x = true) [m; f; fn; p] ->
        strconv.is_int line ->
        MetaErrorFromCSV
          (csv.writeFields 0 [m; f; strconv.Itoa line; fn; p]) s
        = Ok (addr (List.length (heap s)), None,
              mkStore (mkMetaError (Some (errorString m)) f line fn p [] []
                         false :: heap s)
                      (writes s)))
  /\ (forall fields more s,
        Forall plainField fields ->
        piped fields <> [] ->
        List.length fields <> 5%nat ->
        more = [] \/ (exists after, more = csv.LF :: after) ->
        MetaErrorFromCSV (piped fields ++ more) s
        = Ok (nilptr, Some ErrNotMetaError, s))
  /\ (forall m f t fn p more s,
        Forall plainField [m; f; t; fn; p] ->
        t = [] \/ (exists c, In c t /\ notNumeric c) ->
        more = [] \/ (exists after, more = csv.LF :: after) ->
        MetaErrorFromCSV
          (m ++ str "|" ++ f ++ str "|" ++ t ++ str "|" ++ fn ++ str "|"
             ++ p ++ more) s
        = Ok (nilptr, Some ErrNotMetaError, s))
  /\ (forall m f fn p more n s,
        Forall plainField [m; f; fn; p] ->
        ~ strconv.is_int n ->
        more = [] \/ (exists after, more = csv.LF :: after) ->
        MetaErrorFromCSV
          (m ++ str "|" ++ f ++ str "|" ++ strconv.Itoa n ++ str "|"
             ++ fn ++ str "|" ++ p ++ more) s
        = Ok (nilptr, Some ErrNotMetaError, s))
  /\ (forall a b s,
        a <> [] -> plainField a -> ~ In csv.LF b -> ~ In csv.CR b ->
        MetaErrorFromCSV (a ++ csv.quote :: b) s
        = Ok (nilptr, Some ErrNotMetaError, s))
  /\ (forall s,
        MetaErrorFromCSV [] s = Ok (nilptr, Some ErrNotMetaError, s)).
Proof.
  assert (Hshape : forall m f t fn p more,
             m ++ str "|" ++ f ++ str "|" ++ t ++ str "|" ++ fn ++ str "|"
               ++ p ++ more
             = piped [m; f; t; fn; p] ++ more).
  { intros. cbn [piped]. change (str "|") with [csv.Comma].
    repeat (rewrite <- app_assoc; cbn [app]). reflexivity. }
  assert (Hfields : forall m f t fn p,
             Forall plainField [m; f; fn; p] -> plainField t ->
             Forall plainField [m; f; t; fn; p]).
  { intros m f t fn p Hplain Ht.
    inversion Hplain as [|? ? Hm H1]; subst.
    inversion H1 as [|? ? Hf H2]; subst.
    constructor; [exact Hm|]. constructor; [exact Hf|].
    constructor; [exact Ht|exact H2]. }
  split; [|split; [|split; [|split; [|split; [|split; [|split; [|split]]]]]]].
  - intros csvStr s.
    destruct (MetaErrorFromCSV_cases csvStr s)
      as [[Hv Hr]|[Hv (msg & file & lt & fn & pkg & line & Hrec & Hl & Hr)]].
    + split; [tauto|left; exact Hv].
    + split.
      * split; [contradiction|]. rewrite Hr. discriminate.
      * right. exists msg, file, lt, fn, pkg, line. auto.
  - intros m f fn p more line s Hplain Hint Hmore.
    rewrite Hshape, decode_plain.
    + rewrite Atoi_Itoa by exact Hint. reflexivity.
    + apply Hfields; [exact Hplain|apply Itoa_plain].
    + exact Hmore.
  - intros m f fn p more line s Hplain Hpos Hint Hmore.
    rewrite Hshape, decode_plain.
    + change (str "+" ++ strconv.Itoa line)
        with ("+"%char :: strconv.Itoa line).
      rewrite Atoi_plus by assumption. reflexivity.
    + apply Hfields; [exact Hplain|apply plus_Itoa_plain].
    + exact Hmore.
  - intros m f fn p line s Hplain Hint. unfold MetaErrorFromCSV.
    rewrite readRecord_written.
    + cbn [List.length Z.of_nat Pos.of_succ_nat Pos.succ Z.eqb Pos.eqb negb
             nth].
      rewrite Atoi_Itoa by exact Hint. reflexivity.
    + apply plainLines_written.
      inversion Hplain as [|? ? Hm H1]; subst.
      inversion H1 as [|? ? Hf H2]; subst.
      constructor; [exact Hm|]. constructor; [exact Hf|].
      constructor; [apply noCRLF_Itoa|exact H2].
    + unfold csv.fuelFor. lia.
  - intros fields more s Hplain Hne Hcount Hmore.
    destruct fields as [|f rest]; [contradiction Hne; reflexivity|].
    unfold MetaErrorFromCSV.
    rewrite readRecord_plain;
      [|exact Hplain|exact Hne|exact Hmore|apply fuelFor_enough].
    replace (Z.of_nat (List.length (f :: rest)) =? 5) with false
      by (symmetry; apply Z.eqb_neq; lia).
    reflexivity.
  - intros m f t fn p more s Hplain Ht Hmore.
    rewrite Hshape, decode_plain by assumption.
    rewrite (Atoi_rejects t Ht). reflexivity.
  - intros m f fn p more n s Hplain Hout Hmore.
    rewrite Hshape, decode_plain.
    + rewrite Atoi_out_of_range by exact Hout. reflexivity.
    + apply Hfields; [exact Hplain|apply Itoa_plain].
    + exact Hmore.
  - intros a b s. apply bare_quote_rejected.
  - intro s. reflexivity.
Qed.

Lemma MetaErrorFromCSV_first_record_decides_witness :
  MetaErrorFromCSV
    (str "boom" ++ str "|" ++ str "main.go" ++ str "|" ++ strconv.Itoa 10
       ++ str "|" ++ str "run" ++ str "|" ++ str "app"
       ++ csv.LF :: str "x|y") emptyStore
  = Ok (addr (List.length (heap emptyStore)), None,
        mkStore (mkMetaError (Some (errorString (str "boom")))
                   (str "main.go") 10 (str "run") (str "app") [] [] false
                   :: heap emptyStore)
                (writes emptyStore)).
Proof.
  destruct MetaErrorFromCSV_first_record_decides as (_ & H & _).
  apply (H (str "boom") (str "main.go") (str "run") (str "app")
           (csv.LF :: str "x|y") 10 emptyStore).
  - repeat (apply Forall_cons || apply Forall_nil); repeat split;
      intro Hin; repeat (destruct Hin as [Hin|Hin]; [discriminate Hin|]);
      exact Hin.
  - unfold strconv.is_int, strconv.minInt, strconv.maxInt. cbn. lia.
  - right. eexists. reflexivity.
Defined.

End FirstRecord.
